(** * p5.grain: a shallow embedding of the [P5Grain] class

    The development follows [p5.grain.js] (class [P5Grain], version 0.8.0).
    JavaScript numbers are binary64 floating-point numbers.  A finite one is
    a rational, and the model keeps it as such; the results of [+], [-] and
    [*] are rounded to the nearest number of the format, ties to the even
    significand, as the language prescribes.  [Math.floor], [Math.ceil],
    [Math.trunc], [Math.round], [Math.min], [Math.max], negation, the
    comparisons and the 32-bit integer operators are exact on such numbers
    and are given their mathematical meaning.  The exponent of the format is
    bounded below (gradual underflow is modelled) but not above: [NaN], the
    infinities and the sign of zero are outside the model, and so are the
    computations that overflow.  The two frame counters and the two stored
    offsets only ever hold whole numbers and are kept as integers; a counter
    is incremented exactly, as the code does below [2^53].

    The host (p5.js) is modelled by a world holding the surfaces with their
    pixel stores, the number of draws already taken from the random source,
    the trace of host primitives called so far, and an oracle telling which
    host call raises. *)

From Stdlib Require Import ZArith QArith Qround Qminmax Qpower Qabs List Lia Lqa Bool String.
Import ListNotations.

(** ** JavaScript numbers and operators *)

Module JS.

Definition number := Q.

(** *** Rounding to binary64

    [pow2 k] is [2^k].  The binade of a positive number [x] is the [e] with
    [2^e <= x < 2^(e+1)]; the numbers of the format in that binade are the
    multiples of [2^(e-52)], and below [2^-1022] the multiples of
    [2^-1074]. *)
Definition pow2 (k : Z) : Q := Qpower 2 k.

Definition binade (x : Q) : Z :=
  let e := (Z.log2 (Qnum x) - Z.log2 (Zpos (Qden x)))%Z in
  if Qle_bool (pow2 e) x then e else (e - 1)%Z.

(** The nearest integer, a tie going to the even one. *)
Definition rne (t : Q) : Z :=
  let f := Qfloor t in
  match Qcompare (t - inject_Z f) (1 # 2) with
  | Lt => f
  | Gt => (f + 1)%Z
  | Eq => if Z.even f then f else (f + 1)%Z
  end.

Definition quantum (x : Q) : Z := Z.max (binade x - 52) (-1074).

Definition round_pos (x : Q) : Q :=
  inject_Z (rne (x / pow2 (quantum x))) * pow2 (quantum x).

(** The number of the format nearest to [x], in lowest terms. *)
Definition fl (x : Q) : Q :=
  match Qnum x with
  | Z0 => 0
  | Zpos _ => Qred (round_pos x)
  | Zneg _ => Qred (- round_pos (- x))
  end.

Definition is_double (x : Q) : bool := Qeq_bool (fl x) x.

(** A value of the format, as a host function returns it. *)
Record double := mkDouble {
  dval :> Q;
  double_ok : is_double dval = true
}.

(** The operators [+], [-] and [*]. *)
Definition fadd (x y : Q) : Q := fl (x + y).
Definition fsub (x y : Q) : Q := fl (x - y).
Definition fmul (x y : Q) : Q := fl (x * y).

Definition ltb (x y : number) : bool := negb (Qle_bool y x).   (* x < y  *)
Definition geb (x y : number) : bool := Qle_bool y x.          (* x >= y *)

(** JavaScript truthiness of a number: every number but 0 (and NaN). *)
Definition truthy (x : number) : bool := negb (Qeq_bool x 0).

Definition floorZ (x : number) : Z := Qfloor x.
Definition ceilZ (x : number) : Z := Qceiling x.
(** Rounding toward zero. *)
Definition truncZ (x : number) : Z :=
  if Qle_bool 0 x then Qfloor x else Qceiling x.

Definition Math_floor (x : number) : number := inject_Z (floorZ x).
Definition Math_ceil (x : number) : number := inject_Z (ceilZ x).
Definition Math_trunc (x : number) : number := inject_Z (truncZ x).
(** [Math.round] rounds half-way cases toward plus infinity. *)
Definition Math_round (x : number) : number := inject_Z (Qfloor (x + (1 # 2))).
Definition Math_min (x y : number) : number := Qmin x y.
Definition Math_max (x y : number) : number := Qmax x y.

(** The abstract operations ToInt32 and ToUint32 of the language: truncate,
    then wrap modulo [2^32] into the signed or the unsigned range. *)
Definition wrapU32 (z : Z) : Z := (z mod 2 ^ 32)%Z.
Definition wrapS32 (z : Z) : Z :=
  let u := wrapU32 z in if (u <? 2 ^ 31)%Z then u else (u - 2 ^ 32)%Z.
Definition ToInt32 (x : number) : Z := wrapS32 (truncZ x).
Definition ToUint32 (x : number) : Z := wrapU32 (truncZ x).

(** The operators [&], [|], [<<] and [>>]: both operands go through
    ToInt32 (the shift count through ToUint32, masked to five bits) and the
    result is a signed 32-bit integer. *)
Definition bitand (x y : number) : number :=
  inject_Z (Z.land (ToInt32 x) (ToInt32 y)).
Definition bitor (x y : number) : number :=
  inject_Z (Z.lor (ToInt32 x) (ToInt32 y)).
Definition shl (x y : number) : number :=
  inject_Z (wrapS32 (Z.shiftl (ToInt32 x) (ToUint32 y mod 32))).
Definition sar (x y : number) : number :=
  inject_Z (Z.shiftr (ToInt32 x) (ToUint32 y mod 32)).

End JS.

Import JS.

(** ** The host: surfaces, primitives, trace *)

(** A surface exposes its dimensions and, once loaded, its pixel store.  The
    store is kept as the [Uint32Array] view the library takes of it: one
    32-bit word per pixel. *)
Record surface := mkSurface {
  s_width : number;
  s_height : number;
  s_density : number;
  s_pixels : list Z
}.

(** The optional [pg] argument: an offscreen graphics buffer
    ([pg instanceof p5.Graphics]) or another object such as a [p5.Image]. *)
Inductive pgRef :=
| Graphics (id : nat)
| Image (id : nat).

Definition isGraphics (p : pgRef) : bool :=
  match p with Graphics _ => true | Image _ => false end.

(** The object a host primitive is invoked on: the global p5 functions, the
    configured p5 instance, or the [pg] argument. *)
Inductive receiver :=
| OnGlobal
| OnInstance
| OnPg (p : pgRef).

Definition pgRef_eqb (p q : pgRef) : bool :=
  match p, q with
  | Graphics i, Graphics j => Nat.eqb i j
  | Image i, Image j => Nat.eqb i j
  | _, _ => false
  end.

Definition receiver_eqb (a b : receiver) : bool :=
  match a, b with
  | OnGlobal, OnGlobal => true
  | OnInstance, OnInstance => true
  | OnPg p, OnPg q => pgRef_eqb p q
  | _, _ => false
  end.

Inductive blend :=
| BLEND | DARKEST | LIGHTEST | DIFFERENCE | MULTIPLY | EXCLUSION | SCREEN
| REPLACE | OVERLAY | HARD_LIGHT | SOFT_LIGHT | DODGE | BURN | ADD.

(** A texture image: only its dimensions are read. *)
Record texture := mkTexture {
  tex_id : nat;
  tex_width : number;
  tex_height : number
}.

(** Host primitives, as they are recorded in the trace. *)
Inductive event :=
| EvLoadPixels (c : receiver)
| EvUpdatePixels (c : receiver)
| EvBlendMode (c : receiver) (m : blend)
| EvPush (c : receiver)
| EvPop (c : receiver)
| EvScale (c : receiver) (sx sy : number)
| EvImage (c : receiver) (img : texture) (x y w h : number)
| EvReset (c : receiver)
| EvCallback (index total : number).

(** A random source: the value returned by its k-th call. *)
Definition source := nat -> double.

Record world := mkWorld {
  surfaces : receiver -> surface;
  draws : nat;
  trace : list event;
  raises : list event -> event -> bool;
  (** p5's global [random] and the [random] of the p5 instance. *)
  global_random : source;
  instance_random : source
}.

(** ** The [P5Grain] object *)

Inductive instanceRef := inst_undefined | inst_null | inst_p5.

(** The two private methods [#randomMinMax] can be bound to. *)
Inductive randomMethod := randomInt_method | randomFloat_method.

Record P5Grain := mkP5Grain {
  instance : instanceRef;
  random : option source;
  randomMinMax : option randomMethod;
  randomMode : option Z;
  (** [#pixels] is a view of a surface's store, not a copy. *)
  pixels : option receiver;
  pixelsCount : option number;
  contextWidth : option number;
  contextHeight : option number;
  contextDensity : option number;
  textureAnimate_frameCount : Z;
  textureOverlay_frameCount : Z;
  textureOverlay_tX : Z;
  textureOverlay_tY : Z
}.

Record state := mkState {
  self : P5Grain;
  host : world
}.

(** ** A state and exception monad with a third outcome for loops that have
       not finished within the fuel they were given *)

Inductive error := TypeError | HostError.

Inductive outcome (A : Type) :=
| Ret (a : A) (s : state)
| Throw (e : error) (s : state)
| Timeout.

Arguments Ret {A} a s.
Arguments Throw {A} e s.
Arguments Timeout {A}.

Definition M (A : Type) := state -> outcome A.

Definition ret {A} (a : A) : M A := fun s => Ret a s.
Definition throw {A} (e : error) : M A := fun s => Throw e s.
Definition timeout {A} : M A := fun _ => Timeout.
Definition bind {A B} (m : M A) (k : A -> M B) : M B :=
  fun s => match m s with
           | Ret a s' => k a s'
           | Throw e s' => Throw e s'
           | Timeout => Timeout
           end.

Declare Scope monad_scope.
Delimit Scope monad_scope with monad.
Notation "x <- m ;; k" := (bind m (fun x => k))
  (at level 61, m at next level, right associativity) : monad_scope.
Notation "m ;; k" := (bind m (fun _ => k))
  (at level 61, right associativity) : monad_scope.
Local Open Scope monad_scope.

Definition get_self : M P5Grain := fun s => Ret (self s) s.
Definition set_self (f : P5Grain -> P5Grain) : M unit :=
  fun s => Ret tt (mkState (f (self s)) (host s)).
Definition get_host : M world := fun s => Ret (host s) s.
Definition set_host (f : world -> world) : M unit :=
  fun s => Ret tt (mkState (self s) (f (host s))).

(** Calling a host primitive: it raises when the oracle says so, otherwise
    it is appended to the trace. *)
Definition call (e : event) : M unit :=
  fun s =>
    let w := host s in
    if raises w (trace w) e then Throw HostError s
    else Ret tt (mkState (self s)
                   (mkWorld (surfaces w) (draws w) (trace w ++ [e]) (raises w)
                      (global_random w) (instance_random w))).

(** ** Random provider *)

Definition with_randomMode (mode : Z) (f : randomMethod) (o : P5Grain) : P5Grain :=
  mkP5Grain (instance o) (random o) (Some f) (Some mode)
    (pixels o) (pixelsCount o) (contextWidth o) (contextHeight o)
    (contextDensity o) (textureAnimate_frameCount o)
    (textureOverlay_frameCount o) (textureOverlay_tX o) (textureOverlay_tY o).

(** [#prepareRandomMode(mode)]: a [switch] on the mode string whose
    [default] branch does nothing. *)
Definition prepareRandomMode (mode : string) : M unit :=
  if String.eqb mode "int" then set_self (with_randomMode 1 randomInt_method)
  else if String.eqb mode "float" then set_self (with_randomMode 0 randomFloat_method)
  else ret tt.

(** The field initialisers of the class, before the constructor body runs. *)
Definition fields_init : P5Grain :=
  mkP5Grain inst_undefined None None None None None None None None 0 0 0 0.

(** [constructor()]: [this.#prepareRandomMode('float')]. *)
Definition constructor : M unit := prepareRandomMode "float".

(** The [config] argument of [setup] when its [typeof] is ['object']: an
    object, or [null].  A field of the object is [None] when the [typeof]
    test of the source rejects it; [sc_instance] is [inst_null] for [null]
    (whose [typeof] is ['object']) and [inst_undefined] when absent. *)
Inductive setupConfig :=
| mkSetup (sc_random : option source) (sc_randomMode : option string)
    (sc_instance : instanceRef)
| config_null.

Definition with_random (src : source) (o : P5Grain) : P5Grain :=
  mkP5Grain (instance o) (Some src) (randomMinMax o) (randomMode o)
    (pixels o) (pixelsCount o) (contextWidth o) (contextHeight o)
    (contextDensity o) (textureAnimate_frameCount o)
    (textureOverlay_frameCount o) (textureOverlay_tX o) (textureOverlay_tY o).

Definition with_instance (i : instanceRef) (o : P5Grain) : P5Grain :=
  mkP5Grain i (random o) (randomMinMax o) (randomMode o)
    (pixels o) (pixelsCount o) (contextWidth o) (contextHeight o)
    (contextDensity o) (textureAnimate_frameCount o)
    (textureOverlay_frameCount o) (textureOverlay_tX o) (textureOverlay_tY o).

(** [setup(config)].  [None] is a [config] whose [typeof] is not
    ['object'].  Reading [config.random] of [null] is a [TypeError]. *)
Definition setup (config : option setupConfig) : M unit :=
  match config with
  | Some (mkSetup sc_random sc_randomMode sc_instance) =>
      match sc_random with
      | Some f => set_self (with_random f)
      | None => ret tt
      end ;;
      match sc_randomMode with
      | Some mode => prepareRandomMode mode
      | None => ret tt
      end ;;
      match sc_instance with
      | inst_undefined => ret tt
      | inst_null => set_self (with_instance inst_null)
      | inst_p5 =>
          set_self (with_instance inst_p5) ;;
          w <- get_host ;;
          set_self (with_random (instance_random w))
      end
  | Some config_null => throw TypeError
  | None => ret tt
  end ;;
  o <- get_self ;;
  w <- get_host ;;
  if match random o with None => true | Some _ => false end
     || match instance o with inst_null => true | _ => false end
  then set_self (with_random (global_random w))
  else ret tt.

(** [this.#random()]: the next value of the configured source; calling it
    while [#random] is still undefined is a [TypeError]. *)
Definition call_random : M number :=
  fun s =>
    match random (self s) with
    | None => Throw TypeError s
    | Some src =>
        let w := host s in
        Ret (dval (src (draws w)))
            (mkState (self s)
               (mkWorld (surfaces w) (S (draws w)) (trace w) (raises w)
                  (global_random w) (instance_random w)))
    end.

(** [#prepareRandomBounds(min, max)] *)
Definition prepareRandomBounds (min max : number) : M (number * number) :=
  o <- get_self ;;
  if match randomMode o with Some m => Z.eqb m 1 | None => false end
  then ret (Math_ceil min, Math_floor max)
  else ret (min, max).

(** [#randomInt(min, max)] *)
Definition randomInt (min max : number) : M number :=
  r <- call_random ;;
  ret (Math_floor (fadd (fmul r (fadd (fsub max min) 1)) min)).

(** [#randomFloat(min, max)] *)
Definition randomFloat (min max : number) : M number :=
  r <- call_random ;;
  ret (fadd (fmul r (fsub max min)) min).

(** [this.#randomMinMax(min, max)]: a call through the field. *)
Definition call_randomMinMax (min max : number) : M number :=
  o <- get_self ;;
  match randomMinMax o with
  | Some randomInt_method => randomInt min max
  | Some randomFloat_method => randomFloat min max
  | None => throw TypeError
  end.

(** ** Pixel buffer access *)

Definition instance_truthy (o : P5Grain) : bool :=
  match instance o with inst_p5 => true | _ => false end.

(** The surface that [if (pg) ... else if (this.#instance) ... else ...]
    selects. *)
Definition resolve (pg : option pgRef) (o : P5Grain) : receiver :=
  match pg with
  | Some p => OnPg p
  | None => if instance_truthy o then OnInstance else OnGlobal
  end.

Definition with_pixelsData (c : receiver) (w h d : number) (o : P5Grain) : P5Grain :=
  mkP5Grain (instance o) (random o) (randomMinMax o) (randomMode o)
    (Some c) (Some (fmul w h)) (Some w) (Some h) (Some d)
    (textureAnimate_frameCount o)
    (textureOverlay_frameCount o) (textureOverlay_tX o) (textureOverlay_tY o).

(** The local function [setPixelsData(buffer, width, height, density)]. *)
Definition setPixelsData (c : receiver) (w h d : number) : M unit :=
  set_self (with_pixelsData c w h d).

(** [#loadPixels(pg)] *)
Definition loadPixels (pg : option pgRef) : M unit :=
  o <- get_self ;;
  let c := resolve pg o in
  call (EvLoadPixels c) ;;
  w <- get_host ;;
  let sf := surfaces w c in
  setPixelsData c (s_width sf) (s_height sf) (s_density sf).

(** [#updatePixels(pg)] *)
Definition updatePixels (pg : option pgRef) : M unit :=
  o <- get_self ;;
  call (EvUpdatePixels (resolve pg o)).

(** A typed array ignores a write past its end. *)
Fixpoint store_at (i : nat) (v : Z) (l : list Z) : list Z :=
  match l, i with
  | [], _ => []
  | _ :: l', O => v :: l'
  | x :: l', S i' => x :: store_at i' v l'
  end.

Definition with_surface (c : receiver) (sf : surface) (w : world) : world :=
  mkWorld (fun c' => if receiver_eqb c' c then sf else surfaces w c')
    (draws w) (trace w) (raises w) (global_random w) (instance_random w).

(** [pixels.length], [pixels[i]] and [pixels[i] = v] through the view held
    in [#pixels]. *)
Definition pixels_length : M nat :=
  fun s =>
    match pixels (self s) with
    | None => Throw TypeError s
    | Some c => Ret (List.length (s_pixels (surfaces (host s) c))) s
    end.

Definition read_pixel (i : nat) : M number :=
  fun s =>
    match pixels (self s) with
    | None => Throw TypeError s
    | Some c => Ret (inject_Z (nth i (s_pixels (surfaces (host s) c)) 0%Z)) s
    end.

Definition write_pixel (i : nat) (v : number) : M unit :=
  fun s =>
    match pixels (self s) with
    | None => Throw TypeError s
    | Some c =>
        let sf := surfaces (host s) c in
        let sf' := mkSurface (s_width sf) (s_height sf) (s_density sf)
                     (store_at i (ToUint32 v) (s_pixels sf)) in
        Ret tt (mkState (self s) (with_surface c sf' (host s)))
    end.

(** [for (let i = start; i < start + count; i++) body(i)] *)
Fixpoint for_loop (body : nat -> M unit) (i count : nat) : M unit :=
  match count with
  | O => ret tt
  | S count' => body i ;; for_loop body (S i) count'
  end.

(** ** Grain *)

Definition to_bool (b : option bool) : bool :=
  match b with Some true => true | _ => false end.

Definition clamp (v : number) : number := Math_max 0 (Math_min 255 v).

Definition pack (r g b a : number) : number :=
  bitor (bitor (bitor (shl a 24) (shl b 16)) (shl g 8)) r.

Definition red (p : number) : number := bitand p 255.
Definition green (p : number) : number := bitand (sar p 8) 255.
Definition blue (p : number) : number := bitand (sar p 16) 255.
Definition alpha (p : number) : number := bitand (sar p 24) 255.

(** The body of the loop of [applyMonochromaticGrain]. *)
Definition monochromatic_body (min max : number) (shouldUpdateAlpha : bool)
    (i : nat) : M unit :=
  offset <- call_randomMinMax min max ;;
  p <- read_pixel i ;;
  let r := red p in
  let g := green p in
  let b := blue p in
  let a := alpha p in
  let r := clamp (fadd r offset) in
  let g := clamp (fadd g offset) in
  let b := clamp (fadd b offset) in
  let a := if shouldUpdateAlpha then clamp (fadd a offset) else a in
  write_pixel i (pack r g b a).

(** [applyMonochromaticGrain(amount, shouldUpdateAlpha, pg)] *)
Definition applyMonochromaticGrain (amount : number)
    (shouldUpdateAlpha : option bool) (pg : option pgRef) : M unit :=
  let shouldUpdateAlpha := to_bool shouldUpdateAlpha in
  loadPixels pg ;;
  bounds <- prepareRandomBounds (- amount) amount ;;
  let '(min, max) := bounds in
  pixelsLength <- pixels_length ;;
  for_loop (monochromatic_body min max shouldUpdateAlpha) 0 pixelsLength ;;
  updatePixels pg.

(** The body of the loop of [applyChromaticGrain]. *)
Definition chromatic_body (min max : number) (shouldUpdateAlpha : bool)
    (i : nat) : M unit :=
  p <- read_pixel i ;;
  let r := red p in
  let g := green p in
  let b := blue p in
  let a := alpha p in
  dr <- call_randomMinMax min max ;;
  let r := clamp (fadd r dr) in
  dg <- call_randomMinMax min max ;;
  let g := clamp (fadd g dg) in
  db <- call_randomMinMax min max ;;
  let b := clamp (fadd b db) in
  if shouldUpdateAlpha then
    da <- call_randomMinMax min max ;;
    let a := clamp (fadd a da) in
    write_pixel i (pack r g b a)
  else
    write_pixel i (pack r g b a).

(** [applyChromaticGrain(amount, shouldUpdateAlpha, pg)] *)
Definition applyChromaticGrain (amount : number)
    (shouldUpdateAlpha : option bool) (pg : option pgRef) : M unit :=
  let shouldUpdateAlpha := to_bool shouldUpdateAlpha in
  loadPixels pg ;;
  bounds <- prepareRandomBounds (- amount) amount ;;
  let '(min, max) := bounds in
  pixelsLength <- pixels_length ;;
  for_loop (chromatic_body min max shouldUpdateAlpha) 0 pixelsLength ;;
  updatePixels pg.

(** ** Pixel iteration *)

(** A caller-supplied callback is arbitrary code: it may touch the world,
    raise, or call host primitives.  Each invocation is recorded in the
    trace before the callback runs. *)
Definition callback := number -> number -> M unit.

Definition invoke (cb : callback) (index total : number) : M unit :=
  call (EvCallback index total) ;; cb index total.

(** [for (let i = start; i < total; i += channels) callback(i, total)] *)
Fixpoint tinker_loop (fuel : nat) (cb : callback) (channels total i : number)
    : M unit :=
  match fuel with
  | O => timeout
  | S fuel' =>
      if ltb i total then
        invoke cb i total ;;
        tinker_loop fuel' cb channels total (fadd i channels)
      else ret tt
  end.

(** [shouldUpdate !== false] *)
Definition not_false (b : option bool) : bool :=
  match b with Some false => false | _ => true end.

(** [tinkerPixels(callback, shouldUpdate, pg)] *)
Definition tinkerPixels (fuel : nat) (cb : callback)
    (shouldUpdate : option bool) (pg : option pgRef) : M unit :=
  let shouldUpdate := not_false shouldUpdate in
  o <- get_self ;;
  let c := resolve pg o in
  call (EvLoadPixels c) ;;
  w <- get_host ;;
  let density := s_density (surfaces w c) in
  let _width := s_width (surfaces w c) in
  let _height := s_height (surfaces w c) in
  let channels := 4 in
  let total := fmul (fmul channels (fmul _width density)) (fmul _height density) in
  tinker_loop fuel cb channels total 0 ;;
  if shouldUpdate then updatePixels pg else ret tt.

(** [loopPixels(callback, pg)] *)
Definition loopPixels (fuel : nat) (cb : callback) (pg : option pgRef) : M unit :=
  tinkerPixels fuel cb (Some false) pg.

(** ** Texture overlay *)

Record animateConfig := mkAnimate {
  atFrame : option number;
  amount : option number
}.

(** The [config] object of [textureOverlay].  [cfg_animate = Some a] stands
    for a truthy [config.animate]: the literal [true] is [Some] of a record
    with both fields absent. *)
Record overlayConfig := mkOverlay {
  cfg_width : option number;
  cfg_height : option number;
  cfg_mode : option blend;
  cfg_reflect : bool;
  cfg_animate : option animateConfig
}.

(** The local variables of the tiling loop. *)
Record cursor := mkCursor {
  tX : number;
  tY : number;
  tRowFirst : bool;
  tColFirst : bool
}.

Definition with_overlay (fc x y : Z) (o : P5Grain) : P5Grain :=
  mkP5Grain (instance o) (random o) (randomMinMax o) (randomMode o)
    (pixels o) (pixelsCount o) (contextWidth o) (contextHeight o)
    (contextDensity o) (textureAnimate_frameCount o) fc x y.

(** [config && config.animate && config.animate.atFrame
       ? Math.round(config.animate.atFrame) : 2] *)
Definition animateAtFrame (config : option overlayConfig) : number :=
  match config with
  | Some cfg =>
      match cfg_animate cfg with
      | Some a =>
          match atFrame a with
          | Some f => if truthy f then Math_round f else 2
          | None => 2
          end
      | None => 2
      end
  | None => 2
  end.

(** [config && config.animate && config.animate.amount
       ? Math.round(config.animate.amount) : Math.min(_width, _height)] *)
Definition animateAmount (config : option overlayConfig) (_width _height : number)
    : number :=
  let default := Math_min _width _height in
  match config with
  | Some cfg =>
      match cfg_animate cfg with
      | Some a =>
          match amount a with
          | Some m => if truthy m then Math_round m else default
          | None => default
          end
      | None => default
      end
  | None => default
  end.

Definition animate_enabled (config : option overlayConfig) : bool :=
  match config with
  | Some cfg => match cfg_animate cfg with Some _ => true | None => false end
  | None => false
  end.

(** The block guarded by [if (_animate)]. *)
Definition overlay_animate (_animate : bool) (_animateAtFrame _animateAmount : number)
    : M unit :=
  if _animate then
    set_self (fun o => with_overlay (textureOverlay_frameCount o + 1)
                         (textureOverlay_tX o) (textureOverlay_tY o) o) ;;
    o <- get_self ;;
    if geb (inject_Z (textureOverlay_frameCount o)) _animateAtFrame then
      r1 <- call_random ;;
      let tX_rand := fmul r1 _animateAmount in
      r2 <- call_random ;;
      let tY_rand := fmul r2 _animateAmount in
      set_self (fun o => with_overlay (textureOverlay_frameCount o)
                           (- truncZ tX_rand) (textureOverlay_tY o) o) ;;
      set_self (fun o => with_overlay (textureOverlay_frameCount o)
                           (textureOverlay_tX o) (- truncZ tY_rand) o) ;;
      set_self (fun o => with_overlay 0
                           (textureOverlay_tX o) (textureOverlay_tY o) o)
    else ret tt
  else ret tt.

Section Tiling.

Variable dr : receiver.          (* the object the tiles are drawn on *)
Variable textureImage : texture.
Variable _reflect : bool.
Variables _width _height tW tH : number.

(** One pass through the body of the inner loop, up to the drawing of the
    tile. *)
Definition draw_tile (c : cursor) : M unit :=
  if _reflect then
    call (EvPush dr) ;;
    (if tRowFirst c then
       if tColFirst c then
         call (EvImage dr textureImage (tX c) (tY c) tW tH)
       else
         call (EvScale dr (-1) 1) ;;
         call (EvImage dr textureImage (- tX c) (tY c) (- tW) tH)
     else
       if tColFirst c then
         call (EvScale dr 1 (-1)) ;;
         call (EvImage dr textureImage (tX c) (- tY c) tW (- tH))
       else
         call (EvScale dr (-1) (-1)) ;;
         call (EvImage dr textureImage (- tX c) (- tY c) (- tW) (- tH))) ;;
    call (EvPop dr)
  else
    call (EvImage dr textureImage (tX c) (tY c) tW tH).

(** [while (tX < _width) { ... }], left either by its condition or by the
    [break] that starts the next row. *)
Fixpoint inner_while (fuel : nat) (c : cursor) : M cursor :=
  match fuel with
  | O => timeout
  | S fuel' =>
      if ltb (tX c) _width then
        draw_tile c ;;
        let tX' := fadd (tX c) tW in
        if geb tX' _width then
          o <- get_self ;;
          ret (mkCursor (inject_Z (textureOverlay_tX o)) (fadd (tY c) tH)
                 (tRowFirst c) true)
        else
          inner_while fuel' (mkCursor tX' (tY c) (tRowFirst c)
                               (negb (tColFirst c)))
      else ret c
  end.

(** [while (tY < _height) { while (tX < _width) {...} tRowFirst = !tRowFirst; }] *)
Fixpoint outer_while (fuel : nat) (c : cursor) : M cursor :=
  match fuel with
  | O => timeout
  | S fuel' =>
      if ltb (tY c) _height then
        c' <- inner_while fuel' c ;;
        outer_while fuel' (mkCursor (tX c') (tY c') (negb (tRowFirst c'))
                             (tColFirst c'))
      else ret c
  end.

End Tiling.

(** [const isGraphicsBuffer = pg instanceof p5.Graphics] *)
Definition isGraphicsBuffer (pg : option pgRef) : bool :=
  match pg with Some p => isGraphics p | None => false end.

(** The object whose [width] and [height] are read and on which the tiles
    are drawn: [pg] when it is a graphics buffer, otherwise the instance or
    the global canvas. *)
Definition overlay_target (pg : option pgRef) (o : P5Grain) : receiver :=
  if isGraphicsBuffer pg then resolve pg o else resolve None o.

(** [config && config.mode ? config.mode : MULTIPLY] *)
Definition overlay_mode (config : option overlayConfig) : blend :=
  match config with
  | Some cfg => match cfg_mode cfg with Some m => m | None => MULTIPLY end
  | None => MULTIPLY
  end.

(** [config && config.reflect ? config.reflect : false] *)
Definition overlay_reflect (config : option overlayConfig) : bool :=
  match config with Some cfg => cfg_reflect cfg | None => false end.

(** [config && typeof config.width === 'number' ? config.width
                                                  : textureImage.width] *)
Definition overlay_tW (textureImage : texture) (config : option overlayConfig)
    : number :=
  match config with
  | Some cfg =>
      match cfg_width cfg with Some x => x | None => tex_width textureImage end
  | None => tex_width textureImage
  end.

Definition overlay_tH (textureImage : texture) (config : option overlayConfig)
    : number :=
  match config with
  | Some cfg =>
      match cfg_height cfg with Some x => x | None => tex_height textureImage end
  | None => tex_height textureImage
  end.

(** The second half of [textureOverlay], from the declaration of the
    cursor to the end: the blend mode is set, the tiles are drawn, the blend
    mode and (for a graphics buffer) the context are reset. *)
Definition overlay_draw (fuel : nat) (textureImage : texture)
    (config : option overlayConfig) (pg : option pgRef)
    (_width _height : number) : M unit :=
  let _mode := overlay_mode config in
  let _reflect := overlay_reflect config in
  let tW := overlay_tW textureImage config in
  let tH := overlay_tH textureImage config in
  o <- get_self ;;
  let target := overlay_target pg o in
  let start := mkCursor (inject_Z (textureOverlay_tX o))
                 (inject_Z (textureOverlay_tY o)) true true in
  call (EvBlendMode (resolve pg o) _mode) ;;
  _ <- outer_while target textureImage _reflect _width _height tW tH fuel start ;;
  call (EvBlendMode (resolve pg o) BLEND) ;;
  if isGraphicsBuffer pg then call (EvReset (resolve pg o)) else ret tt.

(** [textureOverlay(textureImage, config, pg)] *)
Definition textureOverlay (fuel : nat) (textureImage : texture)
    (config : option overlayConfig) (pg : option pgRef) : M unit :=
  o <- get_self ;;
  w <- get_host ;;
  let target := overlay_target pg o in
  let _width := s_width (surfaces w target) in
  let _height := s_height (surfaces w target) in
  let _animate := animate_enabled config in
  let _animateAtFrame := animateAtFrame config in
  let _animateAmount := animateAmount config _width _height in
  overlay_animate _animate _animateAtFrame _animateAmount ;;
  overlay_draw fuel textureImage config pg _width _height.

(** ** Vocabulary of the statements *)

(** The byte of a stored word that starts at bit [k]. *)
Definition byte_at (k : Z) (w : Z) : Z := Z.land (Z.shiftr w k) 255.


(** The value [#randomMinMax(min, max)] computes from the source value [r],
    for each of the two methods it can be bound to: [fl] rounds the result
    of each operation. *)
Definition draw_value (m : randomMethod) (min max r : number) : number :=
  match m with
  | randomInt_method => Math_floor (fl (fl (r * fl (fl (max - min) + 1)) + min))
  | randomFloat_method => fl (fl (r * fl (max - min)) + min)
  end.

(** A number that is far from the largest number of the format.  For such
    an amount neither the difference of the bounds nor a sum with a channel
    overflows; for such bounds no step of a draw does. *)
Definition no_overflow (amount : number) : Prop :=
  - pow2 1000 <= amount <= pow2 1000.

(** The bounds [#prepareRandomBounds(min, max)] returns in a given mode. *)
Definition bounds_in (mode : option Z) (min max : number) : number * number :=
  if match mode with Some m => Z.eqb m 1 | None => false end
  then (Math_ceil min, Math_floor max)
  else (min, max).

(** A channel value after an offset has been added: the sum is rounded,
    clamped, then cut to its integer part by the 32-bit operators that
    repack it. *)
Definition shifted (v : Z) (offset : number) : Z :=
  truncZ (clamp (fl (inject_Z v + offset))).

(** [mapi_from h i l] applies [h j] to the element of [l] at position
    [j - i]. *)
Fixpoint mapi_from (h : nat -> Z -> Z) (i : nat) (l : list Z) : list Z :=
  match l with
  | [] => []
  | w :: l' => h i w :: mapi_from h (S i) l'
  end.

(** The pixels of a surface in a state. *)
Definition pixels_of (c : receiver) (s : state) : list Z :=
  s_pixels (surfaces (host s) c).

(** The word [applyMonochromaticGrain] stores for a pixel whose word was
    [w], given the offset drawn for it. *)
Definition monochromatic_word (upd : bool) (offset : number) (w : Z) : Z :=
  let p := inject_Z w in
  ToUint32 (pack (clamp (fadd (red p) offset)) (clamp (fadd (green p) offset))
              (clamp (fadd (blue p) offset))
              (if upd then clamp (fadd (alpha p) offset) else alpha p)).

(** The word [applyChromaticGrain] stores, given the offsets drawn for the
    four channels (the last one is ignored unless alpha is updated). *)
Definition chromatic_word (upd : bool) (dr dg db da : number) (w : Z) : Z :=
  let p := inject_Z w in
  ToUint32 (pack (clamp (fadd (red p) dr)) (clamp (fadd (green p) dg))
              (clamp (fadd (blue p) db))
              (if upd then clamp (fadd (alpha p) da) else alpha p)).

(** ** Concrete worlds *)

(** A host on which no primitive raises, every surface being [sf] and both
    of p5's random functions being [src]. *)
Definition quiet_world (sf : surface) (src : source) : world :=
  mkWorld (fun _ => sf) 0 [] (fun _ _ => false) src src.

(** The state a computation leaves behind (the start state if it does not
    return). *)
Definition state_after (m : M unit) (s : state) : state :=
  match m s with Ret _ s' => s' | _ => s end.

(** [const p5grain = new P5Grain(); p5grain.setup(config)] *)
Definition booted (config : option setupConfig) (w : world) : state :=
  state_after (constructor ;; setup config) (mkState fields_init w).

(** A one-pixel surface holding the pixel (r, g, b, a). *)
Definition rgba (r g b a : Z) : Z :=
  (r + 2 ^ 8 * g + 2 ^ 16 * b + 2 ^ 24 * a)%Z.

Definition one_pixel (r g b a : Z) : surface := mkSurface 1 1 1 [rgba r g b a].

(** The global canvas holds the pixel (100,100,100,255); the source always
    returns 3/4, which in float mode with amount 20 is the offset +10. *)
Definition mono_demo : state :=
  let src : source := fun _ => mkDouble (3 # 4) eq_refl in
  booted (Some (mkSetup (Some src) None inst_undefined))
    (quiet_world (one_pixel 100 100 100 255) src).

(** The global canvas holds the pixel (10,10,10,255); in integer mode with
    amount 20 the source values 5/8, 3/8 and 9/16 are the offsets +5, -5
    and +3. *)
Definition chroma_source : source :=
  fun k => match k with
           | O => mkDouble (5 # 8) eq_refl
           | S O => mkDouble (3 # 8) eq_refl
           | _ => mkDouble (9 # 16) eq_refl
           end.

Definition chroma_demo : state :=
  booted (Some (mkSetup (Some chroma_source) (Some "int"%string) inst_undefined))
    (quiet_world (one_pixel 10 10 10 255) chroma_source).

(** The largest number of the format below 1, [1 - 2^-53], and a sketch
    whose source always returns it. *)
Definition near_one : double :=
  mkDouble (9007199254740991 # 9007199254740992) eq_refl.

Definition near_one_demo : state :=
  let src : source := fun _ => near_one in
  booted (Some (mkSetup (Some src) None inst_undefined))
    (quiet_world (one_pixel 100 100 100 255) src).

(** A state with one more draw taken from the source. *)
Definition drawn (s : state) : state :=
  mkState (self s)
    (mkWorld (surfaces (host s)) (S (draws (host s))) (trace (host s))
       (raises (host s)) (global_random (host s)) (instance_random (host s))).

(** The provider after [#prepareRandomMode(mode)]. *)
Definition in_mode (mode : string) (s : state) : state :=
  state_after (prepareRandomMode mode) s.

(** The number of times the surface's commit (update-pixels) primitive has
    been called. *)
Definition is_commit (e : event) : bool :=
  match e with EvUpdatePixels _ => true | _ => false end.

Definition commits (s : state) : nat :=
  List.length (filter is_commit (trace (host s))).

(** A callback that does not itself commit pixels, however it ends. *)
Definition never_commits (cb : callback) : Prop :=
  forall (index total : number) (s : state),
    match cb index total s with
    | Ret _ s' => commits s' = commits s
    | Throw _ s' => commits s' = commits s
    | Timeout => True
    end.

(** A callback that sets the red channel of the pixel it is given to 255
    in the global canvas, as a sketch would through [pixels[index]]. *)
Definition paint_red : callback :=
  fun index _ s =>
    let sf := surfaces (host s) OnGlobal in
    let k := Z.to_nat (floorZ index / 4) in
    let w := nth k (s_pixels sf) 0%Z in
    let w' := Z.lor (Z.land w (Z.lnot 255)) 255 in
    Ret tt (mkState (self s)
              (with_surface OnGlobal
                 (mkSurface (s_width sf) (s_height sf) (s_density sf)
                    (store_at k w' (s_pixels sf)))
                 (host s))).

(** A 2x2 canvas at density 1. *)
Definition two_by_two : state :=
  let src : source := fun _ => mkDouble 0 eq_refl in
  booted None (quiet_world (mkSurface 2 2 1 [0; 0; 0; 0]%Z) src).

(** A canvas [2^54] pixels wide and one pixel high, and a callback that
    does nothing. *)
Definition wide_canvas : state :=
  let src : source := fun _ => mkDouble 0 eq_refl in
  booted None (quiet_world (mkSurface (inject_Z (2 ^ 54)) 1 1 []) src).

Definition idle : callback := fun _ _ => ret tt.

(** ** Vocabulary for the texture overlay *)

(** [s'] differs from [s] by its trace at most. *)
Definition same_but_trace (s s' : state) : Prop :=
  self s' = self s /\
  surfaces (host s') = surfaces (host s) /\
  draws (host s') = draws (host s) /\
  raises (host s') = raises (host s) /\
  global_random (host s') = global_random (host s) /\
  instance_random (host s') = instance_random (host s).

(** An outcome that is not a timeout satisfies [P] on its state. *)
Definition ended {A} (P : state -> Prop) (r : outcome A) : Prop :=
  match r with
  | Ret _ s' => P s'
  | Throw _ s' => P s'
  | Timeout => True
  end.

(** A host on which no primitive raises. *)
Definition quiet (s : state) : Prop :=
  forall (t : list event) (e : event), raises (host s) t e = false.

(** The persistent tiling state. *)
Definition tiling_state (o : P5Grain) : Z * Z * Z :=
  (textureOverlay_frameCount o, textureOverlay_tX o, textureOverlay_tY o).

(** The Random Provider's configuration. *)
Definition provider (o : P5Grain)
    : option source * option randomMethod * option Z :=
  (random o, randomMinMax o, randomMode o).

(** The object after the animation block of a call, [r1] and [r2] being the
    two values the source gives when the interval is reached. *)
Definition animated (config : option overlayConfig) (_width _height : number)
    (r1 r2 : number) (o : P5Grain) : P5Grain :=
  if animate_enabled config then
    let count := (textureOverlay_frameCount o + 1)%Z in
    if geb (inject_Z count) (animateAtFrame config) then
      let a := animateAmount config _width _height in
      with_overlay 0 (- truncZ (fl (r1 * a))) (- truncZ (fl (r2 * a))) o
    else with_overlay count (textureOverlay_tX o) (textureOverlay_tY o) o
  else o.

(** The dimensions [textureOverlay] reads from its target. *)
Definition overlay_width (pg : option pgRef) (s : state) : number :=
  s_width (surfaces (host s) (overlay_target pg (self s))).

Definition overlay_height (pg : option pgRef) (s : state) : number :=
  s_height (surfaces (host s) (overlay_target pg (self s))).

(** The list of the tiles drawn, in the order of the trace. *)
Definition is_image (e : event) : bool :=
  match e with EvImage _ _ _ _ _ _ => true | _ => false end.

Definition images (t : list event) : list event := filter is_image t.

(** One call of [textureOverlay] with its arguments, and a sequence of such
    calls on the same object. *)
Record overlayCall := mkCall {
  call_fuel : nat;
  call_texture : texture;
  call_config : option overlayConfig;
  call_pg : option pgRef
}.

Definition run_call (c : overlayCall) : M unit :=
  textureOverlay (call_fuel c) (call_texture c) (call_config c) (call_pg c).

Fixpoint overlay_calls (cs : list overlayCall) : M unit :=
  match cs with
  | [] => ret tt
  | c :: cs' => run_call c ;; overlay_calls cs'
  end.

(** A 25x25 canvas and a 10x10 texture. *)
Definition canvas25 : surface := mkSurface 25 25 1 [].
Definition texture10 : texture := mkTexture 0 10 10.

(** [{ animate: true }] and [{ animate: { atFrame: 2, amount: -100 } }] *)
Definition animate_true : option overlayConfig :=
  Some (mkOverlay None None None false (Some (mkAnimate None None))).

Definition animate_negative : option overlayConfig :=
  Some (mkOverlay None None None false
          (Some (mkAnimate (Some 2) (Some (-100))))).

(** A source that always returns 1/2. *)
Definition half : source := fun _ => mkDouble (1 # 2) eq_refl.

(** A sketch on a 25x25 canvas after [setup({ random: half })]. *)
Definition sketch25 : state :=
  booted (Some (mkSetup (Some half) None inst_undefined))
    (quiet_world canvas25 half).



(** A call whose animation is on, whose interval is 2 and whose amount,
    resolved against the surfaces of [s], is not negative. *)
Definition drifting (s : state) (c : overlayCall) : Prop :=
  animate_enabled (call_config c) = true /\
  animateAtFrame (call_config c) == 2 /\
  0 <= animateAmount (call_config c) (overlay_width (call_pg c) s)
         (overlay_height (call_pg c) s).

(** [textureOverlay(texture10, { animate: true })] on the canvas. *)
Definition animated_call : overlayCall := mkCall 10 texture10 animate_true None.

(** The x-coordinate the cursor is reset to at the end of a row. *)
Definition row_start (s : state) : number :=
  inject_Z (textureOverlay_tX (self s)).

(** A sketch on a canvas of width 0 and height 25. *)
Definition sketch_zero_width : state :=
  booted (Some (mkSetup (Some half) None inst_undefined))
    (quiet_world (mkSurface 0 25 1 []) half).

(** [{ width: 0 }]: tiles of width 0. *)
Definition zero_width_tiles : option overlayConfig :=
  Some (mkOverlay (Some 0) None None false None).

(** The sketch on the 25x25 canvas after two animated calls: both offsets
    are -12. *)
Definition sketch25_drifted : state :=
  state_after (overlay_calls [animated_call; animated_call]) sketch25.

(** [{ width: 2^-70 }]: tiles of a positive width far below the distance
    between the numbers of the format around 12. *)
Definition tiny_tiles : option overlayConfig :=
  Some (mkOverlay (Some (pow2 (-70))) None None false None).

(** The state [s] with the events [l] appended to its trace. *)
Definition emit (l : list event) (s : state) : state :=
  mkState (self s)
    (mkWorld (surfaces (host s)) (draws (host s)) (trace (host s) ++ l)
       (raises (host s)) (global_random (host s)) (instance_random (host s))).

(** ** Vocabulary of the further properties *)

(** [max(0, min(255, z))] on integers. *)
Definition clampZ (z : Z) : Z := Z.max 0 (Z.min 255 z).

(** The mode flag and the bound method agree. *)
Definition mode_consistent (o : P5Grain) : Prop :=
  (randomMode o = Some 0%Z /\ randomMinMax o = Some randomFloat_method) \/
  (randomMode o = Some 1%Z /\ randomMinMax o = Some randomInt_method).

(** Every word of a typed array of 32-bit words is in range. *)
Definition words32 (l : list Z) : Prop :=
  Forall (fun w => 0 <= w < 2 ^ 32)%Z l.

(** The integers a draw can move a channel by, for each method and an
    amount that is not negative.  In float mode the offset lies between
    [-amount] and [amount], both included, and the floor of the rounded sum
    of a channel and the offset can reach [ceil(amount)]. *)
Definition offset_range (m : randomMethod) (amount : number) (k : Z) : Prop :=
  match m with
  | randomFloat_method => (- Qceiling amount <= k <= Qceiling amount)%Z
  | randomInt_method => (- Qfloor amount <= k <= Qfloor amount)%Z
  end.

(** The channels of [w'] are those of [w] moved by the integers [kr], [kg],
    [kb] (and [ka] for alpha when it is updated) and clamped. *)
Definition moved_by (upd : bool) (kr kg kb ka : Z) (w w' : Z) : Prop :=
  byte_at 0 w' = clampZ (byte_at 0 w + kr) /\
  byte_at 8 w' = clampZ (byte_at 8 w + kg) /\
  byte_at 16 w' = clampZ (byte_at 16 w + kb) /\
  byte_at 24 w' = (if upd then clampZ (byte_at 24 w + ka) else byte_at 24 w).

(** A surface of three pixels and a state in integer mode on it. *)
Definition three_pixels : surface :=
  mkSurface 3 1 1 [rgba 0 128 255 255; rgba 10 20 30 40; rgba 250 251 252 253].

Definition grain_demo : state :=
  booted (Some (mkSetup (Some chroma_source) (Some "int"%string) inst_undefined))
    (quiet_world three_pixels chroma_source).

(** ** [textureAnimate] *)

(** The kinds of element [textureAnimate] tells apart with [instanceof], in
    the order it tests them; anything else is [OtherElement]. *)
Inductive element := HTMLElement | SVGElement | P5Element | OtherElement.

(** What [textureAnimate] writes on the element, the positions being the
    integers that the template strings print before [px]. *)
Inductive styleWrite :=
| BackgroundPosition (x y : Z)       (* style.backgroundPosition = 'Xpx Ypx' *)
| TopLeft (top left : Z)             (* style.top = 'Tpx'; style.left = 'Lpx' *)
| StyleCall (x y : Z).               (* style('background-position', 'Xpx Ypx') *)

Definition with_animate_count (fc : Z) (o : P5Grain) : P5Grain :=
  mkP5Grain (instance o) (random o) (randomMinMax o) (randomMode o)
    (pixels o) (pixelsCount o) (contextWidth o) (contextHeight o)
    (contextDensity o) fc
    (textureOverlay_frameCount o) (textureOverlay_tX o) (textureOverlay_tY o).

(** [config && config.atFrame ? Math.round(config.atFrame) : 2] *)
Definition animate_atFrame (config : option animateConfig) : number :=
  match config with
  | Some c =>
      match atFrame c with
      | Some f => if truthy f then Math_round f else 2
      | None => 2
      end
  | None => 2
  end.

(** [config && config.amount ? Math.round(config.amount)
      : (this.#instance ? Math.min(this.#instance.width, this.#instance.height)
                        : Math.min(width, height))] *)
Definition animate_amount (config : option animateConfig) (o : P5Grain)
    (w : world) : number :=
  let sf := surfaces w (resolve None o) in
  let default := Math_min (s_width sf) (s_height sf) in
  match config with
  | Some c =>
      match amount c with
      | Some m => if truthy m then Math_round m else default
      | None => default
      end
  | None => default
  end.

(** The three [instanceof] branches. *)
Definition style_write (textureElement : element) (bgPosX bgPosY : Z)
    : option styleWrite :=
  match textureElement with
  | HTMLElement => Some (BackgroundPosition bgPosX bgPosY)
  | SVGElement => Some (TopLeft (- bgPosY) (- bgPosX))
  | P5Element => Some (StyleCall bgPosX bgPosY)
  | OtherElement => None
  end.

(** [textureAnimate(textureElement, config)].  The element is not part of
    the world: what the call writes on it is returned ([None] when nothing
    is written). *)
Definition textureAnimate (textureElement : element)
    (config : option animateConfig) : M (option styleWrite) :=
  let _atFrame := animate_atFrame config in
  set_self (fun o => with_animate_count (textureAnimate_frameCount o + 1) o) ;;
  o <- get_self ;;
  if geb (inject_Z (textureAnimate_frameCount o)) _atFrame then
    w <- get_host ;;
    let _amount := animate_amount config o w in
    r1 <- call_random ;;
    let bgPosX_rand := fmul r1 _amount in
    r2 <- call_random ;;
    let bgPosY_rand := fmul r2 _amount in
    let bgPosX := truncZ bgPosX_rand in
    let bgPosY := truncZ bgPosY_rand in
    let written := style_write textureElement bgPosX bgPosY in
    set_self (with_animate_count 0) ;;
    ret written
  else ret None.

(** ** What a call leaves alone *)

(** An outcome that is not a timeout and satisfies [P] on its state. *)
Definition finished {A} (P : state -> Prop) (r : outcome A) : Prop :=
  match r with
  | Ret _ s' => P s'
  | Throw _ s' => P s'
  | Timeout => False
  end.

(** The settings of the object that outlive a call: the provider, the
    instance, the tiling state and the frame counter of [textureAnimate]. *)
Definition same_settings (o o' : P5Grain) : Prop :=
  provider o' = provider o /\ instance o' = instance o /\
  tiling_state o' = tiling_state o /\
  textureAnimate_frameCount o' = textureAnimate_frameCount o.

(** [s'] differs from [s] at most by the pixel words of the surface [c], by
    the pixel view and context fields of the object, by draws taken from the
    source and by events appended to the trace. *)
Definition touches_only (c : receiver) (s s' : state) : Prop :=
  same_settings (self s) (self s') /\
  (pixels (self s) = Some c -> pixels (self s') = Some c) /\
  (forall c', c' <> c -> surfaces (host s') c' = surfaces (host s) c') /\
  s_width (surfaces (host s') c) = s_width (surfaces (host s) c) /\
  s_height (surfaces (host s') c) = s_height (surfaces (host s) c) /\
  s_density (surfaces (host s') c) = s_density (surfaces (host s) c) /\
  List.length (pixels_of c s') = List.length (pixels_of c s) /\
  raises (host s') = raises (host s) /\
  global_random (host s') = global_random (host s) /\
  instance_random (host s') = instance_random (host s) /\
  (draws (host s) <= draws (host s'))%nat /\
  (exists l, trace (host s') = trace (host s) ++ l).

(** A freshly constructed object on a one-pixel canvas: [setup] has not been
    called. *)
Definition not_set_up : state :=
  state_after constructor
    (mkState fields_init (quiet_world (one_pixel 1 2 3 4) (fun _ => mkDouble 0 eq_refl))).

(** ** The fields of the [config] of [setup], absent when there is no object *)

Definition config_random (config : option setupConfig) : option source :=
  match config with Some (mkSetup f _ _) => f | _ => None end.

Definition config_randomMode (config : option setupConfig) : option string :=
  match config with Some (mkSetup _ mode _) => mode | _ => None end.

Definition config_instance (config : option setupConfig) : instanceRef :=
  match config with Some (mkSetup _ _ i) => i | _ => inst_undefined end.

(** ** The public methods, as a sketch calls them one after the other *)

Inductive api :=
| Setup (config : option setupConfig)
| MonochromaticGrain (amount : number) (shouldUpdateAlpha : option bool)
    (pg : option pgRef)
| ChromaticGrain (amount : number) (shouldUpdateAlpha : option bool)
    (pg : option pgRef)
| TinkerPixels (fuel : nat) (cb : callback) (shouldUpdate : option bool)
    (pg : option pgRef)
| LoopPixels (fuel : nat) (cb : callback) (pg : option pgRef)
| TextureAnimate (textureElement : element) (config : option animateConfig)
| TextureOverlay (fuel : nat) (textureImage : texture)
    (config : option overlayConfig) (pg : option pgRef).

Definition run (a : api) : M unit :=
  match a with
  | Setup config => setup config
  | MonochromaticGrain amount sua pg => applyMonochromaticGrain amount sua pg
  | ChromaticGrain amount sua pg => applyChromaticGrain amount sua pg
  | TinkerPixels fuel cb su pg => tinkerPixels fuel cb su pg
  | LoopPixels fuel cb pg => loopPixels fuel cb pg
  | TextureAnimate el config => _ <- textureAnimate el config ;; ret tt
  | TextureOverlay fuel tex config pg => textureOverlay fuel tex config pg
  end.

(** A callback that stays outside the library: the fields of the object are
    private, so code that calls none of its methods leaves them as they
    are. *)
Definition outside (cb : callback) : Prop :=
  forall (index total : number) (s : state),
    ended (fun s' => self s' = self s) (cb index total s).

Definition api_outside (a : api) : Prop :=
  match a with
  | TinkerPixels _ cb _ _ => outside cb
  | LoopPixels _ cb _ => outside cb
  | _ => True
  end.

(** What a call of each method keeps of the object.  [setup(null)] raises
    before it has written a field; any other call of [setup] leaves a
    source installed. *)
Definition object_kept (a : api) (o o' : P5Grain) : Prop :=
  match a with
  | Setup (Some config_null) => o' = o
  | Setup _ =>
      tiling_state o' = tiling_state o /\
      textureAnimate_frameCount o' = textureAnimate_frameCount o /\
      random o' <> None
  | TextureAnimate _ _ =>
      provider o' = provider o /\ instance o' = instance o /\
      tiling_state o' = tiling_state o
  | TextureOverlay _ _ _ _ =>
      provider o' = provider o /\ instance o' = instance o /\
      textureAnimate_frameCount o' = textureAnimate_frameCount o
  | _ => same_settings o o'
  end.

(** The states of a sketch: the object is constructed once, then the sketch
    calls its methods, each call ending by a return or by an exception that
    the sketch catches, while the host changes in between as it likes. *)
Inductive reachable : state -> Prop :=
| reach_new (w : world) :
    reachable (state_after constructor (mkState fields_init w))
| reach_host (s : state) (w : world) :
    reachable s -> reachable (mkState (self s) w)
| reach_ret (a : api) (s s' : state) :
    reachable s -> api_outside a -> run a s = Ret tt s' -> reachable s'
| reach_throw (a : api) (e : error) (s s' : state) :
    reachable s -> api_outside a -> run a s = Throw e s' -> reachable s'.

(** Mode and method agree and the two frame counters are not negative. *)
Definition well_formed (o : P5Grain) : Prop :=
  mode_consistent o /\
  (0 <= textureAnimate_frameCount o)%Z /\
  (0 <= textureOverlay_frameCount o)%Z.

(** ** A sequence of calls of [textureAnimate] *)

Record animateCall := mkAnimateCall {
  anim_element : element;
  anim_config : option animateConfig
}.

(** The calls one after the other, collecting what each writes. *)
Fixpoint animate_calls (cs : list animateCall) : M (list (option styleWrite)) :=
  match cs with
  | [] => ret []
  | c :: cs' =>
      r <- textureAnimate (anim_element c) (anim_config c) ;;
      rs <- animate_calls cs' ;;
      ret (r :: rs)
  end.

(** [textureAnimate(div, { atFrame: 3, amount: 100 })] on an HTML element,
    and five such calls. *)
Definition every_third : animateCall :=
  mkAnimateCall HTMLElement (Some (mkAnimate (Some 3) (Some 100))).

Definition five_frames : list animateCall :=
  [every_third; every_third; every_third; every_third; every_third].

(** [textureAnimate(svg, { atFrame: 1 })]: the interval is reached at every
    call and the amount is the default. *)
Definition every_frame : option animateConfig := Some (mkAnimate (Some 1) None).

(** ** The functions registered on the prototypes of p5 *)

(** A value that arrives where the optional [pg] is expected. *)
Inductive jsValue :=
| js_undefined
| js_boolean (b : bool)
| js_object (p : pgRef).

(** [if (pg) { pg.loadPixels(); ... }]: a falsy value selects the instance or
    the global canvas; [true] is truthy and has no [loadPixels] method, so
    the call of it is a [TypeError]. *)
Definition as_pg (v : jsValue) : M (option pgRef) :=
  match v with
  | js_undefined => ret None
  | js_boolean false => ret None
  | js_boolean true => throw TypeError
  | js_object p => ret (Some p)
  end.

(** [p5grain.loopPixels(callback, v)] for any value [v]. *)
Definition loopPixels_value (fuel : nat) (cb : callback) (v : jsValue) : M unit :=
  pg <- as_pg v ;; loopPixels fuel cb pg.

(** [p5.prototype.loopPixels = function (callback, shouldUpdate) {
       return p5grain.loopPixels(callback, shouldUpdate); }] *)
Definition p5_loopPixels (fuel : nat) (cb : callback) (shouldUpdate : jsValue)
    : M unit :=
  loopPixels_value fuel cb shouldUpdate.

(** [p5.Graphics.prototype.loopPixels = function (callback, shouldUpdate) {
       return p5grain.loopPixels(callback, shouldUpdate, this); }], and the
    same function on [p5.Image.prototype]: [loopPixels] has two parameters,
    so the third argument is dropped. *)
Definition pg_loopPixels (this : pgRef) (fuel : nat) (cb : callback)
    (shouldUpdate : jsValue) : M unit :=
  loopPixels_value fuel cb shouldUpdate.

(** [p5.prototype.tinkerPixels] and the [tinkerPixels] of [p5.Graphics] and
    [p5.Image]. *)
Definition p5_tinkerPixels (fuel : nat) (cb : callback)
    (shouldUpdate : option bool) : M unit :=
  tinkerPixels fuel cb shouldUpdate None.

Definition pg_tinkerPixels (this : pgRef) (fuel : nat) (cb : callback)
    (shouldUpdate : option bool) : M unit :=
  tinkerPixels fuel cb shouldUpdate (Some this).

(** The number of passes of [for (i = 0; i < total; i += 4)]. *)
Definition passes (total : number) : nat := Z.to_nat (Qceiling (total / 4)).

(** The value [total] that [tinkerPixels] computes for a surface, each
    product being rounded. *)
Definition total_of (sf : surface) : number :=
  fl (fl (4 * fl (s_width sf * s_density sf)) * fl (s_height sf * s_density sf)).

(** A 3x3 canvas at density 3/2. *)
Definition dense_canvas : state :=
  booted None (quiet_world (mkSurface 3 3 (3 # 2) []) (fun _ => mkDouble 0 eq_refl)).

(** A 10x10 canvas at the density 1.1, that is, at the number of the
    format nearest to 11/10. *)
Definition canvas_1_1 : state :=
  booted None
    (quiet_world (mkSurface 10 10 (fl (11 # 10)) []) (fun _ => mkDouble 0 eq_refl)).

(** A sketch whose main canvas is 2x2 and whose graphics buffers are 1x1. *)
Definition with_buffer : state :=
  booted None
    (mkWorld (fun c => match c with
                       | OnPg _ => mkSurface 1 1 1 [0%Z]
                       | _ => mkSurface 2 2 1 [0; 0; 0; 0]%Z
                       end)
       0 [] (fun _ _ => false) (fun _ => mkDouble 0 eq_refl) (fun _ => mkDouble 0 eq_refl)).

(** ** The grid drawn by [textureOverlay] *)

Section Grid.

Variable dr : receiver.
Variable textureImage : texture.
Variable _reflect : bool.
Variables tW tH : number.

(** The host calls of one tile, in order. *)
Definition tile_events (c : cursor) : list event :=
  if _reflect then
    [EvPush dr] ++
    (if tRowFirst c then
       if tColFirst c then [EvImage dr textureImage (tX c) (tY c) tW tH]
       else [EvScale dr (-1) 1;
             EvImage dr textureImage (- tX c) (tY c) (- tW) tH]
     else
       if tColFirst c then
         [EvScale dr 1 (-1);
          EvImage dr textureImage (tX c) (- tY c) tW (- tH)]
       else
         [EvScale dr (-1) (-1);
          EvImage dr textureImage (- tX c) (- tY c) (- tW) (- tH)]) ++
    [EvPop dr]
  else [EvImage dr textureImage (tX c) (tY c) tW tH].

(** A row of [n] tiles from the cursor [c], each one tile width further to
    the right (the sum being rounded) and mirrored the other way. *)
Fixpoint row_events (n : nat) (c : cursor) : list event :=
  match n with
  | O => []
  | S n' =>
      tile_events c ++
      row_events n' (mkCursor (fl (tX c + tW)) (tY c) (tRowFirst c)
                       (negb (tColFirst c)))
  end.

(** [rows] rows of [cols] tiles, each row one tile height lower, starting
    again at [x0] and flipped the other way. *)
Fixpoint grid_events (x0 : number) (cols rows : nat) (c : cursor) : list event :=
  match rows with
  | O => []
  | S rows' =>
      row_events cols c ++
      grid_events x0 cols rows'
        (mkCursor x0 (fl (tY c + tH)) (negb (tRowFirst c)) true)
  end.

End Grid.

(** The number of tiles of size [size] laid from [x] that it takes to reach
    [edge]. *)
Definition tile_count (x edge size : number) : nat :=
  Z.to_nat (Qceiling ((edge - x) / size)).

(** [textureOverlay(tex, { width: 7, height: 9, reflect: true })] on a 25x25
    canvas. *)
Definition texture_7_9 : option overlayConfig :=
  Some (mkOverlay (Some 7) (Some 9) None true None).

(** A sketch on a 33x33 canvas, and [{ width: 3.3, height: 33 }], the width
    being the number of the format nearest to 33/10. *)
Definition sketch33 : state :=
  booted (Some (mkSetup (Some half) None inst_undefined))
    (quiet_world (mkSurface 33 33 1 []) half).

Definition tiles_3_3 : option overlayConfig :=
  Some (mkOverlay (Some (fl (33 # 10))) (Some 33) None false None).

(** ** The example sketch [04-chromatic-grain-on-image] *)

(** [p5.Image.prototype.applyChromaticGrain = function (amount,
       shouldUpdateAlpha) { return p5grain.applyChromaticGrain(amount,
       shouldUpdateAlpha, this); }] *)
Definition pg_applyChromaticGrain (this : pgRef) (amount : number)
    (shouldUpdateAlpha : option bool) : M unit :=
  applyChromaticGrain amount shouldUpdateAlpha (Some this).

(** The part of the sketch's [setup()] that follows [createCanvas]:
    [p5grain.setup(); img.applyChromaticGrain(42);
     image(img, 0, 0, width, height);] where [img] is the image number
    [img]. *)
Definition sketch_setup (img : nat) : M unit :=
  setup None ;;
  pg_applyChromaticGrain (Image img) 42 None ;;
  w <- get_host ;;
  let canvas := surfaces w OnGlobal in
  let picture := surfaces w (OnPg (Image img)) in
  call (EvImage OnGlobal
          (mkTexture img (s_width picture) (s_height picture))
          0 0 (s_width canvas) (s_height canvas)).

(** The script is loaded ([const p5grain = new P5Grain()]), then p5 calls
    [setup()]. *)
Definition sketch_04 (img : nat) : M unit :=
  constructor ;; sketch_setup img.

(** * The build script

    [.scripts/build.js] reads the main file, strips the internal blocks for
    a lite build, hands the text to the minifier and writes the result.
    Source texts are strings; the file system is a finite set of named
    files; the minifier and [String.prototype.trim] belong to the host and
    are parameters.  Console output is not modelled. *)

Module Build.

Local Open Scope string_scope.

(** The rest of [s] after its first [n] characters. *)
Fixpoint drop (n : nat) (s : string) : string :=
  match n, s with
  | O, _ => s
  | S n', String _ s' => drop n' s'
  | S _, EmptyString => EmptyString
  end.

(** The position of the first occurrence of [needle] in [s]. *)
Fixpoint find (needle s : string) : option nat :=
  if String.prefix needle s then Some O
  else match s with
       | EmptyString => None
       | String _ s' => option_map S (find needle s')
       end.

(** [source.replace(/@internal[\s\S]*?@end/g, "@lite")], scanning from left
    to right: at a position where [@internal] starts and some [@end] follows
    it, the text up to and including the first such [@end] is replaced and
    the scan goes on behind it ([skip] counts the characters of a match
    still to be passed over); elsewhere the character is kept. *)
Fixpoint replace_from (skip : nat) (s : string) : string :=
  match s with
  | EmptyString => EmptyString
  | String ch s' =>
      match skip with
      | S k => replace_from k s'
      | O =>
          if String.prefix "@internal" s then
            match find "@end" (drop 9 s) with
            | Some n => "@lite" ++ replace_from (8 + n + 4) s'
            | None => String ch (replace_from 0 s')
            end
          else String ch (replace_from 0 s')
      end
  end.

Definition removeInternals (source : string) : string := replace_from 0 source.

(** ** The file system *)

(** The files the script names; [name] is the package name with its hyphens
    turned into dots. *)
Inductive file :=
| MainFile            (* <root>/<name>.js *)
| TempLiteFile        (* <root>/<name>.lite.js *)
| MinFile             (* <root>/dist/<name>.min.js *)
| LiteMinFile         (* <root>/dist/<name>.lite.min.js *)
| MinLicense          (* <root>/dist/<name>.min.js.LICENSE.txt *)
| LiteMinLicense      (* <root>/dist/<name>.lite.min.js.LICENSE.txt *)
| HeaderMin           (* <root>/.scripts/license.min.txt *)
| HeaderLite          (* <root>/.scripts/license.lite.min.txt *)
| License.            (* <root>/LICENSE *)

Definition file_eqb (p q : file) : bool :=
  match p, q with
  | MainFile, MainFile => true
  | TempLiteFile, TempLiteFile => true
  | MinFile, MinFile => true
  | LiteMinFile, LiteMinFile => true
  | MinLicense, MinLicense => true
  | LiteMinLicense, LiteMinLicense => true
  | HeaderMin, HeaderMin => true
  | HeaderLite, HeaderLite => true
  | License, License => true
  | _, _ => false
  end.

(** The files under [dist]. *)
Definition in_dist (p : file) : bool :=
  match p with
  | MinFile | LiteMinFile | MinLicense | LiteMinLicense => true
  | _ => false
  end.

(** The content of each file that exists, and whether [dist] exists. *)
Record fs := mkFs {
  content : file -> option string;
  dist : bool
}.

Definition put (p : file) (data : option string) (d : fs) : fs :=
  mkFs (fun q => if file_eqb q p then data else content d q) (dist d).

(** ** Steps of the script *)

(** A step goes on, raises an exception, or ends the process by
    [process.exit(1)]. *)
Inductive step (A : Type) :=
| Next (a : A) (d : fs)
| Raise (d : fs)
| ExitWith1 (d : fs).

Arguments Next {A} a d.
Arguments Raise {A} d.
Arguments ExitWith1 {A} d.

Definition B (A : Type) := fs -> step A.

Definition pure {A} (a : A) : B A := fun d => Next a d.
Definition exit1 {A} : B A := fun d => ExitWith1 d.
Definition and_then {A C} (m : B A) (k : A -> B C) : B C :=
  fun d => match m d with
           | Next a d' => k a d'
           | Raise d' => Raise d'
           | ExitWith1 d' => ExitWith1 d'
           end.

Declare Scope build_scope.
Delimit Scope build_scope with build.
Notation "x <- m ;; k" := (and_then m (fun x => k))
  (at level 61, m at next level, right associativity) : build_scope.
Notation "m ;; k" := (and_then m (fun _ => k))
  (at level 61, right associativity) : build_scope.
Local Open Scope build_scope.

(** The functions of Node's [fs] the script calls.  Reading, unlinking,
    renaming or copying a file that does not exist raises, and so does
    writing into a directory that does not exist. *)
Definition existsSync (p : file) : B bool :=
  fun d => Next (match content d p with Some _ => true | None => false end) d.

Definition readFileSync (p : file) : B string :=
  fun d => match content d p with
           | Some data => Next data d
           | None => Raise d
           end.

Definition writeFileSync (p : file) (data : string) : B unit :=
  fun d => if in_dist p && negb (dist d) then Raise d
           else Next tt (put p (Some data) d).

Definition unlinkSync (p : file) : B unit :=
  fun d => match content d p with
           | Some _ => Next tt (put p None d)
           | None => Raise d
           end.

Definition renameSync (p q : file) : B unit :=
  fun d => match content d p with
           | Some data =>
               if in_dist q && negb (dist d) then Raise d
               else Next tt (put q (Some data) (put p None d))
           | None => Raise d
           end.

Definition copyFileSync (p q : file) : B unit :=
  fun d => match content d p with
           | Some data =>
               if in_dist q && negb (dist d) then Raise d
               else Next tt (put q (Some data) d)
           | None => Raise d
           end.

Definition when (b : bool) (m : B unit) : B unit := if b then m else pure tt.

(** ** The script *)

(** [--lite], [--keep] and [--renameToMin]. *)
Record args := mkArgs {
  isLite : bool;
  keepTemp : bool;
  renameToMin : bool
}.

(** How the process ends: normally, by [process.exit(1)], or by an
    exception nobody catches. *)
Inductive ending := Completed | Exit1 | Uncaught.

Section Script.

(** terser's [minify] applied to a source and a preamble: the code, or
    nothing when it reports an error or rejects. *)
Variable minify : string -> string -> option string.
(** [String.prototype.trim] *)
Variable trim : string -> string.

(** [async function build()] *)
Definition build (a : args) : B unit :=
  source <- readFileSync MainFile ;;
  plan <- (if isLite a then
             let liteSource := removeInternals source in
             writeFileSync TempLiteFile liteSource ;;
             pure (liteSource, LiteMinFile, LiteMinLicense, HeaderLite)
           else pure (source, MinFile, MinLicense, HeaderMin)) ;;
  let '(source, outputFile, licenseTarget, headerFile) := plan in
  hasHeader <- existsSync headerFile ;;
  preamble <- (if hasHeader then
                 header <- readFileSync headerFile ;; pure (trim header)
               else pure "") ;;
  match minify source preamble with
  | None => exit1
  | Some code =>
      writeFileSync outputFile code ;;
      hasLicense <- existsSync License ;;
      when hasLicense (copyFileSync License licenseTarget) ;;
      when (isLite a && renameToMin a)
        (mainMin <- existsSync MinFile ;;
         when mainMin (unlinkSync MinFile) ;;
         mainLicense <- existsSync MinLicense ;;
         when mainLicense (unlinkSync MinLicense) ;;
         liteMin <- existsSync LiteMinFile ;;
         when liteMin (renameSync LiteMinFile MinFile) ;;
         liteLicense <- existsSync LiteMinLicense ;;
         when liteLicense (renameSync LiteMinLicense MinLicense)) ;;
      when (isLite a && negb (keepTemp a)) (unlinkSync TempLiteFile)
  end.

(** The script from top to bottom: the two tests of the main file, the
    creation of [dist], then [build().catch(...)], whose handler ends the
    process by [process.exit(1)]. *)
Definition script (a : args) (d : fs) : ending * fs :=
  match content d MainFile with
  | None => (Uncaught, d)                    (* throw new Error(...) *)
  | Some _ =>
      match content d MainFile with
      | None => (Exit1, d)                   (* console.error; process.exit(1) *)
      | Some _ =>
          let d := if dist d then d else mkFs (content d) true in
          match build a d with
          | Next _ d' => (Completed, d')
          | Raise d' => (Exit1, d')
          | ExitWith1 d' => (Exit1, d')
          end
      end
  end.

End Script.

(** What the minifier is given: the text and the preamble. *)
Definition build_input (a : args) (source : string) : string :=
  if isLite a then removeInternals source else source.

Definition build_header (a : args) : file :=
  if isLite a then HeaderLite else HeaderMin.

Definition build_preamble (trim : string -> string) (a : args) (d : fs) : string :=
  match content d (build_header a) with
  | Some header => trim header
  | None => ""
  end.

(** A minifier that strips nothing and one that always fails, for the
    examples. *)
Definition join_minify (source preamble : string) : option string :=
  Some (preamble ++ source).

Definition failing_minify (source preamble : string) : option string := None.

(** A project with a main file, a stale temporary lite file and a license,
    before the first build. *)
Definition project : fs :=
  mkFs (fun p => match p with
                 | MainFile => Some "a /* @internal */ b /* @end */ c"
                 | TempLiteFile => Some "stale"
                 | License => Some "MIT"
                 | MinFile => Some "old"
                 | _ => None
                 end) false.

End Build.

(** ** A call of [textureOverlay] that fails *)

(** The host calls of the tiling loop. *)
Definition tile_call (e : event) : bool :=
  match e with
  | EvPush _ | EvPop _ | EvScale _ _ _ | EvImage _ _ _ _ _ _ => true
  | _ => false
  end.

(** [s'] differs from [s] by tile calls appended to the trace. *)
Definition tiles_appended (s s' : state) : Prop :=
  same_but_trace s s' /\
  exists l, trace (host s') = trace (host s) ++ l /\ forallb tile_call l = true.

(** A sketch on a 25x25 canvas whose [image] raises. *)
Definition no_image (_ : list event) (e : event) : bool :=
  match e with EvImage _ _ _ _ _ _ => true | _ => false end.

Definition sketch25_no_image : state :=
  booted (Some (mkSetup (Some half) None inst_undefined))
    (mkWorld (fun _ => canvas25) 0 [] no_image half half).

(** [{ reflect: true }] *)
Definition reflecting : option overlayConfig :=
  Some (mkOverlay None None None true None).

(** ** Negative amounts *)

(** The integers a draw can move a channel by when the amount is [- b]
    with [b > 0]: the bounds are then handed over in reverse order. *)
Definition offset_range_negative (m : randomMethod) (b : number) (k : Z) : Prop :=
  match m with
  | randomFloat_method => (- Qceiling b <= k <= Qceiling b)%Z
  | randomInt_method => (1 - Qceiling b <= k <= Qceiling b)%Z
  end.

(** ** Small intervals, and the trace of the grain functions *)

(** [{ atFrame: f, amount: a }] as the [config] of [textureAnimate] and as
    the [config.animate] of [textureOverlay]. *)
Definition at_frame (f : number) (a : option number) : option animateConfig :=
  Some (mkAnimate (Some f) a).

Definition overlay_at_frame (f : number) (a : option number)
    : option overlayConfig :=
  Some (mkOverlay None None None false (at_frame f a)).

(** [s'] has the trace and the failure oracle of [s]. *)
Definition silent (s s' : state) : Prop :=
  trace (host s') = trace (host s) /\ raises (host s') = raises (host s) /\
  self s' = self s.

(** ** The numbers of the format *)

(** The numbers the format holds: a significand below [2^53] at a quantum
    not below [2^-1074].  The exponent is not bounded above. *)
Definition representable (x : Q) : Prop :=
  exists m j : Z, (Z.abs m < 2 ^ 53)%Z /\ (-1074 <= j)%Z /\ x == inject_Z m * pow2 j.

(** * Properties *)

(** ** Binary64 rounding *)

Lemma pow2_pos (k : Z) : 0 < pow2 k.
Proof. unfold pow2. apply Qpower_0_lt. reflexivity. Qed.

Lemma pow2_add (a b : Z) : pow2 (a + b) == pow2 a * pow2 b.
Proof. unfold pow2. apply Qpower_plus. discriminate. Qed.

Lemma pow2_le (a b : Z) : (a <= b)%Z -> pow2 a <= pow2 b.
Proof. intros H. unfold pow2. apply Qpower_le_compat_l; [exact H | discriminate]. Qed.

Lemma pow2_lt (a b : Z) : (a < b)%Z -> pow2 a < pow2 b.
Proof. intros H. unfold pow2. apply Qpower_lt_compat_l; [exact H | reflexivity]. Qed.

Lemma pow2_lt_inv (a b : Z) : pow2 a < pow2 b -> (a < b)%Z.
Proof.
  intros H. destruct (Z_lt_le_dec a b) as [Hl | Hl]; [exact Hl | ].
  apply pow2_le in Hl. exfalso. apply (Qlt_irrefl (pow2 a)).
  apply Qlt_le_trans with (pow2 b); assumption.
Qed.

Lemma pow2_Z (k : Z) : (0 <= k)%Z -> pow2 k == inject_Z (2 ^ k).
Proof. intros H. unfold pow2. symmetry. apply (Zpower_Qpower 2 k H). Qed.

Lemma pow2_sub (a b : Z) : pow2 (a - b) * pow2 b == pow2 a.
Proof. rewrite <- pow2_add. replace (a - b + b)%Z with a by lia. reflexivity. Qed.

Lemma div_pow2 (x : Q) (k : Z) : x / pow2 k * pow2 k == x.
Proof. pose proof (pow2_pos k) as H. field. intros E. rewrite E in H. discriminate. Qed.

Lemma div_pow2_le (x y : Q) (k : Z) : x <= y -> x / pow2 k <= y / pow2 k.
Proof.
  intros H. pose proof (pow2_pos k) as Hk.
  apply Qmult_le_r with (pow2 k); [exact Hk | ]. rewrite !div_pow2. exact H.
Qed.

Lemma div_pow2_lt (x y : Q) (k : Z) : x < y -> x / pow2 k < y / pow2 k.
Proof.
  intros H. pose proof (pow2_pos k) as Hk.
  apply Qmult_lt_r with (pow2 k); [exact Hk | ]. rewrite !div_pow2. exact H.
Qed.

Lemma pow2_div (a k : Z) : pow2 a / pow2 k == pow2 (a - k).
Proof.
  pose proof (pow2_pos k) as Hk.
  apply Qmult_inj_r with (pow2 k); [intros E; rewrite E in Hk; discriminate | ].
  rewrite div_pow2, pow2_sub. reflexivity.
Qed.

(** *** Rounding to the nearest integer, ties to even *)

Lemma rne_comp (t u : Q) : t == u -> rne t = rne u.
Proof.
  intros H. unfold rne. rewrite (Qfloor_comp _ _ H).
  assert (E : (t - inject_Z (Qfloor u) ?= 1 # 2) = (u - inject_Z (Qfloor u) ?= 1 # 2)).
  { apply Qcompare_comp; [rewrite H | ]; reflexivity. }
  rewrite E. reflexivity.
Qed.

Lemma rne_Z (n : Z) : rne (inject_Z n) = n.
Proof.
  unfold rne. rewrite Qfloor_Z.
  assert (E : (inject_Z n - inject_Z n ?= 1 # 2) = Lt).
  { rewrite <- Qlt_alt. lra. }
  rewrite E. reflexivity.
Qed.

Lemma rne_cases (t : Q) :
  (rne t = Qfloor t /\ t - inject_Z (Qfloor t) <= 1 # 2) \/
  (rne t = (Qfloor t + 1)%Z /\ 1 # 2 <= t - inject_Z (Qfloor t)).
Proof.
  unfold rne. destruct (t - inject_Z (Qfloor t) ?= 1 # 2) eqn:E.
  - rewrite <- Qeq_alt in E. destruct (Z.even (Qfloor t)).
    + left. split; [reflexivity | rewrite E; apply Qle_refl].
    + right. split; [reflexivity | rewrite E; apply Qle_refl].
  - rewrite <- Qlt_alt in E. left. split; [reflexivity | apply Qlt_le_weak, E].
  - rewrite <- Qgt_alt in E. right. split; [reflexivity | apply Qlt_le_weak, E].
Qed.

Lemma floor_bounds (t : Q) : inject_Z (Qfloor t) <= t < inject_Z (Qfloor t) + 1.
Proof.
  split; [apply Qfloor_le | ].
  pose proof (Qlt_floor t) as H. rewrite inject_Z_plus in H. exact H.
Qed.

Lemma rne_near (t : Q) : - (1 # 2) <= inject_Z (rne t) - t <= 1 # 2.
Proof.
  pose proof (floor_bounds t) as [H1 H2].
  destruct (rne_cases t) as [[-> H] | [-> H]].
  - split; lra.
  - rewrite inject_Z_plus. change (inject_Z 1) with 1. split; lra.
Qed.

Lemma rne_le_Z (t : Q) (n : Z) : t <= inject_Z n -> (rne t <= n)%Z.
Proof.
  intros H. pose proof (floor_bounds t) as [H1 H2].
  assert (Hf : (Qfloor t <= n)%Z).
  { rewrite Zle_Qle. lra. }
  destruct (rne_cases t) as [[-> _] | [-> Hh]]; [exact Hf | ].
  destruct (Z.eq_dec (Qfloor t) n) as [E | E]; [ | lia].
  exfalso. rewrite E in Hh. lra.
Qed.

Lemma rne_ge_Z (t : Q) (n : Z) : inject_Z n <= t -> (n <= rne t)%Z.
Proof.
  intros H. assert (Hf : (n <= Qfloor t)%Z).
  { pose proof (Qfloor_resp_le _ _ H) as Hr. rewrite Qfloor_Z in Hr. exact Hr. }
  destruct (rne_cases t) as [[-> _] | [-> _]]; lia.
Qed.

Lemma rne_mono (t u : Q) : t <= u -> (rne t <= rne u)%Z.
Proof.
  intros H. pose proof (Qfloor_resp_le _ _ H) as Hf.
  destruct (Z.eq_dec (Qfloor t) (Qfloor u)) as [E | E].
  - unfold rne. rewrite E.
    destruct (t - inject_Z (Qfloor u) ?= 1 # 2) eqn:Et;
      destruct (u - inject_Z (Qfloor u) ?= 1 # 2) eqn:Eu;
      try rewrite <- Qeq_alt in Et; try rewrite <- Qlt_alt in Et; try rewrite <- Qgt_alt in Et;
      try rewrite <- Qeq_alt in Eu; try rewrite <- Qlt_alt in Eu; try rewrite <- Qgt_alt in Eu;
      try (destruct (Z.even (Qfloor u)); lia); try lia; exfalso; lra.
  - assert (Hlt : (Qfloor t + 1 <= Qfloor u)%Z) by lia.
    destruct (rne_cases t) as [[-> _] | [-> _]];
      destruct (rne_cases u) as [[-> _] | [-> _]]; lia.
Qed.

(** *** The binade of a positive number *)

Lemma binade_spec (x : Q) : 0 < x -> pow2 (binade x) <= x < pow2 (binade x + 1).
Proof.
  intros Hx. destruct x as [n d]. unfold binade. cbn [Qnum Qden].
  assert (Hn : (0 < n)%Z).
  { unfold Qlt in Hx. cbn in Hx. lia. }
  set (a := Z.log2 n). set (b := Z.log2 (Z.pos d)).
  assert (Ha : (0 <= a)%Z) by apply Z.log2_nonneg.
  assert (Hb : (0 <= b)%Z) by apply Z.log2_nonneg.
  destruct (Z.log2_spec n Hn) as [Ha1 Ha2]. fold a in Ha1, Ha2.
  destruct (Z.log2_spec (Z.pos d) eq_refl) as [Hb1 Hb2]. fold b in Hb1, Hb2.
  assert (HA : pow2 a == inject_Z (2 ^ a)) by (apply pow2_Z; exact Ha).
  assert (HB : pow2 b == inject_Z (2 ^ b)) by (apply pow2_Z; exact Hb).
  assert (HA1 : pow2 a <= inject_Z n) by (rewrite HA, <- Zle_Qle; exact Ha1).
  assert (HA2 : inject_Z n < 2 * pow2 a).
  { rewrite HA. change 2 with (inject_Z 2). rewrite <- inject_Z_mult, <- Zlt_Qlt.
    replace (2 * 2 ^ a)%Z with (2 ^ Z.succ a)%Z by (rewrite Z.pow_succ_r; [reflexivity | exact Ha]).
    exact Ha2. }
  assert (HB1 : pow2 b <= inject_Z (Z.pos d)) by (rewrite HB, <- Zle_Qle; exact Hb1).
  assert (HB2 : inject_Z (Z.pos d) < 2 * pow2 b).
  { rewrite HB. change 2 with (inject_Z 2). rewrite <- inject_Z_mult, <- Zlt_Qlt.
    replace (2 * 2 ^ b)%Z with (2 ^ Z.succ b)%Z by (rewrite Z.pow_succ_r; [reflexivity | exact Hb]).
    exact Hb2. }
  assert (Hxd : (n # d) * inject_Z (Z.pos d) == inject_Z n).
  { rewrite (Qmake_Qdiv n d). field. intros E. unfold Qeq in E. cbn in E. lia. }
  pose proof (pow2_pos a) as Pa. pose proof (pow2_pos b) as Pb.
  pose proof (pow2_sub a b) as He.
  set (x := n # d) in *. set (N := inject_Z n) in *. set (D := inject_Z (Z.pos d)) in *.
  destruct (Qle_bool (pow2 (a - b)) x) eqn:T.
  - apply Qle_bool_iff in T. split; [exact T | ].
    assert (E1 : pow2 (a - b + 1) == 2 * pow2 (a - b)).
    { rewrite pow2_add. change (pow2 1) with 2. ring. }
    rewrite E1. set (P := pow2 (a - b)) in *.
    apply Qmult_lt_r with D; [lra | ]. rewrite Hxd.
    apply Qlt_le_trans with (2 * pow2 a); [exact HA2 | ].
    rewrite <- He. nra.
  - assert (T' : x < pow2 (a - b)).
    { apply Qnot_le_lt. intros C. apply Qle_bool_iff in C. congruence. }
    replace (a - b - 1 + 1)%Z with (a - b)%Z by lia. split; [ | exact T'].
    assert (E1 : pow2 (a - b) == 2 * pow2 (a - b - 1)).
    { replace (a - b)%Z with (a - b - 1 + 1)%Z at 1 by lia.
      rewrite pow2_add. change (pow2 1) with 2. ring. }
    set (P := pow2 (a - b - 1)) in *. pose proof (pow2_pos (a - b - 1)) as PP. fold P in PP.
    apply Qmult_le_r with D; [lra | ]. rewrite Hxd.
    apply Qle_trans with (pow2 a); [ | exact HA1].
    rewrite <- He, E1. nra.
Qed.

Lemma binade_unique (x : Q) (e : Z) : pow2 e <= x < pow2 (e + 1) -> binade x = e.
Proof.
  intros [H1 H2]. assert (Hx : 0 < x).
  { apply Qlt_le_trans with (pow2 e); [apply pow2_pos | exact H1]. }
  destruct (binade_spec x Hx) as [B1 B2].
  assert (L1 : (e < binade x + 1)%Z).
  { apply pow2_lt_inv. apply Qle_lt_trans with x; assumption. }
  assert (L2 : (binade x < e + 1)%Z).
  { apply pow2_lt_inv. apply Qle_lt_trans with x; assumption. }
  lia.
Qed.

Lemma binade_comp (x y : Q) : 0 < x -> x == y -> binade x = binade y.
Proof.
  intros Hx E. symmetry. apply binade_unique. rewrite <- E. apply binade_spec, Hx.
Qed.

Lemma binade_mono (x y : Q) : 0 < x -> x <= y -> (binade x <= binade y)%Z.
Proof.
  intros Hx H. assert (Hy : 0 < y) by lra.
  destruct (binade_spec x Hx) as [B1 _]. destruct (binade_spec y Hy) as [_ B2].
  assert (L : (binade x < binade y + 1)%Z).
  { apply pow2_lt_inv. lra. }
  lia.
Qed.

Lemma quantum_comp (x y : Q) : 0 < x -> x == y -> quantum x = quantum y.
Proof. intros Hx E. unfold quantum. rewrite (binade_comp x y Hx E). reflexivity. Qed.

Lemma quantum_mono (x y : Q) : 0 < x -> x <= y -> (quantum x <= quantum y)%Z.
Proof. intros Hx H. unfold quantum. pose proof (binade_mono x y Hx H). lia. Qed.

(** *** Rounding a positive number *)

Lemma round_pos_comp (x y : Q) : 0 < x -> x == y -> round_pos x == round_pos y.
Proof.
  intros Hx E. unfold round_pos. rewrite (quantum_comp x y Hx E).
  rewrite (rne_comp (x / pow2 (quantum y)) (y / pow2 (quantum y))); [reflexivity | ].
  rewrite E. reflexivity.
Qed.

Lemma round_pos_nonneg (x : Q) : 0 < x -> 0 <= round_pos x.
Proof.
  intros Hx. unfold round_pos. pose proof (pow2_pos (quantum x)) as Hk.
  apply Qmult_le_0_compat; [ | lra].
  change 0 with (inject_Z 0). rewrite <- Zle_Qle. apply rne_ge_Z.
  change (inject_Z 0) with 0. apply Qle_shift_div_l; [exact Hk | lra].
Qed.

(** A multiple of a power of two not below the quantum bounds the rounding
    from either side. *)
Lemma round_pos_le (x : Q) (m j : Z) :
  (quantum x <= j)%Z -> x <= inject_Z m * pow2 j -> round_pos x <= inject_Z m * pow2 j.
Proof.
  intros Hj H. unfold round_pos. set (k := quantum x) in *.
  pose proof (pow2_pos k) as Hk.
  assert (E : inject_Z m * pow2 j == inject_Z (m * 2 ^ (j - k)) * pow2 k).
  { rewrite inject_Z_mult, <- pow2_Z by lia. rewrite <- Qmult_assoc, pow2_sub. reflexivity. }
  rewrite E. apply Qmult_le_compat_r; [ | lra].
  rewrite <- Zle_Qle. apply rne_le_Z.
  apply Qmult_le_r with (pow2 k); [exact Hk | ]. rewrite div_pow2, <- E. exact H.
Qed.

Lemma round_pos_ge (x : Q) (m j : Z) :
  (quantum x <= j)%Z -> inject_Z m * pow2 j <= x -> inject_Z m * pow2 j <= round_pos x.
Proof.
  intros Hj H. unfold round_pos. set (k := quantum x) in *.
  pose proof (pow2_pos k) as Hk.
  assert (E : inject_Z m * pow2 j == inject_Z (m * 2 ^ (j - k)) * pow2 k).
  { rewrite inject_Z_mult, <- pow2_Z by lia. rewrite <- Qmult_assoc, pow2_sub. reflexivity. }
  rewrite E. apply Qmult_le_compat_r; [ | lra].
  rewrite <- Zle_Qle. apply rne_ge_Z.
  apply Qmult_le_r with (pow2 k); [exact Hk | ]. rewrite div_pow2, <- E. exact H.
Qed.

Lemma round_pos_mono (x y : Q) : 0 < x -> x <= y -> round_pos x <= round_pos y.
Proof.
  intros Hx H. assert (Hy : 0 < y) by lra.
  pose proof (quantum_mono x y Hx H) as Hq.
  destruct (Z.eq_dec (quantum x) (quantum y)) as [E | E].
  - unfold round_pos. rewrite E. pose proof (pow2_pos (quantum y)) as Hk.
    apply Qmult_le_compat_r; [ | lra].
    rewrite <- Zle_Qle. apply rne_mono, div_pow2_le, H.
  - assert (Hlt : (quantum x < quantum y)%Z) by lia.
    assert (Hy52 : quantum y = (binade y - 52)%Z) by (unfold quantum in *; lia).
    assert (Hb : (binade x < binade y)%Z) by (unfold quantum in *; lia).
    destruct (binade_spec x Hx) as [_ Bx]. destruct (binade_spec y Hy) as [By _].
    apply Qle_trans with (inject_Z 1 * pow2 (binade y)).
    + apply round_pos_le; [lia | ]. change (inject_Z 1) with 1.
      assert (L : pow2 (binade x + 1) <= pow2 (binade y)) by (apply pow2_le; lia).
      lra.
    + apply round_pos_ge; [lia | ]. change (inject_Z 1) with 1. lra.
Qed.

(** Numbers with a significand below [2^53] at a quantum not below the
    smallest are rounded to themselves. *)
Lemma round_pos_exact (x : Q) (m j : Z) :
  (0 < m < 2 ^ 53)%Z -> (-1074 <= j)%Z -> x == inject_Z m * pow2 j -> round_pos x == x.
Proof.
  intros Hm Hj E.
  assert (Hx : 0 < x).
  { rewrite E. apply Qmult_lt_0_compat; [ | apply pow2_pos].
    change 0 with (inject_Z 0). rewrite <- Zlt_Qlt. lia. }
  assert (Hq : (quantum x <= j)%Z).
  { destruct (binade_spec x Hx) as [B1 _].
    assert (L : (binade x < 53 + j)%Z).
    { apply pow2_lt_inv. apply Qle_lt_trans with x; [exact B1 | ].
      rewrite E, pow2_add. apply Qmult_lt_r; [apply pow2_pos | ].
      rewrite (pow2_Z 53) by lia. rewrite <- Zlt_Qlt. lia. }
    unfold quantum. lia. }
  apply Qle_antisym.
  - rewrite E at 2. apply round_pos_le; [exact Hq | rewrite E; apply Qle_refl].
  - rewrite E at 1. apply round_pos_ge; [exact Hq | rewrite E; apply Qle_refl].
Qed.

(** *** Rounding *)

Lemma Qnum_pos (x : Q) : 0 < x -> exists p, Qnum x = Z.pos p.
Proof.
  intros H. destruct x as [[ | p | p] d]; unfold Qlt in H; cbn in H; try lia.
  exists p. reflexivity.
Qed.

Lemma Qnum_neg (x : Q) : x < 0 -> exists p, Qnum x = Z.neg p.
Proof.
  intros H. destruct x as [[ | p | p] d]; unfold Qlt in H; cbn in H; try lia.
  exists p. reflexivity.
Qed.

Lemma Qnum_zero (x : Q) : x == 0 -> Qnum x = 0%Z.
Proof. intros H. unfold Qeq in H. cbn in H. lia. Qed.

Lemma fl_pos (x : Q) : 0 < x -> fl x == round_pos x.
Proof. intros H. unfold fl. destruct (Qnum_pos x H) as [p ->]. apply Qred_correct. Qed.

Lemma fl_neg (x : Q) : x < 0 -> fl x == - round_pos (- x).
Proof. intros H. unfold fl. destruct (Qnum_neg x H) as [p ->]. apply Qred_correct. Qed.

Lemma fl_zero (x : Q) : x == 0 -> fl x = 0.
Proof. intros H. unfold fl. rewrite (Qnum_zero x H). reflexivity. Qed.

Lemma fl_cases (x : Q) :
  (x == 0 /\ fl x = 0) \/ (0 < x /\ fl x == round_pos x) \/
  (x < 0 /\ fl x == - round_pos (- x)).
Proof.
  destruct (Q_dec x 0) as [[H | H] | H].
  - right. right. split; [exact H | apply fl_neg, H].
  - right. left. split; [exact H | apply fl_pos, H].
  - left. split; [exact H | apply fl_zero, H].
Qed.

Lemma fl_comp (x y : Q) : x == y -> fl x = fl y.
Proof.
  intros E. unfold fl.
  destruct (Q_dec x 0) as [[H | H] | H].
  - assert (H' : y < 0) by (rewrite <- E; exact H).
    destruct (Qnum_neg x H) as [p ->]. destruct (Qnum_neg y H') as [q ->].
    apply Qred_complete. apply Qopp_comp. apply round_pos_comp; [lra | rewrite E; reflexivity].
  - assert (H' : 0 < y) by (rewrite <- E; exact H).
    destruct (Qnum_pos x H) as [p ->]. destruct (Qnum_pos y H') as [q ->].
    apply Qred_complete. apply round_pos_comp; assumption.
  - assert (H' : y == 0) by (rewrite <- E; exact H).
    rewrite (Qnum_zero x H), (Qnum_zero y H'). reflexivity.
Qed.

Lemma fl_opp (x : Q) : fl (- x) == - fl x.
Proof.
  destruct (fl_cases x) as [[H E] | [[H E] | [H E]]].
  - rewrite E, (fl_zero (- x)) by lra. reflexivity.
  - rewrite E, fl_neg by lra.
    apply Qopp_comp. apply round_pos_comp; [lra | ring].
  - rewrite E, fl_pos by lra. ring.
Qed.

Lemma fl_mono (x y : Q) : x <= y -> fl x <= fl y.
Proof.
  intros H.
  destruct (fl_cases x) as [[Hx Ex] | [[Hx Ex] | [Hx Ex]]];
    destruct (fl_cases y) as [[Hy Ey] | [[Hy Ey] | [Hy Ey]]];
    rewrite Ex, Ey; try (exfalso; lra); try apply Qle_refl.
  - apply round_pos_nonneg, Hy.
  - apply round_pos_mono; assumption.
  - assert (0 <= round_pos (- x)) by (apply round_pos_nonneg; lra). lra.
  - assert (0 <= round_pos (- x)) by (apply round_pos_nonneg; lra).
    assert (0 <= round_pos y) by (apply round_pos_nonneg; lra). lra.
  - assert (round_pos (- y) <= round_pos (- x)) by (apply round_pos_mono; lra). lra.
Qed.

Lemma fl_exact (x : Q) : representable x -> fl x == x.
Proof.
  intros (m & j & Hm & Hj & E).
  destruct (Z.lt_trichotomy m 0) as [Hs | [Hs | Hs]].
  - assert (Hx : x < 0).
    { rewrite E. assert (inject_Z m < 0) by (change 0 with (inject_Z 0); rewrite <- Zlt_Qlt; lia).
      pose proof (pow2_pos j). nra. }
    rewrite fl_neg by exact Hx.
    rewrite (round_pos_exact (- x) (- m) j); [ring | lia | exact Hj | ].
    rewrite E, inject_Z_opp. ring.
  - subst m. rewrite fl_zero; [ | rewrite E; change (inject_Z 0) with 0; ring].
    rewrite E. change (inject_Z 0) with 0. ring.
  - assert (Hx : 0 < x).
    { rewrite E. apply Qmult_lt_0_compat; [ | apply pow2_pos].
      change 0 with (inject_Z 0). rewrite <- Zlt_Qlt. lia. }
    rewrite fl_pos by exact Hx.
    apply (round_pos_exact x m j); [lia | exact Hj | exact E].
Qed.

Lemma representable_Z (n : Z) : (Z.abs n <= 2 ^ 53)%Z -> representable (inject_Z n).
Proof.
  intros H. destruct (Z.eq_dec (Z.abs n) (2 ^ 53)) as [E | E].
  - exists (Z.sgn n), 53%Z. split; [ | split].
    + destruct n; cbn; lia.
    + lia.
    + rewrite (pow2_Z 53) by lia. rewrite <- inject_Z_mult.
      replace (Z.sgn n * 2 ^ 53)%Z with n; [reflexivity | ].
      rewrite <- E. symmetry. rewrite Z.mul_comm. apply Z.abs_sgn.
  - exists n, 0%Z. split; [lia | split; [lia | ]].
    change (pow2 0) with 1. ring.
Qed.

Lemma Qred_inject_Z (n : Z) : Qred (inject_Z n) = inject_Z n.
Proof.
  unfold inject_Z, Qred.
  pose proof (Z.ggcd_gcd n 1) as G. pose proof (Z.ggcd_correct_divisors n 1) as D.
  destruct (Z.ggcd n 1) as [g [aa bb]]. cbn in G. subst g.
  rewrite Z.gcd_1_r in D. destruct D as [D1 D2].
  rewrite !Z.mul_1_l in *. subst aa. subst bb. reflexivity.
Qed.

Lemma fl_canon (x : Q) : Qred (fl x) = fl x.
Proof.
  unfold fl. destruct (Qnum x); [reflexivity | | ];
    apply Qred_complete, Qred_correct.
Qed.

Lemma eq_canon (x y : Q) : Qred x = x -> Qred y = y -> x == y -> x = y.
Proof. intros Hx Hy E. rewrite <- Hx, <- Hy. apply Qred_complete, E. Qed.

(** Whole numbers up to [2^53] in magnitude are numbers of the format. *)
Lemma fl_Z (n : Z) : (Z.abs n <= 2 ^ 53)%Z -> fl (inject_Z n) = inject_Z n.
Proof.
  intros H. apply eq_canon; [apply fl_canon | apply Qred_inject_Z | ].
  apply fl_exact, representable_Z, H.
Qed.

Lemma round_pos_representable (x : Q) : 0 < x -> representable (round_pos x).
Proof.
  intros Hx. set (k := quantum x). set (N := rne (x / pow2 k)).
  destruct (binade_spec x Hx) as [_ B2].
  assert (Hk : (-1074 <= k)%Z) by (unfold k, quantum; lia).
  assert (Hk2 : (binade x + 1 <= k + 53)%Z) by (unfold k, quantum; lia).
  assert (HN0 : (0 <= N)%Z).
  { apply rne_ge_Z. change (inject_Z 0) with 0.
    apply Qle_shift_div_l; [apply pow2_pos | lra]. }
  assert (HN : (N <= 2 ^ 53)%Z).
  { apply rne_le_Z. apply Qmult_le_r with (pow2 k); [apply pow2_pos | ].
    rewrite div_pow2, <- (pow2_Z 53) by lia. rewrite <- pow2_add.
    assert (L : pow2 (binade x + 1) <= pow2 (53 + k)) by (apply pow2_le; lia).
    lra. }
  destruct (Z.eq_dec N (2 ^ 53)) as [E | E].
  - exists 1%Z, (k + 53)%Z. split; [cbn; lia | split; [lia | ]].
    unfold round_pos. fold k. fold N. rewrite E.
    rewrite pow2_add, (pow2_Z 53) by lia. change (inject_Z 1) with 1. ring.
  - exists N, k. split; [lia | split; [exact Hk | ]]. reflexivity.
Qed.

Lemma representable_opp (x : Q) : representable x -> representable (- x).
Proof.
  intros (m & j & Hm & Hj & E). exists (- m)%Z, j.
  split; [lia | split; [exact Hj | ]]. rewrite E, inject_Z_opp. ring.
Qed.

Lemma representable_comp (x y : Q) : x == y -> representable x -> representable y.
Proof. intros E (m & j & Hm & Hj & H). exists m, j. rewrite <- E. auto. Qed.

Lemma fl_representable (x : Q) : representable (fl x).
Proof.
  destruct (fl_cases x) as [[H E] | [[H E] | [H E]]].
  - rewrite E. apply (representable_Z 0). cbn. lia.
  - apply (representable_comp (round_pos x)); [symmetry; exact E | ].
    apply round_pos_representable, H.
  - apply (representable_comp (- round_pos (- x))); [symmetry; exact E | ].
    apply representable_opp, round_pos_representable. lra.
Qed.

Lemma fl_idempotent (x : Q) : fl (fl x) = fl x.
Proof.
  apply eq_canon; [apply fl_canon | apply fl_canon | ].
  apply fl_exact, fl_representable.
Qed.

Lemma is_double_spec (x : Q) : is_double x = true <-> fl x == x.
Proof. unfold is_double. apply Qeq_bool_iff. Qed.

Lemma is_double_representable (x : Q) : is_double x = true -> representable x.
Proof.
  intros H. apply is_double_spec in H.
  apply (representable_comp (fl x)); [exact H | apply fl_representable].
Qed.

Lemma fl_nonneg (x : Q) : 0 <= x -> 0 <= fl x.
Proof. intros H. exact (fl_mono 0 x H). Qed.

Lemma fl_nonpos (x : Q) : x <= 0 -> fl x <= 0.
Proof. intros H. exact (fl_mono x 0 H). Qed.

(** A number of the format below 1 is at most [1 - 2^-53]. *)
Lemma below_one (r : Q) : is_double r = true -> r < 1 -> r <= 1 - pow2 (-53).
Proof.
  intros Hd H1. apply is_double_spec in Hd.
  destruct (Qlt_le_dec (1 # 2) r) as [Hh | Hh].
  - assert (Hr : 0 < r) by lra.
    assert (Hb : binade r = (-1)%Z).
    { apply binade_unique. change (pow2 (-1)) with (/ 2). change (pow2 (-1 + 1)) with 1.
      split; [ | exact H1]. apply Qlt_le_weak. exact Hh. }
    assert (Hq : quantum r = (-53)%Z) by (unfold quantum; rewrite Hb; reflexivity).
    rewrite fl_pos in Hd by exact Hr. unfold round_pos in Hd. rewrite Hq in Hd.
    set (N := rne (r / pow2 (-53))) in *.
    assert (HN : (N < 2 ^ 53)%Z).
    { rewrite Zlt_Qlt. apply Qmult_lt_r with (pow2 (-53)); [apply pow2_pos | ].
      rewrite Hd. rewrite <- (pow2_Z 53) by lia. rewrite <- pow2_add.
      change (pow2 (53 + -53)) with 1. exact H1. }
    assert (HN' : inject_Z N <= inject_Z (2 ^ 53 - 1)) by (rewrite <- Zle_Qle; lia).
    rewrite <- Hd.
    apply Qle_trans with (inject_Z (2 ^ 53 - 1) * pow2 (-53)).
    + apply Qmult_le_compat_r; [exact HN' | apply Qlt_le_weak, pow2_pos].
    + vm_compute. discriminate.
  - apply Qle_trans with (1 # 2); [exact Hh | ]. vm_compute. discriminate.
Qed.

(** Rounding moves a number of the normal range by at most its [2^-53]th
    part. *)
Lemma fl_upper (y : Q) : pow2 (-1022) <= y -> fl y <= y * (1 + pow2 (-53)).
Proof.
  intros Hy. assert (H0 : 0 < y).
  { apply Qlt_le_trans with (pow2 (-1022)); [apply pow2_pos | exact Hy]. }
  rewrite fl_pos by exact H0.
  destruct (binade_spec y H0) as [B1 B2].
  assert (Hb : (-1022 <= binade y)%Z).
  { assert (L : (-1022 < binade y + 1)%Z) by (apply pow2_lt_inv; lra). lia. }
  assert (Hq : quantum y = (binade y - 52)%Z) by (unfold quantum; lia).
  unfold round_pos. rewrite Hq. set (k := (binade y - 52)%Z).
  pose proof (rne_near (y / pow2 k)) as [_ N2].
  pose proof (pow2_pos k) as Hk.
  assert (E : pow2 (binade y) * pow2 (-53) == pow2 k * (1 # 2)).
  { rewrite <- pow2_add. replace (binade y + -53)%Z with (k + -1)%Z by (unfold k; lia).
    rewrite pow2_add. reflexivity. }
  pose proof (div_pow2 y k) as D.
  set (t := y / pow2 k) in *. set (N := inject_Z (rne t)) in *.
  set (P := pow2 (-53)) in *. pose proof (pow2_pos (-53)) as HP. fold P in HP.
  assert (S1 : N * pow2 k <= y + pow2 k * (1 # 2)) by nra.
  assert (S2 : pow2 k * (1 # 2) <= y * P) by (rewrite <- E; nra).
  lra.
Qed.

(** ** Integer parts and 32-bit words *)

Lemma truncZ_inject_Z (z : Z) : truncZ (inject_Z z) = z.
Proof.
  unfold truncZ. rewrite Qfloor_Z, Qceiling_Z. now destruct (Qle_bool 0 (inject_Z z)).
Qed.

Lemma wrapS32_mod (z : Z) : (wrapS32 z mod 2 ^ 32 = z mod 2 ^ 32)%Z.
Proof.
  unfold wrapS32, wrapU32. destruct (_ <? _)%Z.
  - apply Z.mod_mod. lia.
  - rewrite Zminus_mod, Z.mod_mod, Z_mod_same_full, Z.sub_0_r, Z.mod_mod; lia.
Qed.

Lemma wrapS32_bits (z i : Z) :
  (i < 32)%Z -> Z.testbit (wrapS32 z) i = Z.testbit z i.
Proof.
  intros Hi.
  rewrite <- (Z.mod_pow2_bits_low (wrapS32 z) 32 i Hi), wrapS32_mod.
  now apply Z.mod_pow2_bits_low.
Qed.

Lemma wrapU32_bits (z i : Z) :
  Z.testbit (wrapU32 z) i = ((i <? 32)%Z && Z.testbit z i)%bool.
Proof. unfold wrapU32. apply Z.testbit_mod_pow2. lia. Qed.

Lemma wrapU32_range (z : Z) : (0 <= wrapU32 z < 2 ^ 32)%Z.
Proof. unfold wrapU32. apply Z.mod_pos_bound. lia. Qed.

Lemma byte_bits_high (v i : Z) :
  (0 <= v <= 255)%Z -> (8 <= i)%Z -> Z.testbit v i = false.
Proof.
  intros Hv Hi. rewrite <- (Z.mod_small v (2 ^ 8)) by lia.
  apply Z.mod_pow2_bits_high. lia.
Qed.

Lemma bits_255 (i : Z) : (0 <= i)%Z -> Z.testbit 255 i = (i <? 8)%Z.
Proof. intros Hi. change 255%Z with (Z.ones 8). apply Z.testbit_ones_nonneg; lia. Qed.

Lemma shift_count (n : Z) :
  (0 <= n < 32)%Z -> (ToUint32 (inject_Z n) mod 32 = n)%Z.
Proof.
  intros Hn. unfold ToUint32, wrapU32. rewrite truncZ_inject_Z.
  rewrite (Z.mod_small n (2 ^ 32)) by lia. apply Z.mod_small. lia.
Qed.

(** Rewriting the test of a bit of a word built from the operators, with
    the side conditions left to [lia]. *)
Ltac bits :=
  repeat first
    [ rewrite Z.land_spec | rewrite Z.lor_spec
    | rewrite wrapU32_bits
    | rewrite wrapS32_bits by lia
    | rewrite Z.shiftl_spec by lia
    | rewrite Z.shiftr_spec by lia
    | rewrite bits_255 by lia ].

(** The channel extracted from a stored word by [(p >> k) & 0xff]. *)
Lemma channel_of_word (w k : Z) :
  (k = 0 \/ k = 8 \/ k = 16 \/ k = 24)%Z ->
  Z.land (Z.shiftr (wrapS32 w) k) 255 = Z.land (Z.shiftr w k) 255.
Proof.
  intros Hk. apply Z.bits_inj'. intros i Hi. bits.
  destruct (Z.ltb_spec i 8) as [H8|H8]; simpl.
  - rewrite !andb_true_r. apply wrapS32_bits. lia.
  - now rewrite !andb_false_r.
Qed.

Lemma channel_range (w k : Z) : (0 <= Z.land (Z.shiftr w k) 255 <= 255)%Z.
Proof.
  change 255%Z with (Z.ones 8) at 1 2. rewrite Z.land_ones by lia.
  pose proof (Z.mod_pos_bound (Z.shiftr w k) (2 ^ 8)). lia.
Qed.

Lemma red_word (w : Z) : red (inject_Z w) = inject_Z (Z.land w 255).
Proof.
  unfold red, bitand, ToInt32. rewrite !truncZ_inject_Z. f_equal.
  change (wrapS32 255) with 255%Z.
  rewrite <- (Z.shiftr_0_r (wrapS32 w)), channel_of_word by lia.
  now rewrite Z.shiftr_0_r.
Qed.

Lemma sar_word (w k : Z) :
  (0 <= k < 32)%Z -> sar (inject_Z w) (inject_Z k) = inject_Z (Z.shiftr (wrapS32 w) k).
Proof.
  intros Hk. unfold sar, ToInt32. now rewrite shift_count, truncZ_inject_Z.
Qed.

Lemma wrapS32_idem (z : Z) : wrapS32 (wrapS32 z) = wrapS32 z.
Proof. unfold wrapS32 at 1 3. unfold wrapU32. now rewrite wrapS32_mod. Qed.

Lemma channel_word (w k : Z) :
  (k = 8 \/ k = 16 \/ k = 24)%Z ->
  bitand (sar (inject_Z w) (inject_Z k)) 255 = inject_Z (Z.land (Z.shiftr w k) 255).
Proof.
  intros Hk. rewrite sar_word by lia.
  unfold bitand, ToInt32. rewrite !truncZ_inject_Z. f_equal.
  change (wrapS32 255) with 255%Z.
  apply Z.bits_inj'. intros i Hi. bits.
  destruct (Z.ltb_spec i 8) as [H8|H8]; simpl.
  - rewrite !andb_true_r. rewrite wrapS32_bits by lia. now bits.
  - now rewrite !andb_false_r.
Qed.

(** The bits of the word that [(a << 24) | (b << 16) | (g << 8) | r] stores
    in the typed array, for channel values whose integer parts are bytes. *)
Lemma pack_bits (r g b a : number) (i : Z) :
  (0 <= truncZ r <= 255)%Z -> (0 <= truncZ g <= 255)%Z ->
  (0 <= truncZ b <= 255)%Z -> (0 <= truncZ a <= 255)%Z ->
  (0 <= i)%Z ->
  Z.testbit (ToUint32 (pack r g b a)) i =
    if (i <? 8)%Z then Z.testbit (truncZ r) i
    else if (i <? 16)%Z then Z.testbit (truncZ g) (i - 8)
    else if (i <? 24)%Z then Z.testbit (truncZ b) (i - 16)
    else if (i <? 32)%Z then Z.testbit (truncZ a) (i - 24)
    else false.
Proof.
  intros Hr Hg Hb Ha Hi.
  unfold pack, bitor, shl, ToUint32, ToInt32. rewrite !truncZ_inject_Z.
  change (wrapU32 (truncZ 24%Q) mod 32)%Z with 24%Z.
  change (wrapU32 (truncZ 16%Q) mod 32)%Z with 16%Z.
  change (wrapU32 (truncZ 8%Q) mod 32)%Z with 8%Z.
  rewrite wrapU32_bits.
  destruct (Z.ltb_spec i 32) as [H32|H32]; cbn [andb].
  2:{ repeat (match goal with |- context [(?x <? ?y)%Z] =>
                destruct (Z.ltb_spec x y); try lia end). }
  bits.
  destruct (Z.ltb_spec i 8); [|destruct (Z.ltb_spec i 16); [|destruct (Z.ltb_spec i 24)]].
  - rewrite !(Z.testbit_neg_r _ (i - _)) by lia. reflexivity.
  - rewrite !(Z.testbit_neg_r _ (i - 24)), !(Z.testbit_neg_r _ (i - 16)) by lia.
    rewrite (byte_bits_high (truncZ r) i) by lia. cbn [orb]. now rewrite orb_false_r.
  - rewrite !(Z.testbit_neg_r _ (i - 24)) by lia.
    rewrite (byte_bits_high (truncZ r) i), (byte_bits_high (truncZ g) (i - 8)) by lia.
    cbn [orb]. now rewrite !orb_false_r.
  - rewrite (byte_bits_high (truncZ r) i), (byte_bits_high (truncZ g) (i - 8)),
      (byte_bits_high (truncZ b) (i - 16)) by lia.
    now rewrite !orb_false_r.
Qed.

Lemma pack_channels (r g b a : number) :
  (0 <= truncZ r <= 255)%Z -> (0 <= truncZ g <= 255)%Z ->
  (0 <= truncZ b <= 255)%Z -> (0 <= truncZ a <= 255)%Z ->
  let w := ToUint32 (pack r g b a) in
  byte_at 0 w = truncZ r /\ byte_at 8 w = truncZ g /\
  byte_at 16 w = truncZ b /\ byte_at 24 w = truncZ a.
Proof.
  intros Hr Hg Hb Ha w. unfold byte_at, w.
  repeat split; apply Z.bits_inj'; intros i Hi;
    rewrite Z.land_spec, Z.shiftr_spec, bits_255, pack_bits by lia;
    (destruct (Z.ltb_spec i 8) as [H8|H8];
     [ rewrite andb_true_r;
       repeat (match goal with |- context [(?x <? ?y)%Z] =>
                 destruct (Z.ltb_spec x y); try lia end);
       f_equal; lia
     | rewrite andb_false_r; symmetry; apply byte_bits_high; lia ]).
Qed.

(** ** Lists updated in place *)

Lemma store_at_length (i : nat) (v : Z) (l : list Z) :
  List.length (store_at i v l) = List.length l.
Proof.
  revert i; induction l as [|x l IH]; intros [|i]; simpl; auto.
Qed.

Lemma firstn_store_at (i : nat) (v : Z) (l : list Z) :
  (i < List.length l)%nat -> firstn (S i) (store_at i v l) = firstn i l ++ [v].
Proof.
  revert i; induction l as [|x l IH]; intros [|i] Hi; simpl in *; try lia.
  - reflexivity.
  - f_equal. apply IH. lia.
Qed.

Lemma skipn_store_at (i : nat) (v : Z) (l : list Z) :
  skipn (S i) (store_at i v l) = skipn (S i) l.
Proof.
  revert i; induction l as [|x l IH]; intros [|i]; try reflexivity.
  change (skipn (S i) (store_at i v l) = skipn (S i) l). apply IH.
Qed.

Lemma skipn_nth (i : nat) (l : list Z) :
  (i < List.length l)%nat -> skipn i l = nth i l 0%Z :: skipn (S i) l.
Proof.
  revert i; induction l as [|x l IH]; intros [|i] Hi; simpl in *; try lia.
  - reflexivity.
  - apply IH. lia.
Qed.

Lemma mapi_from_length (h : nat -> Z -> Z) (i : nat) (l : list Z) :
  List.length (mapi_from h i l) = List.length l.
Proof. revert i; induction l; intros; simpl; auto. Qed.

Lemma mapi_from_nth (h : nat -> Z -> Z) (i j : nat) (l : list Z) :
  (j < List.length l)%nat ->
  nth j (mapi_from h i l) 0%Z = h (i + j)%nat (nth j l 0%Z).
Proof.
  revert i j; induction l as [|x l IH]; intros i [|j] Hj; simpl in *; try lia.
  - now rewrite Nat.add_0_r.
  - rewrite IH by lia. f_equal. lia.
Qed.

Lemma receiver_eqb_eq (a b : receiver) : receiver_eqb a b = true <-> a = b.
Proof.
  destruct a as [| |[i|i]], b as [| |[j|j]]; simpl; split; intros H;
    try reflexivity; try discriminate.
  - apply Nat.eqb_eq in H. now subst.
  - inversion H. apply Nat.eqb_refl.
  - apply Nat.eqb_eq in H. now subst.
  - inversion H. apply Nat.eqb_refl.
Qed.

Lemma receiver_eqb_refl (a : receiver) : receiver_eqb a a = true.
Proof. now apply receiver_eqb_eq. Qed.

(** ** The loop over the pixels of the acquired buffer *)

Section PixelLoop.

Variable c : receiver.        (* the surface [#pixels] views *)
Variable o : P5Grain.         (* the object, unchanged by the loop *)
Variable cpp : nat.           (* draws taken per pixel *)
Variable D : nat.             (* draws taken before the loop *)
Variable f : nat -> Z -> Z.   (* new word, from the draw index and the old word *)
Variable body : nat -> M unit.

Hypothesis body_spec : forall (i : nat) (t : state),
  self t = o ->
  exists t',
    body i t = Ret tt t' /\ self t' = o /\
    draws (host t') = (draws (host t) + cpp)%nat /\
    trace (host t') = trace (host t) /\
    raises (host t') = raises (host t) /\
    pixels_of c t' = store_at i (f (draws (host t)) (nth i (pixels_of c t) 0%Z))
                       (pixels_of c t) /\
    forall c', c' <> c -> surfaces (host t') c' = surfaces (host t) c'.

Lemma for_loop_pixels (k : nat) : forall (i : nat) (t : state),
  self t = o ->
  draws (host t) = (D + cpp * i)%nat ->
  (i + k = List.length (pixels_of c t))%nat ->
  exists t',
    for_loop body i k t = Ret tt t' /\ self t' = o /\
    draws (host t') = (D + cpp * (i + k))%nat /\
    trace (host t') = trace (host t) /\
    raises (host t') = raises (host t) /\
    pixels_of c t' =
      firstn i (pixels_of c t)
      ++ mapi_from (fun j => f (D + cpp * j)%nat) i (skipn i (pixels_of c t)) /\
    forall c', c' <> c -> surfaces (host t') c' = surfaces (host t) c'.
Proof.
  induction k as [|k IH]; intros i t Ho Hd Hlen.
  - exists t. simpl. repeat split; auto.
    + rewrite Hd. f_equal. lia.
    + rewrite skipn_all2 by lia. simpl. rewrite app_nil_r.
      symmetry. apply firstn_all2. lia.
  - destruct (body_spec i t Ho) as (t1 & Hb & Ho1 & Hd1 & Ht1 & Hr1 & Hp1 & Hs1).
    destruct (IH (S i) t1) as (t2 & Hl & Ho2 & Hd2 & Ht2 & Hr2 & Hp2 & Hs2).
    + exact Ho1.
    + rewrite Hd1, Hd. lia.
    + rewrite Hp1, store_at_length. lia.
    + exists t2. simpl. unfold bind. rewrite Hb, Hl. repeat split.
      * exact Ho2.
      * rewrite Hd2. f_equal. lia.
      * congruence.
      * congruence.
      * rewrite Hp2, Hp1, firstn_store_at, skipn_store_at by lia.
        rewrite (skipn_nth i (pixels_of c t)) by lia. simpl.
        rewrite <- app_assoc. simpl. now rewrite Hd.
      * intros c' Hc. rewrite Hs2, Hs1; auto.
Qed.

End PixelLoop.

(** ** One pass of each grain loop *)

Lemma with_surface_same (c : receiver) (sf : surface) (w : world) :
  surfaces (with_surface c sf w) c = sf.
Proof. simpl. now rewrite receiver_eqb_refl. Qed.

Lemma with_surface_other (c c' : receiver) (sf : surface) (w : world) :
  c' <> c -> surfaces (with_surface c sf w) c' = surfaces w c'.
Proof.
  intros Hc. simpl. destruct (receiver_eqb c' c) eqn:E; auto.
  apply receiver_eqb_eq in E. contradiction.
Qed.

Lemma monochromatic_body_spec (c : receiver) (o : P5Grain) (src : source)
    (m : randomMethod) (min max : number) (upd : bool) (i : nat) (t : state) :
  pixels o = Some c -> random o = Some src -> randomMinMax o = Some m ->
  self t = o ->
  exists t',
    monochromatic_body min max upd i t = Ret tt t' /\ self t' = o /\
    draws (host t') = (draws (host t) + 1)%nat /\
    trace (host t') = trace (host t) /\
    raises (host t') = raises (host t) /\
    pixels_of c t' =
      store_at i
        (monochromatic_word upd (draw_value m min max (src (draws (host t))))
           (nth i (pixels_of c t) 0%Z))
        (pixels_of c t) /\
    forall c', c' <> c -> surfaces (host t') c' = surfaces (host t) c'.
Proof.
  intros Hp Hs Hm Ho. destruct t as [ot wt]. cbn [self host] in *. subst ot.
  cbv [monochromatic_body call_randomMinMax bind get_self self].
  rewrite Hm.
  assert (Hdraw : forall k : number -> M unit,
    (match m with
     | randomInt_method => randomInt min max
     | randomFloat_method => randomFloat min max
     end) (mkState o wt) = Ret (draw_value m min max (src (draws wt)))
       (mkState o (mkWorld (surfaces wt) (S (draws wt)) (trace wt) (raises wt)
                     (global_random wt) (instance_random wt)))).
  { intros _. destruct m; cbv [randomInt randomFloat bind call_random self host ret];
      rewrite Hs; reflexivity. }
  rewrite (Hdraw (fun _ => ret tt)).
  repeat (cbv [read_pixel write_pixel self host]; rewrite Hp).
  eexists. split; [reflexivity|].
  cbv [pixels_of monochromatic_word]. cbn [self host draws trace raises surfaces].
  rewrite with_surface_same. cbn [s_pixels].
  split; [reflexivity|].
  split; [unfold with_surface; cbn [draws]; lia|].
  split; [reflexivity|]. split; [reflexivity|]. split; [reflexivity|].
  intros c' Hc. now rewrite with_surface_other by exact Hc.
Qed.

Lemma call_randomMinMax_spec (o : P5Grain) (src : source) (m : randomMethod)
    (min max : number) (wt : world) :
  random o = Some src -> randomMinMax o = Some m ->
  call_randomMinMax min max (mkState o wt) =
    Ret (draw_value m min max (src (draws wt)))
      (mkState o (mkWorld (surfaces wt) (S (draws wt)) (trace wt) (raises wt)
                    (global_random wt) (instance_random wt))).
Proof.
  intros Hs Hm. cbv [call_randomMinMax bind get_self self]. rewrite Hm.
  destruct m; cbv [randomInt randomFloat bind call_random self host ret];
    rewrite Hs; reflexivity.
Qed.

Lemma chromatic_body_spec (c : receiver) (o : P5Grain) (src : source)
    (m : randomMethod) (min max : number) (upd : bool) (i : nat) (t : state) :
  pixels o = Some c -> random o = Some src -> randomMinMax o = Some m ->
  self t = o ->
  exists t',
    chromatic_body min max upd i t = Ret tt t' /\ self t' = o /\
    draws (host t') = (draws (host t) + (if upd then 4 else 3))%nat /\
    trace (host t') = trace (host t) /\
    raises (host t') = raises (host t) /\
    pixels_of c t' =
      store_at i
        (let d := draws (host t) in
         chromatic_word upd
           (draw_value m min max (src d))
           (draw_value m min max (src (d + 1)%nat))
           (draw_value m min max (src (d + 2)%nat))
           (draw_value m min max (src (d + 3)%nat))
           (nth i (pixels_of c t) 0%Z))
        (pixels_of c t) /\
    forall c', c' <> c -> surfaces (host t') c' = surfaces (host t) c'.
Proof.
  intros Hp Hs Hm Ho. destruct t as [ot wt]. cbn [self host] in *. subst ot.
  cbv [chromatic_body bind]. cbv [read_pixel self host]. rewrite Hp.
  rewrite !(call_randomMinMax_spec o src m min max _ Hs Hm). cbn [draws].
  destruct upd.
  - cbv [bind]. rewrite (call_randomMinMax_spec o src m min max _ Hs Hm).
    cbv [write_pixel self host]. rewrite Hp.
    eexists. split; [reflexivity|].
    cbv [pixels_of chromatic_word]. cbn [self host draws trace raises surfaces].
    rewrite with_surface_same. cbn [s_pixels surfaces].
    replace (S (draws wt)) with (draws wt + 1)%nat by lia.
    replace (S (draws wt + 1)) with (draws wt + 2)%nat by lia.
    replace (S (draws wt + 2)) with (draws wt + 3)%nat by lia.
    split; [reflexivity|].
    split; [unfold with_surface; cbn [draws]; lia|].
    split; [reflexivity|]. split; [reflexivity|]. split; [reflexivity|].
    intros c' Hc. now rewrite with_surface_other by exact Hc.
  - cbv [write_pixel self host]. rewrite Hp.
    eexists. split; [reflexivity|].
    cbv [pixels_of chromatic_word]. cbn [self host draws trace raises surfaces].
    rewrite with_surface_same. cbn [s_pixels surfaces].
    replace (S (draws wt)) with (draws wt + 1)%nat by lia.
    replace (S (draws wt + 1)) with (draws wt + 2)%nat by lia.
    split; [reflexivity|].
    split; [unfold with_surface; cbn [draws]; lia|].
    split; [reflexivity|]. split; [reflexivity|]. split; [reflexivity|].
    intros c' Hc. now rewrite with_surface_other by exact Hc.
Qed.

(** ** Clamping and repacking *)

Lemma truncZ_comp (x y : number) : x == y -> truncZ x = truncZ y.
Proof.
  intros H. unfold truncZ. rewrite (Qleb_comp 0 0 (Qeq_refl 0) x y H).
  now rewrite (Qfloor_comp x y H), (Qceiling_comp x y H).
Qed.

Lemma clamp_range (v : number) : 0 <= clamp v <= 255.
Proof.
  unfold clamp, Math_max, Math_min. split.
  - apply Q.le_max_l.
  - apply Q.max_lub; [discriminate | apply Q.le_min_l].
Qed.

Lemma truncZ_byte (v : number) : 0 <= v <= 255 -> (0 <= truncZ v <= 255)%Z.
Proof.
  intros [H0 H255]. unfold truncZ.
  rewrite (proj2 (Qle_bool_iff 0 v) H0).
  split.
  - rewrite <- (Qfloor_Z 0). now apply Qfloor_resp_le.
  - rewrite <- (Qfloor_Z 255). now apply Qfloor_resp_le.
Qed.

Lemma shifted_range (v : Z) (offset : number) : (0 <= shifted v offset <= 255)%Z.
Proof. apply truncZ_byte, clamp_range. Qed.

(** Clamping and then cutting to the integer part is clamping the floor. *)
Lemma truncZ_clamp (x : number) : truncZ (clamp x) = clampZ (Qfloor x).
Proof.
  unfold clampZ.
  pose proof (clamp_range x) as [H0 H255].
  unfold truncZ. rewrite (proj2 (Qle_bool_iff 0 (clamp x)) H0).
  unfold clamp, Math_max, Math_min in *.
  destruct (Q.min_spec 255 x) as [[Hc Hm]|[Hc Hm]];
    destruct (Q.max_spec 0 (Qmin 255 x)) as [[Hc' Hm']|[Hc' Hm']];
    rewrite (Qfloor_comp _ _ Hm'); rewrite Hm in Hc'.
  - rewrite (Qfloor_comp _ _ Hm). change (Qfloor 255) with 255%Z.
    assert (H : (255 <= Qfloor x)%Z).
    { change 255%Z with (Qfloor 255). apply Qfloor_resp_le. now apply Qlt_le_weak. }
    lia.
  - exfalso. revert Hc'. apply Qlt_not_le. reflexivity.
  - rewrite (Qfloor_comp _ _ Hm).
    assert (H1 : (Qfloor x <= 255)%Z).
    { change 255%Z with (Qfloor 255). now apply Qfloor_resp_le. }
    assert (H2 : (0 <= Qfloor x)%Z).
    { change 0%Z with (Qfloor 0). apply Qfloor_resp_le. now apply Qlt_le_weak. }
    lia.
  - change (Qfloor 0) with 0%Z.
    assert (H1 : (Qfloor x <= 0)%Z).
    { change 0%Z with (Qfloor 0). now apply Qfloor_resp_le. }
    lia.
Qed.

(** The repacked channel is the floor of the rounded sum, clamped. *)
Lemma shifted_floor (v : Z) (offset : number) :
  shifted v offset = clampZ (Qfloor (fl (inject_Z v + offset))).
Proof. apply truncZ_clamp. Qed.

(** With an integer offset the sum is exact. *)
Lemma shifted_integer (v k : Z) (offset : number) :
  offset == inject_Z k -> (Z.abs (v + k) <= 2 ^ 53)%Z ->
  shifted v offset = clampZ (v + k).
Proof.
  intros H Hk. rewrite shifted_floor.
  rewrite (fl_comp _ (inject_Z (v + k))) by (rewrite H, inject_Z_plus; reflexivity).
  rewrite fl_Z by exact Hk. now rewrite Qfloor_Z.
Qed.

Lemma green_word (w : Z) : green (inject_Z w) = inject_Z (byte_at 8 w).
Proof. apply (channel_word w 8). lia. Qed.

Lemma blue_word (w : Z) : blue (inject_Z w) = inject_Z (byte_at 16 w).
Proof. apply (channel_word w 16). lia. Qed.

Lemma alpha_word (w : Z) : alpha (inject_Z w) = inject_Z (byte_at 24 w).
Proof. apply (channel_word w 24). lia. Qed.

Lemma red_word' (w : Z) : red (inject_Z w) = inject_Z (byte_at 0 w).
Proof. rewrite red_word. unfold byte_at. now rewrite Z.shiftr_0_r. Qed.

Lemma byte_at_range (k w : Z) : (0 <= byte_at k w <= 255)%Z.
Proof. apply channel_range. Qed.

Lemma chromatic_word_bytes (upd : bool) (dr dg db da : number) (w : Z) :
  let w' := chromatic_word upd dr dg db da w in
  byte_at 0 w' = shifted (byte_at 0 w) dr /\
  byte_at 8 w' = shifted (byte_at 8 w) dg /\
  byte_at 16 w' = shifted (byte_at 16 w) db /\
  byte_at 24 w' = (if upd then shifted (byte_at 24 w) da else byte_at 24 w) /\
  (0 <= w' < 2 ^ 32)%Z.
Proof.
  intros w'. unfold w', chromatic_word.
  rewrite red_word', green_word, blue_word, alpha_word.
  split; [|split; [|split; [|split]]];
    try apply wrapU32_range;
    destruct upd;
    match goal with
    | |- context [pack ?r ?g ?b ?a] =>
        let H := fresh in
        assert (H : (0 <= truncZ a <= 255)%Z)
          by (first [ apply shifted_range
                    | rewrite truncZ_inject_Z; apply byte_at_range ]);
        pose proof (pack_channels r g b a (shifted_range _ _) (shifted_range _ _)
                      (shifted_range _ _) H) as (H0 & H8 & H16 & H24)
    end;
    first [ exact H0 | exact H8 | exact H16 | exact H24
          | rewrite H24; apply truncZ_inject_Z ].
Qed.

Lemma monochromatic_word_bytes (upd : bool) (offset : number) (w : Z) :
  let w' := monochromatic_word upd offset w in
  byte_at 0 w' = shifted (byte_at 0 w) offset /\
  byte_at 8 w' = shifted (byte_at 8 w) offset /\
  byte_at 16 w' = shifted (byte_at 16 w) offset /\
  byte_at 24 w' = (if upd then shifted (byte_at 24 w) offset else byte_at 24 w) /\
  (0 <= w' < 2 ^ 32)%Z.
Proof.
  assert (E : monochromatic_word upd offset w =
              chromatic_word upd offset offset offset offset w)
    by (unfold monochromatic_word, chromatic_word; reflexivity).
  rewrite E. apply chromatic_word_bytes.
Qed.

(** A 32-bit word is determined by its four bytes. *)
Lemma word_of_bytes (w : Z) :
  (0 <= w < 2 ^ 32)%Z ->
  (w = byte_at 0 w + 2 ^ 8 * byte_at 8 w + 2 ^ 16 * byte_at 16 w
       + 2 ^ 24 * byte_at 24 w)%Z.
Proof.
  intros Hw. unfold byte_at. change 255%Z with (Z.ones 8).
  rewrite !Z.land_ones, !Z.shiftr_div_pow2 by lia.
  change (2 ^ 0)%Z with 1%Z. rewrite Z.div_1_r.
  change (2 ^ 8)%Z with 256%Z. change (2 ^ 16)%Z with 65536%Z.
  change (2 ^ 24)%Z with 16777216%Z. change (2 ^ 32)%Z with 4294967296%Z in Hw.
  Z.div_mod_to_equations. lia.
Qed.

(** ** Host calls *)

Lemma bind_ext {A B} (m : M A) (k1 k2 : A -> M B) (s : state) :
  (forall a s', m s = Ret a s' -> k1 a s' = k2 a s') ->
  bind m k1 s = bind m k2 s.
Proof.
  intros H. unfold bind. destruct (m s) as [a s'| |]; auto.
Qed.

Lemma bind_assoc {A B C} (m : M A) (k : A -> M B) (k' : B -> M C) (s : state) :
  bind (bind m k) k' s = bind m (fun a => bind (k a) k') s.
Proof. unfold bind. now destruct (m s). Qed.

Lemma bind_ext' {A B} (m1 m2 : M A) (k : A -> M B) (s : state) :
  m1 s = m2 s -> bind m1 k s = bind m2 k s.
Proof. intros H. unfold bind. now rewrite H. Qed.

Lemma call_surfaces (e : event) (s s' : state) :
  call e s = Ret tt s' -> surfaces (host s') = surfaces (host s) /\ self s' = self s.
Proof.
  unfold call. destruct (raises _ _ _); [discriminate|].
  intros H. injection H as <-. now split.
Qed.

Lemma call_ok (e : event) (s : state) :
  raises (host s) (trace (host s)) e = false ->
  call e s = Ret tt (mkState (self s)
                       (mkWorld (surfaces (host s)) (draws (host s))
                          (trace (host s) ++ [e]) (raises (host s))
                          (global_random (host s)) (instance_random (host s)))).
Proof. intros H. unfold call. now rewrite H. Qed.

Lemma resolve_with_pixelsData (pg : option pgRef) (c : receiver) (w h d : number)
    (o : P5Grain) :
  resolve pg (with_pixelsData c w h d o) = resolve pg o.
Proof. reflexivity. Qed.

(** The world after one more host call. *)
Lemma loadPixels_ok (pg : option pgRef) (o : P5Grain) (w : world) :
  let c := resolve pg o in
  raises w (trace w) (EvLoadPixels c) = false ->
  loadPixels pg (mkState o w) =
    Ret tt (mkState
              (with_pixelsData c (s_width (surfaces w c)) (s_height (surfaces w c))
                 (s_density (surfaces w c)) o)
              (mkWorld (surfaces w) (draws w) (trace w ++ [EvLoadPixels c])
                 (raises w) (global_random w) (instance_random w))).
Proof.
  intros c H. unfold loadPixels, bind, get_self, get_host, setPixelsData, set_self.
  cbn [self host]. fold c. rewrite (call_ok _ (mkState o w) H). reflexivity.
Qed.

Lemma updatePixels_ok (pg : option pgRef) (s : state) :
  let c := resolve pg (self s) in
  raises (host s) (trace (host s)) (EvUpdatePixels c) = false ->
  updatePixels pg s =
    Ret tt (mkState (self s)
              (mkWorld (surfaces (host s)) (draws (host s))
                 (trace (host s) ++ [EvUpdatePixels c]) (raises (host s))
                 (global_random (host s)) (instance_random (host s)))).
Proof.
  intros c H. unfold updatePixels, bind, get_self. fold c. now apply call_ok.
Qed.

Lemma prepareRandomBounds_eq (min max : number) (s : state) :
  prepareRandomBounds min max s = Ret (bounds_in (randomMode (self s)) min max) s.
Proof.
  unfold prepareRandomBounds, bind, get_self, bounds_in, ret.
  now destruct (match randomMode (self s) with Some m => _ | None => _ end).
Qed.

Lemma pixels_length_eq (c : receiver) (s : state) :
  pixels (self s) = Some c ->
  pixels_length s = Ret (List.length (pixels_of c s)) s.
Proof. intros H. unfold pixels_length. now rewrite H. Qed.

(** ** Monochromatic grain *)

(** C1. On a host whose load and update primitives do not raise, with a
    configured random source and an amount that does not overflow,
    [applyMonochromaticGrain] returns; it has taken exactly one draw per
    pixel of the acquired buffer (pixel [i] gets the draw of index
    [draws + i]); it has called the host twice, to load and to update the
    pixels of the target; in every stored word the bytes at bits 0-7, 8-15
    and 16-23 are the old R, G, B plus that one offset, the sum being rounded
    to binary64, cut to its floor and clamped to 0..255, and the byte at bits
    24-31 is treated the same way when [shouldUpdateAlpha] is [true] and is
    the old A in every other case.  In particular a pixel (100,100,100,255)
    whose offset is 10 becomes (110,110,110,255) when alpha is excluded. *)
Theorem applyMonochromaticGrain_spec
    (s : state) (amount : number) (shouldUpdateAlpha : option bool)
    (pg : option pgRef) (src : source) (m : randomMethod) :
  random (self s) = Some src ->
  randomMinMax (self s) = Some m ->
  no_overflow amount ->
  let c := resolve pg (self s) in
  raises (host s) (trace (host s)) (EvLoadPixels c) = false ->
  raises (host s) (trace (host s) ++ [EvLoadPixels c]) (EvUpdatePixels c) = false ->
  let bounds := bounds_in (randomMode (self s)) (- amount) amount in
  let px := pixels_of c s in
  exists s',
    applyMonochromaticGrain amount shouldUpdateAlpha pg s = Ret tt s' /\
    draws (host s') = (draws (host s) + List.length px)%nat /\
    trace (host s') = trace (host s) ++ [EvLoadPixels c; EvUpdatePixels c] /\
    List.length (pixels_of c s') = List.length px /\
    forall i, (i < List.length px)%nat ->
      let w := nth i px 0%Z in
      let w' := nth i (pixels_of c s') 0%Z in
      let offset :=
        draw_value m (fst bounds) (snd bounds) (src (draws (host s) + i)%nat) in
      let moved (v : Z) :=
        Z.max 0 (Z.min 255 (Qfloor (fl (inject_Z v + offset)))) in
      byte_at 0 w' = moved (byte_at 0 w) /\
      byte_at 8 w' = moved (byte_at 8 w) /\
      byte_at 16 w' = moved (byte_at 16 w) /\
      (shouldUpdateAlpha = Some true -> byte_at 24 w' = moved (byte_at 24 w)) /\
      (shouldUpdateAlpha <> Some true -> byte_at 24 w' = byte_at 24 w) /\
      (0 <= w' < 2 ^ 32)%Z /\
      (shouldUpdateAlpha <> Some true -> offset == 10 ->
       byte_at 0 w = 100%Z -> byte_at 8 w = 100%Z ->
       byte_at 16 w = 100%Z -> byte_at 24 w = 255%Z ->
       byte_at 0 w' = 110%Z /\ byte_at 8 w' = 110%Z /\
       byte_at 16 w' = 110%Z /\ byte_at 24 w' = 255%Z).
Proof.
  intros Hs Hm _ c Hload Hupd bounds px.
  set (upd := to_bool shouldUpdateAlpha).
  destruct s as [o w]. cbn [self host] in *.
  set (sf := surfaces w c).
  set (o1 := with_pixelsData c (s_width sf) (s_height sf) (s_density sf) o).
  set (w1 := mkWorld (surfaces w) (draws w) (trace w ++ [EvLoadPixels c])
               (raises w) (global_random w) (instance_random w)).
  destruct (for_loop_pixels c o1 1 (draws w)
              (fun d => monochromatic_word upd
                          (draw_value m (fst bounds) (snd bounds) (src d)))
              (monochromatic_body (fst bounds) (snd bounds) upd)
              (fun i t => monochromatic_body_spec c o1 src m (fst bounds)
                            (snd bounds) upd i t eq_refl Hs Hm)
              (List.length px) 0%nat (mkState o1 w1))
    as (t & Hloop & Ho & Hd & Ht & Hr & Hp & _).
  { reflexivity. }
  { cbn. lia. }
  { reflexivity. }
  exists (mkState (self t)
            (mkWorld (surfaces (host t)) (draws (host t))
               (trace (host t) ++ [EvUpdatePixels c]) (raises (host t))
               (global_random (host t)) (instance_random (host t)))).
  assert (Hpx : pixels_of c t =
                mapi_from (fun j => monochromatic_word upd
                             (draw_value m (fst bounds) (snd bounds)
                                (src (draws w + 1 * j)%nat))) 0 px).
  { rewrite Hp. reflexivity. }
  split; [|split; [|split; [|split]]].
  - unfold applyMonochromaticGrain, bind.
    rewrite (loadPixels_ok pg o w Hload). cbv beta iota.
    rewrite prepareRandomBounds_eq. cbv beta iota.
    change (bounds_in _ (- amount) amount) with bounds.
    rewrite (surjective_pairing bounds). cbv beta iota.
    rewrite (pixels_length_eq c) by reflexivity. cbv beta iota.
    fold c sf o1 w1 upd. change (pixels_of c (mkState o1 w1)) with px.
    rewrite Hloop.
    rewrite updatePixels_ok; rewrite Ho; change (resolve pg o1) with c.
    + reflexivity.
    + rewrite Hr, Ht. exact Hupd.
  - cbn [host draws]. rewrite Hd. lia.
  - cbn [host trace]. rewrite Ht. cbn [w1 host trace]. now rewrite <- app_assoc.
  - unfold pixels_of at 1. cbn [host surfaces].
    fold (pixels_of c t). rewrite Hpx. apply mapi_from_length.
  - intros i Hi. cbv zeta.
    match goal with
    | |- context [pixels_of c ?st] => change (pixels_of c st) with (pixels_of c t)
    end.
    rewrite Hpx, mapi_from_nth by exact Hi.
    replace (draws w + 1 * (0 + i))%nat with (draws w + i)%nat by lia.
    set (w0 := nth i px 0%Z).
    set (offset := draw_value m (fst bounds) (snd bounds) (src (draws w + i)%nat)).
    set (w' := monochromatic_word upd offset w0).
    assert (Hw' : w' = monochromatic_word upd offset w0) by reflexivity.
    destruct (monochromatic_word_bytes upd offset w0) as (B0 & B8 & B16 & B24 & Bw).
    rewrite <- Hw' in B0, B8, B16, B24, Bw.
    rewrite shifted_floor in B0, B8, B16. unfold clampZ in B0, B8, B16.
    assert (Hon : shouldUpdateAlpha = Some true ->
                  byte_at 24 w' =
                  Z.max 0 (Z.min 255 (Qfloor (fl (inject_Z (byte_at 24 w0) + offset))))).
    { intros E. rewrite B24. unfold upd. rewrite E. cbn [to_bool].
      apply shifted_floor. }
    assert (Hoff : shouldUpdateAlpha <> Some true -> byte_at 24 w' = byte_at 24 w0).
    { intros E. rewrite B24. unfold upd.
      destruct shouldUpdateAlpha as [[ | ] | ]; [congruence | reflexivity | reflexivity]. }
    split; [exact B0 | ]. split; [exact B8 | ]. split; [exact B16 | ].
    split; [exact Hon | ]. split; [exact Hoff | ]. split; [exact Bw | ].
    intros E Hten E0 E8 E16 E24.
    assert (Hk : forall z, z = 100%Z ->
              Z.max 0 (Z.min 255 (Qfloor (fl (inject_Z z + offset)))) = 110%Z).
    { intros z ->.
      rewrite (fl_comp _ (inject_Z 110)) by (rewrite Hten; reflexivity).
      reflexivity. }
    rewrite B0, B8, B16, (Hoff E), (Hk _ E0), (Hk _ E8), (Hk _ E16), E24.
    repeat split; reflexivity.
Qed.

(** ** Chromatic grain *)

(** C2. On a host whose load and update primitives do not raise, with a
    configured random source and an amount that does not overflow,
    [applyChromaticGrain] returns; for every pixel of the acquired buffer it
    has taken one draw for R, then one for G, then one for B, and a fourth
    one for A only when [shouldUpdateAlpha] is [true]: with [n] draws per
    pixel (3 or 4), pixel [i] uses the draws of indices [draws + n*i],
    [draws + n*i + 1], [draws + n*i + 2] (and [draws + n*i + 3]), so that no
    draw serves two channels.  Every channel is the old one plus its offset,
    the sum being rounded to binary64, cut to its floor and clamped to
    0..255.  In particular a pixel (10,10,10,255) whose offsets are 5, -5
    and 3 becomes (15,5,13,255) when alpha is excluded. *)
Theorem applyChromaticGrain_spec
    (s : state) (amount : number) (shouldUpdateAlpha : option bool)
    (pg : option pgRef) (src : source) (m : randomMethod) :
  random (self s) = Some src ->
  randomMinMax (self s) = Some m ->
  no_overflow amount ->
  let c := resolve pg (self s) in
  raises (host s) (trace (host s)) (EvLoadPixels c) = false ->
  raises (host s) (trace (host s) ++ [EvLoadPixels c]) (EvUpdatePixels c) = false ->
  let bounds := bounds_in (randomMode (self s)) (- amount) amount in
  let px := pixels_of c s in
  let n := match shouldUpdateAlpha with Some true => 4%nat | _ => 3%nat end in
  exists s',
    applyChromaticGrain amount shouldUpdateAlpha pg s = Ret tt s' /\
    draws (host s') = (draws (host s) + n * List.length px)%nat /\
    trace (host s') = trace (host s) ++ [EvLoadPixels c; EvUpdatePixels c] /\
    List.length (pixels_of c s') = List.length px /\
    forall i, (i < List.length px)%nat ->
      let w := nth i px 0%Z in
      let w' := nth i (pixels_of c s') 0%Z in
      let offset (k : nat) :=
        draw_value m (fst bounds) (snd bounds)
          (src (draws (host s) + n * i + k)%nat) in
      let moved (v : Z) (k : nat) :=
        Z.max 0 (Z.min 255 (Qfloor (fl (inject_Z v + offset k)))) in
      byte_at 0 w' = moved (byte_at 0 w) 0%nat /\
      byte_at 8 w' = moved (byte_at 8 w) 1%nat /\
      byte_at 16 w' = moved (byte_at 16 w) 2%nat /\
      (shouldUpdateAlpha = Some true ->
       byte_at 24 w' = moved (byte_at 24 w) 3%nat) /\
      (shouldUpdateAlpha <> Some true -> byte_at 24 w' = byte_at 24 w) /\
      (0 <= w' < 2 ^ 32)%Z /\
      (shouldUpdateAlpha <> Some true ->
       offset 0%nat == 5 -> offset 1%nat == -5 -> offset 2%nat == 3 ->
       byte_at 0 w = 10%Z -> byte_at 8 w = 10%Z ->
       byte_at 16 w = 10%Z -> byte_at 24 w = 255%Z ->
       byte_at 0 w' = 15%Z /\ byte_at 8 w' = 5%Z /\
       byte_at 16 w' = 13%Z /\ byte_at 24 w' = 255%Z).
Proof.
  intros Hs Hm _ c Hload Hupd bounds px n.
  set (upd := to_bool shouldUpdateAlpha).
  assert (Hn : n = if upd then 4%nat else 3%nat).
  { unfold n, upd. now destruct shouldUpdateAlpha as [[ | ] | ]. }
  clearbody n. subst n.
  set (n := if upd then 4%nat else 3%nat).
  destruct s as [o w]. cbn [self host] in *.
  set (sf := surfaces w c).
  set (o1 := with_pixelsData c (s_width sf) (s_height sf) (s_density sf) o).
  set (w1 := mkWorld (surfaces w) (draws w) (trace w ++ [EvLoadPixels c])
               (raises w) (global_random w) (instance_random w)).
  pose (dv := fun d => draw_value m (fst bounds) (snd bounds) (src d)).
  destruct (for_loop_pixels c o1 n (draws w)
              (fun d => chromatic_word upd (dv d) (dv (d + 1)%nat)
                          (dv (d + 2)%nat) (dv (d + 3)%nat))
              (chromatic_body (fst bounds) (snd bounds) upd)
              (fun i t => chromatic_body_spec c o1 src m (fst bounds)
                            (snd bounds) upd i t eq_refl Hs Hm)
              (List.length px) 0%nat (mkState o1 w1))
    as (t & Hloop & Ho & Hd & Ht & Hr & Hp & _).
  { reflexivity. }
  { cbn. lia. }
  { reflexivity. }
  exists (mkState (self t)
            (mkWorld (surfaces (host t)) (draws (host t))
               (trace (host t) ++ [EvUpdatePixels c]) (raises (host t))
               (global_random (host t)) (instance_random (host t)))).
  assert (Hpx : pixels_of c t =
                mapi_from (fun j =>
                  let d := (draws w + n * j)%nat in
                  chromatic_word upd (dv d) (dv (d + 1)%nat)
                    (dv (d + 2)%nat) (dv (d + 3)%nat)) 0 px).
  { rewrite Hp. reflexivity. }
  split; [|split; [|split; [|split]]].
  - unfold applyChromaticGrain, bind.
    rewrite (loadPixels_ok pg o w Hload). cbv beta iota.
    rewrite prepareRandomBounds_eq. cbv beta iota.
    change (bounds_in _ (- amount) amount) with bounds.
    rewrite (surjective_pairing bounds). cbv beta iota.
    rewrite (pixels_length_eq c) by reflexivity. cbv beta iota.
    fold c sf o1 w1 upd. change (pixels_of c (mkState o1 w1)) with px.
    rewrite Hloop.
    rewrite updatePixels_ok; rewrite Ho; change (resolve pg o1) with c.
    + reflexivity.
    + rewrite Hr, Ht. exact Hupd.
  - cbn [host draws]. rewrite Hd. lia.
  - cbn [host trace]. rewrite Ht. cbn [w1 host trace]. now rewrite <- app_assoc.
  - unfold pixels_of at 1. cbn [host surfaces].
    fold (pixels_of c t). rewrite Hpx. apply mapi_from_length.
  - intros i Hi. cbv zeta.
    match goal with
    | |- context [pixels_of c ?st] => change (pixels_of c st) with (pixels_of c t)
    end.
    rewrite Hpx, mapi_from_nth by exact Hi.
    cbv zeta. unfold dv. rewrite (Nat.add_0_l i).
    set (w0 := nth i px 0%Z).
    set (offset := fun k : nat =>
           draw_value m (fst bounds) (snd bounds) (src (draws w + n * i + k)%nat)).
    change (draw_value m (fst bounds) (snd bounds) (src (draws w + n * i + 1)%nat))
      with (offset 1%nat).
    change (draw_value m (fst bounds) (snd bounds) (src (draws w + n * i + 2)%nat))
      with (offset 2%nat).
    change (draw_value m (fst bounds) (snd bounds) (src (draws w + n * i + 3)%nat))
      with (offset 3%nat).
    replace (draw_value m (fst bounds) (snd bounds) (src (draws w + n * i)%nat))
      with (offset 0%nat) by (unfold offset; now rewrite Nat.add_0_r).
    set (w' := chromatic_word upd (offset 0%nat) (offset 1%nat) (offset 2%nat)
                 (offset 3%nat) w0).
    assert (Hw' : w' = chromatic_word upd (offset 0%nat) (offset 1%nat)
                         (offset 2%nat) (offset 3%nat) w0) by reflexivity.
    destruct (chromatic_word_bytes upd (offset 0%nat) (offset 1%nat)
                (offset 2%nat) (offset 3%nat) w0) as (B0 & B8 & B16 & B24 & Bw).
    rewrite <- Hw' in B0, B8, B16, B24, Bw.
    rewrite shifted_floor in B0, B8, B16. unfold clampZ in B0, B8, B16.
    assert (Hon : shouldUpdateAlpha = Some true ->
                  byte_at 24 w' =
                  Z.max 0 (Z.min 255
                    (Qfloor (fl (inject_Z (byte_at 24 w0) + offset 3%nat))))).
    { intros E. rewrite B24. unfold upd. rewrite E. cbn [to_bool].
      apply shifted_floor. }
    assert (Hoff : shouldUpdateAlpha <> Some true -> byte_at 24 w' = byte_at 24 w0).
    { intros E. rewrite B24. unfold upd.
      destruct shouldUpdateAlpha as [[ | ] | ]; [congruence | reflexivity | reflexivity]. }
    split; [exact B0 | ]. split; [exact B8 | ]. split; [exact B16 | ].
    split; [exact Hon | ]. split; [exact Hoff | ]. split; [exact Bw | ].
    intros E H0 H1 H2 E0 E8 E16 E24.
    assert (Hk : forall z k q, z = 10%Z -> q == inject_Z k ->
              (Z.abs (10 + k) <= 2 ^ 53)%Z ->
              Z.max 0 (Z.min 255 (Qfloor (fl (inject_Z z + q)))) = clampZ (10 + k)).
    { intros z k q -> Hz Hb.
      rewrite (fl_comp _ (inject_Z (10 + k))) by (rewrite Hz, inject_Z_plus; reflexivity).
      rewrite fl_Z by exact Hb. now rewrite Qfloor_Z. }
    rewrite B0, B8, B16, (Hoff E), E24.
    rewrite (Hk _ 5%Z (offset 0%nat) E0 H0) by (cbn; lia).
    rewrite (Hk _ (-5)%Z (offset 1%nat) E8 H1) by (cbn; lia).
    rewrite (Hk _ 3%Z (offset 2%nat) E16 H2) by (cbn; lia).
    repeat split; reflexivity.
Qed.

Lemma applyMonochromaticGrain_spec_witness :
  exists s',
    applyMonochromaticGrain 20 None None mono_demo = Ret tt s' /\
    draws (host s') = 1%nat /\
    trace (host s') = [EvLoadPixels OnGlobal; EvUpdatePixels OnGlobal] /\
    let w' := nth 0 (pixels_of OnGlobal s') 0%Z in
    byte_at 0 w' = 110%Z /\ byte_at 8 w' = 110%Z /\
    byte_at 16 w' = 110%Z /\ byte_at 24 w' = 255%Z.
Proof.
  assert (Hf : no_overflow 20) by (split; vm_compute; discriminate).
  destruct (applyMonochromaticGrain_spec mono_demo 20 None None
              (fun _ => mkDouble (3 # 4) eq_refl)
              randomFloat_method eq_refl eq_refl Hf eq_refl eq_refl)
    as (s' & Hrun & Hd & Ht & _ & Hpix).
  exists s'. split; [exact Hrun|]. split; [exact Hd|]. split; [exact Ht|].
  destruct (Hpix 0%nat (le_n 1)) as (_ & _ & _ & _ & _ & _ & Hex).
  apply Hex; [discriminate | reflexivity ..].
Defined.

Lemma applyChromaticGrain_spec_witness :
  exists s',
    applyChromaticGrain 20 None None chroma_demo = Ret tt s' /\
    draws (host s') = 3%nat /\
    trace (host s') = [EvLoadPixels OnGlobal; EvUpdatePixels OnGlobal] /\
    let w' := nth 0 (pixels_of OnGlobal s') 0%Z in
    byte_at 0 w' = 15%Z /\ byte_at 8 w' = 5%Z /\
    byte_at 16 w' = 13%Z /\ byte_at 24 w' = 255%Z.
Proof.
  assert (Hf : no_overflow 20) by (split; vm_compute; discriminate).
  destruct (applyChromaticGrain_spec chroma_demo 20 None None chroma_source
              randomInt_method eq_refl eq_refl Hf eq_refl eq_refl)
    as (s' & Hrun & Hd & Ht & _ & Hpix).
  exists s'. split; [exact Hrun|]. split; [exact Hd|]. split; [exact Ht|].
  destruct (Hpix 0%nat (le_n 1)) as (_ & _ & _ & _ & _ & _ & Hex).
  apply Hex; [discriminate | reflexivity ..].
Defined.

(** ** Random provider *)

Lemma in_mode_int (s : state) :
  in_mode "int" s = mkState (with_randomMode 1 randomInt_method (self s)) (host s).
Proof. reflexivity. Qed.

Lemma in_mode_float (s : state) :
  in_mode "float" s = mkState (with_randomMode 0 randomFloat_method (self s)) (host s).
Proof. reflexivity. Qed.

(** A rounded value stays between the whole numbers that enclose the
    exact one. *)
Lemma fl_between (x : Q) (a b : Z) :
  (Z.abs a <= 2 ^ 53)%Z -> (Z.abs b <= 2 ^ 53)%Z ->
  inject_Z a <= x <= inject_Z b -> inject_Z a <= fl x <= inject_Z b.
Proof.
  intros Ha Hb [H1 H2]. split.
  - apply Qle_trans with (fl (inject_Z a)); [rewrite (fl_Z a Ha); apply Qle_refl | ].
    apply fl_mono, H1.
  - apply Qle_trans with (fl (inject_Z b)); [ | rewrite (fl_Z b Hb); apply Qle_refl].
    apply fl_mono, H2.
Qed.

Lemma fl_sub_Z (a b : Z) :
  (Z.abs (a - b) <= 2 ^ 53)%Z -> fl (inject_Z a - inject_Z b) = inject_Z (a - b).
Proof.
  intros H. rewrite <- (fl_Z (a - b) H). apply fl_comp.
  unfold Z.sub. rewrite inject_Z_plus, inject_Z_opp. reflexivity.
Qed.

Lemma fl_add_Z (a b : Z) :
  (Z.abs (a + b) <= 2 ^ 53)%Z -> fl (inject_Z a + inject_Z b) = inject_Z (a + b).
Proof.
  intros H. rewrite <- (fl_Z (a + b) H). apply fl_comp.
  rewrite inject_Z_plus. reflexivity.
Qed.

Lemma scale_unit (r d : Q) : 0 <= r <= 1 -> 0 <= d -> 0 <= r * d <= d.
Proof.
  intros [H0 H1] Hd.
  assert (A : 0 <= r * d) by (apply Qmult_le_0_compat; lra).
  assert (B : 0 <= (1 - r) * d) by (apply Qmult_le_0_compat; lra).
  split; lra.
Qed.

(** A float-mode draw between whole numbers: both ends can be reached. *)
Lemma float_draw_range (r : Q) (a b : Z) :
  0 <= r <= 1 -> (a <= b)%Z -> (Z.abs a <= 2 ^ 52)%Z -> (Z.abs b <= 2 ^ 52)%Z ->
  inject_Z a <= fl (fl (r * fl (inject_Z b - inject_Z a)) + inject_Z a)
    <= inject_Z b.
Proof.
  intros [Hr0 Hr1] Hab Ha Hb.
  rewrite fl_sub_Z by lia.
  assert (Hd : 0 <= inject_Z (b - a)).
  { change 0 with (inject_Z 0). rewrite <- Zle_Qle. lia. }
  assert (HP : inject_Z 0 <= fl (r * inject_Z (b - a)) <= inject_Z (b - a)).
  { apply fl_between; [cbn; lia | lia | ]. change (inject_Z 0) with 0.
    apply scale_unit; [split; assumption | exact Hd]. }
  change (inject_Z 0) with 0 in HP. destruct HP as [P0 P1].
  apply fl_between; [lia | lia | ].
  set (P := fl (r * inject_Z (b - a))) in *.
  unfold Z.sub in P1. rewrite inject_Z_plus, inject_Z_opp in P1. split; lra.
Qed.

(** An integer-mode draw between whole numbers: the result can be one above
    the upper bound. *)
Lemma int_draw_range (r : Q) (a b : Z) :
  0 <= r <= 1 -> (a <= b)%Z -> (Z.abs a <= 2 ^ 51)%Z -> (Z.abs b <= 2 ^ 51)%Z ->
  (a <= Qfloor (fl (fl (r * fl (fl (inject_Z b - inject_Z a) + 1)) + inject_Z a))
     <= b + 1)%Z.
Proof.
  intros [Hr0 Hr1] Hab Ha Hb.
  rewrite fl_sub_Z by lia.
  change (fl (inject_Z (b - a) + 1)) with (fl (inject_Z (b - a) + inject_Z 1)).
  rewrite fl_add_Z by lia.
  assert (Hd : 0 <= inject_Z (b - a + 1)).
  { change 0 with (inject_Z 0). rewrite <- Zle_Qle. lia. }
  assert (HP : inject_Z 0 <= fl (r * inject_Z (b - a + 1)) <= inject_Z (b - a + 1)).
  { apply fl_between; [cbn; lia | lia | ]. change (inject_Z 0) with 0.
    apply scale_unit; [split; assumption | exact Hd]. }
  change (inject_Z 0) with 0 in HP. destruct HP as [P0 P1].
  assert (HS : inject_Z a <= fl (fl (r * inject_Z (b - a + 1)) + inject_Z a)
               <= inject_Z (b + 1)).
  { apply fl_between; [lia | lia | ].
    set (P := fl (r * inject_Z (b - a + 1))) in *.
    replace (b - a + 1)%Z with (b + 1 + - a)%Z in P1 by lia.
    rewrite !inject_Z_plus, inject_Z_opp in P1. rewrite inject_Z_plus. split; lra. }
  destruct HS as [S0 S1].
  apply Qfloor_resp_le in S0. apply Qfloor_resp_le in S1.
  rewrite Qfloor_Z in S0, S1. split; assumption.
Qed.

(** An integer-mode draw between -3 and 3 from a number of the format below
    1: the largest such number, [1 - 2^-53], still gives 3. *)
Lemma int_draw_3 (r : Q) :
  is_double r = true -> 0 <= r < 1 ->
  (-3 <= Qfloor (fl (fl (r * fl (fl (3 - -3) + 1)) + -3)) <= 3)%Z.
Proof.
  intros Hd [Hr0 Hr1].
  replace (fl (fl (3 - -3) + 1)) with 7 by (vm_compute; reflexivity).
  pose proof (below_one r Hd Hr1) as Hr.
  assert (H1 : fl (r * 7) <= fl ((1 - pow2 (-53)) * 7)) by (apply fl_mono; lra).
  assert (H2 : fl (fl (r * 7) + -3) <= fl (fl ((1 - pow2 (-53)) * 7) + -3))
    by (apply fl_mono; lra).
  assert (H3 : fl 0 <= fl (r * 7)) by (apply fl_mono; lra).
  change (fl 0) with 0 in H3.
  assert (H4 : fl (-3) <= fl (fl (r * 7) + -3)) by (apply fl_mono; lra).
  split.
  - apply Qfloor_resp_le in H4. exact H4.
  - apply Qfloor_resp_le in H2. etransitivity; [exact H2 | ].
    vm_compute. discriminate.
Qed.

(** An integer-mode draw between -3 and 3. *)
Lemma randomMinMax_int_3 (s : state) (src : source) :
  random (self s) = Some src ->
  0 <= src (draws (host s)) < 1 ->
  exists k : Z,
    (-3 <= k <= 3)%Z /\
    call_randomMinMax (-3) 3 (in_mode "int" s) =
      Ret (inject_Z k) (drawn (in_mode "int" s)).
Proof.
  intros Hs Hr. eexists. split.
  - apply (int_draw_3 (src (draws (host s))) (double_ok _) Hr).
  - rewrite in_mode_int.
    now rewrite (call_randomMinMax_spec _ src randomInt_method _ _ (host s)).
Qed.

(** *** Integer-mode draws between bounds that straddle zero *)

Lemma fl_le_repr (x : Q) (m j : Z) :
  (Z.abs m < 2 ^ 53)%Z -> (-1074 <= j)%Z ->
  x <= inject_Z m * pow2 j -> fl x <= inject_Z m * pow2 j.
Proof.
  intros Hm Hj H.
  assert (E : fl (inject_Z m * pow2 j) == inject_Z m * pow2 j).
  { apply fl_exact. exists m, j. split; [exact Hm | split; [exact Hj | reflexivity]]. }
  rewrite <- E. apply fl_mono, H.
Qed.

Lemma inject_Z_pred (m : Z) : inject_Z (m - 1) == inject_Z m - 1.
Proof.
  unfold Z.sub. rewrite inject_Z_plus. reflexivity.
Qed.

Lemma rne_low (t : Q) (K : Z) :
  inject_Z K <= t -> t < inject_Z K + (1 # 2) -> rne t = K.
Proof.
  intros H1 H2.
  assert (Hf : Qfloor t = K).
  { assert (A : (K <= Qfloor t)%Z).
    { apply Qfloor_resp_le in H1. rewrite Qfloor_Z in H1. exact H1. }
    assert (B : inject_Z (Qfloor t) < inject_Z (K + 1)).
    { rewrite inject_Z_plus. change (inject_Z 1) with 1.
      pose proof (Qfloor_le t). lra. }
    rewrite <- Zlt_Qlt in B. lia. }
  unfold rne. rewrite Hf.
  assert (E : (t - inject_Z K ?= 1 # 2) = Lt) by (rewrite <- Qlt_alt; lra).
  rewrite E. reflexivity.
Qed.

(** The product of a whole number [N] below [2^53] by a source value of the
    format below 1 is rounded to a number below [N]: at most [N - d], where
    [d] is the distance from [N] to the number of the format before it. *)
Lemma scaled_below (r : Q) (N : Z) :
  is_double r = true -> 0 <= r < 1 -> (1 <= N < 2 ^ 53)%Z ->
  exists j M : Z,
    (-53 <= j <= 0)%Z /\ (1 <= M <= 2 ^ 53)%Z /\
    inject_Z N == inject_Z M * pow2 j /\
    fl (r * inject_Z N) <= inject_Z (M - 1) * pow2 j.
Proof.
  intros Hd [Hr0 Hr1] HN.
  pose proof (below_one r Hd Hr1) as Hr.
  set (e := Z.log2 N).
  destruct (Z.log2_spec N ltac:(lia)) as [E1 E2]. fold e in E1, E2.
  assert (He0 : (0 <= e)%Z) by apply Z.log2_nonneg.
  assert (He : (e < 53)%Z).
  { apply (Z.pow_lt_mono_r_iff 2); lia. }
  assert (HNq : 0 < inject_Z N).
  { change 0 with (inject_Z 0). rewrite <- Zlt_Qlt. lia. }
  assert (Hy0 : 0 <= r * inject_Z N) by (apply Qmult_le_0_compat; lra).
  assert (Hy : r * inject_Z N <= inject_Z N - inject_Z N * pow2 (-53)).
  { assert (A : r * inject_Z N <= (1 - pow2 (-53)) * inject_Z N).
    { apply Qmult_le_compat_r; lra. }
    lra. }
  destruct (Z.eq_dec N (2 ^ e)) as [Epow | Enot].
  - (* N is a power of two: the number before it is N - 2^(e-53) *)
    exists (e - 53)%Z, (2 ^ 53)%Z.
    assert (EN : inject_Z N == inject_Z (2 ^ 53) * pow2 (e - 53)).
    { rewrite <- (pow2_Z 53) by lia. rewrite <- pow2_add.
      replace (53 + (e - 53))%Z with e by lia. rewrite pow2_Z by lia.
      rewrite Epow. reflexivity. }
    split; [lia | ]. split; [lia | ]. split; [exact EN | ].
    apply fl_le_repr; [lia | lia | ].
    assert (Ed : inject_Z N * pow2 (-53) == pow2 (e - 53)).
    { rewrite Epow at 1. rewrite <- pow2_Z by lia. rewrite <- pow2_add.
      replace (e + -53)%Z with (e - 53)%Z by lia. reflexivity. }
    assert (X : inject_Z (2 ^ 53 - 1) * pow2 (e - 53) == inject_Z N - pow2 (e - 53)).
    { rewrite inject_Z_pred.
      rewrite EN. ring. }
    rewrite X. rewrite Ed in Hy. exact Hy.
  - (* otherwise the number before it is N - 2^(e-52) *)
    assert (HgtN : (2 ^ e + 1 <= N)%Z) by lia.
    set (j := (e - 52)%Z). set (M := (N * 2 ^ (52 - e))%Z).
    assert (EN : inject_Z N == inject_Z M * pow2 j).
    { unfold M, j. rewrite inject_Z_mult, <- (pow2_Z (52 - e)) by lia.
      rewrite <- Qmult_assoc, <- pow2_add.
      replace (52 - e + (e - 52))%Z with 0%Z by lia. change (pow2 0) with 1. ring. }
    assert (HM : (1 <= M < 2 ^ 53)%Z).
    { unfold M. split; [nia | ].
      replace (2 ^ 53)%Z with (2 ^ (e + 1) * 2 ^ (52 - e))%Z
        by (rewrite <- Z.pow_add_r by lia; f_equal; lia).
      apply Z.mul_lt_mono_pos_r; [apply Z.pow_pos_nonneg; lia | ].
      replace (e + 1)%Z with (Z.succ e) by lia. exact E2. }
    exists j, M. split; [unfold j; lia | ]. split; [lia | ]. split; [exact EN | ].
    pose proof (pow2_pos j) as Hj.
    assert (Hj1 : pow2 j <= 1) by (apply (pow2_le j 0); unfold j; lia).
    assert (Ep : pow2 e == inject_Z (2 ^ e)) by (apply pow2_Z; lia).
    assert (Eh : pow2 e * pow2 (-53) == pow2 j * (1 # 2)).
    { rewrite <- pow2_add. replace (e + -53)%Z with (j + -1)%Z by (unfold j; lia).
      rewrite pow2_add. reflexivity. }
    assert (HNe : inject_Z (2 ^ e) + 1 <= inject_Z N).
    { change 1 with (inject_Z 1). rewrite <- inject_Z_plus, <- Zle_Qle. exact HgtN. }
    assert (Hlt : r * inject_Z N < inject_Z N - pow2 j * (1 # 2)).
    { assert (A : pow2 e * pow2 (-53) < inject_Z N * pow2 (-53)).
      { apply Qmult_lt_r; [apply pow2_pos | ]. rewrite Ep. lra. }
      lra. }
    assert (EM1 : inject_Z (M - 1) * pow2 j == inject_Z N - pow2 j).
    { rewrite inject_Z_pred.
      rewrite EN. ring. }
    destruct (Qlt_le_dec (inject_Z N - pow2 j) (r * inject_Z N)) as [Hhi | Hlo].
    + (* the product is in the last interval before N: it is rounded down *)
      set (y := r * inject_Z N) in *.
      pose proof (pow2_pos e) as Hpe.
      assert (Hypos : 0 < y) by lra.
      assert (Hb : binade y = e).
      { apply binade_unique. split; [rewrite Ep; lra | ].
        rewrite pow2_Z by lia.
        assert (A : inject_Z N < inject_Z (2 ^ (e + 1))).
        { rewrite <- Zlt_Qlt. replace (e + 1)%Z with (Z.succ e) by lia. exact E2. }
        lra. }
      assert (Hq : quantum y = j) by (unfold quantum, j; rewrite Hb; lia).
      rewrite (fl_pos y Hypos). unfold round_pos. rewrite Hq.
      pose proof (div_pow2 y j) as D. set (t := y / pow2 j) in *.
      assert (Ht1 : inject_Z (M - 1) <= t).
      { apply Qmult_le_r with (pow2 j); [exact Hj | ]. rewrite D, EM1. lra. }
      assert (Ht2 : t < inject_Z (M - 1) + (1 # 2)).
      { apply Qmult_lt_r with (pow2 j); [exact Hj | ]. rewrite D.
        assert (X : (inject_Z (M - 1) + (1 # 2)) * pow2 j
                    == inject_Z N - pow2 j * (1 # 2)).
        { rewrite Qmult_plus_distr_l, EM1. ring. }
        rewrite X. exact Hlt. }
      rewrite (rne_low t (M - 1) Ht1 Ht2). apply Qle_refl.
    + apply fl_le_repr; [lia | unfold j; lia | ]. rewrite EM1. exact Hlo.
Qed.

(** An integer-mode draw between whole numbers [a <= 0 <= b]: the result is
    one of the integers [a], ..., [b]. *)
Lemma int_draw_straddle (r : Q) (a b : Z) :
  is_double r = true -> 0 <= r < 1 ->
  (a <= 0 <= b)%Z -> (- 2 ^ 51 <= a)%Z -> (b <= 2 ^ 51)%Z ->
  (a <= Qfloor (fl (fl (r * fl (fl (inject_Z b - inject_Z a) + 1)) + inject_Z a))
     <= b)%Z.
Proof.
  intros Hd Hr Hab Ha Hb.
  rewrite fl_sub_Z by lia.
  change (fl (inject_Z (b - a) + 1)) with (fl (inject_Z (b - a) + inject_Z 1)).
  rewrite fl_add_Z by lia.
  set (N := (b - a + 1)%Z).
  destruct (scaled_below r N Hd Hr ltac:(unfold N; lia))
    as (j & M & Hj & HM & EN & HP).
  set (P := fl (r * inject_Z N)) in *.
  assert (HP0 : 0 <= P).
  { apply fl_nonneg. apply Qmult_le_0_compat; [lra | ].
    change 0 with (inject_Z 0). rewrite <- Zle_Qle. unfold N. lia. }
  split.
  - assert (L : fl (inject_Z a) <= fl (P + inject_Z a)) by (apply fl_mono; lra).
    rewrite fl_Z in L by lia. apply Qfloor_resp_le in L. rewrite Qfloor_Z in L.
    exact L.
  - (* b + 1 - 2^j is a number of the format *)
    set (Mb := ((b + 1) * 2 ^ (- j))%Z).
    assert (Eb : inject_Z (b + 1) == inject_Z Mb * pow2 j).
    { unfold Mb. rewrite inject_Z_mult, <- (pow2_Z (- j)) by lia.
      rewrite <- Qmult_assoc, <- pow2_add.
      replace (- j + j)%Z with 0%Z by lia. change (pow2 0) with 1. ring. }
    assert (HMb : (1 <= Mb <= M)%Z).
    { assert (Hpow : (0 < 2 ^ (- j))%Z) by (apply Z.pow_pos_nonneg; lia).
      split; [unfold Mb; nia | ].
      assert (Q1 : inject_Z Mb * pow2 j <= inject_Z M * pow2 j).
      { rewrite <- Eb, <- EN, <- Zle_Qle. unfold N. lia. }
      apply Qmult_le_r in Q1; [ | apply pow2_pos]. rewrite <- Zle_Qle in Q1. exact Q1. }
    assert (U : fl (P + inject_Z a) <= inject_Z (Mb - 1) * pow2 j).
    { apply fl_le_repr; [lia | lia | ].
      assert (X : inject_Z (Mb - 1) * pow2 j == inject_Z (b + 1) - pow2 j).
      { rewrite inject_Z_pred.
        rewrite Eb. ring. }
      assert (Y : inject_Z (M - 1) * pow2 j == inject_Z N - pow2 j).
      { rewrite inject_Z_pred.
        rewrite EN. ring. }
      rewrite X. rewrite Y in HP.
      assert (Z1 : inject_Z N == inject_Z (b + 1) - inject_Z a).
      { unfold N. replace (b - a + 1)%Z with (b + 1 + - a)%Z by lia.
        rewrite inject_Z_plus, inject_Z_opp. ring. }
      rewrite Z1 in HP. lra. }
    assert (V : inject_Z (Qfloor (fl (P + inject_Z a))) < inject_Z (b + 1)).
    { eapply Qle_lt_trans; [apply Qfloor_le | ].
      eapply Qle_lt_trans; [exact U | ].
      assert (X : inject_Z (Mb - 1) * pow2 j == inject_Z (b + 1) - pow2 j).
      { rewrite inject_Z_pred.
        rewrite Eb. ring. }
      pose proof (pow2_pos j). rewrite X. lra. }
    rewrite <- Zlt_Qlt in V. lia.
Qed.

(** With the source value [1 - 2^-53] a float-mode draw between 100 and 101
    returns 101, although [100 < 101], and an integer-mode draw between the
    same bounds returns 102: the product is rounded to the width of the
    range, and the sum to the range shifted by [min]. *)
Lemma randomMinMax_reaches_past_max :
  0 <= near_one < 1 /\
  call_randomMinMax 100 101 (in_mode "float" near_one_demo) =
    Ret 101 (drawn (in_mode "float" near_one_demo)) /\
  call_randomMinMax 100 101 (in_mode "int" near_one_demo) =
    Ret 102 (drawn (in_mode "int" near_one_demo)).
Proof.
  split; [split; [discriminate | reflexivity] | ].
  split; vm_compute; reflexivity.
Qed.

(** C3 (amended). Whatever the provider was before, with bounds far from
    the largest number of the format, once
    [#prepareRandomMode('int')] has run a draw [#randomMinMax(min, max)]
    returns [floor(r * (max - min + 1) + min)], and once
    [#prepareRandomMode('float')] has run it returns [r * (max - min) + min],
    where [r] is the value the source gives and each operation rounds its
    result to binary64; the draw takes exactly one value from the source and
    changes nothing else.  For [r] in [0,1) and whole-number bounds
    [min <= max] of magnitude up to [2^51]: in float mode the result lies
    in [min, max], both ends included; in integer mode the result is an
    integer between [min] and [max + 1], both ends included, and it is at
    most [max] when [min <= 0 <= max]. *)
Theorem randomMinMax_spec (s : state) (src : source) (min max : number) :
  random (self s) = Some src ->
  no_overflow min -> no_overflow max ->
  let r := src (draws (host s)) in
  0 <= r < 1 ->
  call_randomMinMax min max (in_mode "int" s) =
    Ret (Math_floor (fl (fl (r * fl (fl (max - min) + 1)) + min)))
      (drawn (in_mode "int" s)) /\
  call_randomMinMax min max (in_mode "float" s) =
    Ret (fl (fl (r * fl (max - min)) + min)) (drawn (in_mode "float" s)) /\
  (forall a b : Z, min = inject_Z a -> max = inject_Z b -> (a <= b)%Z ->
     (Z.abs a <= 2 ^ 51)%Z -> (Z.abs b <= 2 ^ 51)%Z ->
     min <= fl (fl (r * fl (max - min)) + min) <= max /\
     exists k : Z, (a <= k <= b + 1)%Z /\ ((a <= 0 <= b)%Z -> (k <= b)%Z) /\
       Math_floor (fl (fl (r * fl (fl (max - min) + 1)) + min)) = inject_Z k).
Proof.
  intros Hs _ _ r Hr.
  split; [|split].
  - rewrite in_mode_int.
    now rewrite (call_randomMinMax_spec _ src randomInt_method min max (host s)).
  - rewrite in_mode_float.
    now rewrite (call_randomMinMax_spec _ src randomFloat_method min max (host s)).
  - intros a b -> -> Hab Ha Hb. destruct Hr as [Hr0 Hr1]. split.
    + apply float_draw_range; [split; lra | lia | lia | lia].
    + eexists. split; [ | split; [ | reflexivity]].
      * apply int_draw_range; [split; lra | lia | lia | lia].
      * intros H0.
        apply (int_draw_straddle r a b (double_ok _) (conj Hr0 Hr1) H0); lia.
Qed.

Lemma randomMinMax_spec_witness :
  call_randomMinMax (-3) 3 (in_mode "int" mono_demo) =
    Ret 2 (drawn (in_mode "int" mono_demo)) /\
  exists v,
    call_randomMinMax (-3) 3 (in_mode "float" mono_demo) =
      Ret v (drawn (in_mode "float" mono_demo)) /\
    v == 3 # 2 /\ -3 <= v <= 3.
Proof.
  destruct (randomMinMax_spec mono_demo (fun _ => mkDouble (3 # 4) eq_refl) (-3) 3
              eq_refl)
    as (Hi & Hf & Hrange).
  - split; vm_compute; discriminate.
  - split; vm_compute; discriminate.
  - split; [discriminate | reflexivity].
  - split.
    + rewrite Hi. vm_compute. reflexivity.
    + eexists. split; [exact Hf|]. split; [vm_compute; reflexivity|].
      apply (Hrange (-3)%Z 3%Z eq_refl eq_refl); cbn; lia.
Defined.

(** C4. Whatever the provider was before, once [#prepareRandomMode('int')]
    has run [#prepareRandomBounds(min, max)] returns
    [(ceil(min), floor(max))], and once [#prepareRandomMode('float')] has run
    it returns [(min, max)] unchanged; neither changes the state.  In
    particular the bounds prepared from (-3.2, 3.7) in integer mode are
    (-3, 3), and an integer-mode draw between -3 and 3 from a source value in
    [0,1) is one of the integers -3, ..., 3. *)
Theorem prepareRandomBounds_spec (s : state) (min max : number) :
  prepareRandomBounds min max (in_mode "int" s) =
    Ret (Math_ceil min, Math_floor max) (in_mode "int" s) /\
  prepareRandomBounds min max (in_mode "float" s) =
    Ret (min, max) (in_mode "float" s) /\
  prepareRandomBounds (- (16 # 5)) (37 # 10) (in_mode "int" s) =
    Ret (-3, 3) (in_mode "int" s) /\
  forall src : source,
    random (self s) = Some src ->
    0 <= src (draws (host s)) < 1 ->
    exists k : Z,
      (-3 <= k <= 3)%Z /\
      call_randomMinMax (-3) 3 (in_mode "int" s) =
        Ret (inject_Z k) (drawn (in_mode "int" s)).
Proof.
  split; [|split; [|split]].
  - now rewrite prepareRandomBounds_eq.
  - now rewrite prepareRandomBounds_eq.
  - now rewrite prepareRandomBounds_eq.
  - intros src Hs Hr. exact (randomMinMax_int_3 s src Hs Hr).
Qed.

Lemma prepareRandomBounds_spec_witness :
  prepareRandomBounds (- (16 # 5)) (37 # 10) (in_mode "int" mono_demo) =
    Ret (-3, 3) (in_mode "int" mono_demo) /\
  exists k : Z,
    (-3 <= k <= 3)%Z /\
    call_randomMinMax (-3) 3 (in_mode "int" mono_demo) =
      Ret (inject_Z k) (drawn (in_mode "int" mono_demo)).
Proof.
  destruct (prepareRandomBounds_spec mono_demo 0 0) as (_ & _ & Hb & Hd).
  split; [exact Hb|].
  apply (Hd (fun _ => mkDouble (3 # 4) eq_refl) eq_refl).
  split; [discriminate | reflexivity].
Defined.

(** ** Pixel iteration *)

Lemma ltb_inject_Z (a b : Z) : ltb (inject_Z a) (inject_Z b) = (a <? b)%Z.
Proof.
  unfold ltb. destruct (Qle_bool (inject_Z b) (inject_Z a)) eqn:E.
  - apply Qle_bool_iff in E. rewrite <- Zle_Qle in E.
    symmetry. apply Z.ltb_ge. exact E.
  - symmetry. apply Z.ltb_lt. apply Z.nle_gt. intros H.
    rewrite Zle_Qle in H. apply Qle_bool_iff in H. congruence.
Qed.

Lemma fl_mul_Z (a b : Z) :
  (Z.abs (a * b) <= 2 ^ 53)%Z -> fl (inject_Z a * inject_Z b) = inject_Z (a * b).
Proof.
  intros H. rewrite <- (fl_Z (a * b) H). apply fl_comp.
  rewrite inject_Z_mult. reflexivity.
Qed.

(** Multiples of a power of two with a factor up to [2^53] are numbers of
    the format. *)
Lemma fl_Z_scaled (m j : Z) :
  (Z.abs m <= 2 ^ 53)%Z -> (0 <= j)%Z -> fl (inject_Z (m * 2 ^ j)) = inject_Z (m * 2 ^ j).
Proof.
  intros Hm Hj. apply eq_canon; [apply fl_canon | apply Qred_inject_Z | ].
  apply fl_exact.
  destruct (Z.eq_dec (Z.abs m) (2 ^ 53)) as [E | E].
  - exists (Z.sgn m), (53 + j)%Z. split; [destruct m; cbn; lia | split; [lia | ]].
    rewrite pow2_add, !pow2_Z by lia. rewrite <- !inject_Z_mult.
    rewrite Z.mul_assoc. rewrite <- E. rewrite (Z.mul_comm (Z.sgn m)), Z.abs_sgn.
    reflexivity.
  - exists m, j. split; [lia | split; [lia | ]].
    rewrite pow2_Z by lia. rewrite <- inject_Z_mult. reflexivity.
Qed.

(** The loop of [tinkerPixels] over a whole number of pixels is the counted
    loop over the pixels, as long as the indices are exact. *)
Lemma tinker_loop_counted (cb : callback) (n : nat) :
  (Z.of_nat (4 * n) <= 2 ^ 53)%Z ->
  forall (k fuel : nat) (s : state),
    (k <= n)%nat -> (n - k < fuel)%nat ->
    tinker_loop fuel cb 4 (inject_Z (Z.of_nat (4 * n)))
      (inject_Z (Z.of_nat (4 * k))) s =
    for_loop (fun j => invoke cb (inject_Z (Z.of_nat (4 * j)))
                         (inject_Z (Z.of_nat (4 * n)))) k (n - k) s.
Proof.
  intros Hn k fuel. remember (n - k)%nat as m eqn:Hm.
  revert k fuel Hm. induction m as [|m IH]; intros k fuel Hm s Hk Hf.
  - destruct fuel as [|fuel]; [lia|]. cbn [tinker_loop for_loop].
    rewrite ltb_inject_Z.
    destruct (Z.ltb_spec (Z.of_nat (4 * k)) (Z.of_nat (4 * n))); [lia|].
    reflexivity.
  - destruct fuel as [|fuel]; [lia|]. cbn [tinker_loop for_loop].
    rewrite ltb_inject_Z.
    destruct (Z.ltb_spec (Z.of_nat (4 * k)) (Z.of_nat (4 * n))); [|lia].
    apply bind_ext. intros [] s' _.
    unfold fadd. change 4 with (inject_Z 4). rewrite fl_add_Z by lia.
    replace (Z.of_nat (4 * k) + 4)%Z with (Z.of_nat (4 * S k)) by lia.
    apply IH; lia.
Qed.

Lemma fmul_zero_l (x y : Q) : x = 0 -> fmul x y = 0.
Proof. intros ->. unfold fmul. apply fl_zero. ring. Qed.

Lemma fmul_zero_r (x y : Q) : y = 0 -> fmul x y = 0.
Proof. intros ->. unfold fmul. apply fl_zero. ring. Qed.

(** The total computed for whole-number dimensions is exact up to [2^53]. *)
Lemma total_of_nat (w h d : nat) :
  (Z.of_nat (4 * (w * d * h * d)) <= 2 ^ 53)%Z ->
  fmul (fmul 4 (fmul (inject_Z (Z.of_nat w)) (inject_Z (Z.of_nat d))))
    (fmul (inject_Z (Z.of_nat h)) (inject_Z (Z.of_nat d)))
  = inject_Z (Z.of_nat (4 * (w * d * h * d))).
Proof.
  intros H.
  destruct (Nat.eq_dec (w * d) 0) as [Ea | Ea].
  - replace (4 * (w * d * h * d))%nat with 0%nat by (rewrite Ea; reflexivity).
    apply fmul_zero_l. apply fmul_zero_r. unfold fmul.
    rewrite fl_mul_Z; rewrite <- Nat2Z.inj_mul, Ea; [reflexivity | cbn; lia].
  - destruct (Nat.eq_dec (h * d) 0) as [Eb | Eb].
    + replace (4 * (w * d * h * d))%nat with 0%nat by nia.
      apply fmul_zero_r. unfold fmul.
      rewrite fl_mul_Z; rewrite <- Nat2Z.inj_mul, Eb; [reflexivity | cbn; lia].
    + assert (Hab : (w * d * h * d = (w * d) * (h * d))%nat) by lia.
      rewrite Hab in *.
      set (a := (w * d)%nat) in *. set (b := (h * d)%nat) in *.
      assert (Ha : (Z.of_nat a <= Z.of_nat (a * b))%Z) by nia.
      assert (Hb : (Z.of_nat b <= Z.of_nat (a * b))%Z) by nia.
      unfold fmul. rewrite !fl_mul_Z by (fold a b; lia).
      change 4 with (inject_Z 4). rewrite fl_mul_Z by (fold a b; lia).
      rewrite fl_mul_Z by (fold a b; nia). f_equal. fold a b. lia.
Qed.

(** On the canvas [2^54] pixels wide the index reaches [2^55] and stays
    there: [2^55 + 4] rounds to [2^55], which is below the total [2^56]. *)
Lemma tinker_loop_stalls (fuel : nat) :
  forall (z : Z) (s : state),
    quiet s -> (0 <= z <= 2 ^ 53)%Z ->
    tinker_loop fuel idle 4 (inject_Z (2 ^ 56)) (inject_Z (z * 2 ^ 2)) s = Timeout.
Proof.
  induction fuel as [ | fuel IH]; intros z s Hq Hz; [reflexivity | ].
  cbn [tinker_loop]. rewrite ltb_inject_Z.
  destruct (Z.ltb_spec (z * 2 ^ 2) (2 ^ 56)) as [_ | C]; [ | lia].
  unfold bind at 1. unfold invoke, bind at 1.
  rewrite (call_ok _ s (Hq _ _)). unfold idle at 1. unfold ret at 1.
  assert (Hnext : exists z', (0 <= z' <= 2 ^ 53)%Z /\
            fadd (inject_Z (z * 2 ^ 2)) 4 = inject_Z (z' * 2 ^ 2)).
  { destruct (Z.eq_dec z (2 ^ 53)) as [-> | Hne].
    - exists (2 ^ 53)%Z. split; [lia | ]. vm_compute. reflexivity.
    - exists (z + 1)%Z. split; [lia | ].
      unfold fadd. change 4 with (inject_Z 4). rewrite <- inject_Z_plus.
      replace (z * 2 ^ 2 + 4)%Z with ((z + 1) * 2 ^ 2)%Z by lia.
      apply fl_Z_scaled; lia. }
  destruct Hnext as (z' & Hz' & ->).
  apply IH; [ | exact Hz'].
  intros t e. apply Hq.
Qed.

(** A canvas [2^54] pixels wide and one pixel high is a buffer of
    [2^54] pixels, yet [tinkerPixels] never finishes on it, whatever the
    fuel. *)
Lemma tinkerPixels_stalls :
  s_width (surfaces (host wide_canvas) OnGlobal) = inject_Z (2 ^ 54) /\
  s_height (surfaces (host wide_canvas) OnGlobal) = 1 /\
  s_density (surfaces (host wide_canvas) OnGlobal) = 1 /\
  forall fuel : nat, tinkerPixels fuel idle None None wide_canvas = Timeout.
Proof.
  split; [reflexivity | ]. split; [reflexivity | ]. split; [reflexivity | ].
  intros fuel. unfold tinkerPixels. unfold bind at 1. unfold get_self at 1.
  cbv beta iota. unfold bind at 1.
  rewrite call_ok by reflexivity. cbv beta iota.
  unfold bind at 1. unfold get_host at 1. cbv beta iota.
  unfold bind at 1.
  match goal with
  | |- context [tinker_loop fuel idle ?c ?t ?i ?st] =>
      replace t with (inject_Z (2 ^ 56)) by (vm_compute; reflexivity);
      change i with (inject_Z (0 * 2 ^ 2));
      rewrite (tinker_loop_stalls fuel 0 st)
  end.
  - reflexivity.
  - intros t e. reflexivity.
  - lia.
Qed.

(** C7 (amended). For a target of width [w], height [h] and density [d]
    (whole numbers) whose total [4 * (w * d) * (h * d)] is at most [2^53],
    [tinkerPixels] computes that total exactly and, given more fuel than
    there are pixels, is the program that loads the pixels, then invokes the
    callback [w*d*h*d] times, the k-th time (k = 0, 1, ...) with the
    arguments [(4k, total)], then commits unless [shouldUpdate] is [false].
    For a 2x2 target at density 1 these are exactly the four invocations
    (0,16), (4,16), (8,16), (12,16). *)
Theorem tinkerPixels_spec (fuel : nat) (cb : callback)
    (shouldUpdate : option bool) (pg : option pgRef) (s : state) (w h d : nat) :
  let c := resolve pg (self s) in
  s_width (surfaces (host s) c) = inject_Z (Z.of_nat w) ->
  s_height (surfaces (host s) c) = inject_Z (Z.of_nat h) ->
  s_density (surfaces (host s) c) = inject_Z (Z.of_nat d) ->
  let n := (w * d * h * d)%nat in
  let total := inject_Z (Z.of_nat (4 * n)) in
  (Z.of_nat (4 * n) <= 2 ^ 53)%Z ->
  (n < fuel)%nat ->
  fl (fl (4 * fl (inject_Z (Z.of_nat w) * inject_Z (Z.of_nat d)))
        * fl (inject_Z (Z.of_nat h) * inject_Z (Z.of_nat d))) = total /\
  tinkerPixels fuel cb shouldUpdate pg s =
    (call (EvLoadPixels c) ;;
     for_loop (fun k => invoke cb (inject_Z (Z.of_nat (4 * k))) total) 0 n ;;
     if not_false shouldUpdate then updatePixels pg else ret tt) s /\
  ((w = 2 /\ h = 2 /\ d = 1)%nat ->
   tinkerPixels fuel cb shouldUpdate pg s =
     (call (EvLoadPixels c) ;;
      invoke cb 0 16 ;; invoke cb 4 16 ;; invoke cb 8 16 ;; invoke cb 12 16 ;;
      if not_false shouldUpdate then updatePixels pg else ret tt) s).
Proof.
  intros c Hw Hh Hd n total Hbig Hfuel.
  pose proof (total_of_nat w h d Hbig) as Ht. fold n in Ht. fold total in Ht.
  assert (Hrun : tinkerPixels fuel cb shouldUpdate pg s =
    (call (EvLoadPixels c) ;;
     for_loop (fun k => invoke cb (inject_Z (Z.of_nat (4 * k))) total) 0 n ;;
     if not_false shouldUpdate then updatePixels pg else ret tt) s).
  { unfold tinkerPixels. unfold bind at 1. unfold get_self at 1. cbv beta iota.
    fold c. apply bind_ext. intros [] s1 Hs1.
    unfold bind at 1. unfold get_host at 1. cbv beta iota.
    rewrite (proj1 (call_surfaces _ _ _ Hs1)). fold c.
    rewrite Hw, Hh, Hd. rewrite Ht.
    apply bind_ext'. unfold total.
    rewrite (tinker_loop_counted cb n Hbig 0 fuel) by lia.
    now rewrite Nat.sub_0_r. }
  split; [exact Ht|]. split; [exact Hrun|].
  intros (-> & -> & ->). rewrite Hrun. subst n total.
  apply bind_ext. intros [] s1 _. cbn [for_loop Nat.mul Nat.add].
  do 4 (rewrite bind_assoc; apply bind_ext; intros [] ? _).
  reflexivity.
Qed.

Lemma tinkerPixels_spec_witness :
  exists s',
    tinkerPixels 5 paint_red None None two_by_two = Ret tt s' /\
    trace (host s') =
      [EvLoadPixels OnGlobal;
       EvCallback 0 16; EvCallback 4 16; EvCallback 8 16; EvCallback 12 16;
       EvUpdatePixels OnGlobal] /\
    pixels_of OnGlobal s' = [255; 255; 255; 255]%Z.
Proof.
  assert (Hbig : (Z.of_nat (4 * (2 * 1 * 2 * 1)) <= 2 ^ 53)%Z) by (vm_compute; discriminate).
  destruct (tinkerPixels_spec 5 paint_red None None two_by_two 2 2 1
              eq_refl eq_refl eq_refl Hbig (le_n 5)) as (_ & _ & H).
  rewrite (H (conj eq_refl (conj eq_refl eq_refl))).
  exists (state_after (tinkerPixels 5 paint_red None None) two_by_two).
  split; [|split]; vm_compute; reflexivity.
Defined.

(** ** Read-only iteration *)

Lemma commits_call (e : event) (s s' : state) (b : unit) :
  call e s = Ret b s' ->
  commits s' = (commits s + if is_commit e then 1 else 0)%nat.
Proof.
  unfold call. destruct (raises _ _ _); [discriminate|].
  intros H. injection H as _ <-. unfold commits. cbn [host trace].
  rewrite filter_app, length_app. cbn [filter]. now destruct (is_commit e).
Qed.

Lemma call_throw (e : event) (s s' : state) (err : error) :
  call e s = Throw err s' -> s' = s.
Proof.
  unfold call. destruct (raises _ _ _); [|discriminate].
  intros H. now injection H.
Qed.

Lemma call_not_timeout (e : event) (s : state) : call e s <> Timeout.
Proof. unfold call. now destruct (raises _ _ _). Qed.

(** The iteration pass leaves the number of commits as it found it, however
    it ends, when the callback does not commit. *)
Lemma tinker_loop_commits (cb : callback) (channels total : number) :
  never_commits cb ->
  forall (fuel : nat) (i : number) (s : state),
    match tinker_loop fuel cb channels total i s with
    | Ret _ s' => commits s' = commits s
    | Throw _ s' => commits s' = commits s
    | Timeout => True
    end.
Proof.
  intros Hcb. induction fuel as [|fuel IH]; intros i s; cbn [tinker_loop].
  - exact I.
  - destruct (ltb i total); [|reflexivity].
    unfold bind at 1. unfold invoke, bind at 1.
    destruct (call (EvCallback i total) s) as [[] s1|err s1|] eqn:Hc.
    + apply commits_call in Hc. cbn [is_commit] in Hc. rewrite Nat.add_0_r in Hc.
      pose proof (Hcb i total s1) as H1.
      destruct (cb i total s1) as [[] s2|err s2|].
      * specialize (IH (fadd i channels) s2).
        destruct (tinker_loop fuel cb channels total (fadd i channels) s2);
          congruence.
      * congruence.
      * exact I.
    + apply call_throw in Hc. now subst.
    + exact I.
Qed.

(** C8. [loopPixels(callback, pg)] is [tinkerPixels(callback, false, pg)].
    Whatever the target and however the pass ends (it returns, or the host
    or the callback raises), [tinkerPixels] with [shouldUpdate = false], and
    so [loopPixels], leaves the number of commits of the surface as it was,
    for every callback that does not itself commit; with [shouldUpdate]
    true or absent a pass that returns has committed exactly once. *)
Theorem loopPixels_never_commits (fuel : nat) (cb : callback)
    (pg : option pgRef) (s : state) :
  never_commits cb ->
  loopPixels fuel cb pg s = tinkerPixels fuel cb (Some false) pg s /\
  match tinkerPixels fuel cb (Some false) pg s with
  | Ret _ s' => commits s' = commits s
  | Throw _ s' => commits s' = commits s
  | Timeout => True
  end /\
  match loopPixels fuel cb pg s with
  | Ret _ s' => commits s' = commits s
  | Throw _ s' => commits s' = commits s
  | Timeout => True
  end /\
  forall (shouldUpdate : option bool) (s' : state),
    shouldUpdate <> Some false ->
    tinkerPixels fuel cb shouldUpdate pg s = Ret tt s' ->
    commits s' = (commits s + 1)%nat.
Proof.
  intros Hcb.
  assert (Hpass : forall su,
    match tinkerPixels fuel cb su pg s with
    | Ret _ s' => commits s' = (commits s + if not_false su then 1 else 0)%nat
    | Throw _ s' => commits s' = commits s
    | Timeout => True
    end).
  { intros su. unfold tinkerPixels. unfold bind at 1, get_self at 1. cbv beta iota.
    unfold bind at 1.
    destruct (call (EvLoadPixels (resolve pg (self s))) s) as [[] s1|err s1|] eqn:Hc.
    - apply commits_call in Hc. cbn [is_commit] in Hc. rewrite Nat.add_0_r in Hc.
      unfold bind at 1, get_host at 1. cbv beta iota. unfold bind at 1.
      match goal with
      | |- context [tinker_loop fuel cb ?ch ?t ?i s1] =>
          pose proof (tinker_loop_commits cb ch t Hcb fuel i s1) as Hl;
          destruct (tinker_loop fuel cb ch t i s1) as [[] s2|err s2|]
      end.
      + destruct (not_false su).
        * unfold updatePixels, bind, get_self.
          destruct (call (EvUpdatePixels (resolve pg (self s2))) s2)
            as [[] s3|err s3|] eqn:Hu.
          -- apply commits_call in Hu. cbn [is_commit] in Hu. lia.
          -- apply call_throw in Hu. subst. congruence.
          -- exact I.
        * unfold ret. lia.
      + congruence.
      + exact I.
    - apply call_throw in Hc. now subst.
    - exact I. }
  split; [reflexivity|].
  assert (Hro := Hpass (Some false)). cbn [not_false] in Hro.
  split; [|split].
  - destruct (tinkerPixels fuel cb (Some false) pg s); auto. lia.
  - unfold loopPixels. destruct (tinkerPixels fuel cb (Some false) pg s); auto. lia.
  - intros su s' Hsu Hrun. specialize (Hpass su). rewrite Hrun in Hpass.
    destruct su as [[|]|]; cbn [not_false] in Hpass; congruence.
Qed.

Lemma paint_red_never_commits : never_commits paint_red.
Proof. intros index total s. reflexivity. Qed.

Lemma loopPixels_never_commits_witness :
  exists s',
    loopPixels 5 paint_red None two_by_two = Ret tt s' /\
    commits s' = 0%nat /\
    trace (host s') =
      [EvLoadPixels OnGlobal;
       EvCallback 0 16; EvCallback 4 16; EvCallback 8 16; EvCallback 12 16].
Proof.
  destruct (loopPixels_never_commits 5 paint_red None two_by_two
              paint_red_never_commits) as (_ & _ & H & _).
  set (s' := state_after (loopPixels 5 paint_red None) two_by_two).
  assert (E : loopPixels 5 paint_red None two_by_two = Ret tt s')
    by (vm_compute; reflexivity).
  rewrite E in H. exists s'.
  split; [exact E|]. split; [exact H|]. vm_compute. reflexivity.
Defined.

(** ** Texture overlay: what the drawing phase leaves untouched *)

Lemma same_but_trace_refl (s : state) : same_but_trace s s.
Proof. now repeat split. Qed.

Lemma same_but_trace_trans (s1 s2 s3 : state) :
  same_but_trace s1 s2 -> same_but_trace s2 s3 -> same_but_trace s1 s3.
Proof.
  intros (A1 & A2 & A3 & A4 & A5 & A6) (B1 & B2 & B3 & B4 & B5 & B6).
  repeat split; congruence.
Qed.

Lemma ended_bind {A B} (P : state -> Prop) (m : M A) (k : A -> M B) (s : state) :
  ended P (m s) ->
  (forall a s', m s = Ret a s' -> ended P (k a s')) ->
  ended P (bind m k s).
Proof.
  unfold bind. intros Hm Hk. destruct (m s) as [a s'|e s'|]; auto.
Qed.

Lemma call_frame (e : event) (s : state) : ended (same_but_trace s) (call e s).
Proof.
  unfold call. destruct (raises _ _ _); cbn [ended].
  - apply same_but_trace_refl.
  - now repeat split.
Qed.

Lemma ended_weaken {A} (P Q : state -> Prop) (r : outcome A) :
  (forall s, P s -> Q s) -> ended P r -> ended Q r.
Proof. intros H. destruct r; cbn [ended]; auto. Qed.

(** Sequencing two computations that each change the trace only. *)
Lemma frame_bind {A B} (m : M A) (k : A -> M B) (s : state) :
  ended (same_but_trace s) (m s) ->
  (forall a s', ended (same_but_trace s') (k a s')) ->
  ended (same_but_trace s) (bind m k s).
Proof.
  intros Hm Hk. apply ended_bind; [exact Hm|].
  intros a s' E. rewrite E in Hm. cbn [ended] in Hm.
  eapply ended_weaken; [|apply Hk].
  intros s2. now apply same_but_trace_trans.
Qed.

Lemma ret_frame {A} (a : A) (s : state) : ended (same_but_trace s) (ret a s).
Proof. apply same_but_trace_refl. Qed.

Lemma draw_tile_frame (dr : receiver) (tex : texture) (reflect : bool)
    (tW tH : number) (c : cursor) (s : state) :
  ended (same_but_trace s) (draw_tile dr tex reflect tW tH c s).
Proof.
  unfold draw_tile.
  destruct reflect; [|apply call_frame].
  apply frame_bind; [apply call_frame|]. intros _ s1.
  apply frame_bind; [|intros; apply call_frame].
  destruct (tRowFirst c), (tColFirst c);
    first [ apply call_frame
          | apply frame_bind; [apply call_frame | intros; apply call_frame] ].
Qed.

Lemma inner_while_frame (dr : receiver) (tex : texture) (reflect : bool)
    (W tW tH : number) (fuel : nat) :
  forall (c : cursor) (s : state),
    ended (same_but_trace s) (inner_while dr tex reflect W tW tH fuel c s).
Proof.
  induction fuel as [|fuel IH]; intros c s; cbn [inner_while].
  - exact I.
  - destruct (ltb (tX c) W); [|apply ret_frame].
    apply frame_bind; [apply draw_tile_frame|]. intros _ s1.
    destruct (geb (fadd (tX c) tW) W); [|apply IH].
    apply frame_bind; [apply same_but_trace_refl|]. intros; apply ret_frame.
Qed.

Lemma outer_while_frame (dr : receiver) (tex : texture) (reflect : bool)
    (W H tW tH : number) (fuel : nat) :
  forall (c : cursor) (s : state),
    ended (same_but_trace s) (outer_while dr tex reflect W H tW tH fuel c s).
Proof.
  induction fuel as [|fuel IH]; intros c s; cbn [outer_while].
  - exact I.
  - destruct (ltb (tY c) H); [|apply ret_frame].
    apply frame_bind; [apply inner_while_frame|]. intros; apply IH.
Qed.

Lemma overlay_draw_frame (fuel : nat) (tex : texture)
    (config : option overlayConfig) (pg : option pgRef) (W H : number)
    (s : state) :
  ended (same_but_trace s) (overlay_draw fuel tex config pg W H s).
Proof.
  unfold overlay_draw.
  apply frame_bind; [apply same_but_trace_refl|]. intros o s1.
  apply frame_bind; [apply call_frame|]. intros _ s2.
  apply frame_bind; [apply outer_while_frame|]. intros _ s3.
  apply frame_bind; [apply call_frame|]. intros _ s4.
  destruct (isGraphicsBuffer pg); [apply call_frame | apply ret_frame].
Qed.

(** ** Texture overlay: the animation block *)

Lemma with_overlay_provider (fc x y : Z) (o : P5Grain) :
  provider (with_overlay fc x y o) = provider o /\
  instance (with_overlay fc x y o) = instance o.
Proof. now split. Qed.

Lemma animated_provider (config : option overlayConfig) (W H r1 r2 : number)
    (o : P5Grain) :
  provider (animated config W H r1 r2 o) = provider o /\
  instance (animated config W H r1 r2 o) = instance o.
Proof.
  unfold animated. destruct (animate_enabled config); [|now split].
  destruct (geb _ _); now split.
Qed.

(** With a configured source the animation block returns, and leaves the
    object [animated]; it takes two draws when the interval is reached and
    none otherwise, and touches nothing else. *)
Lemma overlay_animate_spec (config : option overlayConfig) (W H : number)
    (src : source) (s : state) :
  random (self s) = Some src ->
  let d := draws (host s) in
  let redraw := animate_enabled config
                && geb (inject_Z (textureOverlay_frameCount (self s) + 1))
                     (animateAtFrame config) in
  overlay_animate (animate_enabled config) (animateAtFrame config)
    (animateAmount config W H) s =
  Ret tt (mkState (animated config W H (src d) (src (S d)) (self s))
            (mkWorld (surfaces (host s))
               (if redraw then S (S d) else d)
               (trace (host s)) (raises (host s))
               (global_random (host s)) (instance_random (host s)))).
Proof.
  intros Hs d redraw. unfold overlay_animate, animated, redraw.
  destruct s as [o w]. cbn [self host] in *.
  destruct (animate_enabled config); cbn [andb].
  - unfold bind, set_self, get_self. cbn [self host textureOverlay_frameCount with_overlay].
    destruct (geb _ _).
    + unfold call_random. cbn [self host random with_overlay]. rewrite Hs.
      cbn [self host random with_overlay draws]. rewrite Hs. reflexivity.
    + unfold ret. now destruct w.
  - unfold ret. now destruct w.
Qed.

(** Without any assumption the animation block keeps the provider, and when
    it raises (no source is configured) it has only counted the frame. *)
Lemma overlay_animate_any (en : bool) (atF amt : number) (s : state) :
  match overlay_animate en atF amt s with
  | Ret _ s1 =>
      provider (self s1) = provider (self s) /\ instance (self s1) = instance (self s) /\
      (en = false -> s1 = s) /\
      surfaces (host s1) = surfaces (host s) /\ trace (host s1) = trace (host s) /\
      raises (host s1) = raises (host s)
  | Throw e s1 =>
      provider (self s1) = provider (self s) /\ instance (self s1) = instance (self s) /\
      en = true /\ e = TypeError /\ random (self s) = None
  | Timeout => False
  end.
Proof.
  unfold overlay_animate. destruct s as [o w]. destruct en.
  - unfold bind, set_self, get_self. cbn [self host textureOverlay_frameCount with_overlay].
    destruct (geb _ _).
    + unfold call_random. cbn [self host random with_overlay].
      destruct (random o) as [src|] eqn:Hs.
      * cbn [self host random with_overlay draws]. rewrite Hs.
        repeat split; discriminate.
      * now repeat split.
    + unfold ret. repeat split; discriminate.
  - unfold ret. now repeat split.
Qed.

(** ** Texture overlay: the persistent state after a call *)

(** However a call ends, the object is the one the animation block left and
    the host differs by its trace and by the draws of that block. *)
Lemma textureOverlay_ended (fuel : nat) (tex : texture)
    (config : option overlayConfig) (pg : option pgRef) (src : source)
    (s : state) :
  random (self s) = Some src ->
  let d := draws (host s) in
  let redraw := animate_enabled config
                && geb (inject_Z (textureOverlay_frameCount (self s) + 1))
                     (animateAtFrame config) in
  ended (fun s' =>
           self s' = animated config (overlay_width pg s) (overlay_height pg s)
                       (src d) (src (S d)) (self s) /\
           surfaces (host s') = surfaces (host s) /\
           draws (host s') = (if redraw then S (S d) else d) /\
           raises (host s') = raises (host s))
    (textureOverlay fuel tex config pg s).
Proof.
  intros Hs d redraw. unfold textureOverlay.
  unfold bind at 1, get_self at 1. cbv beta iota.
  unfold bind at 1, get_host at 1. cbv beta iota.
  fold (overlay_width pg s) (overlay_height pg s).
  unfold bind at 1.
  rewrite (overlay_animate_spec config _ _ src s Hs). cbv beta iota.
  fold d redraw.
  match goal with
  | |- ended _ (overlay_draw _ _ _ _ _ _ ?s1) =>
      eapply ended_weaken; [|apply (overlay_draw_frame fuel tex config pg _ _ s1)]
  end.
  intros s' (A1 & A2 & A3 & A4 & _). cbn [self host surfaces draws raises] in *.
  now repeat split.
Qed.





(** ** Texture overlay: the drift over a sequence of calls *)

Lemma geb_interval_2 (atF : number) (count : Z) :
  atF == 2 -> geb (inject_Z count) atF = (2 <=? count)%Z.
Proof.
  intros H. unfold geb.
  rewrite (Qleb_comp atF 2 H (inject_Z count) (inject_Z count) (Qeq_refl _)).
  destruct (Z.leb_spec 2 count) as [Hc|Hc].
  - apply Qle_bool_iff. change 2 with (inject_Z 2). now rewrite <- Zle_Qle.
  - destruct (Qle_bool 2 (inject_Z count)) eqn:E; [|reflexivity].
    apply Qle_bool_iff in E. change 2 with (inject_Z 2) in E.
    rewrite <- Zle_Qle in E. lia.
Qed.

Lemma drift_nonpositive (r a : number) :
  0 <= r -> 0 <= a -> (- truncZ (fl (r * a)) <= 0)%Z.
Proof.
  intros Hr Ha. assert (H : 0 <= fl (r * a)).
  { apply fl_nonneg. apply Qmult_le_0_compat; assumption. }
  unfold truncZ. rewrite (proj2 (Qle_bool_iff 0 (fl (r * a))) H).
  apply Qfloor_resp_le in H. change (Qfloor 0) with 0%Z in H. lia.
Qed.

(** A source value of the format below 1 scales a positive amount to a
    number whose integer part is below the amount: the product is at most
    [amount * (1 - 2^-53)] and rounding adds at most its [2^-53]th part. *)
Lemma trunc_scaled (r a : Q) :
  is_double r = true -> 0 <= r < 1 -> 0 < a ->
  (0 <= truncZ (fl (r * a)))%Z /\ inject_Z (truncZ (fl (r * a))) < a.
Proof.
  intros Hd [Hr0 Hr1] Ha.
  assert (Hy : 0 <= r * a) by (apply Qmult_le_0_compat; lra).
  assert (H : 0 <= fl (r * a)) by (apply fl_nonneg, Hy).
  unfold truncZ. rewrite (proj2 (Qle_bool_iff 0 (fl (r * a))) H).
  split.
  - apply Qfloor_resp_le in H. exact H.
  - pose proof (below_one r Hd Hr1) as Hr.
    set (p := pow2 (-53)) in *. assert (Hp : 0 < p) by apply pow2_pos.
    assert (Hya : r * a <= a * (1 - p)).
    { rewrite (Qmult_comm a). apply Qmult_le_compat_r; lra. }
    destruct (Qlt_le_dec (fl (r * a)) 1) as [Hsmall | Hbig].
    + assert (E : Qfloor (fl (r * a)) = 0%Z).
      { assert (A : (0 <= Qfloor (fl (r * a)))%Z).
        { change 0%Z with (Qfloor 0). apply Qfloor_resp_le, H. }
        assert (B : inject_Z (Qfloor (fl (r * a))) < inject_Z 1).
        { eapply Qle_lt_trans; [apply Qfloor_le | exact Hsmall]. }
        rewrite <- Zlt_Qlt in B. lia. }
      rewrite E. exact Ha.
    + assert (Hn : pow2 (-1022) <= r * a).
      { destruct (Qlt_le_dec (r * a) (pow2 (-1022))) as [C | C]; [ | exact C].
        exfalso. apply Qlt_le_weak in C. apply fl_mono in C.
        assert (E : fl (pow2 (-1022)) < 1) by (vm_compute; reflexivity).
        lra. }
      pose proof (fl_upper (r * a) Hn) as Hu. fold p in Hu.
      assert (S1 : r * a * (1 + p) <= a * (1 - p) * (1 + p)).
      { apply Qmult_le_compat_r; lra. }
      assert (S2 : a * (1 - p) * (1 + p) == a - a * p * p) by ring.
      assert (S3 : 0 < a * p * p).
      { apply Qmult_lt_0_compat; [apply Qmult_lt_0_compat | ]; assumption. }
      pose proof (Qfloor_le (fl (r * a))) as F.
      lra.
Qed.

(** One call with animation on and the interval at 2. *)
Lemma textureOverlay_step (c : overlayCall) (src : source) (s s' : state) :
  random (self s) = Some src ->
  animate_enabled (call_config c) = true ->
  animateAtFrame (call_config c) == 2 ->
  run_call c s = Ret tt s' ->
  let d := draws (host s) in
  let a := animateAmount (call_config c) (overlay_width (call_pg c) s)
             (overlay_height (call_pg c) s) in
  let redraw := (1 <=? textureOverlay_frameCount (self s))%Z in
  provider (self s') = provider (self s) /\
  instance (self s') = instance (self s) /\
  surfaces (host s') = surfaces (host s) /\
  tiling_state (self s') =
    (if redraw
     then (0%Z, (- truncZ (fl (src d * a)))%Z, (- truncZ (fl (src (S d) * a)))%Z)
     else ((textureOverlay_frameCount (self s) + 1)%Z,
           textureOverlay_tX (self s), textureOverlay_tY (self s))) /\
  draws (host s') = (if redraw then S (S d) else d).
Proof.
  intros Hs Hen Hat Hrun d a redraw.
  pose proof (textureOverlay_ended (call_fuel c) (call_texture c) (call_config c)
                (call_pg c) src s Hs) as He.
  unfold run_call in Hrun. rewrite Hrun in He. cbn [ended] in He.
  destruct He as (E1 & E2 & E3 & _).
  rewrite Hen in E3. cbn [andb] in E3.
  rewrite (geb_interval_2 _ _ Hat) in E3.
  replace (2 <=? textureOverlay_frameCount (self s) + 1)%Z with redraw in E3
    by (unfold redraw; destruct (Z.leb_spec 1 (textureOverlay_frameCount (self s)));
        symmetry; [apply Z.leb_le | apply Z.leb_gt]; lia).
  rewrite E1.
  split; [apply animated_provider|]. split; [apply animated_provider|].
  split; [exact E2|]. split; [|exact E3].
  unfold animated. rewrite Hen, (geb_interval_2 _ _ Hat).
  replace (2 <=? textureOverlay_frameCount (self s) + 1)%Z with redraw
    by (unfold redraw; destruct (Z.leb_spec 1 (textureOverlay_frameCount (self s)));
        symmetry; [apply Z.leb_le | apply Z.leb_gt]; lia).
  now destruct redraw.
Qed.

Lemma overlay_width_stable (pg : option pgRef) (s s' : state) :
  instance (self s') = instance (self s) ->
  surfaces (host s') = surfaces (host s) ->
  overlay_width pg s' = overlay_width pg s /\
  overlay_height pg s' = overlay_height pg s.
Proof.
  intros Hi Hsf. unfold overlay_width, overlay_height, overlay_target, resolve,
    instance_truthy. now rewrite Hi, Hsf.
Qed.

(** With a negative amount the redrawn offsets are positive: two calls with
    [{ animate: { atFrame: 2, amount: -100 } }] and the source at 1/2 leave
    both offsets at +50. *)
Lemma negative_amount_positive_offsets :
  exists s',
    overlay_calls [mkCall 10 texture10 animate_negative None;
                   mkCall 10 texture10 animate_negative None] sketch25
      = Ret tt s' /\
    tiling_state (self s') = (0, 50, 50)%Z /\
    ~ (textureOverlay_tX (self s') <= 0)%Z.
Proof.
  eexists. split; [vm_compute; reflexivity|].
  split; [reflexivity|]. cbn. lia.
Qed.

Lemma overlay_calls_cons (c : overlayCall) (cs : list overlayCall) (s s' : state) :
  overlay_calls (c :: cs) s = Ret tt s' ->
  exists sm, run_call c s = Ret tt sm /\ overlay_calls cs sm = Ret tt s'.
Proof.
  cbn [overlay_calls]. unfold bind.
  destruct (run_call c s) as [[] sm|e sm|]; try discriminate.
  intros H. now exists sm.
Qed.

Lemma drifting_stable (s s' : state) (c : overlayCall) :
  instance (self s') = instance (self s) ->
  surfaces (host s') = surfaces (host s) ->
  drifting s c -> drifting s' c.
Proof.
  intros Hi Hsf (A & B & C). unfold drifting.
  destruct (overlay_width_stable (call_pg c) s s' Hi Hsf) as (-> & ->).
  now repeat split.
Qed.

Lemma drift_core (src : source) (c : overlayCall) (pre : list overlayCall) :
  forall (s s1 s2 : state),
    random (self s) = Some src ->
    (forall k, 0 <= src k < 1) ->
    (0 <= textureOverlay_frameCount (self s))%Z ->
    (textureOverlay_tX (self s) <= 0)%Z ->
    (textureOverlay_tY (self s) <= 0)%Z ->
    Forall (drifting s) (pre ++ [c]) ->
    overlay_calls pre s = Ret tt s1 ->
    run_call c s1 = Ret tt s2 ->
    let a := animateAmount (call_config c) (overlay_width (call_pg c) s)
               (overlay_height (call_pg c) s) in
    let d := draws (host s1) in
    let p := if (1 <=? textureOverlay_frameCount (self s))%Z then 1%nat else 0%nat in
    tiling_state (self s2) =
      (if Nat.even (List.length pre + p)
       then (1%Z, textureOverlay_tX (self s1), textureOverlay_tY (self s1))
       else (0%Z, (- truncZ (fl (src d * a)))%Z, (- truncZ (fl (src (S d) * a)))%Z)) /\
    draws (host s2) = (if Nat.even (List.length pre + p) then d else S (S d)) /\
    (textureOverlay_tX (self s2) <= 0)%Z /\
    (textureOverlay_tY (self s2) <= 0)%Z.
Proof.
  induction pre as [|c0 pre IH]; intros s s1 s2 Hs Hsrc Hfc Hx Hy Hall Hpre Hrun.
  - cbn [overlay_calls] in Hpre. injection Hpre as <-.
    apply Forall_inv in Hall. destruct Hall as (Hen & Hat & Ha).
    destruct (textureOverlay_step c src s s2 Hs Hen Hat Hrun)
      as (_ & _ & _ & Ht & Hd).
    cbn zeta. cbn [List.length Nat.add].
    cbv zeta in Ht, Hd. unfold tiling_state in Ht. revert Ht Hd.
    destruct (Z.leb_spec 1 (textureOverlay_frameCount (self s))) as [H1|H1];
      cbn [Nat.even]; intros Ht Hd; injection Ht as F X Y.
    + unfold tiling_state. rewrite F, X, Y. repeat split; auto.
      * apply drift_nonpositive; [apply Hsrc | exact Ha].
      * apply drift_nonpositive; [apply Hsrc | exact Ha].
    + unfold tiling_state. rewrite F, X, Y. repeat split; auto.
      do 2 f_equal. lia.
  - apply overlay_calls_cons in Hpre. destruct Hpre as (sm & Hc0 & Hpre).
    cbn [app] in Hall. pose proof (Forall_inv Hall) as (Hen & Hat & Ha).
    apply Forall_inv_tail in Hall.
    destruct (textureOverlay_step c0 src s sm Hs Hen Hat Hc0)
      as (Hp & Hi & Hsf & Ht & Hd).
    assert (Hs' : random (self sm) = Some src).
    { unfold provider in Hp. injection Hp as R _ _. congruence. }
    cbv zeta in Ht, Hd. unfold tiling_state in Ht.
    assert (Hall' : Forall (drifting sm) (pre ++ [c])).
    { eapply Forall_impl; [|exact Hall]. intros c'. now apply drifting_stable. }
    destruct (overlay_width_stable (call_pg c) s sm Hi Hsf) as (Ew & Eh).
    cbn zeta. cbn [List.length]. rewrite <- Ew, <- Eh.
    revert Ht Hd.
    destruct (Z.leb_spec 1 (textureOverlay_frameCount (self s))) as [H1|H1];
      intros Ht Hd; injection Ht as F X Y.
    + assert (IH' := IH sm s1 s2 Hs' Hsrc).
      rewrite F, X, Y in IH'. cbn zeta in IH'.
      change (1 <=? 0)%Z with false in IH'. cbv iota in IH'.
      replace (Nat.even (S (List.length pre) + 1))
        with (Nat.even (List.length pre + 0)).
      * apply IH'; auto; try lia.
        -- apply drift_nonpositive; [apply Hsrc | exact Ha].
        -- apply drift_nonpositive; [apply Hsrc | exact Ha].
      * rewrite Nat.add_0_r.
        replace (S (List.length pre) + 1)%nat with (S (S (List.length pre))) by lia.
        reflexivity.
    + assert (IH' := IH sm s1 s2 Hs' Hsrc).
      rewrite F, X, Y in IH'. cbn zeta in IH'.
      replace (textureOverlay_frameCount (self s) + 1)%Z with 1%Z in IH' by lia.
      change (1 <=? 1)%Z with true in IH'. cbv iota in IH'.
      replace (Nat.even (S (List.length pre) + 0))
        with (Nat.even (List.length pre + 1)).
      * apply IH'; auto; lia.
      * f_equal. lia.
Qed.

(** C6 (amended). Take any sequence of [textureOverlay] calls that all have
    animation on, the interval at 2 and a non-negative amount, starting from
    an object whose frame counter is not negative and whose two offsets are
    not positive (as they are on a fresh object), with a source in [0,1).
    Then the calls of the sequence alternate: one call only counts the frame,
    leaving both offsets and the source untouched and the counter at 1; the
    next one takes two values [r1], [r2] from the source, stores
    [-trunc(r1 * amount)] and [-trunc(r2 * amount)], the products being
    rounded to binary64, and resets the counter to 0; from a counter at 0 it
    is the 2nd, 4th, ... call that redraws.  After every call both offsets
    are less than or equal to 0, and the magnitudes [trunc(r * amount)] lie
    in [0, amount) when the amount is positive. *)
Theorem overlay_drift_every_second_call
    (cs : list overlayCall) (src : source) (s : state) :
  random (self s) = Some src ->
  (forall k, 0 <= src k < 1) ->
  (0 <= textureOverlay_frameCount (self s))%Z ->
  (textureOverlay_tX (self s) <= 0)%Z ->
  (textureOverlay_tY (self s) <= 0)%Z ->
  Forall (drifting s) cs ->
  forall (pre post : list overlayCall) (c : overlayCall) (s1 s2 : state),
    cs = pre ++ c :: post ->
    overlay_calls pre s = Ret tt s1 ->
    run_call c s1 = Ret tt s2 ->
    let a := animateAmount (call_config c) (overlay_width (call_pg c) s)
               (overlay_height (call_pg c) s) in
    let d := draws (host s1) in
    let p := if (1 <=? textureOverlay_frameCount (self s))%Z then 1%nat else 0%nat in
    tiling_state (self s2) =
      (if Nat.even (List.length pre + p)
       then (1%Z, textureOverlay_tX (self s1), textureOverlay_tY (self s1))
       else (0%Z, (- truncZ (fl (src d * a)))%Z, (- truncZ (fl (src (S d) * a)))%Z)) /\
    draws (host s2) = (if Nat.even (List.length pre + p) then d else S (S d)) /\
    (textureOverlay_tX (self s2) <= 0)%Z /\
    (textureOverlay_tY (self s2) <= 0)%Z /\
    (0 < a ->
     0 <= inject_Z (truncZ (fl (src d * a))) < a /\
     0 <= inject_Z (truncZ (fl (src (S d) * a))) < a).
Proof.
  intros Hs Hsrc Hfc Hx Hy Hall pre post c s1 s2 -> Hpre Hrun a d p.
  assert (Hall' : Forall (drifting s) (pre ++ [c])).
  { apply Forall_app in Hall. destruct Hall as (A & B).
    apply Forall_app. split; [exact A|].
    constructor; [now apply Forall_inv in B | constructor]. }
  destruct (drift_core src c pre s s1 s2 Hs Hsrc Hfc Hx Hy Hall' Hpre Hrun)
    as (A & B & C & D).
  split; [exact A | ]. split; [exact B | ]. split; [exact C | ]. split; [exact D | ].
  intros Ha.
  destruct (trunc_scaled (src d) a (double_ok _) (Hsrc d) Ha) as [T1 T2].
  destruct (trunc_scaled (src (S d)) a (double_ok _) (Hsrc (S d)) Ha) as [T3 T4].
  change 0 with (inject_Z 0). rewrite <- !Zle_Qle. repeat split; assumption.
Qed.

Lemma drifting_animated_call : drifting sketch25 animated_call.
Proof.
  unfold drifting. split; [reflexivity|]. split; [reflexivity|]. discriminate.
Qed.

Lemma overlay_drift_every_second_call_witness :
  exists s1 s2,
    overlay_calls [animated_call] sketch25 = Ret tt s1 /\
    run_call animated_call s1 = Ret tt s2 /\
    tiling_state (self s1) = (1, 0, 0)%Z /\
    tiling_state (self s2) = (0, -12, -12)%Z.
Proof.
  set (s1 := state_after (overlay_calls [animated_call]) sketch25).
  set (s2 := state_after (run_call animated_call) s1).
  assert (E1 : overlay_calls [animated_call] sketch25 = Ret tt s1)
    by (vm_compute; reflexivity).
  assert (E2 : run_call animated_call s1 = Ret tt s2)
    by (vm_compute; reflexivity).
  assert (Hsrc : forall k, 0 <= half k < 1)
    by (intros k; split; [discriminate | reflexivity]).
  assert (Hall : Forall (drifting sketch25)
                   [animated_call; animated_call; animated_call; animated_call])
    by (repeat constructor; apply drifting_animated_call).
  destruct (overlay_drift_every_second_call
              [animated_call; animated_call; animated_call; animated_call]
              half sketch25 eq_refl Hsrc (Z.le_refl 0) (Z.le_refl 0) (Z.le_refl 0)
              Hall [animated_call] [animated_call; animated_call] animated_call
              s1 s2 eq_refl E1 E2) as (A & _).
  exists s1, s2. split; [exact E1|]. split; [exact E2|].
  split; [reflexivity|]. rewrite A. reflexivity.
Defined.

(** ** Texture overlay: the tiling loop *)

Lemma ltb_lt (x y : number) : ltb x y = true <-> x < y.
Proof.
  unfold ltb. rewrite negb_true_iff. split.
  - intros E. apply Qnot_le_lt. intros H. apply Qle_bool_iff in H. congruence.
  - intros H. destruct (Qle_bool y x) eqn:E; [|reflexivity].
    apply Qle_bool_iff in E. exfalso. revert E. now apply Qlt_not_le.
Qed.

Lemma ltb_ge (x y : number) : ltb x y = false <-> y <= x.
Proof.
  unfold ltb. rewrite negb_false_iff. apply Qle_bool_iff.
Qed.

Lemma geb_le (x y : number) : geb x y = true <-> y <= x.
Proof. apply Qle_bool_iff. Qed.

Lemma geb_lt (x y : number) : geb x y = false <-> x < y.
Proof.
  unfold geb. split.
  - intros E. apply Qnot_le_lt. intros H. apply Qle_bool_iff in H. congruence.
  - intros H. destruct (Qle_bool y x) eqn:E; [|reflexivity].
    apply Qle_bool_iff in E. exfalso. revert E. now apply Qlt_not_le.
Qed.

Lemma quiet_stable (s s' : state) : same_but_trace s s' -> quiet s -> quiet s'.
Proof. intros (_ & _ & _ & Hr & _) Hq t e. rewrite Hr. apply Hq. Qed.

Lemma call_quiet (e : event) (s : state) :
  quiet s -> exists s', call e s = Ret tt s' /\ same_but_trace s s'.
Proof.
  intros Hq. eexists. split; [apply call_ok, Hq|]. now repeat split.
Qed.

(** Running [m] then [k] on a quiet host, when both return. *)
Lemma bind_quiet {A} (m : M unit) (k : unit -> M A) (s : state) :
  (exists s1, m s = Ret tt s1 /\ same_but_trace s s1) ->
  (forall s1, same_but_trace s s1 ->
     exists a s2, k tt s1 = Ret a s2 /\ same_but_trace s1 s2) ->
  exists a s2, bind m k s = Ret a s2 /\ same_but_trace s s2.
Proof.
  intros (s1 & E & F) Hk. destruct (Hk s1 F) as (a & s2 & E2 & F2).
  exists a, s2. unfold bind. rewrite E. split; [exact E2|].
  now apply same_but_trace_trans with s1.
Qed.

Lemma draw_tile_quiet (dr : receiver) (tex : texture) (reflect : bool)
    (tW tH : number) (c : cursor) (s : state) :
  quiet s ->
  exists s', draw_tile dr tex reflect tW tH c s = Ret tt s' /\ same_but_trace s s'.
Proof.
  intros Hq.
  assert (Hcall : forall e s0, same_but_trace s s0 ->
            exists (a : unit) s1, call e s0 = Ret a s1 /\ same_but_trace s0 s1).
  { intros e s0 F. exists tt. apply call_quiet. now apply (quiet_stable s). }
  assert (Hcall2 : forall e1 e2 s0, same_but_trace s s0 ->
            exists (a : unit) s1,
              (call e1 ;; call e2) s0 = Ret a s1 /\ same_but_trace s0 s1).
  { intros e1 e2 s0 F. apply bind_quiet.
    - apply call_quiet. now apply (quiet_stable s).
    - intros s1 F1. apply Hcall. now apply same_but_trace_trans with s0. }
  assert (H : exists (a : unit) s', draw_tile dr tex reflect tW tH c s = Ret a s'
                                    /\ same_but_trace s s').
  { unfold draw_tile. destruct reflect.
    - apply bind_quiet; [now apply call_quiet|]. intros s1 F1.
      assert (Hmid : exists s2,
        (if tRowFirst c
         then if tColFirst c
              then call (EvImage dr tex (tX c) (tY c) tW tH)
              else call (EvScale dr (-1) 1) ;;
                   call (EvImage dr tex (- tX c) (tY c) (- tW) tH)
         else if tColFirst c
              then call (EvScale dr 1 (-1)) ;;
                   call (EvImage dr tex (tX c) (- tY c) tW (- tH))
              else call (EvScale dr (-1) (-1)) ;;
                   call (EvImage dr tex (- tX c) (- tY c) (- tW) (- tH))) s1
        = Ret tt s2 /\ same_but_trace s1 s2).
      { destruct (tRowFirst c), (tColFirst c);
          first [ destruct (Hcall (EvImage dr tex (tX c) (tY c) tW tH) s1 F1)
                    as ([] & s2 & E & F); now exists s2
                | match goal with
                  | |- exists s2, (call ?e1 ;; call ?e2) s1 = _ /\ _ =>
                      destruct (Hcall2 e1 e2 s1 F1) as ([] & s2 & E & F);
                      now exists s2
                  end ]. }
      apply bind_quiet; [exact Hmid|]. intros s2 F2.
      apply Hcall. now apply same_but_trace_trans with s1.
    - apply Hcall, same_but_trace_refl. }
  destruct H as ([] & s' & E & F). now exists s'.
Qed.

Lemma draw_tile_not_timeout (dr : receiver) (tex : texture) (reflect : bool)
    (tW tH : number) (c : cursor) (s : state) :
  draw_tile dr tex reflect tW tH c s <> Timeout.
Proof.
  assert (Hc : forall e s0, call e s0 <> Timeout) by apply call_not_timeout.
  assert (Hb : forall (m k : M unit) s0,
            (forall s1, m s1 <> Timeout) -> (forall s1, k s1 <> Timeout) ->
            bind m (fun _ => k) s0 <> Timeout).
  { intros m k s0 Hm Hk. unfold bind. pose proof (Hm s0).
    destruct (m s0); [apply Hk | discriminate | contradiction]. }
  unfold draw_tile. destruct reflect; [|apply Hc].
  apply Hb; [intros; apply Hc|]. intros s1.
  apply Hb; [|intros; apply Hc]. intros s2.
  destruct (tRowFirst c), (tColFirst c);
    first [apply Hc | apply Hb; intros; apply Hc].
Qed.

(** Below [2^53] in magnitude the numbers of the format are at most 1
    apart, so that rounding moves a number by at most one half. *)
Lemma fl_near (y : Q) :
  - inject_Z (2 ^ 53) <= y <= inject_Z (2 ^ 53) -> - (1 # 2) <= fl y - y <= 1 # 2.
Proof.
  assert (Hpos : forall x, 0 < x -> x <= inject_Z (2 ^ 53) ->
                   - (1 # 2) <= round_pos x - x <= 1 # 2).
  { intros x Hx Hb.
    destruct (Qlt_le_dec x (inject_Z (2 ^ 53))) as [Hlt | Hge].
    - assert (Hq : (quantum x <= 0)%Z).
      { destruct (binade_spec x Hx) as [B1 _].
        assert (L : (binade x < 53)%Z).
        { apply pow2_lt_inv. rewrite (pow2_Z 53) by lia. lra. }
        unfold quantum. lia. }
      unfold round_pos. set (k := quantum x) in *.
      pose proof (rne_near (x / pow2 k)) as [N1 N2].
      pose proof (div_pow2 x k) as D. pose proof (pow2_pos k) as Hk.
      assert (Hk1 : pow2 k <= 1) by (apply (pow2_le k 0); exact Hq).
      set (t := x / pow2 k) in *. set (N := inject_Z (rne t)) in *.
      set (q := pow2 k) in *.
      assert (A : (N - t) * q <= (1 # 2) * q) by (apply Qmult_le_compat_r; lra).
      assert (B : - (1 # 2) * q <= (N - t) * q) by (apply Qmult_le_compat_r; lra).
      assert (E : N * q - x == (N - t) * q) by (rewrite <- D; ring).
      rewrite E. split; lra.
    - assert (E : x == inject_Z (2 ^ 53)) by (apply Qle_antisym; assumption).
      rewrite (round_pos_comp x (inject_Z (2 ^ 53)) Hx E), E.
      rewrite (round_pos_exact (inject_Z (2 ^ 53)) 1 53);
        [lra | lia | lia | ].
      rewrite (pow2_Z 53) by lia. change (inject_Z 1) with 1. ring. }
  intros [H1 H2].
  destruct (fl_cases y) as [[Hy E] | [[Hy E] | [Hy E]]].
  - rewrite E, Hy. split; discriminate.
  - rewrite E. apply Hpos; assumption.
  - rewrite E. destruct (Hpos (- y)) as [A B]; [lra | lra | ]. split; lra.
Qed.

(** A step of at least 1 from a cursor between [-2^52] and [2^52] moves
    it by at least one half. *)
Lemma fadd_progress (x d : Q) :
  - inject_Z (2 ^ 52) <= x <= inject_Z (2 ^ 52) -> 1 <= d -> x + (1 # 2) <= fadd x d.
Proof.
  intros [H1 H2] Hd. unfold fadd.
  apply Qle_trans with (fl (x + 1)); [ | apply fl_mono; lra].
  assert (Hb : - inject_Z (2 ^ 53) <= x + 1 <= inject_Z (2 ^ 53)).
  { assert (E : inject_Z (2 ^ 53) == 2 * inject_Z (2 ^ 52)).
    { change 2 with (inject_Z 2). rewrite <- inject_Z_mult. reflexivity. }
    assert (P : 1 <= inject_Z (2 ^ 52)) by (vm_compute; discriminate).
    split; lra. }
  pose proof (fl_near (x + 1) Hb) as [N1 N2]. lra.
Qed.

(** A step that is not positive does not move a number of the format
    upwards. *)
Lemma fadd_no_progress (x d : Q) : fl x == x -> d <= 0 -> fadd x d <= x.
Proof.
  intros Hx Hd. unfold fadd. rewrite <- Hx at 2. apply fl_mono. lra.
Qed.

Lemma fadd_double (x d : Q) : fl (fadd x d) == fadd x d.
Proof. unfold fadd. rewrite fl_idempotent. reflexivity. Qed.

Section TilingLoop.

Variable dr : receiver.
Variable tex : texture.
Variable reflect : bool.
Variables W H tW tH : number.

(** A row that starts left of the right edge ends by the [break]: the
    cursor is back at the start of the row, one tile lower. *)
Lemma inner_while_shape (fuel : nat) :
  forall (c c' : cursor) (s s' : state),
    tX c < W ->
    inner_while dr tex reflect W tW tH fuel c s = Ret c' s' ->
    tX c' = row_start s /\ tY c' = fadd (tY c) tH /\
    tRowFirst c' = tRowFirst c /\ same_but_trace s s'.
Proof.
  induction fuel as [|fuel IH]; intros c c' s s' Hx; cbn [inner_while].
  - discriminate.
  - rewrite (proj2 (ltb_lt _ _) Hx). unfold bind at 1.
    pose proof (draw_tile_frame dr tex reflect tW tH c s) as Hf.
    destruct (draw_tile dr tex reflect tW tH c s) as [[] s1|e s1|];
      try discriminate. cbn [ended] in Hf.
    destruct (geb (fadd (tX c) tW) W) eqn:Eg.
    + unfold bind, get_self, ret. intros E. injection E as <- <-.
      cbn [tX tY tRowFirst]. unfold row_start.
      pose proof Hf as (Hself & _). rewrite Hself.
      split; [reflexivity|]. split; [reflexivity|]. split; [reflexivity | exact Hf].
    + intros E. apply geb_lt in Eg.
      apply IH in E; [|exact Eg].
      destruct E as (A & B & C & D). cbn [tX tY tRowFirst] in *.
      unfold row_start in *. pose proof Hf as (Hself & _).
      rewrite Hself in A.
      split; [exact A|]. split; [exact B|]. split; [exact C|].
      now apply same_but_trace_trans with s1.
Qed.

Lemma inner_while_skip (fuel : nat) (c : cursor) (s : state) :
  W <= tX c -> inner_while dr tex reflect W tW tH (S fuel) c s = Ret c s.
Proof. intros Hx. cbn [inner_while]. now rewrite (proj2 (ltb_ge _ _) Hx). Qed.

(** With a tile width of at least 1, on a target at most [2^52] wide, a
    row is finished within twice as many passes as units lie between the
    cursor and the right edge. *)
Lemma inner_while_terminates (n : nat) :
  1 <= tW -> W <= inject_Z (2 ^ 52) ->
  forall (fuel : nat) (c : cursor) (s : state),
    (n <= fuel)%nat ->
    - inject_Z (2 ^ 52) <= tX c ->
    tX c < W ->
    W <= tX c + inject_Z (Z.of_nat n) * (1 # 2) ->
    inner_while dr tex reflect W tW tH fuel c s <> Timeout.
Proof.
  intros HtW HW. induction n as [|n IH]; intros fuel c s Hf Hlo Hx Hn.
  - exfalso. change (inject_Z (Z.of_nat 0)) with 0 in Hn. lra.
  - destruct fuel as [|fuel]; [lia|]. cbn [inner_while].
    rewrite (proj2 (ltb_lt _ _) Hx). unfold bind at 1.
    pose proof (draw_tile_not_timeout dr tex reflect tW tH c s) as Hd.
    destruct (draw_tile dr tex reflect tW tH c s) as [[] s1|e s1|];
      [|discriminate|contradiction].
    destruct (geb (fadd (tX c) tW) W) eqn:Eg; [discriminate|].
    apply geb_lt in Eg.
    assert (Hp : tX c + (1 # 2) <= fadd (tX c) tW).
    { apply fadd_progress; [split; lra | exact HtW]. }
    apply IH; [lia | cbn [tX]; lra | exact Eg |]. cbn [tX].
    rewrite Nat2Z.inj_succ, <- Z.add_1_r, inject_Z_plus in Hn.
    change (inject_Z 1) with 1 in Hn. lra.
Qed.

Lemma inner_while_quiet (fuel : nat) :
  forall (c : cursor) (s : state) (e : error) (s' : state),
    quiet s -> inner_while dr tex reflect W tW tH fuel c s <> Throw e s'.
Proof.
  induction fuel as [|fuel IH]; intros c s e s' Hq; cbn [inner_while].
  - discriminate.
  - destruct (ltb (tX c) W); [|discriminate].
    unfold bind at 1.
    destruct (draw_tile_quiet dr tex reflect tW tH c s Hq) as (s1 & -> & F).
    destruct (geb (fadd (tX c) tW) W); [discriminate|].
    apply IH. now apply (quiet_stable s).
Qed.

(** With a tile width that is not positive the cursor never reaches the
    right edge. *)
Lemma inner_while_diverges (fuel : nat) :
  tW <= 0 ->
  forall (c : cursor) (s : state),
    quiet s -> fl (tX c) == tX c -> tX c < W ->
    inner_while dr tex reflect W tW tH fuel c s = Timeout.
Proof.
  intros HtW. induction fuel as [|fuel IH]; intros c s Hq Hdb Hx; cbn [inner_while].
  - reflexivity.
  - rewrite (proj2 (ltb_lt _ _) Hx). unfold bind at 1.
    destruct (draw_tile_quiet dr tex reflect tW tH c s Hq) as (s1 & -> & F).
    pose proof (fadd_no_progress (tX c) tW Hdb HtW) as Hstep.
    assert (Hx' : fadd (tX c) tW < W) by lra.
    rewrite (proj2 (geb_lt _ _) Hx').
    apply IH; [now apply (quiet_stable s) | apply fadd_double | exact Hx'].
Qed.

(** A tile so narrow that adding its width leaves the cursor where it is
    never reaches the right edge either. *)
Lemma inner_while_stalls (fuel : nat) :
  forall (c : cursor) (s : state),
    quiet s -> fadd (tX c) tW = tX c -> tX c < W ->
    inner_while dr tex reflect W tW tH fuel c s = Timeout.
Proof.
  induction fuel as [|fuel IH]; intros c s Hq Hst Hx; cbn [inner_while].
  - reflexivity.
  - rewrite (proj2 (ltb_lt _ _) Hx). unfold bind at 1.
    destruct (draw_tile_quiet dr tex reflect tW tH c s Hq) as (s1 & -> & F).
    rewrite Hst. rewrite (proj2 (geb_lt _ _) Hx).
    apply IH; [now apply (quiet_stable s) | exact Hst | exact Hx].
Qed.

(** With tile dimensions of at least 1, a target at most [2^52] wide and
    high and a row start left of the right edge, the rows are finished
    within twice as many passes as units lie above the bottom edge, each row
    taking at most [n] passes. *)
Lemma outer_while_terminates (n : nat) :
  1 <= tW -> 1 <= tH ->
  W <= inject_Z (2 ^ 52) -> H <= inject_Z (2 ^ 52) ->
  forall (m fuel : nat) (c : cursor) (s : state),
    (m + n + 1 <= fuel)%nat ->
    tX c = row_start s -> - inject_Z (2 ^ 52) <= row_start s -> row_start s < W ->
    W <= row_start s + inject_Z (Z.of_nat n) * (1 # 2) ->
    - inject_Z (2 ^ 52) <= tY c ->
    H <= tY c + inject_Z (Z.of_nat m) * (1 # 2) ->
    outer_while dr tex reflect W H tW tH fuel c s <> Timeout.
Proof.
  intros HtW HtH HW HH.
  induction m as [|m IH]; intros fuel c s Hf Hx Hlo Hx0 Hn Hylo Hm;
    (destruct fuel as [|fuel]; [lia|]); cbn [outer_while].
  - change (inject_Z (Z.of_nat 0)) with 0 in Hm.
    assert (Hy : H <= tY c) by lra.
    rewrite (proj2 (ltb_ge _ _) Hy). discriminate.
  - destruct (ltb (tY c) H) eqn:Ey; [|discriminate].
    apply ltb_lt in Ey.
    unfold bind at 1.
    assert (Hxc : tX c < W) by (rewrite Hx; exact Hx0).
    assert (Hxl : - inject_Z (2 ^ 52) <= tX c) by (rewrite Hx; exact Hlo).
    assert (Hnc : W <= tX c + inject_Z (Z.of_nat n) * (1 # 2)) by (rewrite Hx; exact Hn).
    pose proof (inner_while_terminates n HtW HW fuel c s ltac:(lia) Hxl Hxc Hnc) as Hi.
    destruct (inner_while dr tex reflect W tW tH fuel c s) as [c1 s1|e s1|] eqn:Ei; [|discriminate|contradiction].
    destruct (inner_while_shape fuel c c1 s s1 Hxc Ei) as (A & B & _ & F).
    assert (Hrow : row_start s1 = row_start s).
    { unfold row_start. destruct F as (-> & _). reflexivity. }
    assert (Hp : tY c + (1 # 2) <= fadd (tY c) tH).
    { apply fadd_progress; [split; lra | exact HtH]. }
    apply IH; cbn [tX tY]; rewrite ?Hrow; auto; try lia.
    + rewrite B. lra.
    + rewrite B. rewrite Nat2Z.inj_succ, <- Z.add_1_r, inject_Z_plus in Hm.
      change (inject_Z 1) with 1 in Hm. lra.
Qed.

Lemma outer_while_quiet (fuel : nat) :
  forall (c : cursor) (s : state) (e : error) (s' : state),
    quiet s -> outer_while dr tex reflect W H tW tH fuel c s <> Throw e s'.
Proof.
  induction fuel as [|fuel IH]; intros c s e s' Hq; cbn [outer_while].
  - discriminate.
  - destruct (ltb (tY c) H); [|discriminate].
    unfold bind at 1.
    pose proof (inner_while_frame dr tex reflect W tW tH fuel c s) as Hf.
    pose proof (inner_while_quiet fuel c s) as Hi.
    destruct (inner_while dr tex reflect W tW tH fuel c s) as [c1 s1|e1 s1|]; [| |discriminate].
    + apply IH. now apply (quiet_stable s).
    + exfalso. now apply (Hi e1 s1).
Qed.

(** The three ways the tiling loop runs for ever on a quiet host: a tile
    width that is not positive, a tile height that is not positive, a row
    start at or beyond the right edge. *)
Lemma outer_while_diverges_width (fuel : nat) :
  tW <= 0 ->
  forall (c : cursor) (s : state),
    quiet s -> fl (tX c) == tX c -> tX c < W -> tY c < H ->
    outer_while dr tex reflect W H tW tH fuel c s = Timeout.
Proof.
  intros HtW. destruct fuel as [|fuel]; intros c s Hq Hdb Hx Hy; cbn [outer_while].
  - reflexivity.
  - rewrite (proj2 (ltb_lt _ _) Hy). unfold bind.
    now rewrite (inner_while_diverges fuel HtW c s Hq Hdb Hx).
Qed.

Lemma outer_while_diverges_height (fuel : nat) :
  tH <= 0 ->
  forall (c : cursor) (s : state),
    quiet s -> tX c = row_start s -> row_start s < W ->
    fl (tY c) == tY c -> tY c < H ->
    outer_while dr tex reflect W H tW tH fuel c s = Timeout.
Proof.
  intros HtH. induction fuel as [|fuel IH]; intros c s Hq Hx Hx0 Hdb Hy;
    cbn [outer_while].
  - reflexivity.
  - rewrite (proj2 (ltb_lt _ _) Hy). unfold bind at 1.
    assert (Hxc : tX c < W) by (rewrite Hx; exact Hx0).
    pose proof (inner_while_quiet fuel c s) as Hi.
    destruct (inner_while dr tex reflect W tW tH fuel c s) as [c1 s1|e1 s1|] eqn:Ei;
      [| exfalso; now apply (Hi e1 s1) | reflexivity].
    destruct (inner_while_shape fuel c c1 s s1 Hxc Ei) as (A & B & _ & F).
    assert (Hrow : row_start s1 = row_start s).
    { unfold row_start. destruct F as (-> & _). reflexivity. }
    pose proof (fadd_no_progress (tY c) tH Hdb HtH) as Hstep.
    apply IH; cbn [tX tY]; rewrite ?Hrow; auto.
    + now apply (quiet_stable s).
    + rewrite B. apply fadd_double.
    + rewrite B. lra.
Qed.

(** A row whose cursor stalls is never left. *)
Lemma outer_while_stalls (fuel : nat) :
  forall (c : cursor) (s : state),
    quiet s -> fadd (tX c) tW = tX c -> tX c < W -> tY c < H ->
    outer_while dr tex reflect W H tW tH fuel c s = Timeout.
Proof.
  destruct fuel as [|fuel]; intros c s Hq Hst Hx Hy; cbn [outer_while].
  - reflexivity.
  - rewrite (proj2 (ltb_lt _ _) Hy). unfold bind.
    now rewrite (inner_while_stalls fuel c s Hq Hst Hx).
Qed.

Lemma outer_while_diverges_start (fuel : nat) :
  forall (c : cursor) (s : state),
    W <= tX c -> tY c < H -> outer_while dr tex reflect W H tW tH fuel c s = Timeout.
Proof.
  induction fuel as [|fuel IH]; intros c s Hx Hy; cbn [outer_while].
  - reflexivity.
  - rewrite (proj2 (ltb_lt _ _) Hy). unfold bind at 1.
    destruct fuel as [|fuel]; [reflexivity|].
    rewrite (inner_while_skip fuel c s Hx). now apply IH.
Qed.

End TilingLoop.

(** Enough tiles of a positive size reach any edge. *)
Lemma tiles_reach (x edge size : number) :
  0 < size -> exists n : nat, edge <= x + inject_Z (Z.of_nat n) * size.
Proof.
  intros Hs. exists (Z.to_nat (Qceiling ((edge - x) / size))).
  set (q := (edge - x) / size).
  assert (Hq : q <= inject_Z (Z.of_nat (Z.to_nat (Qceiling q)))).
  { apply Qle_trans with (inject_Z (Qceiling q)); [apply Qle_ceiling|].
    rewrite <- Zle_Qle. lia. }
  assert (Hm : q * size == edge - x).
  { unfold q. field. intros E. rewrite E in Hs. revert Hs. apply Qlt_irrefl. }
  nra.
Qed.

(** ** Texture overlay: termination *)

Lemma overlay_draw_eq (fuel : nat) (tex : texture) (config : option overlayConfig)
    (pg : option pgRef) (W H : number) (s : state) :
  overlay_draw fuel tex config pg W H s =
    (call (EvBlendMode (resolve pg (self s)) (overlay_mode config)) ;;
     _ <- outer_while (overlay_target pg (self s)) tex (overlay_reflect config)
            W H (overlay_tW tex config) (overlay_tH tex config) fuel
            (mkCursor (inject_Z (textureOverlay_tX (self s)))
               (inject_Z (textureOverlay_tY (self s))) true true) ;;
     call (EvBlendMode (resolve pg (self s)) BLEND) ;;
     if isGraphicsBuffer pg then call (EvReset (resolve pg (self s))) else ret tt) s.
Proof. reflexivity. Qed.

Lemma textureOverlay_eq (fuel : nat) (tex : texture) (config : option overlayConfig)
    (pg : option pgRef) (s : state) :
  textureOverlay fuel tex config pg s =
    (overlay_animate (animate_enabled config) (animateAtFrame config)
       (animateAmount config (overlay_width pg s) (overlay_height pg s)) ;;
     overlay_draw fuel tex config pg (overlay_width pg s) (overlay_height pg s)) s.
Proof. reflexivity. Qed.

(** What follows the tiling loop ends. *)
Lemma overlay_epilogue_ends (pg : option pgRef) (c : receiver) (s : state) :
  (call (EvBlendMode c BLEND) ;;
   if isGraphicsBuffer pg then call (EvReset c) else ret tt) s <> Timeout.
Proof.
  unfold bind. pose proof (call_not_timeout (EvBlendMode c BLEND) s) as H1.
  destruct (call (EvBlendMode c BLEND) s) as [[] s1|e s1|];
    [|discriminate|contradiction].
  destruct (isGraphicsBuffer pg); [apply call_not_timeout | discriminate].
Qed.

Lemma overlay_epilogue_quiet (pg : option pgRef) (c : receiver) (s : state) :
  quiet s ->
  exists s',
    (call (EvBlendMode c BLEND) ;;
     if isGraphicsBuffer pg then call (EvReset c) else ret tt) s = Ret tt s'.
Proof.
  intros Hq. unfold bind.
  destruct (call_quiet (EvBlendMode c BLEND) s Hq) as (s1 & -> & F).
  destruct (isGraphicsBuffer pg).
  - destruct (call_quiet (EvReset c) s1 (quiet_stable s s1 F Hq)) as (s2 & -> & _).
    now exists s2.
  - now exists s1.
Qed.

(** A 10x10 texture on a canvas of width 0 and height 25: both tile
    dimensions are positive and the tiling loop runs for ever, since no row
    is ever started and only a started row moves the cursor down. *)
Lemma zero_width_canvas_never_ends :
  0 < overlay_tW texture10 None /\
  0 < overlay_tH texture10 None /\
  overlay_width None sketch_zero_width == 0 /\
  overlay_height None sketch_zero_width == 25 /\
  forall fuel : nat,
    textureOverlay fuel texture10 None None sketch_zero_width = Timeout.
Proof.
  split; [reflexivity|]. split; [reflexivity|].
  split; [reflexivity|]. split; [reflexivity|].
  intros fuel. rewrite textureOverlay_eq. unfold bind at 1.
  change (overlay_animate _ _ _ sketch_zero_width) with (Ret tt sketch_zero_width).
  cbv beta iota. rewrite overlay_draw_eq. unfold bind at 1.
  destruct (call_quiet (EvBlendMode (resolve None (self sketch_zero_width))
                          (overlay_mode None)) sketch_zero_width)
    as (s2 & -> & F); [intros t e; reflexivity|].
  unfold bind at 1.
  rewrite outer_while_diverges_start; [reflexivity | discriminate | reflexivity].
Qed.

(** Tiles [2^-70] wide from the offset -12 on the 25x25 canvas: both tile
    dimensions are positive and the tiling loop runs for ever, since
    [-12 + 2^-70] rounds to [-12] and the cursor stays where it is. *)
Lemma tiny_tiles_never_end :
  0 < overlay_tW texture10 tiny_tiles /\
  0 < overlay_tH texture10 tiny_tiles /\
  tiling_state (self sketch25_drifted) = (0, -12, -12)%Z /\
  overlay_width None sketch25_drifted == 25 /\
  overlay_height None sketch25_drifted == 25 /\
  forall fuel : nat,
    textureOverlay fuel texture10 tiny_tiles None sketch25_drifted = Timeout.
Proof.
  split; [reflexivity|]. split; [reflexivity|].
  split; [vm_compute; reflexivity|].
  split; [vm_compute; reflexivity|]. split; [vm_compute; reflexivity|].
  intros fuel. rewrite textureOverlay_eq. unfold bind at 1.
  change (overlay_animate _ _ _ sketch25_drifted) with (Ret tt sketch25_drifted).
  cbv beta iota. rewrite overlay_draw_eq. unfold bind at 1.
  destruct (call_quiet (EvBlendMode (resolve None (self sketch25_drifted))
                          (overlay_mode tiny_tiles)) sketch25_drifted)
    as (s2 & -> & F); [intros t e; vm_compute; reflexivity|].
  unfold bind at 1.
  rewrite outer_while_stalls; [reflexivity | | | | ].
  - apply (quiet_stable sketch25_drifted); [exact F | ].
    intros t e. vm_compute. reflexivity.
  - vm_compute. reflexivity.
  - vm_compute. reflexivity.
  - vm_compute. reflexivity.
Qed.

(** C10 (amended). Consider a call whose animation block has returned,
    leaving the stored offsets [x0], [y0] (of magnitude up to [2^52]) that
    the cursor starts from.  If the tile width and height are both at least
    1, the target is at most [2^52] wide and high and [x0] lies left of the
    target's right edge ([x0 < width], as it does on every target of
    positive width, the offsets never being positive), the call ends within
    a bounded number of passes, and returns normally when no host primitive
    raises.  Positive tile dimensions alone are not enough.  On a host where
    nothing raises, with a target extending past the start offsets
    ([x0 < width] and [y0 < height]), the tiling loop runs for ever when the
    tile width or height is not positive, and also when the tile is so
    narrow that [x0 + tW] rounds to [x0]; and so it does with [width <= x0]
    and [y0 < height], whatever the tile dimensions. *)
Theorem tiling_loop_termination (tex : texture) (config : option overlayConfig)
    (pg : option pgRef) (s s1 : state) :
  let W := overlay_width pg s in
  let H := overlay_height pg s in
  let tW := overlay_tW tex config in
  let tH := overlay_tH tex config in
  overlay_animate (animate_enabled config) (animateAtFrame config)
    (animateAmount config W H) s = Ret tt s1 ->
  (Z.abs (textureOverlay_tX (self s1)) <= 2 ^ 52)%Z ->
  (Z.abs (textureOverlay_tY (self s1)) <= 2 ^ 52)%Z ->
  let x0 := inject_Z (textureOverlay_tX (self s1)) in
  let y0 := inject_Z (textureOverlay_tY (self s1)) in
  (1 <= tW -> 1 <= tH -> x0 < W ->
   W <= inject_Z (2 ^ 52) -> H <= inject_Z (2 ^ 52) ->
   exists fuel0 : nat, forall fuel : nat, (fuel0 <= fuel)%nat ->
     textureOverlay fuel tex config pg s <> Timeout /\
     (quiet s -> exists s', textureOverlay fuel tex config pg s = Ret tt s')) /\
  (quiet s -> x0 < W -> y0 < H -> tW <= 0 \/ tH <= 0 ->
   forall fuel : nat, textureOverlay fuel tex config pg s = Timeout) /\
  (quiet s -> x0 < W -> y0 < H -> fl (x0 + tW) = x0 ->
   forall fuel : nat, textureOverlay fuel tex config pg s = Timeout) /\
  (quiet s -> W <= x0 -> y0 < H ->
   forall fuel : nat, textureOverlay fuel tex config pg s = Timeout).
Proof.
  intros W H tW tH Ha Hxb Hyb x0 y0.
  assert (Hrun : forall fuel,
    textureOverlay fuel tex config pg s = overlay_draw fuel tex config pg W H s1).
  { intros fuel. rewrite textureOverlay_eq. unfold bind. fold W H. now rewrite Ha. }
  pose proof (overlay_animate_any (animate_enabled config) (animateAtFrame config)
                (animateAmount config W H) s) as Hany.
  rewrite Ha in Hany. destruct Hany as (_ & _ & _ & _ & _ & Hr).
  assert (Hq1 : quiet s -> quiet s1).
  { intros Hq t e. rewrite Hr. apply Hq. }
  assert (Hxd : fl x0 == x0).
  { unfold x0. rewrite fl_Z by lia. reflexivity. }
  assert (Hyd : fl y0 == y0).
  { unfold y0. rewrite fl_Z by lia. reflexivity. }
  assert (Hxl : - inject_Z (2 ^ 52) <= x0).
  { unfold x0. rewrite <- inject_Z_opp, <- Zle_Qle. lia. }
  assert (Hyl : - inject_Z (2 ^ 52) <= y0).
  { unfold y0. rewrite <- inject_Z_opp, <- Zle_Qle. lia. }
  set (start := mkCursor x0 y0 true true).
  split; [|split; [|split]].
  - intros HtW HtH Hx HW HH.
    destruct (tiles_reach x0 W (1 # 2) eq_refl) as (n & Hn).
    destruct (tiles_reach y0 H (1 # 2) eq_refl) as (m & Hm).
    exists (m + n + 1)%nat. intros fuel Hf. rewrite Hrun, overlay_draw_eq.
    fold tW tH x0 y0 start.
    assert (Houter : forall s2, same_but_trace s1 s2 ->
      outer_while (overlay_target pg (self s1)) tex (overlay_reflect config)
        W H tW tH fuel start s2 <> Timeout).
    { intros s2 F. assert (Hrow : row_start s2 = x0).
      { unfold row_start, x0. destruct F as (-> & _). reflexivity. }
      apply (outer_while_terminates _ _ _ W H tW tH n HtW HtH HW HH m); auto;
        rewrite ?Hrow; auto. }
    split.
    + unfold bind at 1.
      pose proof (call_frame (EvBlendMode (resolve pg (self s1)) (overlay_mode config)) s1)
        as F.
      pose proof (call_not_timeout
                    (EvBlendMode (resolve pg (self s1)) (overlay_mode config)) s1) as N.
      destruct (call _ s1) as [[] s2|e s2|]; [|discriminate|contradiction].
      cbn [ended] in F. unfold bind at 1. specialize (Houter s2 F).
      destruct (outer_while _ _ _ _ _ _ _ _ _ s2) as [c3 s3|e s3|];
        [|discriminate|contradiction].
      apply overlay_epilogue_ends.
    + intros Hq. unfold bind at 1.
      destruct (call_quiet (EvBlendMode (resolve pg (self s1)) (overlay_mode config))
                  s1 (Hq1 Hq)) as (s2 & -> & F).
      unfold bind at 1. specialize (Houter s2 F).
      pose proof (outer_while_quiet (overlay_target pg (self s1)) tex
                    (overlay_reflect config) W H tW tH fuel start s2) as Hno.
      pose proof (outer_while_frame (overlay_target pg (self s1)) tex
                    (overlay_reflect config) W H tW tH fuel start s2) as Hfr.
      destruct (outer_while _ _ _ _ _ _ _ _ _ s2) as [c3 s3|e s3|];
        [| exfalso; apply (Hno e s3); [|reflexivity];
           now apply (quiet_stable s1), Hq1
         | contradiction].
      cbn [ended] in Hfr. apply overlay_epilogue_quiet.
      apply (quiet_stable s2); [exact Hfr|].
      now apply (quiet_stable s1), Hq1.
  - intros Hq Hx Hy Hdim fuel. rewrite Hrun, overlay_draw_eq.
    fold tW tH x0 y0 start. unfold bind at 1.
    destruct (call_quiet (EvBlendMode (resolve pg (self s1)) (overlay_mode config))
                s1 (Hq1 Hq)) as (s2 & -> & F).
    unfold bind at 1.
    assert (Hq2 : quiet s2) by now apply (quiet_stable s1), Hq1.
    assert (Hrow : row_start s2 = x0).
    { unfold row_start, x0. destruct F as (-> & _). reflexivity. }
    destruct Hdim as [HtW|HtH].
    + now rewrite outer_while_diverges_width.
    + rewrite outer_while_diverges_height; auto. now rewrite Hrow.
  - intros Hq Hx Hy Hst fuel. rewrite Hrun, overlay_draw_eq.
    fold tW tH x0 y0 start. unfold bind at 1.
    destruct (call_quiet (EvBlendMode (resolve pg (self s1)) (overlay_mode config))
                s1 (Hq1 Hq)) as (s2 & -> & F).
    unfold bind at 1.
    assert (Hq2 : quiet s2) by now apply (quiet_stable s1), Hq1.
    now rewrite outer_while_stalls.
  - intros Hq Hx Hy fuel. rewrite Hrun, overlay_draw_eq.
    fold tW tH x0 y0 start. unfold bind at 1.
    destruct (call_quiet (EvBlendMode (resolve pg (self s1)) (overlay_mode config))
                s1 (Hq1 Hq)) as (s2 & -> & F).
    unfold bind at 1. now rewrite outer_while_diverges_start.
Qed.

Lemma tiling_loop_termination_witness :
  (exists fuel0 : nat, forall fuel : nat, (fuel0 <= fuel)%nat ->
     exists s', textureOverlay fuel texture10 None None sketch25 = Ret tt s') /\
  (forall fuel : nat,
     textureOverlay fuel texture10 zero_width_tiles None sketch25 = Timeout).
Proof.
  assert (Hq : quiet sketch25) by (intros t e; reflexivity).
  assert (Hb : (Z.abs 0 <= 2 ^ 52)%Z) by (vm_compute; discriminate).
  split.
  - destruct (tiling_loop_termination texture10 None None sketch25 sketch25 eq_refl
                Hb Hb) as (A & _).
    destruct A as (fuel0 & Hf);
      [vm_compute; discriminate | vm_compute; discriminate | reflexivity
      | vm_compute; discriminate | vm_compute; discriminate | ].
    exists fuel0. intros fuel Hle. now apply (Hf fuel Hle).
  - destruct (tiling_loop_termination texture10 zero_width_tiles None
                sketch25 sketch25 eq_refl Hb Hb) as (_ & B & _).
    apply B; [exact Hq | reflexivity | reflexivity |].
    left. discriminate.
Defined.

(** ** Texture overlay: a 10x10 texture over a 25x25 target *)

Lemma call_emit (e : event) (l : list event) (s : state) :
  quiet s -> call e (emit l s) = Ret tt (emit (l ++ [e]) s).
Proof.
  intros Hq. unfold call, emit. cbn [host self raises trace surfaces draws
    global_random instance_random]. rewrite Hq. now rewrite <- app_assoc.
Qed.

Lemma emit_nil (s : state) : emit [] s = s.
Proof.
  unfold emit. rewrite app_nil_r. destruct s as [o w]. now destruct w.
Qed.

(** One row of three tiles. *)
Lemma row_of_three (dr : receiver) (tex : texture) (s : state)
    (l : list event) (y : number) (r : bool) (fuel : nat) :
  quiet s -> textureOverlay_tX (self s) = 0%Z ->
  inner_while dr tex false 25 10 10 (S (S (S fuel))) (mkCursor 0 y r true)
    (emit l s) =
  Ret (mkCursor 0 (fadd y 10) r true)
    (emit (l ++ [EvImage dr tex 0 y 10 10; EvImage dr tex 10 y 10 10;
                 EvImage dr tex 20 y 10 10]) s).
Proof.
  intros Hq Hx.
  cbn [inner_while draw_tile tX tY tRowFirst tColFirst].
  change (ltb 0 25) with true. cbv iota.
  unfold bind at 1. rewrite (call_emit _ _ _ Hq).
  replace (fadd 0 10) with 10 by (vm_compute; reflexivity).
  change (geb 10 25) with false. cbv iota.
  cbn [inner_while draw_tile tX tY tRowFirst tColFirst].
  change (ltb 10 25) with true. cbv iota.
  unfold bind at 1. rewrite (call_emit _ _ _ Hq).
  replace (fadd 10 10) with 20 by (vm_compute; reflexivity).
  change (geb 20 25) with false. cbv iota.
  cbn [inner_while draw_tile tX tY tRowFirst tColFirst].
  change (ltb 20 25) with true. cbv iota.
  unfold bind at 1. rewrite (call_emit _ _ _ Hq).
  replace (fadd 20 10) with 30 by (vm_compute; reflexivity).
  change (geb 30 25) with true. cbv iota.
  unfold bind, get_self, ret. cbn [self emit]. rewrite Hx.
  rewrite <- !app_assoc. reflexivity.
Qed.

(** C5. Take a call whose animation block has returned with both stored
    offsets at zero, on a host where nothing raises, with a 25x25 target,
    10x10 tiles and reflection off.  Given at least 6 units of fuel the call
    returns, and between the two blend-mode calls it has issued exactly nine
    draw calls, each of size 10x10, at x = 0, 10, 20 for y = 0, then 10, then
    20: a 3x3 grid whose last column and last row (starting at 20) reach
    past the edge at 25. *)
Theorem textureOverlay_nine_tiles (fuel : nat) (tex : texture)
    (config : option overlayConfig) (pg : option pgRef) (s s1 : state) :
  quiet s ->
  overlay_width pg s = 25 -> overlay_height pg s = 25 ->
  overlay_tW tex config = 10 -> overlay_tH tex config = 10 ->
  overlay_reflect config = false ->
  overlay_animate (animate_enabled config) (animateAtFrame config)
    (animateAmount config 25 25) s = Ret tt s1 ->
  textureOverlay_tX (self s1) = 0%Z -> textureOverlay_tY (self s1) = 0%Z ->
  (6 <= fuel)%nat ->
  let dr := overlay_target pg (self s) in
  let c := resolve pg (self s) in
  let tile x y := EvImage dr tex x y 10 10 in
  let tiles := [tile 0 0; tile 10 0; tile 20 0;
                tile 0 10; tile 10 10; tile 20 10;
                tile 0 20; tile 10 20; tile 20 20] in
  exists s',
    textureOverlay fuel tex config pg s = Ret tt s' /\
    self s' = self s1 /\
    trace (host s') =
      trace (host s) ++ [EvBlendMode c (overlay_mode config)] ++ tiles
        ++ [EvBlendMode c BLEND]
        ++ (if isGraphicsBuffer pg then [EvReset c] else []) /\
    images (trace (host s')) = images (trace (host s)) ++ tiles /\
    List.length (images (trace (host s'))) =
      (List.length (images (trace (host s))) + 9)%nat.
Proof.
  intros Hq HW HH HtW HtH Hre Ha Hx Hy Hfuel dr c tile tiles.
  pose proof (overlay_animate_any (animate_enabled config) (animateAtFrame config)
                (animateAmount config 25 25) s) as Hany.
  rewrite Ha in Hany. destruct Hany as (_ & Hi & _ & _ & Htr & Hr).
  assert (Hq1 : quiet s1) by (intros t e; rewrite Hr; apply Hq).
  assert (Hdr : overlay_target pg (self s1) = dr).
  { unfold dr, overlay_target, resolve, instance_truthy. now rewrite Hi. }
  assert (Hc : resolve pg (self s1) = c).
  { unfold c, resolve, instance_truthy. now rewrite Hi. }
  set (final := [EvBlendMode c (overlay_mode config)] ++ tiles
                  ++ [EvBlendMode c BLEND]
                  ++ (if isGraphicsBuffer pg then [EvReset c] else [])).
  assert (Hrun : textureOverlay fuel tex config pg s = Ret tt (emit final s1)).
  { rewrite textureOverlay_eq, HW, HH. unfold bind at 1. rewrite Ha. cbv beta iota.
    rewrite overlay_draw_eq, HtW, HtH, Hre, Hx, Hy, Hdr, Hc.
    do 6 (destruct fuel as [|fuel]; [lia|]).
    rewrite <- (emit_nil s1) at 1.
    unfold bind at 1. rewrite (call_emit _ _ _ Hq1). cbn [app].
    unfold bind at 1.
    cbn [outer_while tX tY tRowFirst tColFirst].
    change (inject_Z 0) with 0.
    change (ltb 0 25) with true. cbv iota.
    unfold bind at 1. rewrite (row_of_three dr tex s1 _ 0 true _ Hq1 Hx).
    cbn [tX tY tRowFirst tColFirst negb].
    replace (fadd 0 10) with 10 by (vm_compute; reflexivity).
    change (ltb 10 25) with true. cbv iota.
    unfold bind at 1. rewrite (row_of_three dr tex s1 _ 10 false _ Hq1 Hx).
    cbn [tX tY tRowFirst tColFirst negb].
    replace (fadd 10 10) with 20 by (vm_compute; reflexivity).
    change (ltb 20 25) with true. cbv iota.
    unfold bind at 1. rewrite (row_of_three dr tex s1 _ 20 true _ Hq1 Hx).
    cbn [tX tY tRowFirst tColFirst negb].
    replace (fadd 20 10) with 30 by (vm_compute; reflexivity).
    change (ltb 30 25) with false. cbv iota.
    unfold ret at 1. unfold bind at 1. rewrite (call_emit _ _ _ Hq1).
    unfold final. destruct (isGraphicsBuffer pg).
    - rewrite (call_emit _ _ _ Hq1). cbn [app]. reflexivity.
    - unfold ret. cbn [app]. reflexivity. }
  exists (emit final s1). split; [exact Hrun|]. split; [reflexivity|].
  assert (Himg : images (trace (host (emit final s1)))
                 = images (trace (host s)) ++ tiles).
  { cbn [emit host trace]. rewrite Htr. unfold images, final.
    rewrite filter_app. f_equal. now destruct (isGraphicsBuffer pg). }
  split; [cbn [emit host trace]; now rewrite Htr|].
  split; [exact Himg|].
  rewrite Himg, length_app. reflexivity.
Qed.

Lemma textureOverlay_nine_tiles_witness :
  exists s',
    textureOverlay 6 texture10 None None sketch25 = Ret tt s' /\
    List.length (images (trace (host s'))) = 9%nat /\
    trace (host s') =
      [EvBlendMode OnGlobal MULTIPLY;
       EvImage OnGlobal texture10 0 0 10 10; EvImage OnGlobal texture10 10 0 10 10;
       EvImage OnGlobal texture10 20 0 10 10;
       EvImage OnGlobal texture10 0 10 10 10; EvImage OnGlobal texture10 10 10 10 10;
       EvImage OnGlobal texture10 20 10 10 10;
       EvImage OnGlobal texture10 0 20 10 10; EvImage OnGlobal texture10 10 20 10 10;
       EvImage OnGlobal texture10 20 20 10 10;
       EvBlendMode OnGlobal BLEND].
Proof.
  assert (Hq : quiet sketch25) by (intros t e; reflexivity).
  destruct (textureOverlay_nine_tiles 6 texture10 None None sketch25 sketch25
              Hq eq_refl eq_refl eq_refl eq_refl eq_refl eq_refl eq_refl eq_refl
              (le_n 6)) as (s' & Hrun & _ & Htr & _ & Hlen).
  exists s'. split; [exact Hrun|]. split; [exact Hlen|]. exact Htr.
Defined.

(** * Further properties of the code *)

(** ** Packed words: extraction and repacking are inverse *)

Lemma byte_at_bits (k w i : Z) :
  (0 <= i)%Z ->
  Z.testbit (byte_at k w) i = (Z.testbit w (i + k) && (i <? 8)%Z)%bool.
Proof.
  intros Hi. unfold byte_at. now rewrite Z.land_spec, Z.shiftr_spec, bits_255 by lia.
Qed.

Lemma word_bits_high (w i : Z) :
  (0 <= w < 2 ^ 32)%Z -> (32 <= i)%Z -> Z.testbit w i = false.
Proof.
  intros Hw Hi. rewrite <- (Z.mod_small w (2 ^ 32)) by lia.
  apply Z.mod_pow2_bits_high. lia.
Qed.

(** The channels [p & 0xff], [(p >> 8) & 0xff], [(p >> 16) & 0xff] and
    [(p >> 24) & 0xff] of a word of the typed array, put back together by
    [(a << 24) | (b << 16) | (g << 8) | r] and stored, give the word again;
    and the four channels read from a word packed from four bytes are those
    bytes. *)
Theorem pack_unpack_roundtrip (w r g b a : Z) :
  (0 <= w < 2 ^ 32)%Z ->
  (0 <= r <= 255)%Z -> (0 <= g <= 255)%Z ->
  (0 <= b <= 255)%Z -> (0 <= a <= 255)%Z ->
  let p := inject_Z w in
  ToUint32 (pack (red p) (green p) (blue p) (alpha p)) = w /\
  let q := inject_Z (ToUint32 (pack (inject_Z r) (inject_Z g) (inject_Z b)
                                 (inject_Z a))) in
  red q = inject_Z r /\ green q = inject_Z g /\
  blue q = inject_Z b /\ alpha q = inject_Z a.
Proof.
  intros Hw Hr Hg Hb Ha p. split.
  - unfold p. rewrite red_word', green_word, blue_word, alpha_word.
    apply Z.bits_inj'. intros i Hi.
    rewrite pack_bits
      by (rewrite ?truncZ_inject_Z; first [apply byte_at_range | exact Hi]).
    rewrite !truncZ_inject_Z.
    destruct (Z.ltb_spec i 8);
      [|destruct (Z.ltb_spec i 16);
        [|destruct (Z.ltb_spec i 24); [|destruct (Z.ltb_spec i 32)]]].
    + rewrite byte_at_bits by lia.
      rewrite (proj2 (Z.ltb_lt i 8)) by lia. rewrite andb_true_r. f_equal. lia.
    + rewrite byte_at_bits by lia.
      rewrite (proj2 (Z.ltb_lt (i - 8) 8)) by lia. rewrite andb_true_r. f_equal. lia.
    + rewrite byte_at_bits by lia.
      rewrite (proj2 (Z.ltb_lt (i - 16) 8)) by lia. rewrite andb_true_r. f_equal. lia.
    + rewrite byte_at_bits by lia.
      rewrite (proj2 (Z.ltb_lt (i - 24) 8)) by lia. rewrite andb_true_r. f_equal. lia.
    + symmetry. now apply word_bits_high.
  - intros q. unfold q. rewrite red_word', green_word, blue_word, alpha_word.
    destruct (pack_channels (inject_Z r) (inject_Z g) (inject_Z b) (inject_Z a))
      as (H0 & H8 & H16 & H24); rewrite ?truncZ_inject_Z; auto.
    rewrite truncZ_inject_Z in H0, H8, H16, H24.
    now rewrite H0, H8, H16, H24.
Qed.

Lemma pack_unpack_roundtrip_witness :
  ToUint32 (pack (red 4284769380) (green 4284769380) (blue 4284769380)
              (alpha 4284769380)) = 4284769380%Z /\
  red (inject_Z (ToUint32 (pack 100 100 100 255))) = 100.
Proof.
  destruct (pack_unpack_roundtrip 4284769380 100 100 100 255) as (A & B & _);
    try lia.
  split; [exact A | exact B].
Defined.

(** ** The grain functions as maps over the acquired buffer *)

Lemma mapi_from_ext (h1 h2 : nat -> Z -> Z) (l : list Z) :
  forall i : nat,
    (forall j w, (i <= j)%nat -> In w l -> h1 j w = h2 j w) ->
    mapi_from h1 i l = mapi_from h2 i l.
Proof.
  induction l as [|x l IH]; intros i H; cbn [mapi_from]; [reflexivity|].
  f_equal.
  - apply H; [lia | now left].
  - apply IH. intros j w Hj Hw. apply H; [lia | now right].
Qed.

Lemma mapi_from_id (h : nat -> Z -> Z) (l : list Z) :
  forall i : nat,
    (forall j w, In w l -> h j w = w) -> mapi_from h i l = l.
Proof.
  induction l as [|x l IH]; intros i H; cbn [mapi_from]; [reflexivity|].
  f_equal.
  - apply H. now left.
  - apply IH. intros j w Hw. apply H. now right.
Qed.

(** The run of [applyMonochromaticGrain] on a host whose load and update
    primitives do not raise, with a configured source. *)
Lemma monochromatic_run (s : state) (amount : number)
    (shouldUpdateAlpha : option bool) (pg : option pgRef) (src : source)
    (m : randomMethod) :
  random (self s) = Some src ->
  randomMinMax (self s) = Some m ->
  let c := resolve pg (self s) in
  raises (host s) (trace (host s)) (EvLoadPixels c) = false ->
  raises (host s) (trace (host s) ++ [EvLoadPixels c]) (EvUpdatePixels c) = false ->
  let upd := to_bool shouldUpdateAlpha in
  let bounds := bounds_in (randomMode (self s)) (- amount) amount in
  let px := pixels_of c s in
  let d := draws (host s) in
  let sf := surfaces (host s) c in
  exists s',
    applyMonochromaticGrain amount shouldUpdateAlpha pg s = Ret tt s' /\
    self s' = with_pixelsData c (s_width sf) (s_height sf) (s_density sf) (self s) /\
    draws (host s') = (d + List.length px)%nat /\
    trace (host s') = trace (host s) ++ [EvLoadPixels c; EvUpdatePixels c] /\
    pixels_of c s' =
      mapi_from (fun j => monochromatic_word upd
                            (draw_value m (fst bounds) (snd bounds) (src (d + j)%nat)))
        0 px /\
    forall c', c' <> c -> surfaces (host s') c' = surfaces (host s) c'.
Proof.
  intros Hs Hm c Hload Hupd upd bounds px d sf.
  destruct s as [o w]. cbn [self host] in *.
  set (o1 := with_pixelsData c (s_width sf) (s_height sf) (s_density sf) o).
  set (w1 := mkWorld (surfaces w) (draws w) (trace w ++ [EvLoadPixels c])
               (raises w) (global_random w) (instance_random w)).
  destruct (for_loop_pixels c o1 1 (draws w)
              (fun d => monochromatic_word upd
                          (draw_value m (fst bounds) (snd bounds) (src d)))
              (monochromatic_body (fst bounds) (snd bounds) upd)
              (fun i t => monochromatic_body_spec c o1 src m (fst bounds)
                            (snd bounds) upd i t eq_refl Hs Hm)
              (List.length px) 0%nat (mkState o1 w1))
    as (t & Hloop & Ho & Hd & Ht & Hr & Hp & Hother);
    [reflexivity | cbn; lia | reflexivity |].
  exists (mkState (self t)
            (mkWorld (surfaces (host t)) (draws (host t))
               (trace (host t) ++ [EvUpdatePixels c]) (raises (host t))
               (global_random (host t)) (instance_random (host t)))).
  split; [|split; [|split; [|split; [|split]]]].
  - unfold applyMonochromaticGrain, bind.
    rewrite (loadPixels_ok pg o w Hload). cbv beta iota.
    rewrite prepareRandomBounds_eq. cbv beta iota.
    change (bounds_in _ (- amount) amount) with bounds.
    rewrite (surjective_pairing bounds). cbv beta iota.
    rewrite (pixels_length_eq c) by reflexivity. cbv beta iota.
    fold c sf o1 w1 upd. change (pixels_of c (mkState o1 w1)) with px.
    rewrite Hloop.
    rewrite updatePixels_ok; rewrite Ho; change (resolve pg o1) with c.
    + reflexivity.
    + rewrite Hr, Ht. exact Hupd.
  - exact Ho.
  - cbn [host draws]. rewrite Hd. unfold d. cbn [host]. lia.
  - cbn [host trace]. rewrite Ht. cbn [w1 host trace]. now rewrite <- app_assoc.
  - change (pixels_of c (mkState (self t) _)) with (pixels_of c t).
    rewrite Hp. cbn [firstn app skipn].
    change (pixels_of c (mkState o1 w1)) with px.
    apply mapi_from_ext. intros j x _ _. unfold d. cbn [host].
    now rewrite Nat.mul_1_l.
  - intros c' Hc. cbn [host surfaces]. now rewrite Hother.
Qed.

(** The run of [applyChromaticGrain] under the same assumptions. *)
Lemma chromatic_run (s : state) (amount : number)
    (shouldUpdateAlpha : option bool) (pg : option pgRef) (src : source)
    (m : randomMethod) :
  random (self s) = Some src ->
  randomMinMax (self s) = Some m ->
  let c := resolve pg (self s) in
  raises (host s) (trace (host s)) (EvLoadPixels c) = false ->
  raises (host s) (trace (host s) ++ [EvLoadPixels c]) (EvUpdatePixels c) = false ->
  let upd := to_bool shouldUpdateAlpha in
  let bounds := bounds_in (randomMode (self s)) (- amount) amount in
  let px := pixels_of c s in
  let d := draws (host s) in
  let sf := surfaces (host s) c in
  let n := if upd then 4%nat else 3%nat in
  let dv := fun k => draw_value m (fst bounds) (snd bounds) (src k) in
  exists s',
    applyChromaticGrain amount shouldUpdateAlpha pg s = Ret tt s' /\
    self s' = with_pixelsData c (s_width sf) (s_height sf) (s_density sf) (self s) /\
    draws (host s') = (d + n * List.length px)%nat /\
    trace (host s') = trace (host s) ++ [EvLoadPixels c; EvUpdatePixels c] /\
    pixels_of c s' =
      mapi_from (fun j =>
                   let k := (d + n * j)%nat in
                   chromatic_word upd (dv k) (dv (k + 1)%nat) (dv (k + 2)%nat)
                     (dv (k + 3)%nat))
        0 px /\
    forall c', c' <> c -> surfaces (host s') c' = surfaces (host s) c'.
Proof.
  intros Hs Hm c Hload Hupd upd bounds px d sf n dv.
  destruct s as [o w]. cbn [self host] in *.
  set (o1 := with_pixelsData c (s_width sf) (s_height sf) (s_density sf) o).
  set (w1 := mkWorld (surfaces w) (draws w) (trace w ++ [EvLoadPixels c])
               (raises w) (global_random w) (instance_random w)).
  destruct (for_loop_pixels c o1 n (draws w)
              (fun k => chromatic_word upd (dv k) (dv (k + 1)%nat)
                          (dv (k + 2)%nat) (dv (k + 3)%nat))
              (chromatic_body (fst bounds) (snd bounds) upd)
              (fun i t => chromatic_body_spec c o1 src m (fst bounds)
                            (snd bounds) upd i t eq_refl Hs Hm)
              (List.length px) 0%nat (mkState o1 w1))
    as (t & Hloop & Ho & Hd & Ht & Hr & Hp & Hother);
    [reflexivity | cbn; lia | reflexivity |].
  exists (mkState (self t)
            (mkWorld (surfaces (host t)) (draws (host t))
               (trace (host t) ++ [EvUpdatePixels c]) (raises (host t))
               (global_random (host t)) (instance_random (host t)))).
  split; [|split; [|split; [|split; [|split]]]].
  - unfold applyChromaticGrain, bind.
    rewrite (loadPixels_ok pg o w Hload). cbv beta iota.
    rewrite prepareRandomBounds_eq. cbv beta iota.
    change (bounds_in _ (- amount) amount) with bounds.
    rewrite (surjective_pairing bounds). cbv beta iota.
    rewrite (pixels_length_eq c) by reflexivity. cbv beta iota.
    fold c sf o1 w1 upd. change (pixels_of c (mkState o1 w1)) with px.
    rewrite Hloop.
    rewrite updatePixels_ok; rewrite Ho; change (resolve pg o1) with c.
    + reflexivity.
    + rewrite Hr, Ht. exact Hupd.
  - exact Ho.
  - cbn [host draws]. rewrite Hd. unfold d. cbn [host]. lia.
  - cbn [host trace]. rewrite Ht. cbn [w1 host trace]. now rewrite <- app_assoc.
  - change (pixels_of c (mkState (self t) _)) with (pixels_of c t).
    rewrite Hp. cbn [firstn app skipn].
    change (pixels_of c (mkState o1 w1)) with px. reflexivity.
  - intros c' Hc. cbn [host surfaces]. now rewrite Hother.
Qed.

(** ** What is stored in a channel *)

Lemma Qfloor_unit (r : number) : 0 <= r < 1 -> Qfloor r = 0%Z.
Proof.
  intros [H0 H1].
  assert (A : (0 <= Qfloor r)%Z).
  { change 0%Z with (Qfloor 0). now apply Qfloor_resp_le. }
  assert (B : inject_Z (Qfloor r) < inject_Z 1).
  { eapply Qle_lt_trans; [apply Qfloor_le | exact H1]. }
  rewrite <- Zlt_Qlt in B. lia.
Qed.

Lemma Qceiling_opp (a : Q) : Qceiling (- a) = (- Qfloor a)%Z.
Proof.
  unfold Qceiling. f_equal. apply Qfloor_comp. ring.
Qed.

Lemma Qfloor_opp (a : Q) : Qfloor (- a) = (- Qceiling a)%Z.
Proof. unfold Qceiling. lia. Qed.

Lemma ceiling_bounds (a : Q) : 0 <= a -> a <= inject_Z (2 ^ 51) ->
  (0 <= Qfloor a <= Qceiling a)%Z /\ (Qceiling a <= 2 ^ 51)%Z.
Proof.
  intros H0 H1.
  assert (A : (0 <= Qfloor a)%Z).
  { change 0%Z with (Qfloor 0). now apply Qfloor_resp_le. }
  assert (B : (Qceiling a <= 2 ^ 51)%Z).
  { rewrite <- (Qceiling_Z (2 ^ 51)). now apply Qceiling_resp_le. }
  assert (C : inject_Z (Qfloor a) <= inject_Z (Qceiling a)).
  { apply Qle_trans with a; [apply Qfloor_le | apply Qle_ceiling]. }
  rewrite <- Zle_Qle in C. lia.
Qed.

(** Twice a number of the format is a number of the format. *)
Lemma fl_twice (a : Q) : fl a == a -> fl (a + a) == a + a.
Proof.
  intros Ha. apply fl_exact.
  assert (R : representable a).
  { apply (representable_comp (fl a)); [exact Ha | apply fl_representable]. }
  destruct R as (m & j & Hm & Hj & E).
  exists m, (j + 1)%Z. split; [exact Hm | split; [lia | ]].
  rewrite pow2_add. change (pow2 1) with 2. rewrite E. ring.
Qed.

Lemma fl_opp_double (a : Q) : fl a == a -> fl (- a) == - a.
Proof. intros Ha. rewrite fl_opp, Ha. reflexivity. Qed.

(** A float-mode draw between [-a] and [a], in either order of the bounds:
    the offset lies between [-a] and [a], both ends included. *)
Lemma float_offset_bounds (a r : Q) :
  fl a == a -> 0 <= a -> 0 <= r <= 1 ->
  - a <= fl (fl (r * fl (a - - a)) + - a) <= a.
Proof.
  intros Hd Ha Hr.
  assert (ED : fl (a - - a) == a + a).
  { rewrite (fl_comp (a - - a) (a + a)) by ring. apply fl_twice, Hd. }
  assert (HD : fl (fl (a - - a)) == fl (a - - a)) by (rewrite fl_idempotent; reflexivity).
  set (D := fl (a - - a)) in *.
  assert (HD0 : 0 <= D) by lra.
  destruct (scale_unit r D Hr HD0) as [Y0 Y1].
  assert (P0 : 0 <= fl (r * D)) by (apply fl_nonneg, Y0).
  assert (P1 : fl (r * D) <= D).
  { apply Qle_trans with (fl D); [apply fl_mono, Y1 | rewrite HD; apply Qle_refl]. }
  set (P := fl (r * D)) in *.
  split.
  - apply Qle_trans with (fl (- a));
      [rewrite (fl_opp_double a Hd); apply Qle_refl | apply fl_mono; lra].
  - apply Qle_trans with (fl a);
      [apply fl_mono; lra | rewrite Hd; apply Qle_refl].
Qed.

Lemma float_offset_bounds_reversed (b r : Q) :
  fl b == b -> 0 <= b -> 0 <= r <= 1 ->
  - b <= fl (fl (r * fl (- b - b)) + b) <= b.
Proof.
  intros Hd Hb Hr.
  assert (ED : fl (- b - b) == - (b + b)).
  { rewrite (fl_comp (- b - b) (- (b + b))) by ring.
    rewrite fl_opp, (fl_twice b Hd). reflexivity. }
  assert (HD : fl (fl (- b - b)) == fl (- b - b)) by (rewrite fl_idempotent; reflexivity).
  set (D := fl (- b - b)) in *.
  assert (HD0 : 0 <= - D) by lra.
  destruct (scale_unit r (- D) Hr HD0) as [Y0 Y1].
  assert (P0 : fl (r * D) <= 0) by (apply fl_nonpos; lra).
  assert (P1 : D <= fl (r * D)).
  { apply Qle_trans with (fl D); [rewrite HD; apply Qle_refl | apply fl_mono; lra]. }
  set (P := fl (r * D)) in *.
  split.
  - apply Qle_trans with (fl (- b));
      [rewrite (fl_opp_double b Hd); apply Qle_refl | apply fl_mono; lra].
  - apply Qle_trans with (fl b);
      [apply fl_mono; lra | rewrite Hd; apply Qle_refl].
Qed.

(** An integer-mode draw with the bounds [n] and [-n] in this order,
    [n >= 1]: the offset is an integer between [1 - n] and [n]. *)
Lemma int_offset_reversed (r : Q) (n : Z) :
  0 <= r <= 1 -> (1 <= n <= 2 ^ 51)%Z ->
  (1 - n <= Qfloor (fl (fl (r * fl (fl (inject_Z (- n) - inject_Z n) + 1))
                        + inject_Z n)) <= n)%Z.
Proof.
  intros Hr Hn.
  rewrite fl_sub_Z by lia.
  change (fl (inject_Z (- n - n) + 1)) with (fl (inject_Z (- n - n) + inject_Z 1)).
  rewrite fl_add_Z by lia.
  set (N := (- n - n + 1)%Z).
  assert (HN : inject_Z N <= 0).
  { change 0 with (inject_Z 0). rewrite <- Zle_Qle. unfold N. lia. }
  assert (HN0 : 0 <= - inject_Z N) by lra.
  destruct (scale_unit r (- inject_Z N) Hr HN0) as [Y0 Y1].
  assert (HP : inject_Z N <= fl (r * inject_Z N) <= inject_Z 0).
  { apply fl_between; [unfold N; lia | cbn; lia | ].
    change (inject_Z 0) with 0. split; lra. }
  change (inject_Z 0) with 0 in HP. destruct HP as [P0 P1].
  set (P := fl (r * inject_Z N)) in *.
  assert (HS : inject_Z (1 - n) <= fl (P + inject_Z n) <= inject_Z n).
  { apply fl_between; [lia | lia | ].
    assert (E : inject_Z N == inject_Z (1 - n) - inject_Z n).
    { unfold N. replace (- n - n + 1)%Z with (1 - n + - n)%Z by lia.
      rewrite inject_Z_plus, inject_Z_opp. ring. }
    rewrite E in P0. split; lra. }
  destruct HS as [S0 S1].
  apply Qfloor_resp_le in S0. apply Qfloor_resp_le in S1.
  rewrite Qfloor_Z in S0, S1. split; assumption.
Qed.

(** A channel and an offset between two whole numbers: the channel moves by
    an integer between them. *)
Lemma channel_moved (v lo hi : Z) (d : Q) :
  (0 <= v <= 255)%Z -> (- 2 ^ 52 <= lo)%Z -> (hi <= 2 ^ 52)%Z ->
  inject_Z lo <= d <= inject_Z hi ->
  exists k : Z, (lo <= k <= hi)%Z /\ shifted v d = clampZ (v + k).
Proof.
  intros Hv Hlo Hhi [D0 D1].
  assert (Hle : (lo <= hi)%Z).
  { rewrite Zle_Qle. lra. }
  exists (Qfloor (fl (inject_Z v + d)) - v)%Z.
  assert (B : inject_Z (v + lo) <= fl (inject_Z v + d) <= inject_Z (v + hi)).
  { apply fl_between; [lia | lia | ]. rewrite !inject_Z_plus. split; lra. }
  destruct B as [B0 B1].
  apply Qfloor_resp_le in B0. apply Qfloor_resp_le in B1.
  rewrite Qfloor_Z in B0, B1.
  split; [lia | ]. rewrite shifted_floor. f_equal. lia.
Qed.

(** The integer a draw moves a channel by, for an amount of the format
    that is not negative, when the mode flag and the bound method agree. *)
Lemma offset_channel (o : P5Grain) (m : randomMethod) (amount r : number) (v : Z) :
  mode_consistent o -> randomMinMax o = Some m ->
  is_double amount = true -> 0 <= amount -> amount <= inject_Z (2 ^ 51) ->
  is_double r = true -> 0 <= r < 1 -> (0 <= v <= 255)%Z ->
  let bounds := bounds_in (randomMode o) (- amount) amount in
  exists k : Z,
    offset_range m amount k /\
    shifted v (draw_value m (fst bounds) (snd bounds) r) = clampZ (v + k).
Proof.
  intros Hc Hm Hda Ha0 Ha1 Hdr [Hr0 Hr1] Hv. cbv zeta.
  destruct (ceiling_bounds amount Ha0 Ha1) as [Hf Hce].
  destruct Hc as [[Hmode Hmeth]|[Hmode Hmeth]]; rewrite Hmeth in Hm;
    injection Hm as <-; unfold bounds_in; rewrite Hmode;
    cbn [Z.eqb fst snd draw_value offset_range].
  - apply is_double_spec in Hda.
    destruct (float_offset_bounds amount r Hda Ha0) as [B0 B1]; [split; lra | ].
    apply channel_moved; [exact Hv | lia | lia | ].
    rewrite inject_Z_opp. pose proof (Qle_ceiling amount). split; lra.
  - unfold Math_floor, Math_ceil, floorZ, ceilZ. rewrite Qceiling_opp.
    set (n := Qfloor amount) in *.
    pose proof (int_draw_straddle r (- n) n Hdr (conj Hr0 Hr1)) as Hk.
    set (K := Qfloor (fl (fl (r * fl (fl (inject_Z n - inject_Z (- n)) + 1))
                          + inject_Z (- n)))) in *.
    exists K. split; [apply Hk; lia | ].
    apply shifted_integer; [reflexivity | ].
    assert (- n <= K <= n)%Z by (apply Hk; lia). lia.
Qed.

(** The same for an amount [-b] with [b > 0]. *)
Lemma offset_channel_negative (o : P5Grain) (m : randomMethod) (amount r : number)
    (v : Z) :
  mode_consistent o -> randomMinMax o = Some m ->
  is_double amount = true -> amount < 0 -> - inject_Z (2 ^ 51) <= amount ->
  0 <= r < 1 -> (0 <= v <= 255)%Z ->
  let bounds := bounds_in (randomMode o) (- amount) amount in
  exists k : Z,
    offset_range_negative m (- amount) k /\
    shifted v (draw_value m (fst bounds) (snd bounds) r) = clampZ (v + k).
Proof.
  intros Hc Hm Hda Ha0 Ha1 [Hr0 Hr1] Hv. cbv zeta.
  set (b := - amount).
  assert (Hb0 : 0 < b) by (unfold b; lra).
  assert (Hb1 : b <= inject_Z (2 ^ 51)) by (unfold b; lra).
  destruct (ceiling_bounds b (Qlt_le_weak _ _ Hb0) Hb1) as [Hf Hce].
  assert (Hc1 : (1 <= Qceiling b)%Z).
  { assert (X : inject_Z 0 < inject_Z (Qceiling b)).
    { change (inject_Z 0) with 0. pose proof (Qle_ceiling b). lra. }
    rewrite <- Zlt_Qlt in X. lia. }
  assert (Eam : amount == - b) by (unfold b; lra).
  destruct Hc as [[Hmode Hmeth]|[Hmode Hmeth]]; rewrite Hmeth in Hm;
    injection Hm as <-; unfold bounds_in; rewrite Hmode;
    cbn [Z.eqb fst snd draw_value offset_range_negative].
  - fold b.
    assert (Hdb : fl b == b).
    { unfold b. apply fl_opp_double. apply is_double_spec, Hda. }
    assert (E : fl (fl (r * fl (amount - b)) + b)
                = fl (fl (r * fl (- b - b)) + b)).
    { apply fl_comp. apply Qplus_comp; [ | reflexivity].
      rewrite (fl_comp (amount - b) (- b - b)) by (rewrite Eam; reflexivity).
      reflexivity. }
    rewrite E.
    destruct (float_offset_bounds_reversed b r Hdb (Qlt_le_weak _ _ Hb0))
      as [B0 B1]; [split; lra | ].
    apply channel_moved; [exact Hv | lia | lia | ].
    rewrite inject_Z_opp. pose proof (Qle_ceiling b). split; lra.
  - unfold Math_floor, Math_ceil, floorZ, ceilZ. fold b.
    assert (Efl : Qfloor amount = (- Qceiling b)%Z).
    { rewrite (Qfloor_comp _ _ Eam). apply Qfloor_opp. }
    rewrite Efl. set (n := Qceiling b) in *.
    pose proof (int_offset_reversed r n ltac:(split; lra) ltac:(lia)) as Hk.
    set (K := Qfloor (fl (fl (r * fl (fl (inject_Z (- n) - inject_Z n) + 1))
                          + inject_Z n))) in *.
    exists K. split; [exact Hk | ].
    apply shifted_integer; [reflexivity | lia].
Qed.

(** The channels of a stored word, each moved by an integer of a given
    set. *)
Lemma chromatic_word_moved (R : Z -> Prop) (upd : bool) (dr dg db da : number)
    (w : Z) :
  (forall v d, In d [dr; dg; db; da] -> (0 <= v <= 255)%Z ->
     exists k : Z, R k /\ shifted v d = clampZ (v + k)) ->
  exists kr kg kb ka : Z,
    R kr /\ R kg /\ R kb /\ R ka /\
    moved_by upd kr kg kb ka w (chromatic_word upd dr dg db da w).
Proof.
  intros H.
  destruct (chromatic_word_bytes upd dr dg db da w) as (B0 & B8 & B16 & B24 & _).
  destruct (H (byte_at 0 w) dr) as (kr & Rr & Er);
    [cbn; auto | apply byte_at_range | ].
  destruct (H (byte_at 8 w) dg) as (kg & Rg & Eg);
    [cbn; auto | apply byte_at_range | ].
  destruct (H (byte_at 16 w) db) as (kb & Rb & Eb);
    [cbn; auto | apply byte_at_range | ].
  destruct (H (byte_at 24 w) da) as (ka & Ra & Ea);
    [cbn; auto | apply byte_at_range | ].
  exists kr, kg, kb, ka. repeat (split; [assumption | ]).
  unfold moved_by. rewrite B0, B8, B16, B24, Er, Eg, Eb.
  repeat split. destruct upd; [exact Ea | reflexivity].
Qed.

Lemma monochromatic_word_moved (R : Z -> Prop) (upd : bool) (offset : number)
    (w : Z) :
  (forall v, (0 <= v <= 255)%Z ->
     exists k : Z, R k /\ shifted v offset = clampZ (v + k)) ->
  exists kr kg kb ka : Z,
    R kr /\ R kg /\ R kb /\ R ka /\
    moved_by upd kr kg kb ka w (monochromatic_word upd offset w).
Proof.
  intros H.
  assert (E : monochromatic_word upd offset w =
              chromatic_word upd offset offset offset offset w)
    by (unfold monochromatic_word, chromatic_word; reflexivity).
  rewrite E. apply chromatic_word_moved.
  intros v d Hin Hv. cbn in Hin.
  destruct Hin as [<- | [<- | [<- | [<- | []]]]]; apply H, Hv.
Qed.

Lemma words32_mapi (h : nat -> Z -> Z) (l : list Z) :
  (forall j w, 0 <= h j w < 2 ^ 32)%Z ->
  forall i, words32 (mapi_from h i l).
Proof.
  intros H. induction l as [|x l IH]; intros i; cbn [mapi_from]; constructor.
  - apply H.
  - apply IH.
Qed.

(** Amplitude of the grain.  With an amount of the format between 0 and
    [2^51], a source in [0,1) and an object whose mode flag and bound method
    agree, both grain functions store in every channel they update the old
    value moved by an integer and clamped to [0,255].  The integer lies
    between [-ceil(amount)] and [ceil(amount)] in float mode and between
    [-floor(amount)] and [floor(amount)] in integer mode, both ends
    included.  The sum of a channel and the offset being rounded, the
    channels of one pixel can move by different integers even in
    [applyMonochromaticGrain], which draws one offset for the pixel.  The
    buffer keeps its length and its words stay 32-bit words. *)
Theorem grain_amplitude (s : state) (amount : number)
    (shouldUpdateAlpha : option bool) (pg : option pgRef) (src : source)
    (m : randomMethod) :
  random (self s) = Some src ->
  randomMinMax (self s) = Some m ->
  mode_consistent (self s) ->
  is_double amount = true ->
  0 <= amount <= inject_Z (2 ^ 51) ->
  (forall k, 0 <= src k < 1) ->
  let c := resolve pg (self s) in
  raises (host s) (trace (host s)) (EvLoadPixels c) = false ->
  raises (host s) (trace (host s) ++ [EvLoadPixels c]) (EvUpdatePixels c) = false ->
  let upd := match shouldUpdateAlpha with Some true => true | _ => false end in
  let px := pixels_of c s in
  (exists s',
     applyMonochromaticGrain amount shouldUpdateAlpha pg s = Ret tt s' /\
     List.length (pixels_of c s') = List.length px /\
     words32 (pixels_of c s') /\
     forall i, (i < List.length px)%nat ->
       exists kr kg kb ka : Z,
         offset_range m amount kr /\ offset_range m amount kg /\
         offset_range m amount kb /\ offset_range m amount ka /\
         moved_by upd kr kg kb ka (nth i px 0%Z) (nth i (pixels_of c s') 0%Z)) /\
  (exists s',
     applyChromaticGrain amount shouldUpdateAlpha pg s = Ret tt s' /\
     List.length (pixels_of c s') = List.length px /\
     words32 (pixels_of c s') /\
     forall i, (i < List.length px)%nat ->
       exists kr kg kb ka : Z,
         offset_range m amount kr /\ offset_range m amount kg /\
         offset_range m amount kb /\ offset_range m amount ka /\
         moved_by upd kr kg kb ka (nth i px 0%Z) (nth i (pixels_of c s') 0%Z)).
Proof.
  intros Hs Hm Hc Hda [Ha0 Ha1] Hsrc c Hload Hupd upd px.
  change upd with (to_bool shouldUpdateAlpha). clear upd.
  set (upd := to_bool shouldUpdateAlpha).
  assert (Hch : forall r v, is_double r = true -> 0 <= r < 1 -> (0 <= v <= 255)%Z ->
            exists k : Z, offset_range m amount k /\
              shifted v (draw_value m
                (fst (bounds_in (randomMode (self s)) (- amount) amount))
                (snd (bounds_in (randomMode (self s)) (- amount) amount)) r)
              = clampZ (v + k)).
  { intros r v Hdr Hr Hv.
    apply (offset_channel (self s) m amount r v); assumption. }
  split.
  - destruct (monochromatic_run s amount shouldUpdateAlpha pg src m Hs Hm Hload Hupd)
      as (s' & Hrun & _ & _ & _ & Hpx & _).
    fold c upd px in Hpx.
    exists s'. split; [exact Hrun|]. rewrite Hpx.
    split; [apply mapi_from_length|].
    split.
    { apply words32_mapi. intros j w.
      apply (monochromatic_word_bytes upd _ w). }
    intros i Hi. rewrite mapi_from_nth by exact Hi.
    apply monochromatic_word_moved. intros v Hv.
    apply Hch; [apply double_ok | apply Hsrc | exact Hv].
  - destruct (chromatic_run s amount shouldUpdateAlpha pg src m Hs Hm Hload Hupd)
      as (s' & Hrun & _ & _ & _ & Hpx & _).
    fold c upd px in Hpx.
    exists s'. split; [exact Hrun|]. rewrite Hpx.
    split; [apply mapi_from_length|].
    split.
    { apply words32_mapi. intros j w. cbv zeta.
      apply (chromatic_word_bytes upd _ _ _ _ w). }
    intros i Hi. rewrite mapi_from_nth by exact Hi. cbv zeta.
    apply chromatic_word_moved. intros v d Hin Hv. cbn in Hin.
    destruct Hin as [<- | [<- | [<- | [<- | []]]]];
      (apply Hch; [apply double_ok | apply Hsrc | exact Hv]).
Qed.

Lemma chroma_source_unit (k : nat) : 0 <= chroma_source k < 1.
Proof.
  destruct k as [|[|k]]; split; first [discriminate | reflexivity].
Qed.

Lemma grain_amplitude_witness :
  exists s',
    applyChromaticGrain (5 # 2) None None grain_demo = Ret tt s' /\
    List.length (pixels_of OnGlobal s') = 3%nat /\
    exists kr kg kb ka : Z,
      (-2 <= kr <= 2)%Z /\ (-2 <= kg <= 2)%Z /\ (-2 <= kb <= 2)%Z /\
      moved_by false kr kg kb ka (rgba 10 20 30 40)
        (nth 1 (pixels_of OnGlobal s') 0%Z).
Proof.
  destruct (grain_amplitude grain_demo (5 # 2) None None chroma_source
              randomInt_method eq_refl eq_refl)
    as (_ & s' & Hrun & Hlen & _ & Hpix).
  - right. split; reflexivity.
  - reflexivity.
  - split; vm_compute; discriminate.
  - apply chroma_source_unit.
  - reflexivity.
  - reflexivity.
  - exists s'. split; [exact Hrun|]. split; [exact Hlen|].
    destruct (Hpix 1%nat) as (kr & kg & kb & ka & Rr & Rg & Rb & _ & Hmv).
    + cbn. lia.
    + exists kr, kg, kb, ka. cbn in Rr, Rg, Rb.
      split; [exact Rr|]. split; [exact Rg|]. split; [exact Rb|]. exact Hmv.
Defined.

(** ** Amounts that leave the picture as it is *)

Lemma clampZ_byte (v : Z) : (0 <= v <= 255)%Z -> clampZ (v + 0) = v.
Proof. unfold clampZ. lia. Qed.

Lemma moved_by_zero (upd : bool) (w w' : Z) :
  (0 <= w < 2 ^ 32)%Z -> (0 <= w' < 2 ^ 32)%Z ->
  moved_by upd 0 0 0 0 w w' -> w' = w.
Proof.
  intros Hw Hw' (B0 & B8 & B16 & B24).
  rewrite clampZ_byte in B0, B8, B16 by apply byte_at_range.
  assert (B24' : byte_at 24 w' = byte_at 24 w).
  { destruct upd; [|exact B24]. now rewrite B24, clampZ_byte by apply byte_at_range. }
  rewrite (word_of_bytes w' Hw'), (word_of_bytes w Hw). congruence.
Qed.

(** With amount 0 in either mode, and with any amount in [0,1) in integer
    mode, the offset drawn is 0. *)
Lemma draw_value_zero (o : P5Grain) (m : randomMethod) (amount r : number) :
  mode_consistent o -> randomMinMax o = Some m ->
  amount == 0 \/ (m = randomInt_method /\ 0 <= amount < 1) ->
  is_double r = true -> 0 <= r < 1 ->
  let bounds := bounds_in (randomMode o) (- amount) amount in
  draw_value m (fst bounds) (snd bounds) r = 0.
Proof.
  intros Hc Hm Hsmall Hdr Hr. cbv zeta.
  assert (Hint : Qfloor amount = 0%Z -> Qceiling (- amount) = 0%Z ->
            Math_floor (fl (fl (r * fl (fl (Math_floor amount - Math_ceil (- amount)) + 1))
                            + Math_ceil (- amount))) = 0).
  { intros Ef Ec. unfold Math_floor, Math_ceil, floorZ, ceilZ. rewrite Ef, Ec.
    pose proof (int_draw_straddle r 0 0 Hdr Hr) as Hk.
    set (K := Qfloor (fl (fl (r * fl (fl (inject_Z 0 - inject_Z 0) + 1)) + inject_Z 0)))
      in *.
    assert (E : K = 0%Z) by (assert (0 <= K <= 0)%Z by (apply Hk; lia); lia).
    rewrite E. reflexivity. }
  destruct Hc as [[Hmode Hmeth]|[Hmode Hmeth]]; rewrite Hmeth in Hm;
    injection Hm as <-; unfold bounds_in; rewrite Hmode;
    cbn [Z.eqb fst snd draw_value].
  - destruct Hsmall as [H0 | [C _]]; [ | discriminate].
    rewrite (fl_zero (amount - - amount)) by lra.
    rewrite (fl_zero (r * 0)) by ring.
    apply fl_zero. lra.
  - apply Hint.
    + destruct Hsmall as [H0 | [_ H1]].
      * now rewrite (Qfloor_comp _ _ H0).
      * apply Qfloor_unit, H1.
    + rewrite Qceiling_opp. destruct Hsmall as [H0 | [_ H1]].
      * now rewrite (Qfloor_comp _ _ H0).
      * now rewrite (Qfloor_unit _ H1).
Qed.

Lemma monochromatic_word_eq (upd : bool) (offset : number) (w : Z) :
  monochromatic_word upd offset w = chromatic_word upd offset offset offset offset w.
Proof. unfold monochromatic_word, chromatic_word. reflexivity. Qed.

Lemma shifted_zero (v : Z) : (0 <= v <= 255)%Z -> shifted v 0 = v.
Proof.
  intros Hv. rewrite (shifted_integer v 0 0); [ | reflexivity | lia].
  unfold clampZ. lia.
Qed.

Lemma chromatic_word_zero (upd : bool) (w : Z) :
  (0 <= w < 2 ^ 32)%Z -> chromatic_word upd 0 0 0 0 w = w.
Proof.
  intros Hw.
  destruct (chromatic_word_bytes upd 0 0 0 0 w) as (B0 & B8 & B16 & B24 & Bw).
  rewrite !shifted_zero in * by apply byte_at_range.
  assert (B24' : byte_at 24 (chromatic_word upd 0 0 0 0 w) = byte_at 24 w)
    by (destruct upd; exact B24).
  set (w' := chromatic_word upd 0 0 0 0 w) in *. clearbody w'.
  rewrite (word_of_bytes w' Bw), (word_of_bytes w Hw). congruence.
Qed.

Lemma mapi_from_fixed (h : nat -> Z -> Z) (l : list Z) :
  (forall j w, In w l -> h j w = w) -> mapi_from h 0 l = l.
Proof. intros H. now apply mapi_from_id. Qed.

(** With amount 0 in either mode, and with any amount in [0,1) in integer
    mode, both grain functions leave every pixel of a buffer of 32-bit words
    exactly as it was; they still load and commit the pixels and still take
    their draws from the source (one per pixel, or three or four per
    pixel). *)
Theorem grain_identity (s : state) (amount : number)
    (shouldUpdateAlpha : option bool) (pg : option pgRef) (src : source)
    (m : randomMethod) :
  random (self s) = Some src ->
  randomMinMax (self s) = Some m ->
  mode_consistent (self s) ->
  (forall k, 0 <= src k < 1) ->
  let c := resolve pg (self s) in
  raises (host s) (trace (host s)) (EvLoadPixels c) = false ->
  raises (host s) (trace (host s) ++ [EvLoadPixels c]) (EvUpdatePixels c) = false ->
  words32 (pixels_of c s) ->
  amount == 0 \/ (m = randomInt_method /\ 0 <= amount < 1) ->
  let px := pixels_of c s in
  let n := if to_bool shouldUpdateAlpha then 4%nat else 3%nat in
  (exists s',
     applyMonochromaticGrain amount shouldUpdateAlpha pg s = Ret tt s' /\
     pixels_of c s' = px /\
     draws (host s') = (draws (host s) + List.length px)%nat /\
     trace (host s') = trace (host s) ++ [EvLoadPixels c; EvUpdatePixels c]) /\
  (exists s',
     applyChromaticGrain amount shouldUpdateAlpha pg s = Ret tt s' /\
     pixels_of c s' = px /\
     draws (host s') = (draws (host s) + n * List.length px)%nat /\
     trace (host s') = trace (host s) ++ [EvLoadPixels c; EvUpdatePixels c]).
Proof.
  intros Hs Hm Hc Hsrc c Hload Hupd Hwords Hsmall px n.
  assert (Hzero : forall k,
            draw_value m
              (fst (bounds_in (randomMode (self s)) (- amount) amount))
              (snd (bounds_in (randomMode (self s)) (- amount) amount)) (src k)
            = 0).
  { intros k.
    apply (draw_value_zero (self s) m amount (src k) Hc Hm Hsmall
             (double_ok _) (Hsrc k)). }
  assert (Hin : forall w, In w px -> (0 <= w < 2 ^ 32)%Z).
  { intros w Hw. unfold words32 in Hwords. rewrite Forall_forall in Hwords.
    now apply Hwords. }
  split.
  - destruct (monochromatic_run s amount shouldUpdateAlpha pg src m Hs Hm Hload Hupd)
      as (s' & Hrun & _ & Hd & Ht & Hpx & _).
    exists s'. split; [exact Hrun|]. split; [|split; [exact Hd | exact Ht]].
    unfold c, px. rewrite Hpx. apply mapi_from_fixed. intros j w Hw.
    rewrite Hzero.
    rewrite monochromatic_word_eq.
    apply chromatic_word_zero. now apply Hin.
  - destruct (chromatic_run s amount shouldUpdateAlpha pg src m Hs Hm Hload Hupd)
      as (s' & Hrun & _ & Hd & Ht & Hpx & _).
    exists s'. split; [exact Hrun|]. split; [|split; [exact Hd | exact Ht]].
    unfold c, px. rewrite Hpx. apply mapi_from_fixed. intros j w Hw. cbv zeta.
    rewrite !Hzero. apply chromatic_word_zero. now apply Hin.
Qed.

Lemma words32_three_pixels : words32 (s_pixels three_pixels).
Proof. repeat constructor; cbn; lia. Qed.

Lemma grain_identity_witness :
  exists s',
    applyMonochromaticGrain (9 # 10) (Some true) None grain_demo = Ret tt s' /\
    pixels_of OnGlobal s' = s_pixels three_pixels /\
    draws (host s') = 3%nat.
Proof.
  destruct (grain_identity grain_demo (9 # 10) (Some true) None chroma_source
              randomInt_method eq_refl eq_refl)
    as ((s' & Hrun & Hpx & Hd & _) & _).
  - right. split; reflexivity.
  - apply chroma_source_unit.
  - reflexivity.
  - reflexivity.
  - exact words32_three_pixels.
  - right. split; [reflexivity|]. split; [discriminate | reflexivity].
  - exists s'. split; [exact Hrun|]. split; [exact Hpx | exact Hd].
Defined.

(** ** What the grain functions leave alone *)

Lemma same_settings_refl (o : P5Grain) : same_settings o o.
Proof. now repeat split. Qed.

Lemma touches_only_refl (c : receiver) (s : state) : touches_only c s s.
Proof.
  unfold touches_only. split; [apply same_settings_refl|].
  do 10 (split; [auto|]). exists []. now rewrite app_nil_r.
Qed.

Lemma touches_only_trans (c : receiver) (s1 s2 s3 : state) :
  touches_only c s1 s2 -> touches_only c s2 s3 -> touches_only c s1 s3.
Proof.
  intros ((A1 & A2 & A3 & A4) & Ap & Ao & Aw & Ah & Ad & Al & Ar & Ag & Ai & An & (la & At))
         ((B1 & B2 & B3 & B4) & Bp & Bo & Bw & Bh & Bd & Bl & Br & Bg & Bi & Bn & (lb & Bt)).
  unfold touches_only, same_settings.
  split; [repeat split; congruence|].
  split; [auto|].
  split; [intros c' Hc'; rewrite Bo, Ao; auto|].
  do 7 (split; [congruence|]).
  split; [lia|].
  exists (la ++ lb). now rewrite Bt, At, app_assoc.
Qed.

Lemma finished_bind {A B} (R : state -> state -> Prop) (m : M A)
    (k : A -> M B) (s : state) :
  (forall a b c, R a b -> R b c -> R a c) ->
  finished (R s) (m s) ->
  (forall a s', m s = Ret a s' -> R s s' -> finished (R s') (k a s')) ->
  finished (R s) (bind m k s).
Proof.
  intros Ht Hm Hk. unfold bind.
  destruct (m s) as [a s1|e s1|] eqn:E; cbn [finished] in *; auto.
  specialize (Hk a s1 eq_refl Hm).
  destruct (k a s1); cbn [finished] in *; eauto.
Qed.

Lemma call_random_touches (c : receiver) (s : state) :
  finished (touches_only c s) (call_random s).
Proof.
  unfold call_random. destruct (random (self s)); cbn [finished].
  - unfold touches_only. cbn [self host surfaces draws trace raises
      global_random instance_random pixels_of].
    split; [apply same_settings_refl|].
    do 9 (split; [auto|]). split; [lia|]. exists []. now rewrite app_nil_r.
  - apply touches_only_refl.
Qed.

Lemma call_randomMinMax_touches (c : receiver) (min max : number) (s : state) :
  finished (touches_only c s) (call_randomMinMax min max s).
Proof.
  unfold call_randomMinMax, bind at 1, get_self. cbv beta iota.
  destruct (randomMinMax (self s)) as [[|]|].
  - unfold randomInt, bind. pose proof (call_random_touches c s) as H.
    destruct (call_random s); exact H.
  - unfold randomFloat, bind. pose proof (call_random_touches c s) as H.
    destruct (call_random s); exact H.
  - apply touches_only_refl.
Qed.

Lemma read_pixel_same (i : nat) (s : state) :
  match read_pixel i s with
  | Ret _ s' => s' = s
  | Throw _ s' => s' = s
  | Timeout => False
  end.
Proof. unfold read_pixel. now destruct (pixels (self s)). Qed.

Lemma write_pixel_touches (c : receiver) (i : nat) (v : number) (s : state) :
  pixels (self s) = Some c ->
  finished (touches_only c s) (write_pixel i v s).
Proof.
  intros Hp. unfold write_pixel. rewrite Hp. cbn [finished].
  unfold touches_only, pixels_of. cbn [self host].
  split; [apply same_settings_refl|]. split; [auto|].
  split; [intros c' Hc'; now apply with_surface_other|].
  rewrite with_surface_same. cbn [s_width s_height s_density s_pixels].
  do 3 (split; [reflexivity|]).
  split; [apply store_at_length|].
  unfold with_surface. cbn [raises global_random instance_random draws trace].
  do 3 (split; [reflexivity|]). split; [lia|]. exists []. now rewrite app_nil_r.
Qed.

Ltac touches_step :=
  apply finished_bind; [apply touches_only_trans | |].

Lemma monochromatic_body_touches (c : receiver) (min max : number) (upd : bool)
    (i : nat) (s : state) :
  pixels (self s) = Some c ->
  finished (touches_only c s) (monochromatic_body min max upd i s).
Proof.
  intros Hp. unfold monochromatic_body.
  touches_step; [apply call_randomMinMax_touches|].
  intros offset s1 _ T1. pose proof (proj1 (proj2 T1) Hp) as Hp1.
  unfold bind. pose proof (read_pixel_same i s1) as Hr.
  destruct (read_pixel i s1) as [p s2|e s2|]; [| |contradiction]; subst s2.
  - now apply write_pixel_touches.
  - apply touches_only_refl.
Qed.

Lemma chromatic_body_touches (c : receiver) (min max : number) (upd : bool)
    (i : nat) (s : state) :
  pixels (self s) = Some c ->
  finished (touches_only c s) (chromatic_body min max upd i s).
Proof.
  intros Hp. unfold chromatic_body.
  unfold bind at 1. pose proof (read_pixel_same i s) as Hr.
  destruct (read_pixel i s) as [p s0|e s0|]; [| |contradiction]; subst s0;
    [|apply touches_only_refl].
  touches_step; [apply call_randomMinMax_touches|].
  intros dr s1 _ T1. pose proof (proj1 (proj2 T1) Hp) as Hp1.
  touches_step; [apply call_randomMinMax_touches|].
  intros dg s2 _ T2. pose proof (proj1 (proj2 T2) Hp1) as Hp2.
  touches_step; [apply call_randomMinMax_touches|].
  intros db s3 _ T3. pose proof (proj1 (proj2 T3) Hp2) as Hp3.
  destruct upd; [|now apply write_pixel_touches].
  touches_step; [apply call_randomMinMax_touches|].
  intros da s4 _ T4. pose proof (proj1 (proj2 T4) Hp3) as Hp4.
  now apply write_pixel_touches.
Qed.

Lemma for_loop_touches (c : receiver) (body : nat -> M unit) :
  (forall i s, pixels (self s) = Some c -> finished (touches_only c s) (body i s)) ->
  forall (n i : nat) (s : state),
    pixels (self s) = Some c ->
    finished (touches_only c s) (for_loop body i n s).
Proof.
  intros Hb. induction n as [|n IH]; intros i s Hp; cbn [for_loop].
  - apply touches_only_refl.
  - touches_step; [now apply Hb|].
    intros [] s1 _ T1. apply IH. exact (proj1 (proj2 T1) Hp).
Qed.

Lemma call_touches (c : receiver) (e : event) (s : state) :
  finished (touches_only c s) (call e s).
Proof.
  unfold call. destruct (raises _ _ _); cbn [finished].
  - apply touches_only_refl.
  - unfold touches_only, pixels_of. cbn [self host surfaces draws trace raises
      global_random instance_random].
    split; [apply same_settings_refl|].
    do 9 (split; [auto|]). split; [lia|]. now exists [e].
Qed.

Lemma loadPixels_touches (pg : option pgRef) (s : state) :
  let c := resolve pg (self s) in
  match loadPixels pg s with
  | Ret _ s1 => touches_only c s s1 /\ pixels (self s1) = Some c
  | Throw _ s1 => s1 = s
  | Timeout => False
  end.
Proof.
  intros c. unfold loadPixels, bind at 1, get_self at 1. cbv beta iota. fold c.
  unfold bind at 1. pose proof (call_touches c (EvLoadPixels c) s) as Hc.
  destruct (call (EvLoadPixels c) s) as [[] s1|e s1|] eqn:E;
    [| now apply call_throw in E | contradiction].
  cbn [finished] in Hc. unfold bind, get_host, setPixelsData, set_self.
  cbn [self host with_pixelsData pixels]. split; [|reflexivity].
  destruct Hc as ((A1 & A2 & A3 & A4) & Ap & Rest).
  unfold touches_only, same_settings, pixels_of in *. cbn [self host] in *.
  split; [now repeat split|]. split; [reflexivity|]. exact Rest.
Qed.

Lemma grain_touches (body : number -> number -> nat -> M unit)
    (amount : number) (pg : option pgRef) (s : state) :
  (forall c min max i s0, pixels (self s0) = Some c ->
     finished (touches_only c s0) (body min max i s0)) ->
  finished (touches_only (resolve pg (self s)) s)
    ((loadPixels pg ;;
      bounds <- prepareRandomBounds (- amount) amount ;;
      let '(min, max) := bounds in
      pixelsLength <- pixels_length ;;
      for_loop (body min max) 0 pixelsLength ;;
      updatePixels pg) s).
Proof.
  intros Hb. set (c := resolve pg (self s)).
  unfold bind at 1. pose proof (loadPixels_touches pg s) as Hl.
  cbv zeta in Hl. fold c in Hl.
  destruct (loadPixels pg s) as [[] s1|e s1|]; [| |contradiction].
  2:{ subst s1. apply touches_only_refl. }
  destruct Hl as (T1 & Hp1).
  assert (Hgo : forall r : outcome unit,
            finished (touches_only c s1) r -> finished (touches_only c s) r).
  { intros r. destruct r; cbn [finished]; auto; apply touches_only_trans; exact T1. }
  apply Hgo. unfold bind at 1. rewrite prepareRandomBounds_eq.
  destruct (bounds_in _ _ _) as [min max].
  unfold bind at 1. rewrite (pixels_length_eq c) by exact Hp1.
  touches_step; [now apply for_loop_touches; [apply Hb|]|].
  intros [] s2 _ T2. unfold updatePixels, bind, get_self. apply call_touches.
Qed.

(** Whatever their arguments and however they end (they return, the host
    raises on loading or committing, or the provider is not configured), the
    two grain functions end, and they touch nothing but the pixel words of
    their target: the provider, the instance, the tiling state and the frame
    counter of [textureAnimate] are kept, every other surface is unchanged,
    the target keeps its width, height, density and number of pixels, and the
    trace is only extended. *)
Theorem grain_touches_only (amount : number) (shouldUpdateAlpha : option bool)
    (pg : option pgRef) (s : state) :
  let c := resolve pg (self s) in
  finished (touches_only c s)
    (applyMonochromaticGrain amount shouldUpdateAlpha pg s) /\
  finished (touches_only c s)
    (applyChromaticGrain amount shouldUpdateAlpha pg s).
Proof.
  intros c. split.
  - apply (grain_touches
             (fun min max => monochromatic_body min max (to_bool shouldUpdateAlpha))).
    intros; now apply monochromatic_body_touches.
  - apply (grain_touches
             (fun min max => chromatic_body min max (to_bool shouldUpdateAlpha))).
    intros; now apply chromatic_body_touches.
Qed.

(** ** Grain before [setup] *)

Lemma call_randomMinMax_unset (min max : number) (s : state) :
  random (self s) = None -> call_randomMinMax min max s = Throw TypeError s.
Proof.
  intros Hr. unfold call_randomMinMax, bind at 1, get_self. cbv beta iota.
  destruct (randomMinMax (self s)) as [[|]|]; [| |reflexivity].
  - unfold randomInt, bind, call_random. now rewrite Hr.
  - unfold randomFloat, bind, call_random. now rewrite Hr.
Qed.

(** On an object whose random source has never been set ([setup] was not
    called), with a target that loads and holds at least one pixel, both
    grain functions raise a [TypeError] at the first draw: the pixels have
    been loaded, no word has been written, nothing has been drawn from any
    source and the pixels are not committed. *)
Theorem grain_without_source (amount : number) (shouldUpdateAlpha : option bool)
    (pg : option pgRef) (s : state) :
  let c := resolve pg (self s) in
  random (self s) = None ->
  raises (host s) (trace (host s)) (EvLoadPixels c) = false ->
  pixels_of c s <> [] ->
  exists s',
    applyMonochromaticGrain amount shouldUpdateAlpha pg s = Throw TypeError s' /\
    applyChromaticGrain amount shouldUpdateAlpha pg s = Throw TypeError s' /\
    surfaces (host s') = surfaces (host s) /\
    draws (host s') = draws (host s) /\
    trace (host s') = trace (host s) ++ [EvLoadPixels c] /\
    provider (self s') = provider (self s).
Proof.
  intros c Hr Hload Hpx. destruct s as [o w]. cbn [self host] in *.
  set (o1 := with_pixelsData c (s_width (surfaces w c)) (s_height (surfaces w c))
               (s_density (surfaces w c)) o).
  set (w1 := mkWorld (surfaces w) (draws w) (trace w ++ [EvLoadPixels c])
               (raises w) (global_random w) (instance_random w)).
  exists (mkState o1 w1).
  assert (Hlen : exists n, List.length (pixels_of c (mkState o1 w1)) = S n).
  { unfold pixels_of in *. cbn [host w1 surfaces] in *.
    destruct (s_pixels (surfaces w c)); [congruence|]. now eexists. }
  destruct Hlen as (n & Hlen).
  assert (Hr1 : random (self (mkState o1 w1)) = None) by exact Hr.
  split; [|split; [|now repeat split]].
  - unfold applyMonochromaticGrain. unfold bind at 1.
    rewrite (loadPixels_ok pg o w Hload). fold c o1 w1. cbv beta iota.
    unfold bind at 1. rewrite prepareRandomBounds_eq.
    destruct (bounds_in _ _ _) as [min max].
    unfold bind at 1. rewrite (pixels_length_eq c) by reflexivity. rewrite Hlen.
    cbn [for_loop]. unfold bind at 1, bind at 1, monochromatic_body, bind at 1.
    now rewrite (call_randomMinMax_unset _ _ _ Hr1).
  - unfold applyChromaticGrain. unfold bind at 1.
    rewrite (loadPixels_ok pg o w Hload). fold c o1 w1. cbv beta iota.
    unfold bind at 1. rewrite prepareRandomBounds_eq.
    destruct (bounds_in _ _ _) as [min max].
    unfold bind at 1. rewrite (pixels_length_eq c) by reflexivity. rewrite Hlen.
    cbn [for_loop]. unfold bind at 1, bind at 1, chromatic_body, bind at 1.
    unfold read_pixel at 1. cbn [self o1 with_pixelsData pixels]. cbv beta iota.
    unfold bind at 1. now rewrite (call_randomMinMax_unset _ _ _ Hr1).
Qed.

Lemma grain_without_source_witness :
  exists s',
    applyMonochromaticGrain 10 None None not_set_up = Throw TypeError s' /\
    applyChromaticGrain 10 None None not_set_up = Throw TypeError s' /\
    pixels_of OnGlobal s' = [rgba 1 2 3 4] /\
    trace (host s') = [EvLoadPixels OnGlobal].
Proof.
  destruct (grain_without_source 10 None None not_set_up eq_refl eq_refl)
    as (s' & H1 & H2 & Hs & _ & Ht & _); [discriminate|].
  exists s'. split; [exact H1|]. split; [exact H2|].
  split; [unfold pixels_of; rewrite Hs; reflexivity | exact Ht].
Defined.

(** ** [setup]: which source is installed *)

(** [setup(null)] raises a [TypeError] when it reads [config.random] and
    leaves the object and the host as they were.  Every other call of
    [setup] returns and leaves the host, the pixel view, the tiling state
    and the frame counters alone.  Afterwards a source is installed,
    chosen by this precedence: when the instance held by the object is then
    [null] it is p5's global [random], whatever [config.random] was (and it
    stays so on later calls until an instance object is given); when
    [config.instance] is a p5 instance it is that instance's [random], again
    whatever [config.random] was; otherwise it is [config.random] if given,
    else the source already installed, else p5's global [random].  The mode
    is switched by the strings ['int'] and ['float'] only: any other string
    leaves mode and method as they were. *)
Theorem setup_precedence (config : option setupConfig) (s : state) :
  match config with
  | Some config_null => setup config s = Throw TypeError s
  | _ =>
  exists s',
    setup config s = Ret tt s' /\ host s' = host s /\
    tiling_state (self s') = tiling_state (self s) /\
    textureAnimate_frameCount (self s') = textureAnimate_frameCount (self s) /\
    pixels (self s') = pixels (self s) /\
    random (self s') <> None /\
    (instance (self s') = inst_null ->
     random (self s') = Some (global_random (host s))) /\
    (config_instance config = inst_p5 ->
     instance (self s') = inst_p5 /\
     random (self s') = Some (instance_random (host s))) /\
    (config_instance config = inst_null -> instance (self s') = inst_null) /\
    (config_instance config = inst_undefined ->
     instance (self s') = instance (self s) /\
     (instance (self s) <> inst_null ->
      random (self s') =
        Some match config_random config, random (self s) with
             | Some f, _ => f
             | None, Some r => r
             | None, None => global_random (host s)
             end)) /\
    (config_randomMode config = Some "int"%string ->
     randomMode (self s') = Some 1%Z /\
     randomMinMax (self s') = Some randomInt_method) /\
    (config_randomMode config = Some "float"%string ->
     randomMode (self s') = Some 0%Z /\
     randomMinMax (self s') = Some randomFloat_method) /\
    (config_randomMode config <> Some "int"%string ->
     config_randomMode config <> Some "float"%string ->
     randomMode (self s') = randomMode (self s) /\
     randomMinMax (self s') = randomMinMax (self s))
  end.
Proof.
  destruct s as [o w].
  destruct o as [i r f m px pc cw ch cd fa fo ox oy].
  destruct config as [[cr cm ci| ]|];
    cbn [config_random config_randomMode config_instance]; [ | reflexivity | ].
  - destruct cm as [mode|].
    + destruct (String.eqb mode "int") eqn:Ei;
        [|destruct (String.eqb mode "float") eqn:Ef].
      * apply String.eqb_eq in Ei. subst mode.
        destruct cr, ci, i, r; eexists; (split; [reflexivity|]);
          cbn [self host instance random randomMode randomMinMax pixels
               tiling_state textureAnimate_frameCount textureOverlay_frameCount
               textureOverlay_tX textureOverlay_tY];
          repeat split; intros; try discriminate; try congruence.
      * apply String.eqb_eq in Ef. subst mode.
        destruct cr, ci, i, r; eexists; (split; [reflexivity|]);
          cbn [self host instance random randomMode randomMinMax pixels
               tiling_state textureAnimate_frameCount textureOverlay_frameCount
               textureOverlay_tX textureOverlay_tY];
          repeat split; intros; try discriminate; try congruence.
      * apply String.eqb_neq in Ei. apply String.eqb_neq in Ef.
        assert (Hrun : forall k : unit -> M unit,
                  bind (prepareRandomMode mode) k = k tt).
        { intros k. unfold prepareRandomMode.
          rewrite (proj2 (String.eqb_neq _ _) Ei), (proj2 (String.eqb_neq _ _) Ef).
          reflexivity. }
        destruct cr, ci, i, r; eexists;
          (split; [unfold setup; cbv beta iota;
                   unfold bind at 2; rewrite Hrun; reflexivity|]);
          cbn [self host instance random randomMode randomMinMax pixels
               tiling_state textureAnimate_frameCount textureOverlay_frameCount
               textureOverlay_tX textureOverlay_tY];
          repeat split; intros; try discriminate; try congruence.
    + destruct cr, ci, i, r; eexists; (split; [reflexivity|]);
        cbn [self host instance random randomMode randomMinMax pixels
             tiling_state textureAnimate_frameCount textureOverlay_frameCount
             textureOverlay_tX textureOverlay_tY];
        repeat split; intros; try discriminate; try congruence.
  - destruct i, r; eexists; (split; [reflexivity|]);
      cbn [self host instance random randomMode randomMinMax pixels
           tiling_state textureAnimate_frameCount textureOverlay_frameCount
           textureOverlay_tX textureOverlay_tY];
      repeat split; intros; try discriminate; try congruence.
Qed.

(** ** What each method keeps of the object *)

Lemma setup_kept (config : option setupConfig) (s : state) :
  match config with
  | Some config_null => setup config s = Throw TypeError s
  | _ =>
  exists s',
    setup config s = Ret tt s' /\
    tiling_state (self s') = tiling_state (self s) /\
    textureAnimate_frameCount (self s') = textureAnimate_frameCount (self s) /\
    random (self s') <> None /\
    (mode_consistent (self s) -> mode_consistent (self s'))
  end.
Proof.
  destruct s as [o w].
  destruct o as [i r f m px pc cw ch cd fa fo ox oy].
  unfold mode_consistent.
  destruct config as [[cr cm ci| ]|]; [ | reflexivity | ].
  - destruct cm as [mode|].
    + destruct (String.eqb mode "int") eqn:Ei;
        [|destruct (String.eqb mode "float") eqn:Ef].
      * apply String.eqb_eq in Ei. subst mode.
        destruct cr, ci, i, r; eexists; (split; [reflexivity|]);
          cbn [self host instance random randomMode randomMinMax
               tiling_state textureAnimate_frameCount textureOverlay_frameCount
               textureOverlay_tX textureOverlay_tY];
          repeat split; intros; try discriminate; auto.
      * apply String.eqb_eq in Ef. subst mode.
        destruct cr, ci, i, r; eexists; (split; [reflexivity|]);
          cbn [self host instance random randomMode randomMinMax
               tiling_state textureAnimate_frameCount textureOverlay_frameCount
               textureOverlay_tX textureOverlay_tY];
          repeat split; intros; try discriminate; auto.
      * assert (Hrun : forall k : unit -> M unit,
                  bind (prepareRandomMode mode) k = k tt).
        { intros k. unfold prepareRandomMode. rewrite Ei, Ef. reflexivity. }
        destruct cr, ci, i, r; eexists;
          (split; [unfold setup; cbv beta iota;
                   unfold bind at 2; rewrite Hrun; reflexivity|]);
          cbn [self host instance random randomMode randomMinMax
               tiling_state textureAnimate_frameCount textureOverlay_frameCount
               textureOverlay_tX textureOverlay_tY];
          repeat split; intros; try discriminate; auto.
    + destruct cr, ci, i, r; eexists; (split; [reflexivity|]);
        cbn [self host instance random randomMode randomMinMax
             tiling_state textureAnimate_frameCount textureOverlay_frameCount
             textureOverlay_tX textureOverlay_tY];
        repeat split; intros; try discriminate; auto.
  - destruct i, r; eexists; (split; [reflexivity|]);
      cbn [self host instance random randomMode randomMinMax
           tiling_state textureAnimate_frameCount textureOverlay_frameCount
           textureOverlay_tX textureOverlay_tY];
      repeat split; intros; try discriminate; auto.
Qed.

Lemma tinker_loop_outside (cb : callback) (channels total : number) :
  outside cb ->
  forall (fuel : nat) (i : number) (s : state),
    ended (fun s' => self s' = self s) (tinker_loop fuel cb channels total i s).
Proof.
  intros Hcb. induction fuel as [|fuel IH]; intros i s; cbn [tinker_loop].
  - exact I.
  - destruct (ltb i total); [|reflexivity].
    unfold invoke. rewrite bind_assoc.
    apply ended_bind.
    + eapply ended_weaken; [|apply call_frame]. now intros s1 (A & _).
    + intros [] s1 Hc. pose proof (call_frame (EvCallback i total) s) as F.
      rewrite Hc in F. destruct F as (F & _).
      apply ended_bind.
      * eapply ended_weaken; [|apply Hcb]. intros; congruence.
      * intros [] s2 Hc2. pose proof (Hcb i total s1) as G. rewrite Hc2 in G.
        cbn [ended] in G. eapply ended_weaken; [|apply IH].
        cbv beta. intros; congruence.
Qed.

Lemma tinkerPixels_outside (fuel : nat) (cb : callback)
    (shouldUpdate : option bool) (pg : option pgRef) (s : state) :
  outside cb ->
  ended (fun s' => self s' = self s) (tinkerPixels fuel cb shouldUpdate pg s).
Proof.
  intros Hcb. unfold tinkerPixels. unfold bind at 1, get_self at 1. cbv beta iota.
  apply ended_bind.
  - eapply ended_weaken; [|apply call_frame]. now intros s1 (A & _).
  - intros [] s1 Hc. pose proof (call_frame (EvLoadPixels (resolve pg (self s))) s) as F.
    rewrite Hc in F. destruct F as (F & _).
    unfold bind at 1, get_host at 1. cbv beta iota.
    apply ended_bind.
    + eapply ended_weaken; [|apply (tinker_loop_outside cb _ _ Hcb)].
      cbv beta. intros; congruence.
    + intros [] s2 Hl.
      match type of Hl with
      | tinker_loop _ _ _ ?total _ _ = _ =>
          pose proof (tinker_loop_outside cb 4 total Hcb fuel 0 s1) as G
      end.
      rewrite Hl in G. cbn [ended] in G.
      destruct (not_false shouldUpdate).
      * unfold updatePixels, bind, get_self.
        eapply ended_weaken; [|apply call_frame].
        cbv beta. intros s3 (A & _). congruence.
      * unfold ret. cbn [ended]. congruence.
Qed.

Lemma textureAnimate_kept (el : element) (config : option animateConfig)
    (s : state) :
  finished (fun s' =>
              provider (self s') = provider (self s) /\
              instance (self s') = instance (self s) /\
              tiling_state (self s') = tiling_state (self s) /\
              ((0 <= textureAnimate_frameCount (self s))%Z ->
               (0 <= textureAnimate_frameCount (self s'))%Z) /\
              surfaces (host s') = surfaces (host s) /\
              trace (host s') = trace (host s))
    (textureAnimate el config s).
Proof.
  destruct s as [o w]. unfold textureAnimate.
  unfold bind, set_self, get_self, get_host.
  cbn [self host textureAnimate_frameCount with_animate_count].
  destruct (geb _ _).
  - unfold call_random. cbn [self host random with_animate_count].
    destruct (random o) as [src|] eqn:Hs.
    + cbn [self host random with_animate_count draws]. rewrite Hs.
      cbn [finished ret self host]. repeat split. intros; cbn; lia.
    + cbn [finished self host]. repeat split.
      cbn [textureAnimate_frameCount with_animate_count]. lia.
  - cbn [finished ret self host]. repeat split.
    cbn [textureAnimate_frameCount with_animate_count]. lia.
Qed.

Lemma overlay_animate_kept (en : bool) (atF amt : number) (s : state) :
  finished (fun s' =>
              provider (self s') = provider (self s) /\
              instance (self s') = instance (self s) /\
              textureAnimate_frameCount (self s') =
                textureAnimate_frameCount (self s) /\
              ((0 <= textureOverlay_frameCount (self s))%Z ->
               (0 <= textureOverlay_frameCount (self s'))%Z))
    (overlay_animate en atF amt s).
Proof.
  unfold overlay_animate. destruct s as [o w]. destruct en.
  - unfold bind, set_self, get_self. cbn [self host textureOverlay_frameCount with_overlay].
    destruct (geb _ _).
    + unfold call_random. cbn [self host random with_overlay].
      destruct (random o) as [src|] eqn:Hs.
      * cbn [self host random with_overlay draws]. rewrite Hs.
        cbn [finished self host]. repeat split. intros; cbn; lia.
      * cbn [finished self host]. repeat split.
        cbn [textureOverlay_frameCount with_overlay]. lia.
    + cbn [finished ret self host]. repeat split.
      cbn [textureOverlay_frameCount with_overlay]. lia.
  - cbn [finished ret]. now repeat split.
Qed.

Lemma textureOverlay_kept (fuel : nat) (tex : texture)
    (config : option overlayConfig) (pg : option pgRef) (s : state) :
  ended (fun s' =>
           provider (self s') = provider (self s) /\
           instance (self s') = instance (self s) /\
           textureAnimate_frameCount (self s') =
             textureAnimate_frameCount (self s) /\
           ((0 <= textureOverlay_frameCount (self s))%Z ->
            (0 <= textureOverlay_frameCount (self s'))%Z))
    (textureOverlay fuel tex config pg s).
Proof.
  rewrite textureOverlay_eq. unfold bind at 1.
  pose proof (overlay_animate_kept (animate_enabled config) (animateAtFrame config)
                (animateAmount config (overlay_width pg s) (overlay_height pg s)) s)
    as Ha.
  destruct (overlay_animate _ _ _ s) as [[] s1|e s1|]; cbn [finished ended] in *;
    [|exact Ha|exact I].
  eapply ended_weaken; [|apply overlay_draw_frame].
  cbv beta. intros s2 (A & _). now rewrite A.
Qed.

Lemma grain_kept (c : receiver) (s : state) (r : outcome unit) :
  finished (touches_only c s) r ->
  ended (fun s' => same_settings (self s) (self s')) r.
Proof. destruct r; cbn [finished ended]; [| |auto]; now intros (A & _). Qed.

Lemma same_settings_well_formed (o o' : P5Grain) :
  same_settings o o' -> well_formed o -> well_formed o'.
Proof.
  unfold same_settings, well_formed, mode_consistent, provider, tiling_state.
  intros (A & B & C & D) (E & F & G).
  injection A as A1 A2 A3. injection C as C1 C2 C3.
  rewrite A2, A3, D, C1. auto.
Qed.

(** Every method keeps what [object_kept] says, and keeps the object well
    formed. *)
Lemma run_kept (a : api) (s : state) :
  api_outside a ->
  ended (fun s' => object_kept a (self s) (self s') /\
                   (well_formed (self s) -> well_formed (self s')))
    (run a s).
Proof.
  intros Ha. destruct a as [config|amt sua pg|amt sua pg|fuel cb su pg|fuel cb pg
                           |el config|fuel tex config pg];
    cbn [run object_kept api_outside] in *.
  - pose proof (setup_kept config s) as H.
    destruct config as [[cr cm ci | ] | ]; cbn [object_kept].
    + destruct H as (s' & -> & A & B & C & D). cbn [ended].
      split; [now repeat split|].
      intros (E & F & G). unfold well_formed. rewrite B.
      unfold tiling_state in A. injection A as A1 _ _. rewrite A1. auto.
    + rewrite H. cbn [ended]. split; [reflexivity | auto].
    + destruct H as (s' & -> & A & B & C & D). cbn [ended].
      split; [now repeat split|].
      intros (E & F & G). unfold well_formed. rewrite B.
      unfold tiling_state in A. injection A as A1 _ _. rewrite A1. auto.
  - eapply ended_weaken;
      [|eapply grain_kept;
        apply (grain_touches
                 (fun min max => monochromatic_body min max (to_bool sua)));
        intros; now apply monochromatic_body_touches].
    cbv beta. intros s' H. split; [exact H | now apply same_settings_well_formed].
  - eapply ended_weaken;
      [|eapply grain_kept;
        apply (grain_touches
                 (fun min max => chromatic_body min max (to_bool sua)));
        intros; now apply chromatic_body_touches].
    cbv beta. intros s' H. split; [exact H | now apply same_settings_well_formed].
  - eapply ended_weaken; [|apply (tinkerPixels_outside fuel cb su pg s Ha)].
    cbv beta. intros s' ->. split; [apply same_settings_refl | auto].
  - eapply ended_weaken; [|apply (tinkerPixels_outside fuel cb (Some false) pg s Ha)].
    cbv beta. intros s' ->. split; [apply same_settings_refl | auto].
  - unfold bind. pose proof (textureAnimate_kept el config s) as H.
    destruct (textureAnimate el config s) as [r s1|e s1|];
      cbn [finished ended ret] in *; [| |exact I];
      destruct H as (A & B & C & D & _);
      (split; [now repeat split|]);
      intros (E & F & G); unfold well_formed, mode_consistent in *;
      unfold provider in A; injection A as A1 A2 A3;
      unfold tiling_state in C; injection C as C1 _ _;
      rewrite A2, A3, C1; auto.
  - eapply ended_weaken; [|apply textureOverlay_kept].
    cbv beta. intros s' (A & B & C & D). split; [now repeat split|].
    intros (E & F & G). unfold well_formed, mode_consistent in *.
    unfold provider in A. injection A as A1 A2 A3. rewrite A2, A3, C. auto.
Qed.

(** However a call of a public method ends, it keeps of the object what
    belongs to the other methods: only [setup] changes the provider and the
    instance, only [textureAnimate] its own frame counter, only
    [textureOverlay] the tiling state; [setup(null)], which raises, leaves
    the whole object as it was, and every other call of [setup] leaves a
    source installed.  Callbacks are taken from outside the library. *)
Theorem methods_keep_apart (a : api) (s : state) :
  api_outside a ->
  ended (fun s' => object_kept a (self s) (self s')) (run a s).
Proof.
  intros Ha. eapply ended_weaken; [|apply (run_kept a s Ha)].
  cbv beta. now intros s' (A & _).
Qed.

Lemma paint_red_outside : outside paint_red.
Proof. intros index total s. reflexivity. Qed.

Lemma methods_keep_apart_witness :
  outside paint_red /\
  ended (fun s' => object_kept (TinkerPixels 5 paint_red None None)
                     (self two_by_two) (self s'))
    (run (TinkerPixels 5 paint_red None None) two_by_two).
Proof.
  split; [exact paint_red_outside|].
  exact (methods_keep_apart (TinkerPixels 5 paint_red None None) two_by_two
           paint_red_outside).
Defined.

(** In every state a sketch can reach, the mode flag and the bound draw
    method agree (flag 0 with the float method, flag 1 with the integer
    method) and both frame counters are non-negative. *)
Theorem reachable_well_formed (s : state) :
  reachable s -> well_formed (self s).
Proof.
  induction 1 as [w|s w _ IH|a s s' _ IH Ha Hrun|a e s s' _ IH Ha Hrun].
  - unfold well_formed, mode_consistent. cbn. split; [now left | lia].
  - exact IH.
  - pose proof (run_kept a s Ha) as H. rewrite Hrun in H. now apply H.
  - pose proof (run_kept a s Ha) as H. rewrite Hrun in H. now apply H.
Qed.

Lemma reachable_well_formed_witness : well_formed (self grain_demo).
Proof.
  apply reachable_well_formed.
  apply (reach_ret (Setup (Some (mkSetup (Some chroma_source) (Some "int"%string)
                                   inst_undefined)))
           (state_after constructor
              (mkState fields_init (quiet_world three_pixels chroma_source)))).
  - apply reach_new.
  - exact I.
  - reflexivity.
Defined.

(** ** [textureAnimate] *)

Lemma geb_interval (atF : number) (n count : Z) :
  atF == inject_Z n -> geb (inject_Z count) atF = (n <=? count)%Z.
Proof.
  intros H. unfold geb.
  rewrite (Qleb_comp atF (inject_Z n) H (inject_Z count) (inject_Z count)
             (Qeq_refl _)).
  destruct (Z.leb_spec n count) as [Hc|Hc].
  - apply Qle_bool_iff. now rewrite <- Zle_Qle.
  - destruct (Qle_bool (inject_Z n) (inject_Z count)) eqn:E; [|reflexivity].
    apply Qle_bool_iff in E. rewrite <- Zle_Qle in E. lia.
Qed.

Lemma truncZ_opp (x : number) : truncZ (- x) = (- truncZ x)%Z.
Proof.
  unfold truncZ.
  destruct (Qle_bool 0 x) eqn:E1; destruct (Qle_bool 0 (- x)) eqn:E2.
  - apply Qle_bool_iff in E1. apply Qle_bool_iff in E2.
    assert (Hz : x == 0) by lra.
    rewrite (Qfloor_comp _ _ Hz).
    rewrite (Qfloor_comp (- x) 0) by lra. reflexivity.
  - rewrite Qceiling_opp. reflexivity.
  - apply Qfloor_opp.
  - exfalso.
    assert (A : ~ 0 <= x) by (intros C; apply Qle_bool_iff in C; congruence).
    assert (B : ~ 0 <= - x) by (intros C; apply Qle_bool_iff in C; congruence).
    destruct (Qlt_le_dec x 0) as [C | C]; [apply B; lra | apply A, C].
Qed.

(** The integer part of a rounded product of a source value of the format
    in [0,1) and an amount lies between 0 and the amount. *)
Lemma truncZ_product_range (r a : number) :
  is_double r = true -> 0 <= r < 1 ->
  (0 <= a -> (0 <= truncZ (fl (r * a)))%Z /\ inject_Z (truncZ (fl (r * a))) <= a) /\
  (a <= 0 -> a <= inject_Z (truncZ (fl (r * a))) /\ (truncZ (fl (r * a)) <= 0)%Z).
Proof.
  intros Hd Hr.
  assert (Hzero : a == 0 -> truncZ (fl (r * a)) = 0%Z).
  { intros Hz. rewrite (fl_zero (r * a)); [reflexivity | ]. rewrite Hz. ring. }
  split; intros Ha.
  - destruct (Qlt_le_dec 0 a) as [Hpos | Hnon].
    + destruct (trunc_scaled r a Hd Hr Hpos) as [T1 T2].
      split; [exact T1 | apply Qlt_le_weak, T2].
    + rewrite Hzero by lra. split; [lia | exact Ha].
  - destruct (Qlt_le_dec a 0) as [Hneg | Hnon].
    + assert (Hpos : 0 < - a) by lra.
      destruct (trunc_scaled r (- a) Hd Hr Hpos) as [T1 T2].
      assert (E : truncZ (fl (r * a)) = (- truncZ (fl (r * - a)))%Z).
      { rewrite <- truncZ_opp. apply truncZ_comp.
        rewrite <- fl_opp. rewrite (fl_comp (r * a) (- (r * - a))) by ring.
        reflexivity. }
      rewrite E. rewrite inject_Z_opp. split; [lra | lia].
    + rewrite Hzero by lra. split; [exact Ha | lia].
Qed.

(** One call with a configured source. *)
Lemma textureAnimate_step (el : element) (config : option animateConfig)
    (src : source) (s : state) :
  random (self s) = Some src ->
  let d := draws (host s) in
  let count := (textureAnimate_frameCount (self s) + 1)%Z in
  let fires := geb (inject_Z count) (animate_atFrame config) in
  let amt := animate_amount config (self s) (host s) in
  textureAnimate el config s =
    Ret (if fires
         then style_write el (truncZ (fl (src d * amt))) (truncZ (fl (src (S d) * amt)))
         else None)
        (mkState (with_animate_count (if fires then 0%Z else count) (self s))
           (mkWorld (surfaces (host s)) (if fires then S (S d) else d)
              (trace (host s)) (raises (host s))
              (global_random (host s)) (instance_random (host s)))).
Proof.
  intros Hs d count fires amt. unfold textureAnimate, fires, count, amt, d.
  destruct s as [o w]. cbn [self host] in *.
  unfold bind, set_self, get_self, get_host.
  cbn [self host textureAnimate_frameCount with_animate_count].
  destruct (geb _ _).
  - unfold call_random. cbn [self host random with_animate_count]. rewrite Hs.
    cbn [self host random with_animate_count draws]. rewrite Hs. reflexivity.
  - unfold ret. now destruct w.
Qed.

Lemma div_split (a b n : nat) :
  (n <> 0)%nat -> ((a + b) / n = a / n + (a mod n + b) / n)%nat.
Proof.
  intros Hn. rewrite (Nat.div_mod_eq a n) at 1.
  replace (n * (a / n) + a mod n + b)%nat with (a mod n + b + (a / n) * n)%nat by lia.
  rewrite Nat.div_add by exact Hn. lia.
Qed.

Lemma animate_amount_stable (config : option animateConfig) (o o' : P5Grain)
    (w w' : world) :
  instance o' = instance o -> surfaces w' = surfaces w ->
  animate_amount config o' w' = animate_amount config o w.
Proof.
  intros Hi Hs. unfold animate_amount, resolve, instance_truthy.
  now rewrite Hi, Hs.
Qed.

(** A run of calls that all resolve the interval to [n], from a counter at
    [k < n]. *)
Lemma animate_calls_from (n : nat) (src : source) :
  (1 <= n)%nat ->
  forall (cs : list animateCall) (k : nat) (s : state),
    random (self s) = Some src ->
    textureAnimate_frameCount (self s) = Z.of_nat k ->
    (k < n)%nat ->
    (forall c, In c cs -> animate_atFrame (anim_config c) == inject_Z (Z.of_nat n)) ->
    exists rs s',
      animate_calls cs s = Ret rs s' /\
      List.length rs = List.length cs /\
      textureAnimate_frameCount (self s') = Z.of_nat ((k + List.length cs) mod n) /\
      draws (host s') = (draws (host s) + 2 * ((k + List.length cs) / n))%nat /\
      random (self s') = Some src /\
      instance (self s') = instance (self s) /\
      surfaces (host s') = surfaces (host s) /\
      trace (host s') = trace (host s) /\
      forall j c,
        nth_error cs j = Some c ->
        let dj := (draws (host s) + 2 * ((k + j) / n))%nat in
        let amt := animate_amount (anim_config c) (self s) (host s) in
        nth_error rs j =
          Some (if ((k + S j) mod n =? 0)%nat
                then style_write (anim_element c)
                       (truncZ (fl (src dj * amt))) (truncZ (fl (src (S dj) * amt)))
                else None).
Proof.
  intros Hn. induction cs as [|c cs IH]; intros k s Hs Hk Hlt Hall.
  - exists [], s. cbn [animate_calls List.length]. rewrite Nat.add_0_r.
    rewrite Nat.mod_small, Nat.div_small by exact Hlt.
    split; [reflexivity|]. split; [reflexivity|]. split; [exact Hk|].
    split; [lia|]. split; [exact Hs|]. do 3 (split; [reflexivity|]).
    intros [|j] c0; discriminate.
  - cbn [animate_calls]. unfold bind at 1.
    rewrite (textureAnimate_step _ _ src s Hs). cbv zeta.
    rewrite Hk.
    assert (Hat : animate_atFrame (anim_config c) == inject_Z (Z.of_nat n))
      by (apply Hall; now left).
    replace (Z.of_nat k + 1)%Z with (Z.of_nat (S k)) by lia.
    rewrite (geb_interval _ _ _ Hat).
    set (fires := (Z.of_nat n <=? Z.of_nat (S k))%Z).
    assert (Hf : fires = ((k + 1) mod n =? 0)%nat).
    { unfold fires. destruct (Nat.eq_dec (S k) n) as [E|E].
      - rewrite <- E. replace (k + 1)%nat with (S k) by lia.
        rewrite Nat.Div0.mod_same. rewrite Z.leb_refl. reflexivity.
      - rewrite Nat.mod_small by lia.
        destruct (Z.leb_spec (Z.of_nat n) (Z.of_nat (S k))); [lia|].
        symmetry. apply Nat.eqb_neq. lia. }
    set (k1 := ((k + 1) mod n)%nat).
    assert (Hk1 : (if fires then 0%Z else Z.of_nat (S k)) = Z.of_nat k1).
    { unfold k1, fires. destruct (Nat.eq_dec (S k) n) as [E|E].
      - rewrite <- E. replace (k + 1)%nat with (S k) by lia.
        rewrite Nat.Div0.mod_same. now rewrite Z.leb_refl.
      - rewrite Nat.mod_small by lia.
        destruct (Z.leb_spec (Z.of_nat n) (Z.of_nat (S k))); [lia|].
        f_equal. lia. }
    assert (Hd1 : (if fires then S (S (draws (host s))) else draws (host s))
                  = (draws (host s) + 2 * ((k + 1) / n))%nat).
    { unfold fires. destruct (Nat.eq_dec (S k) n) as [E|E].
      - rewrite <- E. replace (k + 1)%nat with (S k) by lia.
        rewrite Nat.div_same by lia. rewrite Z.leb_refl. lia.
      - rewrite Nat.div_small by lia.
        destruct (Z.leb_spec (Z.of_nat n) (Z.of_nat (S k))); lia. }
    rewrite Hk1, Hd1.
    set (r0 := if fires then style_write _ _ _ else None).
    match goal with
    | |- context [bind (animate_calls cs) _ ?s1] => set (s1' := s1)
    end.
    destruct (IH k1 s1') as (rs & s' & Hrun & Hlen & Hc & Hd & Hr & Hi & Hsf & Htr & Hj).
    + exact Hs.
    + reflexivity.
    + apply Nat.mod_upper_bound. lia.
    + intros c0 Hc0. apply Hall. now right.
    + exists (r0 :: rs), s'. unfold bind. rewrite Hrun. unfold ret.
      split; [reflexivity|]. cbn [List.length].
      split; [now rewrite Hlen|].
      split.
      { rewrite Hc. unfold k1. rewrite Nat.Div0.add_mod_idemp_l.
        f_equal. f_equal. lia. }
      split.
      { rewrite Hd. cbn [s1' host draws].
        replace (k + S (List.length cs))%nat with ((k + 1) + List.length cs)%nat by lia.
        rewrite (div_split (k + 1) (List.length cs) n) by lia. fold k1. lia. }
      split; [exact Hr|]. split; [exact Hi|]. split; [exact Hsf|].
      split; [exact Htr|].
      intros [|j] c0 Hnth; cbn [nth_error] in *.
      * injection Hnth as <-. unfold r0. rewrite Hf.
        rewrite Nat.add_0_r, (Nat.div_small k n) by exact Hlt.
        rewrite Nat.mul_0_r, Nat.add_0_r. reflexivity.
      * rewrite (Hj j c0 Hnth). cbn [s1' host draws self].
        rewrite (animate_amount_stable (anim_config c0) s.(self)
                   (with_animate_count (Z.of_nat k1) (self s)) (host s)
                   (mkWorld (surfaces (host s))
                      (draws (host s) + 2 * ((k + 1) / n)) (trace (host s))
                      (raises (host s)) (global_random (host s))
                      (instance_random (host s))) eq_refl eq_refl).
        assert (E1 : ((k1 + S j) mod n = (k + S (S j)) mod n)%nat).
        { unfold k1. rewrite Nat.Div0.add_mod_idemp_l. f_equal. lia. }
        assert (E2 : (draws (host s) + 2 * ((k + 1) / n) + 2 * ((k1 + j) / n)
                      = draws (host s) + 2 * ((k + S j) / n))%nat).
        { replace (k + S j)%nat with ((k + 1) + j)%nat by lia.
          rewrite (div_split (k + 1) j n) by lia. fold k1. lia. }
        rewrite E1, E2. reflexivity.
Qed.

(** Consecutive calls of [textureAnimate] that all resolve the interval to
    the same whole number [n >= 1], on an object whose counter is at 0 and
    whose source is configured: all of them return; the call number [j + 1]
    repositions the element exactly when [n] divides [j + 1], with the two
    values the source gives at that point scaled by the amount, rounded to
    binary64 and cut to their integer parts; the other calls write nothing
    and draw nothing.
    After the run the counter is the number of calls modulo [n] and two
    values have been drawn per repositioning.  Nothing is traced and no
    surface is touched. *)
Theorem textureAnimate_period (n : nat) (src : source) (cs : list animateCall)
    (s : state) :
  random (self s) = Some src ->
  textureAnimate_frameCount (self s) = 0%Z ->
  (1 <= n)%nat ->
  (forall c, In c cs -> animate_atFrame (anim_config c) == inject_Z (Z.of_nat n)) ->
  exists rs s',
    animate_calls cs s = Ret rs s' /\
    List.length rs = List.length cs /\
    textureAnimate_frameCount (self s') = Z.of_nat (List.length cs mod n) /\
    draws (host s') = (draws (host s) + 2 * (List.length cs / n))%nat /\
    surfaces (host s') = surfaces (host s) /\
    trace (host s') = trace (host s) /\
    forall j c,
      nth_error cs j = Some c ->
      let dj := (draws (host s) + 2 * (j / n))%nat in
      let amt := animate_amount (anim_config c) (self s) (host s) in
      nth_error rs j =
        Some (if (S j mod n =? 0)%nat
              then style_write (anim_element c)
                     (truncZ (fl (src dj * amt))) (truncZ (fl (src (S dj) * amt)))
              else None).
Proof.
  intros Hs Hk Hn Hall.
  destruct (animate_calls_from n src Hn cs 0 s Hs Hk ltac:(lia) Hall)
    as (rs & s' & Hrun & Hlen & Hc & Hd & _ & _ & Hsf & Htr & Hj).
  exists rs, s'. cbn [Nat.add] in *.
  split; [exact Hrun|]. split; [exact Hlen|]. split; [exact Hc|].
  split; [exact Hd|]. split; [exact Hsf|]. split; [exact Htr|]. exact Hj.
Qed.

Lemma textureAnimate_period_witness :
  exists rs s',
    animate_calls five_frames sketch25 = Ret rs s' /\
    nth_error rs 1 = Some None /\
    nth_error rs 2 = Some (Some (BackgroundPosition 50 50)) /\
    nth_error rs 3 = Some None /\
    textureAnimate_frameCount (self s') = 2%Z /\
    draws (host s') = 2%nat.
Proof.
  destruct (textureAnimate_period 3 half five_frames sketch25 eq_refl eq_refl)
    as (rs & s' & Hrun & _ & Hc & Hd & _ & _ & Hj).
  - lia.
  - intros c [<-|[<-|[<-|[<-|[<-|[]]]]]]; reflexivity.
  - exists rs, s'. split; [exact Hrun|].
    split; [exact (Hj 1%nat every_third eq_refl)|].
    split; [exact (Hj 2%nat every_third eq_refl)|].
    split; [exact (Hj 3%nat every_third eq_refl)|].
    split; [exact Hc | exact Hd].
Defined.

(** One call of [textureAnimate] with a configured source whose values lie
    in [0, 1).  When the incremented counter reaches the interval, the call
    takes two values, resets the counter to 0 and writes two integer
    positions that lie between 0 and the amount, on the side of its sign
    (whatever the kind of the element, also when it is of no known kind and
    nothing is written).  Otherwise it only counts the call. *)
Theorem textureAnimate_write (el : element) (config : option animateConfig)
    (src : source) (s : state) :
  random (self s) = Some src ->
  (forall k, 0 <= src k < 1) ->
  let count := (textureAnimate_frameCount (self s) + 1)%Z in
  let amt := animate_amount config (self s) (host s) in
  (animate_atFrame config <= inject_Z count ->
   exists x y s',
     textureAnimate el config s = Ret (style_write el x y) s' /\
     textureAnimate_frameCount (self s') = 0%Z /\
     draws (host s') = S (S (draws (host s))) /\
     (0 <= amt ->
      (0 <= x)%Z /\ inject_Z x <= amt /\ (0 <= y)%Z /\ inject_Z y <= amt) /\
     (amt <= 0 ->
      amt <= inject_Z x /\ (x <= 0)%Z /\ amt <= inject_Z y /\ (y <= 0)%Z)) /\
  (inject_Z count < animate_atFrame config ->
   exists s',
     textureAnimate el config s = Ret None s' /\
     textureAnimate_frameCount (self s') = count /\
     host s' = host s).
Proof.
  intros Hs Hsrc count amt. split; intros Hc.
  - exists (truncZ (fl (src (draws (host s)) * amt))),
           (truncZ (fl (src (S (draws (host s))) * amt))).
    eexists. rewrite (textureAnimate_step el config src s Hs). cbv zeta.
    fold count amt. rewrite (proj2 (geb_le _ _) Hc).
    split; [reflexivity|]. split; [reflexivity|]. split; [reflexivity|].
    destruct (truncZ_product_range (src (draws (host s))) amt (double_ok _) (Hsrc _))
      as (P1 & N1).
    destruct (truncZ_product_range (src (S (draws (host s)))) amt (double_ok _)
                (Hsrc _)) as (P2 & N2).
    split; intros Ha.
    + destruct (P1 Ha), (P2 Ha). auto.
    + destruct (N1 Ha), (N2 Ha). auto.
  - eexists. rewrite (textureAnimate_step el config src s Hs). cbv zeta.
    fold count amt. rewrite (proj2 (geb_lt _ _) Hc).
    split; [reflexivity|]. split; [reflexivity|].
    cbn [host]. now destruct (host s).
Qed.

Lemma half_unit (k : nat) : 0 <= half k < 1.
Proof. unfold half. split; [discriminate | reflexivity]. Qed.

Lemma textureAnimate_write_witness :
  exists x y s',
    textureAnimate SVGElement every_frame sketch25 = Ret (Some (TopLeft (- y) (- x))) s' /\
    (0 <= x)%Z /\ inject_Z x <= 25 /\ (0 <= y)%Z /\ inject_Z y <= 25.
Proof.
  destruct (textureAnimate_write SVGElement every_frame half sketch25 eq_refl
              half_unit) as (A & _).
  destruct A as (x & y & s' & Hrun & _ & _ & Hp & _); [discriminate|].
  exists x, y, s'. split; [exact Hrun|]. apply Hp. discriminate.
Defined.

(** ** Pixel iteration over any total *)

Lemma quarter_times_4 (t : Q) : t == 4 * (t / 4).
Proof. field. Qed.

Lemma passes_spec (total : number) (k : nat) :
  ((k < passes total)%nat -> inject_Z (Z.of_nat (4 * k)) < total) /\
  ((passes total <= k)%nat -> total <= inject_Z (Z.of_nat (4 * k))).
Proof.
  unfold passes. set (q := total / 4).
  assert (Hq : total == 4 * q) by apply quarter_times_4.
  pose proof (Qle_ceiling q) as Hu. pose proof (Qceiling_lt q) as Hl.
  assert (E : inject_Z (Z.of_nat (4 * k)) == 4 * inject_Z (Z.of_nat k)).
  { rewrite Nat2Z.inj_mul, inject_Z_mult. reflexivity. }
  split; intros Hk.
  - assert (Hz : (Z.of_nat k <= Qceiling q - 1)%Z) by lia.
    rewrite Zle_Qle in Hz. rewrite E, Hq. nra.
  - assert (Hz : (Qceiling q <= Z.of_nat k)%Z) by lia.
    rewrite Zle_Qle in Hz. rewrite E, Hq. nra.
Qed.

(** The loop of [tinkerPixels] is the counted loop over [passes total]
    indices. *)
Lemma tinker_loop_passes (cb : callback) (total : number) :
  total <= inject_Z (2 ^ 53) ->
  forall (m k fuel : nat) (s : state),
    (k + m = passes total)%nat -> (m < fuel)%nat ->
    tinker_loop fuel cb 4 total (inject_Z (Z.of_nat (4 * k))) s =
    for_loop (fun j => invoke cb (inject_Z (Z.of_nat (4 * j))) total) k m s.
Proof.
  intros Hbig.
  induction m as [|m IH]; intros k fuel s Hm Hf;
    (destruct fuel as [|fuel]; [lia|]); cbn [tinker_loop for_loop].
  - rewrite (proj2 (ltb_ge _ _)); [reflexivity|].
    apply (proj2 (passes_spec total k)). lia.
  - assert (Hlt : inject_Z (Z.of_nat (4 * k)) < total)
      by (apply (proj1 (passes_spec total k)); lia).
    rewrite (proj2 (ltb_lt _ _)) by exact Hlt.
    apply bind_ext. intros [] s' _.
    assert (Hk : (Z.of_nat (4 * k) < 2 ^ 53)%Z).
    { rewrite Zlt_Qlt. lra. }
    change (2 ^ 53)%Z with 9007199254740992%Z in Hk.
    unfold fadd. change 4 with (inject_Z 4).
    rewrite fl_add_Z by (change (2 ^ 53)%Z with 9007199254740992%Z; lia).
    replace (Z.of_nat (4 * k) + 4)%Z with (Z.of_nat (4 * S k)) by lia.
    apply IH; lia.
Qed.

Lemma tinkerPixels_run (fuel : nat) (cb : callback)
    (shouldUpdate : option bool) (pg : option pgRef) (s : state) :
  let c := resolve pg (self s) in
  let total := total_of (surfaces (host s) c) in
  total <= inject_Z (2 ^ 53) ->
  (passes total < fuel)%nat ->
  tinkerPixels fuel cb shouldUpdate pg s =
    (call (EvLoadPixels c) ;;
     for_loop (fun k => invoke cb (inject_Z (Z.of_nat (4 * k))) total)
       0 (passes total) ;;
     if not_false shouldUpdate then updatePixels pg else ret tt) s.
Proof.
  intros c total Hbig Hfuel.
  unfold tinkerPixels. unfold bind at 1. unfold get_self at 1. cbv beta iota.
  fold c. apply bind_ext. intros [] s1 Hs1.
  unfold bind at 1. unfold get_host at 1. cbv beta iota.
  rewrite (proj1 (call_surfaces _ _ _ Hs1)). fold c.
  apply bind_ext'.
  apply (tinker_loop_passes cb total Hbig (passes total) 0 fuel s1);
    [reflexivity | exact Hfuel].
Qed.

(** [tinkerPixels] on a target of any width, height and density, whole
    numbers or not: with [total = 4 * (width * density) * (height * density)],
    each product being rounded to binary64 and none overflowing, at most
    [2^53], and enough fuel,
    the callback is invoked [ceil(total / 4)] times (not at all when
    [total <= 0]), the k-th time with [(4k, total)]; the pixels are loaded
    before and committed after unless [shouldUpdate] is [false].  The last
    index is below [total] and less than 4 below it, so that when [total] is
    no multiple of 4 the last index plus 4 exceeds [total]. *)
Theorem tinkerPixels_any_total (fuel : nat) (cb : callback)
    (shouldUpdate : option bool) (pg : option pgRef) (s : state) :
  let c := resolve pg (self s) in
  let sf := surfaces (host s) c in
  let total := total_of sf in
  let n := passes total in
  no_overflow (s_width sf * s_density sf) ->
  no_overflow (s_height sf * s_density sf) ->
  total <= inject_Z (2 ^ 53) ->
  (n < fuel)%nat ->
  tinkerPixels fuel cb shouldUpdate pg s =
    (call (EvLoadPixels c) ;;
     for_loop (fun k => invoke cb (inject_Z (Z.of_nat (4 * k))) total) 0 n ;;
     if not_false shouldUpdate then updatePixels pg else ret tt) s /\
  (total <= 0 -> n = 0%nat) /\
  (0 < total ->
   (0 < n)%nat /\
   inject_Z (Z.of_nat (4 * (n - 1))) < total /\
   total <= inject_Z (Z.of_nat (4 * (n - 1))) + 4).
Proof.
  intros c sf total n _ _ Hbig Hfuel.
  split; [now apply tinkerPixels_run|]. split.
  - intros Ht. destruct n as [|m] eqn:En; [reflexivity|]. exfalso.
    pose proof (proj1 (passes_spec total 0)) as H. fold n in H. rewrite En in H.
    specialize (H ltac:(lia)). change (inject_Z (Z.of_nat (4 * 0))) with 0 in H.
    now apply (Qlt_not_le _ _ H).
  - intros Ht.
    assert (Hn : (0 < n)%nat).
    { destruct (Nat.eq_dec n 0) as [E|E]; [|lia]. exfalso.
      pose proof (proj2 (passes_spec total 0)) as H. fold n in H.
      specialize (H ltac:(lia)). change (inject_Z (Z.of_nat (4 * 0))) with 0 in H.
      now apply (Qlt_not_le _ _ Ht). }
    split; [exact Hn|]. split.
    + apply (proj1 (passes_spec total (n - 1))). fold n. lia.
    + pose proof (proj2 (passes_spec total n)) as H. fold n in H.
      specialize (H (le_n _)).
      replace (4 * n)%nat with (4 * (n - 1) + 4)%nat in H by lia.
      rewrite Nat2Z.inj_add, inject_Z_plus in H. exact H.
Qed.

Lemma tinkerPixels_any_total_witness :
  let c := resolve None (self dense_canvas) in
  let total := total_of (surfaces (host dense_canvas) c) in
  total == 81 /\ passes total = 21%nat /\
  tinkerPixels 22 paint_red (Some false) None dense_canvas =
    (call (EvLoadPixels c) ;;
     for_loop (fun k => invoke paint_red (inject_Z (Z.of_nat (4 * k))) total)
       0 (passes total) ;;
     if not_false (Some false) then updatePixels None else ret tt) dense_canvas.
Proof.
  intros c total.
  split; [vm_compute; reflexivity|]. split; [vm_compute; reflexivity|].
  apply (tinkerPixels_any_total 22 paint_red (Some false) None dense_canvas).
  - split; vm_compute; discriminate.
  - split; vm_compute; discriminate.
  - vm_compute. discriminate.
  - apply Nat.ltb_lt. vm_compute. reflexivity.
Defined.

(** On a 10x10 canvas at the density 1.1 the product [10 * 1.1] is rounded
    to 11: the total is 484 and the callback is invoked 121 times. *)
Lemma tinkerPixels_density_1_1 :
  let total := total_of (surfaces (host canvas_1_1) OnGlobal) in
  total = 484 /\ passes total = 121%nat /\
  tinkerPixels 122 idle (Some false) None canvas_1_1 =
    (call (EvLoadPixels OnGlobal) ;;
     for_loop (fun k => invoke idle (inject_Z (Z.of_nat (4 * k))) 484) 0 121 ;;
     ret tt) canvas_1_1.
Proof.
  assert (Et : total_of (surfaces (host canvas_1_1) OnGlobal) = 484)
    by (vm_compute; reflexivity).
  assert (Ep : passes 484 = 121%nat) by (vm_compute; reflexivity).
  cbv zeta. rewrite Et. split; [reflexivity | ]. split; [exact Ep | ].
  rewrite (tinkerPixels_run 122 idle (Some false) None canvas_1_1).
  - change (resolve None (self canvas_1_1)) with OnGlobal. rewrite Et, Ep.
    reflexivity.
  - change (resolve None (self canvas_1_1)) with OnGlobal. rewrite Et.
    vm_compute. discriminate.
  - change (resolve None (self canvas_1_1)) with OnGlobal. rewrite Et, Ep. lia.
Qed.

(** ** The registered [loopPixels] *)

(** The [loopPixels] registered on [p5.Graphics] and on [p5.Image] hands its
    receiver to a method that has no parameter for it, and its second
    argument to the parameter [pg].  Called as [buffer.loopPixels(callback)]
    it therefore loads and walks the main canvas (or the instance), with the
    total of that canvas (at most [2^53], its products not overflowing),
    whatever the receiver is; called
    with [true] as second argument it raises a [TypeError] before anything
    is loaded, and so does the [loopPixels] registered on [p5]; a surface
    passed as second argument is the one walked.  The registered [tinkerPixels] does walk its
    receiver. *)
Theorem registered_loopPixels (this : pgRef) (fuel : nat) (cb : callback)
    (s : state) :
  let main := resolve None (self s) in
  let sf := surfaces (host s) main in
  let total := total_of sf in
  no_overflow (s_width sf * s_density sf) ->
  no_overflow (s_height sf * s_density sf) ->
  total <= inject_Z (2 ^ 53) ->
  (passes total < fuel)%nat ->
  pg_loopPixels this fuel cb js_undefined s =
    (call (EvLoadPixels main) ;;
     for_loop (fun k => invoke cb (inject_Z (Z.of_nat (4 * k))) total)
       0 (passes total)) s /\
  pg_loopPixels this fuel cb js_undefined s = p5_loopPixels fuel cb js_undefined s /\
  pg_loopPixels this fuel cb (js_boolean false) s =
    pg_loopPixels this fuel cb js_undefined s /\
  pg_loopPixels this fuel cb (js_boolean true) s = Throw TypeError s /\
  p5_loopPixels fuel cb (js_boolean true) s = Throw TypeError s /\
  (forall q, pg_loopPixels this fuel cb (js_object q) s = loopPixels fuel cb (Some q) s) /\
  (forall su, pg_tinkerPixels this fuel cb su s = tinkerPixels fuel cb su (Some this) s).
Proof.
  intros main sf total _ _ Hbig Hfuel.
  split; [|now repeat split].
  unfold pg_loopPixels, loopPixels_value, as_pg, bind at 1, ret at 1, loopPixels.
  rewrite (tinkerPixels_run fuel cb (Some false) None s Hbig Hfuel).
  fold main sf total. apply bind_ext. intros [] s1 _.
  cbn [not_false]. unfold bind.
  destruct (for_loop _ 0 (passes total) s1) as [[] s2|e s2|]; reflexivity.
Qed.

Lemma registered_loopPixels_witness :
  exists s',
    pg_loopPixels (Graphics 0) 5 paint_red js_undefined with_buffer = Ret tt s' /\
    trace (host s') =
      [EvLoadPixels OnGlobal;
       EvCallback 0 16; EvCallback 4 16; EvCallback 8 16; EvCallback 12 16].
Proof.
  destruct (registered_loopPixels (Graphics 0) 5 paint_red with_buffer) as (H & _).
  - split; vm_compute; discriminate.
  - split; vm_compute; discriminate.
  - vm_compute. discriminate.
  - apply Nat.ltb_lt. vm_compute. reflexivity.
  - set (s' := state_after (pg_loopPixels (Graphics 0) 5 paint_red js_undefined)
                 with_buffer).
    assert (E : pg_loopPixels (Graphics 0) 5 paint_red js_undefined with_buffer
                = Ret tt s') by (vm_compute; reflexivity).
    exists s'. split; [exact E|]. vm_compute. reflexivity.
Defined.

(** ** Texture overlay: the grid of tiles *)

Lemma tile_count_spec (x edge size : number) :
  0 < size ->
  let n := tile_count x edge size in
  (edge <= x -> n = 0%nat) /\
  (x < edge ->
   (1 <= n)%nat /\
   x + inject_Z (Z.of_nat (n - 1)) * size < edge /\
   edge <= x + inject_Z (Z.of_nat n) * size).
Proof.
  intros Hs n. unfold tile_count in n. set (q := (edge - x) / size) in *.
  assert (Hq : q * size == edge - x).
  { unfold q. field. intros E. rewrite E in Hs. revert Hs. apply Qlt_irrefl. }
  pose proof (Qle_ceiling q) as Hu. pose proof (Qceiling_lt q) as Hl.
  split; intros Hx.
  - assert (Hq0 : q <= 0) by nra.
    apply Qceiling_resp_le in Hq0. change (Qceiling 0) with 0%Z in Hq0.
    unfold n. lia.
  - assert (Hq0 : 0 < q) by nra.
    assert (Hc : (1 <= Qceiling q)%Z).
    { destruct (Z.le_gt_cases 1 (Qceiling q)) as [H|H]; [exact H|].
      exfalso. assert (H' : (Qceiling q <= 0)%Z) by lia.
      rewrite Zle_Qle in H'. change (inject_Z 0) with 0 in H'.
      apply (Qlt_not_le _ _ Hq0). now apply Qle_trans with (inject_Z (Qceiling q)). }
    split; [unfold n; lia|].
    assert (E1 : Z.of_nat (n - 1) = (Qceiling q - 1)%Z) by (unfold n; lia).
    assert (E2 : Z.of_nat n = Qceiling q) by (unfold n; lia).
    rewrite E1, E2. split; nra.
Qed.

Section GridLoop.

Variable dr : receiver.
Variable tex : texture.
Variable reflect : bool.
Variables W H tW tH : number.

Lemma draw_tile_emit (c : cursor) (l : list event) (s : state) :
  quiet s ->
  draw_tile dr tex reflect tW tH c (emit l s) =
  Ret tt (emit (l ++ tile_events dr tex reflect tW tH c) s).
Proof.
  intros Hq. unfold draw_tile, tile_events.
  destruct reflect, (tRowFirst c), (tColFirst c); unfold bind;
    repeat (rewrite (call_emit _ _ _ Hq); cbv beta iota);
    cbn [app]; rewrite <- ?app_assoc; reflexivity.
Qed.

(** Tiles whose width and height are whole numbers between 1 and [2^52],
    on a target at most [2^52] wide and high: the positions are whole
    numbers and every sum is exact. *)
Variables a b : Z.
Hypothesis HtW : tW = inject_Z a.
Hypothesis HtH : tH = inject_Z b.
Hypothesis Ha : (1 <= a <= 2 ^ 52)%Z.
Hypothesis Hb : (1 <= b <= 2 ^ 52)%Z.
Hypothesis HW : W <= inject_Z (2 ^ 52).
Hypothesis HH : H <= inject_Z (2 ^ 52).

Lemma fadd_tile (z d : Z) (v size edge : number) :
  v = inject_Z z -> size = inject_Z d -> (- 2 ^ 52 <= z)%Z -> (1 <= d <= 2 ^ 52)%Z ->
  v < edge -> edge <= inject_Z (2 ^ 52) ->
  fadd v size = inject_Z (z + d) /\ fadd v size == v + size.
Proof.
  intros -> -> Hz Hd Hlt Hedge.
  assert (Hz2 : (z < 2 ^ 52)%Z) by (rewrite Zlt_Qlt; lra).
  assert (E : fadd (inject_Z z) (inject_Z d) = inject_Z (z + d)).
  { unfold fadd. apply fl_add_Z. lia. }
  split; [exact E | ]. rewrite E, inject_Z_plus. reflexivity.
Qed.

(** A row of [n >= 1] tiles: the first [n - 1] stay left of the right edge,
    the n-th reaches it. *)
Lemma inner_while_row (s : state) :
  quiet s ->
  forall (n fuel : nat) (c : cursor) (l : list event) (z : Z),
    (S n <= fuel)%nat ->
    tX c = inject_Z z -> (- 2 ^ 52 <= z)%Z ->
    tX c + inject_Z (Z.of_nat n) * tW < W ->
    W <= tX c + inject_Z (Z.of_nat (S n)) * tW ->
    inner_while dr tex reflect W tW tH fuel c (emit l s) =
    Ret (mkCursor (inject_Z (textureOverlay_tX (self s))) (fadd (tY c) tH)
           (tRowFirst c) true)
      (emit (l ++ row_events dr tex reflect tW tH (S n) c) s).
Proof.
  intros Hq.
  assert (HtW0 : 0 < tW).
  { rewrite HtW. change 0 with (inject_Z 0). rewrite <- Zlt_Qlt. lia. }
  induction n as [|n IH]; intros fuel c l z Hf Hz Hzlo Hlo Hhi;
    (destruct fuel as [|fuel]; [lia|]); cbn [inner_while row_events].
  - change (inject_Z (Z.of_nat 0)) with 0 in Hlo.
    change (inject_Z (Z.of_nat 1)) with 1 in Hhi.
    assert (Hx : tX c < W) by lra.
    destruct (fadd_tile z a (tX c) tW W Hz HtW Hzlo Ha Hx HW) as [_ Ef].
    rewrite (proj2 (ltb_lt _ _) Hx). unfold bind at 1.
    rewrite (draw_tile_emit c l s Hq).
    assert (Hx' : W <= fadd (tX c) tW) by (rewrite Ef; lra).
    rewrite (proj2 (geb_le _ _) Hx'). unfold bind, get_self, ret.
    cbn [self emit]. now rewrite app_nil_r.
  - rewrite Nat2Z.inj_succ, <- Z.add_1_r, inject_Z_plus in Hlo.
    change (inject_Z 1) with 1 in Hlo.
    assert (Hn0 : 0 <= inject_Z (Z.of_nat n)).
    { change 0 with (inject_Z 0). rewrite <- Zle_Qle. lia. }
    assert (Hn1 : 0 <= inject_Z (Z.of_nat n) * tW).
    { apply Qmult_le_0_compat; lra. }
    assert (Hx : tX c < W) by lra.
    destruct (fadd_tile z a (tX c) tW W Hz HtW Hzlo Ha Hx HW) as [Ez Ef].
    rewrite (proj2 (ltb_lt _ _) Hx). unfold bind at 1.
    rewrite (draw_tile_emit c l s Hq).
    assert (Hx' : fadd (tX c) tW < W) by (rewrite Ef; lra).
    rewrite (proj2 (geb_lt _ _) Hx').
    rewrite (IH fuel _ _ (z + a)%Z); cbn [tX tY tRowFirst tColFirst].
    + cbn [row_events]. unfold fadd. now rewrite <- !app_assoc.
    + lia.
    + exact Ez.
    + lia.
    + rewrite Ef. lra.
    + rewrite Nat2Z.inj_succ, <- Z.add_1_r, inject_Z_plus in Hhi.
      change (inject_Z 1) with 1 in Hhi. rewrite Ef. lra.
Qed.

(** [m] rows of [S n] tiles. *)
Lemma outer_while_grid (s : state) (n : nat) :
  quiet s ->
  let x0 := inject_Z (textureOverlay_tX (self s)) in
  (- 2 ^ 52 <= textureOverlay_tX (self s))%Z ->
  x0 + inject_Z (Z.of_nat n) * tW < W ->
  W <= x0 + inject_Z (Z.of_nat (S n)) * tW ->
  forall (m fuel : nat) (c : cursor) (l : list event) (y : Z),
    (m + S n <= fuel)%nat ->
    tX c = x0 ->
    tY c = inject_Z y -> (- 2 ^ 52 <= y)%Z ->
    (m = 0%nat -> H <= tY c) ->
    (forall m', m = S m' ->
       tY c + inject_Z (Z.of_nat m') * tH < H /\
       H <= tY c + inject_Z (Z.of_nat m) * tH) ->
    exists c',
      outer_while dr tex reflect W H tW tH fuel c (emit l s) =
      Ret c' (emit (l ++ grid_events dr tex reflect tW tH x0 (S n) m c) s).
Proof.
  intros Hq x0 Hx0 Hlo Hhi.
  assert (HtH0 : 0 < tH).
  { rewrite HtH. change 0 with (inject_Z 0). rewrite <- Zlt_Qlt. lia. }
  induction m as [|m IH]; intros fuel c l y Hf Hx Hy Hylo H0 HS;
    (destruct fuel as [|fuel]; [lia|]); cbn [outer_while grid_events].
  - rewrite (proj2 (ltb_ge _ _) (H0 eq_refl)). exists c.
    unfold ret. now rewrite app_nil_r.
  - destruct (HS m eq_refl) as (Ylo & Yhi).
    assert (Hm0 : 0 <= inject_Z (Z.of_nat m)).
    { change 0 with (inject_Z 0). rewrite <- Zle_Qle. lia. }
    assert (Hm1 : 0 <= inject_Z (Z.of_nat m) * tH).
    { apply Qmult_le_0_compat; lra. }
    assert (Hyc : tY c < H) by lra.
    destruct (fadd_tile y b (tY c) tH H Hy HtH Hylo Hb Hyc HH) as [Ez Ef].
    rewrite (proj2 (ltb_lt _ _) Hyc). unfold bind at 1.
    rewrite (inner_while_row s Hq n fuel c l (textureOverlay_tX (self s)));
      [|lia | exact Hx | exact Hx0 | rewrite Hx; exact Hlo | rewrite Hx; exact Hhi].
    cbn [tX tY tRowFirst tColFirst]. fold x0.
    destruct (IH fuel (mkCursor x0 (fadd (tY c) tH) (negb (tRowFirst c)) true)
                (l ++ row_events dr tex reflect tW tH (S n) c) (y + b)%Z)
      as (c' & Hrun).
    + lia.
    + reflexivity.
    + exact Ez.
    + lia.
    + intros ->. cbn [tY]. change (inject_Z (Z.of_nat 1)) with 1 in Yhi.
      rewrite Ef. lra.
    + intros m' ->. cbn [tY].
      rewrite Nat2Z.inj_succ, <- Z.add_1_r, inject_Z_plus in Ylo.
      change (inject_Z 1) with 1 in Ylo.
      rewrite (Nat2Z.inj_succ (S m')), <- Z.add_1_r, inject_Z_plus in Yhi.
      change (inject_Z 1) with 1 in Yhi.
      rewrite Ef. split; lra.
    + exists c'. rewrite Hrun. unfold fadd. now rewrite <- !app_assoc.
Qed.

Lemma images_tile (c : cursor) :
  List.length (images (tile_events dr tex reflect tW tH c)) = 1%nat.
Proof.
  unfold tile_events. now destruct reflect, (tRowFirst c), (tColFirst c).
Qed.

Lemma images_row (n : nat) :
  forall c, List.length (images (row_events dr tex reflect tW tH n c)) = n.
Proof.
  induction n as [|n IH]; intros c; cbn [row_events]; [reflexivity|].
  unfold images in *. rewrite filter_app, length_app.
  rewrite IH. pose proof (images_tile c) as Ht. unfold images in Ht.
  rewrite Ht. reflexivity.
Qed.

Lemma images_grid (x0 : number) (cols rows : nat) :
  forall c,
    List.length (images (grid_events dr tex reflect tW tH x0 cols rows c))
    = (rows * cols)%nat.
Proof.
  induction rows as [|rows IH]; intros c; cbn [grid_events]; [reflexivity|].
  unfold images in *. rewrite filter_app, length_app, IH.
  pose proof (images_row cols c) as Hr. unfold images in Hr. rewrite Hr.
  reflexivity.
Qed.

End GridLoop.

(** The drawing phase of [textureOverlay] in general.  Take a call whose
    animation block has returned with the stored offsets [x0], [y0] (not
    below [-2^52]), on a host where nothing raises, with tiles whose width
    and height are whole numbers between 1 and [2^52], a target at most
    [2^52] wide and high, and [x0] left of the right edge of the target.
    Let [cols] and [rows] be the numbers of tiles it takes to reach the
    right edge from [x0] and the bottom edge from [y0].  With [rows + cols]
    units of fuel the call returns; between setting the blend mode and
    resetting it to [BLEND] it has issued the host calls of [rows] rows of
    [cols] tiles, row after row from [(x0, y0)], each tile one tile width
    right of the previous one and each row one tile height lower; so it
    draws [rows * cols] images, and the grid reaches the right and the
    bottom edge.  With reflection every tile is wrapped in a push and a pop,
    and mirrored horizontally in every second column and vertically in every
    second row. *)
Theorem textureOverlay_grid (fuel : nat) (tex : texture)
    (config : option overlayConfig) (pg : option pgRef) (s s1 : state)
    (a b : Z) :
  quiet s ->
  let W := overlay_width pg s in
  let H := overlay_height pg s in
  let tW := overlay_tW tex config in
  let tH := overlay_tH tex config in
  overlay_animate (animate_enabled config) (animateAtFrame config)
    (animateAmount config W H) s = Ret tt s1 ->
  let x0 := inject_Z (textureOverlay_tX (self s1)) in
  let y0 := inject_Z (textureOverlay_tY (self s1)) in
  tW = inject_Z a -> tH = inject_Z b ->
  (1 <= a <= 2 ^ 52)%Z -> (1 <= b <= 2 ^ 52)%Z ->
  W <= inject_Z (2 ^ 52) -> H <= inject_Z (2 ^ 52) ->
  (- 2 ^ 52 <= textureOverlay_tX (self s1))%Z ->
  (- 2 ^ 52 <= textureOverlay_tY (self s1))%Z ->
  x0 < W ->
  let cols := tile_count x0 W tW in
  let rows := tile_count y0 H tH in
  (rows + cols <= fuel)%nat ->
  let dr := overlay_target pg (self s) in
  let c := resolve pg (self s) in
  let grid := grid_events dr tex (overlay_reflect config) tW tH x0 cols rows
                (mkCursor x0 y0 true true) in
  exists s',
    textureOverlay fuel tex config pg s = Ret tt s' /\
    self s' = self s1 /\
    trace (host s') =
      trace (host s) ++ [EvBlendMode c (overlay_mode config)] ++ grid
        ++ [EvBlendMode c BLEND]
        ++ (if isGraphicsBuffer pg then [EvReset c] else []) /\
    List.length (images (trace (host s'))) =
      (List.length (images (trace (host s))) + rows * cols)%nat /\
    (1 <= cols)%nat /\
    W <= x0 + inject_Z (Z.of_nat cols) * tW /\
    H <= y0 + inject_Z (Z.of_nat rows) * tH.
Proof.
  intros Hq W H tW tH Ha x0 y0 EtW EtH Hab Hbb HWb HHb Hxlo Hylo Hx
    cols rows Hfuel dr c grid.
  assert (HtW : 0 < tW).
  { rewrite EtW. change 0 with (inject_Z 0). rewrite <- Zlt_Qlt. lia. }
  assert (HtH : 0 < tH).
  { rewrite EtH. change 0 with (inject_Z 0). rewrite <- Zlt_Qlt. lia. }
  pose proof (overlay_animate_any (animate_enabled config) (animateAtFrame config)
                (animateAmount config W H) s) as Hany.
  rewrite Ha in Hany. destruct Hany as (_ & Hi & _ & _ & Htr & Hr).
  assert (Hq1 : quiet s1) by (intros t e; rewrite Hr; apply Hq).
  assert (Hdr : overlay_target pg (self s1) = dr).
  { unfold dr, overlay_target, resolve, instance_truthy. now rewrite Hi. }
  assert (Hc : resolve pg (self s1) = c).
  { unfold c, resolve, instance_truthy. now rewrite Hi. }
  destruct (tile_count_spec x0 W tW HtW) as (_ & Hcols). fold cols in Hcols.
  destruct (Hcols Hx) as (Hc1 & Hclo & Hchi).
  destruct (tile_count_spec y0 H tH HtH) as (Hr0 & Hrows). fold rows in Hr0, Hrows.
  assert (Hrow0 : rows = 0%nat -> H <= y0).
  { intros E. destruct (Qlt_le_dec y0 H) as [Hy|Hy]; [|exact Hy].
    destruct (Hrows Hy) as (Hr1 & _). lia. }
  assert (HrowS : forall m', rows = S m' ->
            y0 + inject_Z (Z.of_nat m') * tH < H /\
            H <= y0 + inject_Z (Z.of_nat rows) * tH).
  { intros m' E. destruct (Qlt_le_dec y0 H) as [Hy|Hy].
    - destruct (Hrows Hy) as (_ & A & B). rewrite E in A.
      replace (S m' - 1)%nat with m' in A by lia. now split.
    - rewrite (Hr0 Hy) in E. discriminate. }
  assert (Hbottom : H <= y0 + inject_Z (Z.of_nat rows) * tH).
  { destruct rows as [|m'] eqn:E.
    - change (inject_Z (Z.of_nat 0)) with 0. specialize (Hrow0 eq_refl). lra.
    - now destruct (HrowS m' eq_refl). }
  set (final := [EvBlendMode c (overlay_mode config)] ++ grid
                  ++ [EvBlendMode c BLEND]
                  ++ (if isGraphicsBuffer pg then [EvReset c] else [])).
  assert (Hrun : textureOverlay fuel tex config pg s = Ret tt (emit final s1)).
  { rewrite textureOverlay_eq. fold W H. unfold bind at 1. rewrite Ha. cbv beta iota.
    rewrite overlay_draw_eq. fold tW tH x0 y0. rewrite Hdr, Hc.
    rewrite <- (emit_nil s1) at 1.
    unfold bind at 1. rewrite (call_emit _ _ _ Hq1). cbn [app].
    unfold bind at 1.
    destruct cols as [|n] eqn:Ecols; [lia|].
    replace (S n - 1)%nat with n in Hclo by lia.
    destruct (outer_while_grid dr tex (overlay_reflect config) W H tW tH a b
                EtW EtH Hab Hbb HWb HHb s1 n
                Hq1 Hxlo Hclo Hchi rows fuel (mkCursor x0 y0 true true)
                [EvBlendMode c (overlay_mode config)] (textureOverlay_tY (self s1)))
      as (c' & Hloop);
      [lia | reflexivity | reflexivity | exact Hylo | exact Hrow0 | exact HrowS |].
    rewrite Hloop. cbv beta iota.
    unfold bind at 1. rewrite (call_emit _ _ _ Hq1).
    unfold final, grid. destruct (isGraphicsBuffer pg).
    - rewrite (call_emit _ _ _ Hq1). rewrite <- !app_assoc. reflexivity.
    - unfold ret. rewrite <- !app_assoc. reflexivity. }
  exists (emit final s1). split; [exact Hrun|]. split; [reflexivity|].
  split; [cbn [emit host trace]; now rewrite Htr|].
  split.
  - cbn [emit host trace]. rewrite Htr. unfold images, final.
    rewrite !filter_app, !length_app.
    pose proof (images_grid dr tex (overlay_reflect config) tW tH x0 cols rows
                  (mkCursor x0 y0 true true)) as Hg.
    unfold images in Hg. fold grid in Hg. rewrite Hg.
    destruct (isGraphicsBuffer pg); cbn [filter is_image List.length]; lia.
  - split; [exact Hc1|]. split; [exact Hchi | exact Hbottom].
Qed.

Lemma textureOverlay_grid_witness :
  exists s',
    textureOverlay 7 texture10 texture_7_9 None sketch25 = Ret tt s' /\
    List.length (images (trace (host s'))) = 12%nat /\
    firstn 5 (trace (host s')) =
      [EvBlendMode OnGlobal MULTIPLY;
       EvPush OnGlobal; EvImage OnGlobal texture10 0 0 7 9; EvPop OnGlobal;
       EvPush OnGlobal].
Proof.
  assert (Hq : quiet sketch25) by (intros t e; reflexivity).
  destruct (textureOverlay_grid 7 texture10 texture_7_9 None sketch25 sketch25 7 9
              Hq eq_refl eq_refl eq_refl)
    as (s' & Hrun & _ & Htr & Hlen & _).
  - split; vm_compute; discriminate.
  - split; vm_compute; discriminate.
  - vm_compute. discriminate.
  - vm_compute. discriminate.
  - vm_compute. discriminate.
  - vm_compute. discriminate.
  - reflexivity.
  - apply Nat.leb_le. vm_compute. reflexivity.
  - exists s'. split; [exact Hrun|]. split; [exact Hlen|].
    rewrite Htr. vm_compute. reflexivity.
Defined.

(** Whole-number tiles are needed for this count.  With tiles of width 3.3
    on a target 33 wide, ten tiles reach the right edge, the tenth sum being
    rounded up to 33, although [ceil(33 / 3.3)], computed exactly from the
    number of the format nearest to 3.3, is 11. *)
Lemma rounded_row_of_ten :
  tile_count 0 33 (overlay_tW texture10 tiles_3_3) = 11%nat /\
  exists s',
    textureOverlay 12 texture10 tiles_3_3 None sketch33 = Ret tt s' /\
    List.length (images (trace (host s'))) = 10%nat.
Proof.
  split; [vm_compute; reflexivity | ].
  exists (state_after (textureOverlay 12 texture10 tiles_3_3 None) sketch33).
  split; vm_compute; reflexivity.
Qed.

(** ** The example sketch *)

(** The sketch [04-chromatic-grain-on-image], on a host where nothing raises
    and p5's [random] returns values in [0,1): it returns; [setup()] without
    arguments has installed p5's global [random] in float mode; the pixels of
    the image are loaded and committed once and the image is then drawn on
    the canvas; three values are drawn per pixel; the red, green and blue
    channel of every pixel of the image have each moved by an integer between
    -42 and 42, both included (then clamped), while alpha is kept; no other
    surface, the canvas included, has changed. *)
Theorem sketch_04_grain (img : nat) (w : world) :
  (forall t e, raises w t e = false) ->
  (forall k, 0 <= global_random w k < 1) ->
  let c := OnPg (Image img) in
  let px := s_pixels (surfaces w c) in
  let picture := mkTexture img (s_width (surfaces w c)) (s_height (surfaces w c)) in
  exists s',
    sketch_04 img (mkState fields_init w) = Ret tt s' /\
    random (self s') = Some (global_random w) /\
    randomMinMax (self s') = Some randomFloat_method /\
    trace (host s') =
      trace w ++ [EvLoadPixels c; EvUpdatePixels c;
                  EvImage OnGlobal picture 0 0
                    (s_width (surfaces w OnGlobal)) (s_height (surfaces w OnGlobal))] /\
    draws (host s') = (draws w + 3 * List.length px)%nat /\
    (forall c', c' <> c -> surfaces (host s') c' = surfaces w c') /\
    List.length (pixels_of c s') = List.length px /\
    forall i, (i < List.length px)%nat ->
      exists kr kg kb : Z,
        (-42 <= kr <= 42)%Z /\ (-42 <= kg <= 42)%Z /\ (-42 <= kb <= 42)%Z /\
        moved_by false kr kg kb 0 (nth i px 0%Z) (nth i (pixels_of c s') 0%Z).
Proof.
  intros Hq Hsrc c px picture.
  set (o1 := with_random (global_random w)
               (with_randomMode 0 randomFloat_method fields_init)).
  set (s1 := mkState o1 w).
  assert (Hboot : (constructor ;; setup None) (mkState fields_init w) = Ret tt s1)
    by reflexivity.
  assert (Hc1 : mode_consistent (self s1)) by (left; split; reflexivity).
  destruct (chromatic_run s1 42 None (Some (Image img)) (global_random w)
              randomFloat_method eq_refl eq_refl (Hq _ _) (Hq _ _))
    as (s2 & Hrun & Ho & Hd & Ht & Hpx & Hother).
  cbv zeta in Hpx. cbn [to_bool] in Hd, Hpx.
  change (resolve (Some (Image img)) (self s1)) with c in *.
  change (pixels_of c s1) with px in *.
  assert (Hsurf : surfaces (host s2) OnGlobal = surfaces w OnGlobal)
    by (apply Hother; discriminate).
  assert (Hdims : s_width (surfaces (host s2) c) = s_width (surfaces w c) /\
                  s_height (surfaces (host s2) c) = s_height (surfaces w c)).
  { pose proof (grain_touches
                  (fun min max => chromatic_body min max (to_bool None))
                  42 (Some (Image img)) s1
                  (fun c0 min max i s0 Hp =>
                     chromatic_body_touches c0 min max (to_bool None) i s0 Hp)) as T.
    change (finished (touches_only c s1)
              (applyChromaticGrain 42 None (Some (Image img)) s1)) in T.
    rewrite Hrun in T. destruct T as (_ & _ & _ & Tw & Th & _). now split. }
  destruct Hdims as (Hw2 & Hh2).
  assert (Hq2 : raises (host s2) = raises w).
  { pose proof (grain_touches
                  (fun min max => chromatic_body min max (to_bool None))
                  42 (Some (Image img)) s1
                  (fun c0 min max i s0 Hp =>
                     chromatic_body_touches c0 min max (to_bool None) i s0 Hp)) as T.
    change (finished (touches_only c s1)
              (applyChromaticGrain 42 None (Some (Image img)) s1)) in T.
    rewrite Hrun in T. destruct T as (_ & _ & _ & _ & _ & _ & _ & Tr & _). exact Tr. }
  set (ev := EvImage OnGlobal picture 0 0
               (s_width (surfaces w OnGlobal)) (s_height (surfaces w OnGlobal))).
  exists (emit [ev] s2).
  split.
  { unfold sketch_04, sketch_setup. rewrite <- bind_assoc.
    unfold bind at 1. rewrite Hboot. cbv beta iota.
    unfold bind at 1. unfold pg_applyChromaticGrain. rewrite Hrun. cbv beta iota.
    unfold bind at 1, get_host at 1. cbv beta iota.
    unfold c in Hw2, Hh2. rewrite Hsurf, Hw2, Hh2. fold c picture ev.
    unfold call, emit. rewrite Hq2, Hq. reflexivity. }
  cbn [emit self host trace draws surfaces]. rewrite Ho.
  split; [reflexivity|]. split; [reflexivity|].
  split; [rewrite Ht; cbn [s1 host]; rewrite <- app_assoc; reflexivity|].
  split; [rewrite Hd; reflexivity|].
  split; [exact Hother|].
  change (pixels_of c (emit [ev] s2)) with (pixels_of c s2).
  rewrite Hpx. split; [apply mapi_from_length|].
  intros i Hi. rewrite mapi_from_nth by exact Hi.
  assert (Hch : forall r v, is_double r = true -> 0 <= r < 1 -> (0 <= v <= 255)%Z ->
            exists k : Z, (-42 <= k <= 42)%Z /\
              shifted v (draw_value randomFloat_method
                           (fst (bounds_in (randomMode (self s1)) (- 42)%Q 42%Q))
                           (snd (bounds_in (randomMode (self s1)) (- 42)%Q 42%Q)) r)
              = clampZ (v + k)).
  { intros r v Hdr Hr Hv.
    destruct (offset_channel (self s1) randomFloat_method 42 r v Hc1 eq_refl eq_refl
                ltac:(discriminate) ltac:(vm_compute; discriminate) Hdr Hr Hv)
      as (k & Hk & E).
    exists k. split; [exact Hk | exact E]. }
  match goal with
  | |- context [chromatic_word ?u ?a ?b ?c0 ?d0 ?x] =>
      destruct (chromatic_word_moved (fun k => (-42 <= k <= 42)%Z) u a b c0 d0 x)
        as (kr & kg & kb & ka & Rr & Rg & Rb & _ & Hmv)
  end.
  { intros v d Hin Hv. cbn in Hin.
    destruct Hin as [<- | [<- | [<- | [<- | []]]]];
      (apply Hch; [apply double_ok | apply Hsrc | exact Hv]). }
  exists kr, kg, kb.
  split; [exact Rr | ]. split; [exact Rg | ]. split; [exact Rb | ].
  destruct Hmv as (B0 & B8 & B16 & B24).
  unfold moved_by. split; [exact B0|]. split; [exact B8|].
  split; [exact B16 | exact B24].
Qed.

Lemma sketch_04_grain_witness :
  exists s',
    sketch_04 0 (mkState fields_init (quiet_world (one_pixel 100 100 100 255) half))
      = Ret tt s' /\
    draws (host s') = 3%nat /\
    byte_at 24 (nth 0 (pixels_of (OnPg (Image 0)) s') 0%Z) = 255%Z.
Proof.
  destruct (sketch_04_grain 0 (quiet_world (one_pixel 100 100 100 255) half))
    as (s' & Hrun & _ & _ & _ & Hd & _ & _ & Hpix).
  - intros t e. reflexivity.
  - apply half_unit.
  - exists s'. split; [exact Hrun|]. split; [exact Hd|].
    destruct (Hpix 0%nat) as (kr & kg & kb & _ & _ & _ & Hmv); [cbn; lia|].
    destruct Hmv as (_ & _ & _ & B24). rewrite B24. reflexivity.
Defined.

(** * The build script *)

Lemma prefix_app_same (p r : string) : String.prefix p (p ++ r) = true.
Proof.
  induction p as [|a p IH]; cbn [String.prefix String.append].
  - now destruct r.
  - destruct (Ascii.ascii_dec a a) as [_|N]; [exact IH | congruence].
Qed.

Lemma prefix_app_long (p x b : string) :
  (String.length p <= String.length x)%nat ->
  String.prefix p (x ++ b) = String.prefix p x.
Proof.
  revert x. induction p as [|a p IH]; intros x Hl.
  - cbn [String.prefix]. now destruct x, b.
  - destruct x as [|c x]; [cbn in Hl; lia|].
    cbn [String.prefix String.append].
    destruct (Ascii.ascii_dec a c); [|reflexivity].
    apply IH. cbn in Hl. lia.
Qed.

Lemma append_length (a b : string) :
  String.length (a ++ b) = (String.length a + String.length b)%nat.
Proof. induction a as [|c a IH]; cbn; [reflexivity | now rewrite IH]. Qed.

Lemma append_assoc (a b c : string) : ((a ++ b) ++ c = a ++ (b ++ c))%string.
Proof. induction a as [|x a IH]; cbn; [reflexivity | now rewrite IH]. Qed.

(** When the first occurrence of [needle] in [m ++ needle] is the one at the
    end, it is also the first one in [m ++ needle ++ b]. *)
Lemma find_app (needle m b : string) :
  Build.find needle (m ++ needle) = Some (String.length m) ->
  Build.find needle (m ++ needle ++ b) = Some (String.length m).
Proof.
  induction m as [|c m IH]; intros H.
  - cbn [String.append Build.find String.length] in *.
    destruct needle as [|a needle]; [now destruct b|].
    cbn [String.append Build.find].
    change (String a (needle ++ b)) with (String a needle ++ b)%string.
    now rewrite (prefix_app_same (String a needle) b).
  - cbn [String.append String.length] in *.
    cbn [Build.find] in H.
    destruct (String.prefix needle (String c (m ++ needle))) eqn:E;
      [discriminate|].
    cbn [Build.find].
    change (String c (m ++ needle ++ b)) with (String c m ++ (needle ++ b))%string.
    rewrite <- append_assoc.
    rewrite (prefix_app_long needle (String c m ++ needle) b)
      by (rewrite append_length; lia).
    cbn [String.append]. rewrite E.
    destruct (Build.find needle (m ++ needle)) as [k|] eqn:F; [|discriminate].
    cbn [option_map] in H. injection H as Hk. subst k.
    now rewrite (IH eq_refl).
Qed.

(** A text without any occurrence of the needle, followed by one that cannot
    complete one. *)
Lemma find_none_prefix (needle s : string) :
  Build.find needle s = None -> String.prefix needle s = false.
Proof.
  destruct s; cbn [Build.find]; destruct (String.prefix needle _); congruence.
Qed.

Lemma find_cons_none (needle : string) (c : Ascii.ascii) (s : string) :
  Build.find needle (String c s) = None ->
  String.prefix needle (String c s) = false /\ Build.find needle s = None.
Proof.
  cbn [Build.find]. destruct (String.prefix needle (String c s)); [discriminate|].
  destruct (Build.find needle s); [discriminate|]. now split.
Qed.

Lemma find_drop_none (needle : string) (k : nat) :
  forall s, Build.find needle s = None -> Build.find needle (Build.drop k s) = None.
Proof.
  induction k as [|k IH]; intros s H; [exact H|].
  destruct s as [|c s]; [exact H|]. cbn [Build.drop].
  apply IH. now apply find_cons_none in H.
Qed.

Lemma drop_app (x r : string) : Build.drop (String.length x) (x ++ r) = r.
Proof. induction x as [|c x IH]; [reflexivity | exact IH]. Qed.

Lemma replace_from_unfold (c : Ascii.ascii) (s : string) :
  Build.replace_from 0 (String c s) =
  if String.prefix "@internal" (String c s)
  then match Build.find "@end" (Build.drop 9 (String c s)) with
       | Some n => ("@lite" ++ Build.replace_from (8 + n + 4) s)%string
       | None => String c (Build.replace_from 0 s)
       end
  else String c (Build.replace_from 0 s).
Proof. reflexivity. Qed.

Lemma replace_from_skip (x b : string) :
  Build.replace_from (String.length x) (x ++ b) = Build.replace_from 0 b.
Proof. induction x as [|c x IH]; [reflexivity | exact IH]. Qed.

(** Nothing is replaced in a text without [@internal], nor in a text
    without [@end]. *)
Lemma replace_from_no_start (s : string) :
  Build.find "@internal" s = None -> Build.replace_from 0 s = s.
Proof.
  induction s as [|c s IH]; intros H; [reflexivity|].
  apply find_cons_none in H. destruct H as (P & F).
  rewrite replace_from_unfold, P. now rewrite (IH F).
Qed.

Lemma replace_from_no_end (s : string) :
  Build.find "@end" s = None -> Build.replace_from 0 s = s.
Proof.
  induction s as [|c s IH]; intros H; [reflexivity|].
  rewrite replace_from_unfold.
  rewrite (find_drop_none "@end" 9 _ H).
  apply find_cons_none in H. destruct H as (_ & F). rewrite (IH F).
  now destruct (String.prefix _ _).
Qed.

(** The scan keeps a text in which no match starts, up to the next
    [@internal]. *)
Lemma replace_from_keep (a r : string) :
  Build.find "@internal" (a ++ "@internal") = Some (String.length a) ->
  Build.replace_from 0 (a ++ "@internal" ++ r) =
  (a ++ Build.replace_from 0 ("@internal" ++ r))%string.
Proof.
  induction a as [|c a IH]; intros H; [reflexivity|].
  cbn [String.length] in H.
  change (String c a ++ "@internal")%string with (String c (a ++ "@internal")) in H.
  cbn [Build.find] in H.
  destruct (String.prefix "@internal" (String c (a ++ "@internal"))) eqn:E;
    [discriminate|].
  destruct (Build.find "@internal" (a ++ "@internal")) as [k|] eqn:F;
    [|discriminate].
  cbn [option_map] in H. injection H as Hk. subst k.
  change (String c a ++ "@internal" ++ r)%string
    with (String c (a ++ "@internal" ++ r)).
  rewrite replace_from_unfold.
  assert (P : String.prefix "@internal" (String c (a ++ "@internal" ++ r)) = false).
  { rewrite <- append_assoc.
    change (String c ((a ++ "@internal") ++ r))
      with (String c (a ++ "@internal") ++ r)%string.
    rewrite prefix_app_long; [exact E|].
    cbn [String.length]. rewrite append_length. cbn [String.length]. lia. }
  rewrite P. rewrite (IH eq_refl). reflexivity.
Qed.

(** At an [@internal] that an [@end] follows. *)
Lemma replace_from_marker (t : string) (n : nat) :
  Build.find "@end" t = Some n ->
  Build.replace_from 0 ("@internal" ++ t) =
  ("@lite" ++ Build.replace_from (8 + n + 4) ("internal" ++ t))%string.
Proof.
  intros H.
  pose proof (prefix_app_same "@internal" t) as P.
  cbn [String.append] in *. rewrite replace_from_unfold, P.
  cbn [Build.drop]. now rewrite H.
Qed.

(** [removeInternals] on a text that starts with a block: the text [a]
    before the block holds no [@internal], the text [m] inside it no [@end].
    The block is replaced by [@lite] and the scan goes on behind it. *)
Theorem removeInternals_block (a m b : string) :
  Build.find "@internal" (a ++ "@internal") = Some (String.length a) ->
  Build.find "@end" (m ++ "@end") = Some (String.length m) ->
  Build.removeInternals (a ++ "@internal" ++ m ++ "@end" ++ b) =
  (a ++ "@lite" ++ Build.removeInternals b)%string.
Proof.
  intros Ha Hm. unfold Build.removeInternals.
  rewrite (replace_from_keep a _ Ha). f_equal.
  rewrite (replace_from_marker _ _ (find_app "@end" m b Hm)).
  f_equal.
  replace (8 + String.length m + 4)%nat
    with (String.length ("internal" ++ m ++ "@end"))%string
    by (rewrite !append_length; cbn [String.length]; lia).
  rewrite <- (replace_from_skip ("internal" ++ m ++ "@end") b).
  now rewrite !append_assoc.
Qed.

Lemma removeInternals_block_witness :
  Build.removeInternals
    ("class A { /** @internal */ secret() {} /** @end */ open() {} }")%string =
  ("class A { /** @lite */ open() {} }")%string.
Proof.
  exact (removeInternals_block "class A { /** " " */ secret() {} /** "
           " */ open() {} }" eq_refl eq_refl).
Defined.

(** [removeInternals] returns its argument when it holds no [@internal], and
    also when it holds no [@end]: an [@internal] that no [@end] follows is
    kept. *)
Theorem removeInternals_unchanged (source : string) :
  Build.find "@internal" source = None \/ Build.find "@end" source = None ->
  Build.removeInternals source = source.
Proof.
  intros [H|H]; [now apply replace_from_no_start | now apply replace_from_no_end].
Qed.

Lemma removeInternals_unchanged_witness :
  Build.removeInternals "draw(); /** @internal */ never closed"%string =
  "draw(); /** @internal */ never closed"%string.
Proof.
  apply removeInternals_unchanged. right. reflexivity.
Defined.

(** ** The script: how it ends and what it leaves *)

Section ScriptProps.

Variable minify : string -> string -> option string.
Variable trim : string -> string.

Ltac run_script :=
  cbv -[Build.removeInternals minify trim String.append] in *.

(** Evaluate the script, looking up each file when its content is asked
    for. *)
Ltac look_up f :=
  repeat (run_script;
          match goal with
          | H : f ?p = _ |- context [f ?p] => rewrite H
          | |- context [match f ?p with _ => _ end] => destruct (f p) eqn:?
          | |- context [match minify ?x ?y with _ => _ end] =>
              destruct (minify x y) eqn:?
          end).

(** The process ends by an uncaught exception exactly when the main file is
    missing; otherwise it ends by [process.exit(1)] exactly when the minifier
    fails on the text and the preamble it is given, and completes when it
    succeeds.  So no call to the file system raises, the temporary file and
    the files to rename or unlink being there when they are touched, and the
    second test of the main file never fires. *)
Theorem build_ending (a : Build.args) (d : Build.fs) :
  fst (Build.script minify trim a d) =
  match Build.content d Build.MainFile with
  | None => Build.Uncaught
  | Some source =>
      match minify (Build.build_input a source) (Build.build_preamble trim a d) with
      | None => Build.Exit1
      | Some _ => Build.Completed
      end
  end.
Proof.
  destruct d as [f dd]. destruct a as [l k r].
  destruct l, k, r, dd; look_up f; reflexivity.
Qed.

(** When the minifier fails, the process ends by [process.exit(1)] having
    created [dist] and written nothing into it; after a lite build the
    temporary file holds the stripped text, whatever [--keep] says, in place
    of what a file of that name held before; every other file is as it
    was. *)
Theorem build_failure (a : Build.args) (d : Build.fs) (source : string) :
  Build.content d Build.MainFile = Some source ->
  minify (Build.build_input a source) (Build.build_preamble trim a d) = None ->
  exists d',
    Build.script minify trim a d = (Build.Exit1, d') /\
    Build.dist d' = true /\
    Build.content d' Build.TempLiteFile =
      (if Build.isLite a then Some (Build.removeInternals source)
       else Build.content d Build.TempLiteFile) /\
    forall p, p <> Build.TempLiteFile ->
      Build.content d' p = Build.content d p.
Proof.
  destruct d as [f dd]. destruct a as [l k r]. intros Hm Hfail.
  destruct l, k, r, dd; look_up f; try discriminate;
    (eexists; split; [reflexivity|]; split; [reflexivity|];
     split; [reflexivity|]; intros p Hp; destruct p; try reflexivity;
     congruence).
Qed.

(** When the minifier succeeds, the process completes with [dist] in place,
    the main file, the headers and the license as they were, and:
    without [--lite], the code in the min file and the license (if there is
    one) copied next to it, the other flags being ignored; with [--lite], the
    temporary file holding the stripped text if [--keep] is given and
    removed otherwise (also when it existed before the build), and either
    the code in the lite min file with the license next to it, or, with
    [--renameToMin], the code in the min file, the lite min file gone, and
    next to the min file the license, or else a lite license left by an
    earlier build, or else nothing. *)
Theorem build_success (a : Build.args) (d : Build.fs) (source code : string) :
  Build.content d Build.MainFile = Some source ->
  minify (Build.build_input a source) (Build.build_preamble trim a d) = Some code ->
  let license_or (old : option string) :=
    match Build.content d Build.License with
    | Some text => Some text
    | None => old
    end in
  exists d',
    Build.script minify trim a d = (Build.Completed, d') /\
    Build.dist d' = true /\
    Build.content d' Build.MainFile = Some source /\
    Build.content d' Build.HeaderMin = Build.content d Build.HeaderMin /\
    Build.content d' Build.HeaderLite = Build.content d Build.HeaderLite /\
    Build.content d' Build.License = Build.content d Build.License /\
    (Build.isLite a = false ->
     Build.content d' Build.MinFile = Some code /\
     Build.content d' Build.MinLicense =
       license_or (Build.content d Build.MinLicense) /\
     Build.content d' Build.TempLiteFile = Build.content d Build.TempLiteFile /\
     Build.content d' Build.LiteMinFile = Build.content d Build.LiteMinFile /\
     Build.content d' Build.LiteMinLicense = Build.content d Build.LiteMinLicense) /\
    (Build.isLite a = true ->
     Build.content d' Build.TempLiteFile =
       (if Build.keepTemp a then Some (Build.removeInternals source) else None) /\
     (Build.renameToMin a = false ->
      Build.content d' Build.LiteMinFile = Some code /\
      Build.content d' Build.LiteMinLicense =
        license_or (Build.content d Build.LiteMinLicense) /\
      Build.content d' Build.MinFile = Build.content d Build.MinFile /\
      Build.content d' Build.MinLicense = Build.content d Build.MinLicense) /\
     (Build.renameToMin a = true ->
      Build.content d' Build.MinFile = Some code /\
      Build.content d' Build.LiteMinFile = None /\
      Build.content d' Build.MinLicense =
        license_or (Build.content d Build.LiteMinLicense) /\
      Build.content d' Build.LiteMinLicense = None)).
Proof.
  destruct d as [f dd]. destruct a as [l k r]. intros Hm Hok license_or.
  unfold license_or. clear license_or.
  destruct l, k, r, dd; look_up f; try discriminate;
    (eexists; split; [reflexivity|]);
    run_script;
    repeat match goal with
           | H : f ?p = _ |- context [f ?p] => rewrite H
           end;
    repeat split; intros; try discriminate; try reflexivity; try congruence.
Qed.

End ScriptProps.

Lemma build_failure_witness :
  exists d',
    Build.script Build.failing_minify (fun h => h)
      (Build.mkArgs true false false) Build.project = (Build.Exit1, d') /\
    Build.dist d' = true /\
    Build.content d' Build.TempLiteFile = Some "a /* @lite */ c"%string /\
    Build.content d' Build.LiteMinFile = None.
Proof.
  destruct (build_failure Build.failing_minify (fun h => h)
              (Build.mkArgs true false false) Build.project
              "a /* @internal */ b /* @end */ c" eq_refl eq_refl)
    as (d' & Hrun & Hd & Ht & Hrest).
  exists d'. split; [exact Hrun|]. split; [exact Hd|]. split; [exact Ht|].
  now rewrite Hrest.
Defined.

Lemma build_success_witness :
  exists d',
    Build.script Build.join_minify (fun h => h)
      (Build.mkArgs true false true) Build.project = (Build.Completed, d') /\
    Build.content d' Build.TempLiteFile = None /\
    Build.content d' Build.MinFile = Some "a /* @lite */ c"%string /\
    Build.content d' Build.MinLicense = Some "MIT"%string /\
    Build.content d' Build.LiteMinFile = None.
Proof.
  destruct (build_success Build.join_minify (fun h => h)
              (Build.mkArgs true false true) Build.project
              "a /* @internal */ b /* @end */ c" "a /* @lite */ c"
              eq_refl eq_refl)
    as (d' & Hrun & _ & _ & _ & _ & _ & _ & Hlite).
  destruct (Hlite eq_refl) as (Ht & _ & Hren).
  destruct (Hren eq_refl) as (A & B & C & _).
  exists d'. split; [exact Hrun|]. split; [exact Ht|]. split; [exact A|].
  split; [exact C | exact B].
Defined.

(** ** Texture overlay: no clean-up when a host call raises *)

Lemma tiles_appended_refl (s : state) : tiles_appended s s.
Proof.
  split; [apply same_but_trace_refl|]. exists []. now rewrite app_nil_r.
Qed.

Lemma tiles_appended_trans (s1 s2 s3 : state) :
  tiles_appended s1 s2 -> tiles_appended s2 s3 -> tiles_appended s1 s3.
Proof.
  intros (F1 & l1 & T1 & P1) (F2 & l2 & T2 & P2).
  split; [now apply same_but_trace_trans with s2|].
  exists (l1 ++ l2). rewrite T2, T1, app_assoc. split; [reflexivity|].
  rewrite forallb_app, P1, P2. reflexivity.
Qed.

Lemma tiles_bind {A B} (m : M A) (k : A -> M B) (s : state) :
  ended (tiles_appended s) (m s) ->
  (forall a s', ended (tiles_appended s') (k a s')) ->
  ended (tiles_appended s) (bind m k s).
Proof.
  intros Hm Hk. apply ended_bind; [exact Hm|].
  intros a s' E. rewrite E in Hm. cbn [ended] in Hm.
  eapply ended_weaken; [|apply Hk].
  intros s2. now apply tiles_appended_trans.
Qed.

Lemma call_tile (e : event) (s : state) :
  tile_call e = true -> ended (tiles_appended s) (call e s).
Proof.
  intros He. pose proof (call_frame e s) as F.
  unfold call in *. destruct (raises _ _ _); cbn [ended] in *.
  - apply tiles_appended_refl.
  - split; [exact F|]. exists [e]. cbn [host trace forallb].
    now rewrite He.
Qed.

Lemma draw_tile_tiles (dr : receiver) (tex : texture) (reflect : bool)
    (tW tH : number) (c : cursor) (s : state) :
  ended (tiles_appended s) (draw_tile dr tex reflect tW tH c s).
Proof.
  unfold draw_tile.
  destruct reflect; [|now apply call_tile].
  apply tiles_bind; [now apply call_tile|]. intros _ s1.
  apply tiles_bind; [|intros; now apply call_tile].
  destruct (tRowFirst c), (tColFirst c);
    first [ now apply call_tile
          | apply tiles_bind; [now apply call_tile | intros; now apply call_tile] ].
Qed.

Lemma inner_while_tiles (dr : receiver) (tex : texture) (reflect : bool)
    (W tW tH : number) (fuel : nat) :
  forall (c : cursor) (s : state),
    ended (tiles_appended s) (inner_while dr tex reflect W tW tH fuel c s).
Proof.
  induction fuel as [|fuel IH]; intros c s; cbn [inner_while].
  - exact I.
  - destruct (ltb (tX c) W); [|apply tiles_appended_refl].
    apply tiles_bind; [apply draw_tile_tiles|]. intros _ s1.
    destruct (geb (fadd (tX c) tW) W); [|apply IH].
    apply tiles_bind; [apply tiles_appended_refl|].
    intros; apply tiles_appended_refl.
Qed.

Lemma outer_while_tiles (dr : receiver) (tex : texture) (reflect : bool)
    (W H tW tH : number) (fuel : nat) :
  forall (c : cursor) (s : state),
    ended (tiles_appended s) (outer_while dr tex reflect W H tW tH fuel c s).
Proof.
  induction fuel as [|fuel IH]; intros c s; cbn [outer_while].
  - exact I.
  - destruct (ltb (tY c) H); [|apply tiles_appended_refl].
    apply tiles_bind; [apply inner_while_tiles|]. intros; apply IH.
Qed.

Lemma overlay_animate_trace (en : bool) (atF amt : number) (s : state) :
  finished (fun s' => trace (host s') = trace (host s) /\
                      instance (self s') = instance (self s))
    (overlay_animate en atF amt s).
Proof.
  unfold overlay_animate. destruct s as [o w]. destruct en.
  - unfold bind, set_self, get_self. cbn [self host textureOverlay_frameCount with_overlay].
    destruct (geb _ _).
    + unfold call_random. cbn [self host random with_overlay].
      destruct (random o) as [src|] eqn:Hs.
      * cbn [self host random with_overlay draws]. rewrite Hs.
        cbn [finished self host]. now split.
      * cbn [finished self host]. now split.
    + cbn [finished ret self host]. now split.
  - cbn [finished ret]. now split.
Qed.

Lemma call_ret_trace (e : event) (s s' : state) :
  call e s = Ret tt s' ->
  trace (host s') = trace (host s) ++ [e] /\ same_but_trace s s'.
Proof.
  intros H. pose proof (call_frame e s) as F. rewrite H in F.
  split; [|exact F]. unfold call in H.
  destruct (raises _ _ _); [discriminate|]. now injection H as <-.
Qed.

(** [textureOverlay] restores nothing when it raises.  If a call raises,
    then either nothing was traced (the provider is not configured, or
    setting the blend mode raised), or the blend mode was set to the
    requested mode and, after it, only tile calls were made: the mode is
    left as set and not reset to [BLEND]; the one exception is a graphics
    buffer whose [reset] raises, after the mode was reset. *)
Theorem textureOverlay_no_cleanup (fuel : nat) (tex : texture)
    (config : option overlayConfig) (pg : option pgRef) (s s' : state)
    (e : error) :
  textureOverlay fuel tex config pg s = Throw e s' ->
  let c := resolve pg (self s) in
  let mode := overlay_mode config in
  trace (host s') = trace (host s) \/
  exists tiles,
    forallb tile_call tiles = true /\
    (trace (host s') = trace (host s) ++ EvBlendMode c mode :: tiles \/
     isGraphicsBuffer pg = true /\
     trace (host s') =
       trace (host s) ++ EvBlendMode c mode :: tiles ++ [EvBlendMode c BLEND]).
Proof.
  intros Hrun c mode. rewrite textureOverlay_eq in Hrun. unfold bind at 1 in Hrun.
  pose proof (overlay_animate_trace (animate_enabled config) (animateAtFrame config)
                (animateAmount config (overlay_width pg s) (overlay_height pg s)) s)
    as Ha.
  destruct (overlay_animate _ _ _ s) as [[] s1|e1 s1|]; cbn [finished] in Ha;
    [| injection Hrun as _ <-; left; apply Ha | contradiction].
  destruct Ha as (Ht1 & Hi1).
  assert (Hc : resolve pg (self s1) = c).
  { unfold c, resolve, instance_truthy. now rewrite Hi1. }
  rewrite overlay_draw_eq, Hc in Hrun. fold mode in Hrun.
  unfold bind at 1 in Hrun.
  destruct (call (EvBlendMode c mode) s1) as [[] s2|e2 s2|] eqn:E2;
    [| apply call_throw in E2; injection Hrun as _ <-; left; congruence
     | discriminate].
  apply call_ret_trace in E2. destruct E2 as (Ht2 & _).
  right. unfold bind at 1 in Hrun.
  match type of Hrun with
  | context [outer_while ?dr ?tx ?rf ?W ?H ?tW ?tH fuel ?st s2] =>
      pose proof (outer_while_tiles dr tx rf W H tW tH fuel st s2) as Ho;
      destruct (outer_while dr tx rf W H tW tH fuel st s2) as [c3 s3|e3 s3|]
  end; cbn [ended] in Ho; [| |discriminate].
  - destruct Ho as (_ & tiles & Ht3 & Hall).
    exists tiles. split; [exact Hall|].
    unfold bind at 1 in Hrun.
    destruct (call (EvBlendMode c BLEND) s3) as [[] s4|e4 s4|] eqn:E4;
      [| apply call_throw in E4; injection Hrun as _ <-; left;
         rewrite E4, Ht3, Ht2, Ht1, <- app_assoc; reflexivity
       | discriminate].
    apply call_ret_trace in E4. destruct E4 as (Ht4 & _).
    destruct (isGraphicsBuffer pg); [|discriminate].
    apply call_throw in Hrun. subst s'. right. split; [reflexivity|].
    rewrite Ht4, Ht3, Ht2, Ht1, <- !app_assoc. reflexivity.
  - injection Hrun as _ <-. destruct Ho as (_ & tiles & Ht3 & Hall).
    exists tiles. split; [exact Hall|]. left.
    rewrite Ht3, Ht2, Ht1, <- app_assoc. reflexivity.
Qed.

Lemma textureOverlay_no_cleanup_witness :
  exists s',
    textureOverlay 6 texture10 reflecting None sketch25_no_image
      = Throw HostError s' /\
    trace (host s') = [EvBlendMode OnGlobal MULTIPLY; EvPush OnGlobal] /\
    (trace (host s') = trace (host sketch25_no_image) \/
     exists tiles,
       forallb tile_call tiles = true /\
       (trace (host s') =
          trace (host sketch25_no_image)
            ++ EvBlendMode OnGlobal MULTIPLY :: tiles \/
        isGraphicsBuffer None = true /\
        trace (host s') =
          trace (host sketch25_no_image)
            ++ EvBlendMode OnGlobal MULTIPLY :: tiles
            ++ [EvBlendMode OnGlobal BLEND])).
Proof.
  set (s' := mkState (self sketch25_no_image)
               (mkWorld (fun _ => canvas25) 0
                  [EvBlendMode OnGlobal MULTIPLY; EvPush OnGlobal]
                  no_image half half)).
  assert (E : textureOverlay 6 texture10 reflecting None sketch25_no_image
              = Throw HostError s') by (vm_compute; reflexivity).
  exists s'. split; [exact E|]. split; [reflexivity|].
  exact (textureOverlay_no_cleanup 6 texture10 reflecting None
           sketch25_no_image s' HostError E).
Defined.

(** ** Grain with a negative amount *)

(** Both grain functions accept a negative amount [-b]: the bounds are then
    prepared in reverse order and every updated channel still moves by an
    integer and is clamped.  For an amount of the format not below [-2^51]
    the integer lies between [-ceil(b)] and [ceil(b)] in float mode, and
    between [1 - ceil(b)] and [ceil(b)] in integer mode, both ends
    included; the channels of one pixel can move by different integers. *)
Theorem grain_negative_amount (s : state) (amount : number)
    (shouldUpdateAlpha : option bool) (pg : option pgRef) (src : source)
    (m : randomMethod) :
  random (self s) = Some src ->
  randomMinMax (self s) = Some m ->
  mode_consistent (self s) ->
  is_double amount = true ->
  - inject_Z (2 ^ 51) <= amount < 0 ->
  (forall k, 0 <= src k < 1) ->
  let c := resolve pg (self s) in
  raises (host s) (trace (host s)) (EvLoadPixels c) = false ->
  raises (host s) (trace (host s) ++ [EvLoadPixels c]) (EvUpdatePixels c) = false ->
  let upd := match shouldUpdateAlpha with Some true => true | _ => false end in
  let px := pixels_of c s in
  (exists s',
     applyMonochromaticGrain amount shouldUpdateAlpha pg s = Ret tt s' /\
     List.length (pixels_of c s') = List.length px /\
     forall i, (i < List.length px)%nat ->
       exists kr kg kb ka : Z,
         offset_range_negative m (- amount) kr /\
         offset_range_negative m (- amount) kg /\
         offset_range_negative m (- amount) kb /\
         offset_range_negative m (- amount) ka /\
         moved_by upd kr kg kb ka (nth i px 0%Z) (nth i (pixels_of c s') 0%Z)) /\
  (exists s',
     applyChromaticGrain amount shouldUpdateAlpha pg s = Ret tt s' /\
     List.length (pixels_of c s') = List.length px /\
     forall i, (i < List.length px)%nat ->
       exists kr kg kb ka : Z,
         offset_range_negative m (- amount) kr /\
         offset_range_negative m (- amount) kg /\
         offset_range_negative m (- amount) kb /\
         offset_range_negative m (- amount) ka /\
         moved_by upd kr kg kb ka (nth i px 0%Z) (nth i (pixels_of c s') 0%Z)).
Proof.
  intros Hs Hm Hc Hda [Ha1 Ha0] Hsrc c Hload Hupd upd px.
  change upd with (to_bool shouldUpdateAlpha). clear upd.
  set (upd := to_bool shouldUpdateAlpha).
  assert (Hch : forall r v, 0 <= r < 1 -> (0 <= v <= 255)%Z ->
            exists k : Z, offset_range_negative m (- amount) k /\
              shifted v (draw_value m
                (fst (bounds_in (randomMode (self s)) (- amount) amount))
                (snd (bounds_in (randomMode (self s)) (- amount) amount)) r)
              = clampZ (v + k)).
  { intros r v Hr Hv.
    apply (offset_channel_negative (self s) m amount r v); assumption. }
  split.
  - destruct (monochromatic_run s amount shouldUpdateAlpha pg src m Hs Hm Hload Hupd)
      as (s' & Hrun & _ & _ & _ & Hpx & _).
    fold c upd px in Hpx.
    exists s'. split; [exact Hrun|]. rewrite Hpx.
    split; [apply mapi_from_length|].
    intros i Hi. rewrite mapi_from_nth by exact Hi.
    apply monochromatic_word_moved. intros v Hv.
    apply Hch; [apply Hsrc | exact Hv].
  - destruct (chromatic_run s amount shouldUpdateAlpha pg src m Hs Hm Hload Hupd)
      as (s' & Hrun & _ & _ & _ & Hpx & _).
    fold c upd px in Hpx.
    exists s'. split; [exact Hrun|]. rewrite Hpx.
    split; [apply mapi_from_length|].
    intros i Hi. rewrite mapi_from_nth by exact Hi. cbv zeta.
    apply chromatic_word_moved. intros v d Hin Hv. cbn in Hin.
    destruct Hin as [<- | [<- | [<- | [<- | []]]]];
      (apply Hch; [apply Hsrc | exact Hv]).
Qed.

Lemma grain_negative_amount_witness :
  exists s',
    applyMonochromaticGrain (- (5 # 1)) None None grain_demo = Ret tt s' /\
    exists kr kg kb ka : Z,
      (-4 <= kr <= 5)%Z /\ (-4 <= kg <= 5)%Z /\ (-4 <= kb <= 5)%Z /\
      moved_by false kr kg kb ka (rgba 10 20 30 40)
        (nth 1 (pixels_of OnGlobal s') 0%Z).
Proof.
  destruct (grain_negative_amount grain_demo (- (5 # 1)) None None chroma_source
              randomInt_method eq_refl eq_refl)
    as ((s' & Hrun & _ & Hpix) & _).
  - right. split; reflexivity.
  - reflexivity.
  - split; [vm_compute; discriminate | reflexivity].
  - apply chroma_source_unit.
  - reflexivity.
  - reflexivity.
  - exists s'. split; [exact Hrun|].
    destruct (Hpix 1%nat) as (kr & kg & kb & ka & Rr & Rg & Rb & _ & Hmv);
      [cbn; lia|].
    exists kr, kg, kb, ka. cbn in Rr, Rg, Rb.
    split; [exact Rr|]. split; [exact Rg|]. split; [exact Rb|]. exact Hmv.
Defined.

(** ** Intervals below two *)

Lemma round_below_two (f : number) : f < 3 # 2 -> Math_round f <= 1.
Proof.
  intros Hf. unfold Math_round.
  assert (H : inject_Z (Qfloor (f + (1 # 2))) < inject_Z 2).
  { eapply Qle_lt_trans; [apply Qfloor_le|]. change (inject_Z 2) with 2. lra. }
  rewrite <- Zlt_Qlt in H. change 1 with (inject_Z 1). rewrite <- Zle_Qle. lia.
Qed.

(** An [atFrame] below 1.5 other than 0 (a negative one included) rounds to
    an interval of at most 1: from a counter that is not negative every call
    of [textureAnimate] then repositions the element, and every call of
    [textureOverlay] with that [animate.atFrame] redraws the offsets, each
    taking two values from the source and leaving the counter at 0. *)
Theorem interval_below_two (f : number) (a : option number) (src : source)
    (s : state) :
  random (self s) = Some src ->
  truthy f = true ->
  f < 3 # 2 ->
  ((0 <= textureAnimate_frameCount (self s))%Z ->
   forall el, exists x y s',
     textureAnimate el (at_frame f a) s = Ret (style_write el x y) s' /\
     textureAnimate_frameCount (self s') = 0%Z /\
     draws (host s') = S (S (draws (host s)))) /\
  ((0 <= textureOverlay_frameCount (self s))%Z ->
   forall fuel tex pg,
     ended (fun s' =>
              textureOverlay_frameCount (self s') = 0%Z /\
              draws (host s') = S (S (draws (host s))))
       (textureOverlay fuel tex (overlay_at_frame f a) pg s)).
Proof.
  intros Hs Ht Hf. pose proof (round_below_two f Hf) as Hr.
  split; intros Hc.
  - intros el. do 3 eexists.
    rewrite (textureAnimate_step el (at_frame f a) src s Hs). cbv zeta.
    assert (Hg : geb (inject_Z (textureAnimate_frameCount (self s) + 1))
                   (animate_atFrame (at_frame f a)) = true).
    { apply geb_le. unfold animate_atFrame, at_frame. cbn [atFrame]. rewrite Ht.
      eapply Qle_trans; [exact Hr|]. change 1 with (inject_Z 1).
      rewrite <- Zle_Qle. lia. }
    rewrite Hg. split; [reflexivity|]. split; reflexivity.
  - intros fuel tex pg.
    eapply ended_weaken;
      [|apply (textureOverlay_ended fuel tex (overlay_at_frame f a) pg src s Hs)].
    cbv beta. intros s' (Hself & _ & Hd & _).
    assert (Hg : geb (inject_Z (textureOverlay_frameCount (self s) + 1))
                   (animateAtFrame (overlay_at_frame f a)) = true).
    { apply geb_le. unfold animateAtFrame, overlay_at_frame, at_frame.
      cbn [cfg_animate atFrame]. rewrite Ht.
      eapply Qle_trans; [exact Hr|]. change 1 with (inject_Z 1).
      rewrite <- Zle_Qle. lia. }
    rewrite Hself, Hd. unfold animated.
    change (animate_enabled (overlay_at_frame f a)) with true.
    cbn [andb]. rewrite Hg. split; reflexivity.
Qed.

Lemma interval_below_two_witness :
  exists x y s',
    textureAnimate HTMLElement (at_frame (- (7 # 1)) None) sketch25
      = Ret (style_write HTMLElement x y) s' /\
    textureAnimate_frameCount (self s') = 0%Z /\
    draws (host s') = 2%nat.
Proof.
  destruct (interval_below_two (- (7 # 1)) None half sketch25 eq_refl eq_refl
              eq_refl) as (A & _).
  exact (A (Z.le_refl 0) HTMLElement).
Defined.

(** ** The grain functions commit last *)

Lemma silent_refl (s : state) : silent s s.
Proof. now repeat split. Qed.

Lemma silent_trans (s1 s2 s3 : state) : silent s1 s2 -> silent s2 s3 -> silent s1 s3.
Proof. intros (A & B & C) (D & E & F). repeat split; congruence. Qed.

Ltac silent_step := apply finished_bind; [apply silent_trans | |].

Lemma call_random_silent (s : state) : finished (silent s) (call_random s).
Proof.
  unfold call_random. destruct (random (self s)); cbn [finished];
    now repeat split.
Qed.

Lemma call_randomMinMax_silent (min max : number) (s : state) :
  finished (silent s) (call_randomMinMax min max s).
Proof.
  unfold call_randomMinMax, bind at 1, get_self. cbv beta iota.
  destruct (randomMinMax (self s)) as [[|]|].
  - unfold randomInt, bind. pose proof (call_random_silent s) as H.
    destruct (call_random s); exact H.
  - unfold randomFloat, bind. pose proof (call_random_silent s) as H.
    destruct (call_random s); exact H.
  - apply silent_refl.
Qed.

Lemma write_pixel_silent (i : nat) (v : number) (s : state) :
  finished (silent s) (write_pixel i v s).
Proof.
  unfold write_pixel. destruct (pixels (self s)); cbn [finished];
    now repeat split.
Qed.

Lemma monochromatic_body_silent (min max : number) (upd : bool) (i : nat)
    (s : state) :
  finished (silent s) (monochromatic_body min max upd i s).
Proof.
  unfold monochromatic_body.
  silent_step; [apply call_randomMinMax_silent|].
  intros offset s1 _ _.
  unfold bind. pose proof (read_pixel_same i s1) as Hr.
  destruct (read_pixel i s1) as [p s2|e s2|]; [| |contradiction]; subst s2.
  - apply write_pixel_silent.
  - apply silent_refl.
Qed.

Lemma chromatic_body_silent (min max : number) (upd : bool) (i : nat)
    (s : state) :
  finished (silent s) (chromatic_body min max upd i s).
Proof.
  unfold chromatic_body.
  unfold bind at 1. pose proof (read_pixel_same i s) as Hr.
  destruct (read_pixel i s) as [p s0|e s0|]; [| |contradiction]; subst s0;
    [|apply silent_refl].
  silent_step; [apply call_randomMinMax_silent|]. intros dr s1 _ _.
  silent_step; [apply call_randomMinMax_silent|]. intros dg s2 _ _.
  silent_step; [apply call_randomMinMax_silent|]. intros db s3 _ _.
  destruct upd; [|apply write_pixel_silent].
  silent_step; [apply call_randomMinMax_silent|]. intros da s4 _ _.
  apply write_pixel_silent.
Qed.

Lemma for_loop_silent (body : nat -> M unit) :
  (forall i s, finished (silent s) (body i s)) ->
  forall (n i : nat) (s : state), finished (silent s) (for_loop body i n s).
Proof.
  intros Hb. induction n as [|n IH]; intros i s; cbn [for_loop].
  - apply silent_refl.
  - silent_step; [apply Hb|]. intros [] s1 _ _. apply IH.
Qed.

Lemma grain_trace (body : number -> number -> nat -> M unit)
    (amount : number) (pg : option pgRef) (s : state) :
  (forall min max i s0, finished (silent s0) (body min max i s0)) ->
  let c := resolve pg (self s) in
  match (loadPixels pg ;;
         bounds <- prepareRandomBounds (- amount) amount ;;
         let '(min, max) := bounds in
         pixelsLength <- pixels_length ;;
         for_loop (body min max) 0 pixelsLength ;;
         updatePixels pg) s with
  | Ret _ s' => trace (host s') = trace (host s) ++ [EvLoadPixels c; EvUpdatePixels c]
  | Throw e s' =>
      (e = HostError /\ trace (host s') = trace (host s)) \/
      trace (host s') = trace (host s) ++ [EvLoadPixels c]
  | Timeout => False
  end.
Proof.
  intros Hb c. unfold bind at 1.
  unfold loadPixels, bind at 1, get_self at 1. cbv beta iota. fold c.
  unfold bind at 1.
  destruct (call (EvLoadPixels c) s) as [[] s1|e1 s1|] eqn:E1;
    [| left; pose proof E1 as E1'; apply call_throw in E1; subst s1;
       split; [|reflexivity];
       unfold call in E1'; destruct (raises _ _ _); [now injection E1' | discriminate]
     | now apply call_not_timeout in E1].
  apply call_ret_trace in E1. destruct E1 as (Ht1 & F1).
  unfold bind at 1, get_host at 1, setPixelsData, set_self. cbv beta iota.
  match goal with
  | |- context [bind (prepareRandomBounds _ _) _ ?st] => set (s2 := st)
  end.
  assert (Ht2 : trace (host s2) = trace (host s) ++ [EvLoadPixels c]) by exact Ht1.
  assert (Hc2 : resolve pg (self s2) = c).
  { unfold c, s2, resolve, instance_truthy. cbn [self with_pixelsData instance].
    destruct F1 as (-> & _). reflexivity. }
  unfold bind at 1. rewrite prepareRandomBounds_eq.
  destruct (bounds_in _ _ _) as [min max].
  unfold bind at 1. rewrite (pixels_length_eq c) by reflexivity.
  unfold bind at 1.
  pose proof (for_loop_silent (body min max) (Hb min max)
                (List.length (pixels_of c s2)) 0%nat s2) as Hl.
  destruct (for_loop _ _ _ s2) as [[] s3|e3 s3|]; cbn [finished] in Hl;
    [| right; destruct Hl as (-> & _); exact Ht2 | contradiction].
  destruct Hl as (Ht3 & _ & Hs3).
  unfold updatePixels, bind, get_self. rewrite Hs3, Hc2.
  destruct (call (EvUpdatePixels c) s3) as [[] s4|e4 s4|] eqn:E4.
  - apply call_ret_trace in E4. destruct E4 as (Ht4 & _).
    rewrite Ht4, Ht3, Ht2, <- app_assoc. reflexivity.
  - apply call_throw in E4. subst s4. right. now rewrite Ht3.
  - now apply call_not_timeout in E4.
Qed.

(** However a grain function ends, it has loaded the pixels of its target
    at most once, first, and committed them at most once, last: a call that
    returns has traced the load and then the commit; a call that raises has
    traced nothing (the load raised) or the load only, so pixels changed in
    the buffer before a failure are never committed by that call. *)
Theorem grain_commits_last (amount : number) (shouldUpdateAlpha : option bool)
    (pg : option pgRef) (s : state) :
  let c := resolve pg (self s) in
  let shape (r : outcome unit) :=
    match r with
    | Ret _ s' =>
        trace (host s') = trace (host s) ++ [EvLoadPixels c; EvUpdatePixels c]
    | Throw e s' =>
        (e = HostError /\ trace (host s') = trace (host s)) \/
        trace (host s') = trace (host s) ++ [EvLoadPixels c]
    | Timeout => False
    end in
  shape (applyMonochromaticGrain amount shouldUpdateAlpha pg s) /\
  shape (applyChromaticGrain amount shouldUpdateAlpha pg s).
Proof.
  intros c shape. split.
  - apply (grain_trace
             (fun min max => monochromatic_body min max (to_bool shouldUpdateAlpha))).
    intros; apply monochromatic_body_silent.
  - apply (grain_trace
             (fun min max => chromatic_body min max (to_bool shouldUpdateAlpha))).
    intros; apply chromatic_body_silent.
Qed.
